(** * Recursive planning of CTEs and subqueries (recursive_planning.c)

    A shallow embedding of the recursive planner of
    src/backend/distributed/planner/recursive_planning.c.

    The query tree is an inductive tree.  A [Query] object carries the
    address it was allocated at, so that "the same object" and "a copy" can
    be told apart; code that writes through a [Query *] keeps that address
    and replaces the fields.  The planning context and the allocation
    frontier are threaded through a small state-and-error monad.  Functions
    of PostgreSQL and of other files of the extension are the fields of the
    [Collaborators] class. *)

From Stdlib Require Import List ZArith String Ascii Lia Bool.
From Stdlib Require Import DecimalString DecimalN.
Import ListNotations.

#[local] Set Warnings "-register-all".
#[local] Open Scope string_scope.
#[local] Open Scope list_scope.
#[local] Open Scope Z_scope.

(* ------------------------------------------------------------------ *)
(** ** Node tags and scalar types *)

Definition Oid := Z.
Definition addr := nat.
Bind Scope nat_scope with addr.

Inductive RTEKind :=
| RTE_RELATION | RTE_SUBQUERY | RTE_JOIN | RTE_FUNCTION | RTE_TABLEFUNC
| RTE_VALUES | RTE_CTE | RTE_NAMEDTUPLESTORE | RTE_RESULT.

Inductive CmdType :=
| CMD_UNKNOWN | CMD_SELECT | CMD_UPDATE | CMD_INSERT | CMD_DELETE
| CMD_MERGE | CMD_UTILITY | CMD_NOTHING.

Inductive JoinType :=
| JOIN_INNER | JOIN_LEFT | JOIN_FULL | JOIN_RIGHT | JOIN_SEMI | JOIN_ANTI
| JOIN_RIGHT_ANTI | JOIN_UNIQUE_OUTER | JOIN_UNIQUE_INNER.

Inductive SetOperation := SETOP_NONE | SETOP_UNION | SETOP_INTERSECT | SETOP_EXCEPT.

Inductive RelKind :=
| RELKIND_RELATION | RELKIND_VIEW | RELKIND_MATVIEW | RELKIND_PARTITIONED_TABLE
| RELKIND_FOREIGN_TABLE | RELKIND_OTHER.

Definition RTEKind_eqb (a b : RTEKind) : bool :=
  match a, b with
  | RTE_RELATION, RTE_RELATION | RTE_SUBQUERY, RTE_SUBQUERY | RTE_JOIN, RTE_JOIN
  | RTE_FUNCTION, RTE_FUNCTION | RTE_TABLEFUNC, RTE_TABLEFUNC | RTE_VALUES, RTE_VALUES
  | RTE_CTE, RTE_CTE | RTE_NAMEDTUPLESTORE, RTE_NAMEDTUPLESTORE
  | RTE_RESULT, RTE_RESULT => true
  | _, _ => false
  end.

Definition CmdType_eqb (a b : CmdType) : bool :=
  match a, b with
  | CMD_UNKNOWN, CMD_UNKNOWN | CMD_SELECT, CMD_SELECT | CMD_UPDATE, CMD_UPDATE
  | CMD_INSERT, CMD_INSERT | CMD_DELETE, CMD_DELETE | CMD_MERGE, CMD_MERGE
  | CMD_UTILITY, CMD_UTILITY | CMD_NOTHING, CMD_NOTHING => true
  | _, _ => false
  end.

(** The value of a [Const]: the planner only builds text constants (result
    ids) and oid constants (copy formats); anything else is opaque. *)
Inductive Datum :=
| TextDatum (s : string)
| OidDatum (o : Oid)
| OpaqueDatum (d : Z).

(** A [char *] that may be NULL is an [option string]. *)
Record Alias := mkAlias { aliasname : string; colnames : list (option string) }.

(** The scalar fields of a [RangeTblEntry]. *)
Record RteData := mkRteData {
  rtekind : RTEKind;
  relid : Oid;
  relkind : RelKind;
  inh : bool;
  perminfoindex : Z;
  funcordinality : bool;
  ctename : option string;
  ctelevelsup : Z;
  lateral : bool;
  alias : option Alias;
  eref : option Alias;
  inFromCl : bool
}.

(* ------------------------------------------------------------------ *)
(** ** The query tree *)

Inductive Node : Type :=
| T_Var (varno varattno : Z) (vartype : Oid) (vartypmod : Z) (varcollid : Oid)
        (varlevelsup : Z)
| T_Const (consttype : Oid) (constlen : Z) (constvalue : Datum) (constbyval : bool)
| T_Aggref (agglevelsup : Z) (args : list Node)
| T_GroupingFunc (agglevelsup : Z) (args : list Node)
| T_PlaceHolderVar (phlevelsup : Z) (phexpr : Node)
| T_FuncExpr (funcid funcresulttype : Oid) (funcretset : bool) (args : list Node)
| T_OpExpr (opno : Oid) (args : list Node)
| T_SubLink (testexpr : option Node) (subselect : Query)
| T_RangeTblRef (rtindex : Z)
| T_JoinExpr (jointype : JoinType) (larg rarg : Node) (quals : option Node)
| T_FromExpr (fromlist : list Node) (quals : option Node)
| T_SetOperationStmt (op : SetOperation) (larg rarg : Node)
with Query : Type :=
| mkQuery (q_addr : addr) (commandType : CmdType) (hasRecursive : bool)
          (cteList : list CommonTableExpr) (rtable : list RangeTblEntry)
          (jointree : option Node) (targetList : list TargetEntry)
          (returningList : list TargetEntry) (havingQual : option Node)
          (setOperations : option Node)
with RangeTblEntry : Type :=
| mkRTE (data : RteData) (subquery : option Query) (functions : list RangeTblFunction)
with TargetEntry : Type :=
| mkTargetEntry (expr : Node) (resno : Z) (resname : option string) (resjunk : bool)
with CommonTableExpr : Type :=
| mkCTE (ctename : string) (aliascolnames : list string) (ctequery : Query)
        (cterefcount : Z)
with RangeTblFunction : Type :=
| mkRangeTblFunction (funcexpr : Node) (funccolcount : Z)
                     (funccolnames : list (option string))
                     (funccoltypes funccoltypmods funccolcollations : list Z).

(** Field access. *)
Definition q_addr (q : Query) : addr :=
  let 'mkQuery a _ _ _ _ _ _ _ _ _ := q in a.
Definition commandType (q : Query) : CmdType :=
  let 'mkQuery _ c _ _ _ _ _ _ _ _ := q in c.
Definition hasRecursive (q : Query) : bool :=
  let 'mkQuery _ _ r _ _ _ _ _ _ _ := q in r.
Definition cteList (q : Query) : list CommonTableExpr :=
  let 'mkQuery _ _ _ c _ _ _ _ _ _ := q in c.
Definition rtable (q : Query) : list RangeTblEntry :=
  let 'mkQuery _ _ _ _ r _ _ _ _ _ := q in r.
Definition jointree (q : Query) : option Node :=
  let 'mkQuery _ _ _ _ _ j _ _ _ _ := q in j.
Definition targetList (q : Query) : list TargetEntry :=
  let 'mkQuery _ _ _ _ _ _ t _ _ _ := q in t.
Definition returningList (q : Query) : list TargetEntry :=
  let 'mkQuery _ _ _ _ _ _ _ r _ _ := q in r.
Definition havingQual (q : Query) : option Node :=
  let 'mkQuery _ _ _ _ _ _ _ _ h _ := q in h.
Definition setOperations (q : Query) : option Node :=
  let 'mkQuery _ _ _ _ _ _ _ _ _ s := q in s.

Definition rte_data (r : RangeTblEntry) : RteData := let 'mkRTE d _ _ := r in d.
Definition subquery (r : RangeTblEntry) : option Query := let 'mkRTE _ s _ := r in s.
Definition functions (r : RangeTblEntry) : list RangeTblFunction :=
  let 'mkRTE _ _ f := r in f.

Definition te_expr (t : TargetEntry) : Node := let 'mkTargetEntry e _ _ _ := t in e.
Definition te_resno (t : TargetEntry) : Z := let 'mkTargetEntry _ n _ _ := t in n.
Definition te_resname (t : TargetEntry) : option string :=
  let 'mkTargetEntry _ _ n _ := t in n.
Definition te_resjunk (t : TargetEntry) : bool := let 'mkTargetEntry _ _ _ j := t in j.

Definition cte_name (c : CommonTableExpr) : string := let 'mkCTE n _ _ _ := c in n.
Definition cte_aliascolnames (c : CommonTableExpr) : list string :=
  let 'mkCTE _ a _ _ := c in a.
Definition cte_query (c : CommonTableExpr) : Query := let 'mkCTE _ _ q _ := c in q.
Definition cte_refcount (c : CommonTableExpr) : Z := let 'mkCTE _ _ _ n := c in n.

Definition rtf_funcexpr (f : RangeTblFunction) : Node :=
  let 'mkRangeTblFunction e _ _ _ _ _ := f in e.
Definition rtf_funccoltypes (f : RangeTblFunction) : list Z :=
  let 'mkRangeTblFunction _ _ _ t _ _ := f in t.

(** Field update: [*p] keeps its address, one field changes. *)
Definition set_rtable (q : Query) (r : list RangeTblEntry) : Query :=
  let 'mkQuery a c hr ctes _ j t ret h s := q in mkQuery a c hr ctes r j t ret h s.
Definition set_cteList (q : Query) (l : list CommonTableExpr) : Query :=
  let 'mkQuery a c hr _ r j t ret h s := q in mkQuery a c hr l r j t ret h s.
Definition set_q_addr (q : Query) (a : addr) : Query :=
  let 'mkQuery _ c hr ctes r j t ret h s := q in mkQuery a c hr ctes r j t ret h s.

Definition set_rtekind (d : RteData) (k : RTEKind) : RteData :=
  mkRteData k (relid d) (relkind d) (inh d) (perminfoindex d) (funcordinality d)
            (ctename d) (ctelevelsup d) (lateral d) (alias d) (eref d) (inFromCl d).
Definition set_ctename (d : RteData) (n : option string) : RteData :=
  mkRteData (rtekind d) (relid d) (relkind d) (inh d) (perminfoindex d)
            (funcordinality d) n (ctelevelsup d) (lateral d) (alias d) (eref d)
            (inFromCl d).
Definition set_ctelevelsup (d : RteData) (n : Z) : RteData :=
  mkRteData (rtekind d) (relid d) (relkind d) (inh d) (perminfoindex d)
            (funcordinality d) (ctename d) n (lateral d) (alias d) (eref d)
            (inFromCl d).
Definition set_perminfoindex (d : RteData) (n : Z) : RteData :=
  mkRteData (rtekind d) (relid d) (relkind d) (inh d) n (funcordinality d)
            (ctename d) (ctelevelsup d) (lateral d) (alias d) (eref d) (inFromCl d).
Definition set_inh (d : RteData) (b : bool) : RteData :=
  mkRteData (rtekind d) (relid d) (relkind d) b (perminfoindex d) (funcordinality d)
            (ctename d) (ctelevelsup d) (lateral d) (alias d) (eref d) (inFromCl d).
Definition set_eref (d : RteData) (a : option Alias) : RteData :=
  mkRteData (rtekind d) (relid d) (relkind d) (inh d) (perminfoindex d)
            (funcordinality d) (ctename d) (ctelevelsup d) (lateral d) (alias d) a
            (inFromCl d).

(** [makeNode(RangeTblEntry)]: every field zero. *)
Definition zeroRteData : RteData :=
  mkRteData RTE_RELATION 0 RELKIND_OTHER false 0 false None 0 false None None false.

(** [rt_fetch(rtindex, rtable)] is [list_nth(rtable, rtindex - 1)]; out of
    range there is no entry to fetch. *)
Definition rt_fetch (rtindex : Z) (rangeTable : list RangeTblEntry)
  : option RangeTblEntry :=
  if rtindex <=? 0 then None else nth_error rangeTable (Z.to_nat (rtindex - 1)).

(** Overwrite the entry [rt_fetch] returns; the other positions stay. *)
Fixpoint list_set {A : Type} (l : list A) (i : nat) (x : A) : list A :=
  match l, i with
  | [], _ => []
  | _ :: t, O => x :: t
  | h :: t, S j => h :: list_set t j x
  end.

Definition rt_store (rtindex : Z) (rangeTable : list RangeTblEntry)
           (rte : RangeTblEntry) : list RangeTblEntry :=
  if rtindex <=? 0 then rangeTable else list_set rangeTable (Z.to_nat (rtindex - 1)) rte.

(* ------------------------------------------------------------------ *)
(** ** PostgreSQL's tree walkers

    [expression_tree_walker] and [query_tree_walker] apply a walker to the
    children of one node and stop at the first [true].  A walker sees a
    [Query] through its own [IsA(node, Query)] branch, here [onQuery]; the
    range table entry itself is shown to the walker only under
    [QTW_EXAMINE_RTES_BEFORE], here [onRte]. *)

Definition walk_opt {A : Type} (w : A -> bool) (o : option A) : bool :=
  match o with
  | Some a => w a
  | None => false
  end.

Definition expression_tree_walker (walker : Node -> bool) (onQuery : Query -> bool)
           (node : Node) : bool :=
  match node with
  | T_Var _ _ _ _ _ _ => false
  | T_Const _ _ _ _ => false
  | T_Aggref _ args => existsb walker args
  | T_GroupingFunc _ args => existsb walker args
  | T_PlaceHolderVar _ phexpr => walker phexpr
  | T_FuncExpr _ _ _ args => existsb walker args
  | T_OpExpr _ args => existsb walker args
  | T_SubLink testexpr subselect => walk_opt walker testexpr || onQuery subselect
  | T_RangeTblRef _ => false
  | T_JoinExpr _ larg rarg quals => walker larg || walker rarg || walk_opt walker quals
  | T_FromExpr fromlist quals => existsb walker fromlist || walk_opt walker quals
  | T_SetOperationStmt _ larg rarg => walker larg || walker rarg
  end.

Definition range_table_entry_walker (walker : Node -> bool) (onQuery : Query -> bool)
           (onRte : RangeTblEntry -> bool) (rte : RangeTblEntry) : bool :=
  onRte rte ||
  match rte with
  | mkRTE d sub funcs =>
      match rtekind d with
      | RTE_SUBQUERY => walk_opt onQuery sub
      | RTE_FUNCTION => existsb (fun f => walker (rtf_funcexpr f)) funcs
      | _ => false
      end
  end.

Definition range_table_walker (walker : Node -> bool) (onQuery : Query -> bool)
           (onRte : RangeTblEntry -> bool) (rangeTable : list RangeTblEntry) : bool :=
  existsb (range_table_entry_walker walker onQuery onRte) rangeTable.

Definition query_tree_walker (walker : Node -> bool) (onQuery : Query -> bool)
           (onRte : RangeTblEntry -> bool) (query : Query) : bool :=
  match query with
  | mkQuery _ _ _ ctes rt jt tl ret hq setops =>
      existsb (fun te => walker (te_expr te)) tl
      || existsb (fun te => walker (te_expr te)) ret
      || walk_opt walker jt
      || walk_opt walker setops
      || walk_opt walker hq
      || existsb (fun cte => onQuery (cte_query cte)) ctes
      || range_table_walker walker onQuery onRte rt
  end.

Definition no_rte_examination (_ : RangeTblEntry) : bool := false.

(** [ContainsReferencesToOuterQueryWalker]: is there a Var, Aggref,
    GroupingFunc or PlaceHolderVar that points more than [level] levels up? *)
Fixpoint ContainsReferencesToOuterQueryWalker (level : Z) (node : Node) {struct node}
  : bool :=
  match node with
  | T_Var _ _ _ _ _ varlevelsup => level <? varlevelsup
  | T_Aggref agglevelsup _ =>
      (level <? agglevelsup)
      || expression_tree_walker (ContainsReferencesToOuterQueryWalker level)
                                (ContainsReferencesToOuterQueryInQuery level) node
  | T_GroupingFunc agglevelsup _ => level <? agglevelsup
  | T_PlaceHolderVar phlevelsup _ =>
      (level <? phlevelsup)
      || expression_tree_walker (ContainsReferencesToOuterQueryWalker level)
                                (ContainsReferencesToOuterQueryInQuery level) node
  | _ => expression_tree_walker (ContainsReferencesToOuterQueryWalker level)
                                (ContainsReferencesToOuterQueryInQuery level) node
  end
with ContainsReferencesToOuterQueryInQuery (level : Z) (query : Query) {struct query}
  : bool :=
  (* the walker's Query branch: one level deeper inside *)
  query_tree_walker (ContainsReferencesToOuterQueryWalker (level + 1))
                    (ContainsReferencesToOuterQueryInQuery (level + 1))
                    no_rte_examination query.

(** [ContainsReferencesToOuterQuery]: the walk starts at level 0 on the
    children of the query. *)
Definition ContainsReferencesToOuterQuery (query : Query) : bool :=
  query_tree_walker (ContainsReferencesToOuterQueryWalker 0)
                    (ContainsReferencesToOuterQueryInQuery 0)
                    no_rte_examination query.

(* ------------------------------------------------------------------ *)
(** ** Fixed-width integers and [appendStringInfo] *)

Definition uint32 (z : Z) : Z := z mod 2 ^ 32.
Definition uint64 (z : Z) : Z := z mod 2 ^ 64.
Definition int32 (z : Z) : Z := (z + 2 ^ 31) mod 2 ^ 32 - 2 ^ 31.

(** [list_length] returns the [int] length field of a [List]. *)
Definition list_length {A : Type} (l : list A) : Z := Z.of_nat (List.length l).

Definition lappend {A : Type} (l : list A) (x : A) : list A := l ++ [x].

(** What "%u" and UINT64_FORMAT print: the decimal digits of an unsigned
    value, no sign, no leading zeros, "0" for zero. *)
Definition format_unsigned (z : Z) : string :=
  NilEmpty.string_of_uint (N.to_uint (Z.to_N z)).

(** [GenerateResultId]: UINT64_FORMAT "_%u" of the plan id and the subplan id. *)
Definition GenerateResultId (planId subPlanId : Z) : string :=
  String.append (format_unsigned (uint64 planId))
                (String.append "_" (format_unsigned (uint32 subPlanId))).

(* ------------------------------------------------------------------ *)
(** ** Errors *)

Inductive ErrCode := ERRCODE_FEATURE_NOT_SUPPORTED | ERRCODE_INTERNAL_ERROR.

Record DeferredErrorMessage := mkDeferredError {
  err_code : ErrCode;
  err_message : string;
  err_detail : option string;
  err_hint : option string
}.

Definition DeferredError (code : ErrCode) (message : string)
           (detail hint : option string) : DeferredErrorMessage :=
  mkDeferredError code message detail hint.

(* ------------------------------------------------------------------ *)
(** ** Collaborators

    PostgreSQL and the rest of the extension, as this file calls them.
    [planner] is taken to leave the query it is given as it was; [None] is a
    planner that raised. *)

Class Collaborators := {
  PlannedStmt : Type;
  PlannerRestrictionContext : Type;
  ColocatedJoinChecker : Type;
  (* PostgreSQL *)
  planner : Query -> Z -> option PlannedStmt;
  exprType : Node -> Oid;
  exprTypmod : Node -> Z;
  exprCollation : Node -> Oid;
  get_expr_result_tupdesc : Node -> option (list (Oid * option string));
  (* catalog and metadata cache *)
  IsCitusTable : Oid -> bool;
  IsCitusLocalTable : Oid -> bool;
  IsDistributedTable : Oid -> bool;
  CitusReadIntermediateResultFuncId : Oid;
  CitusCopyFormatTypeId : Oid;
  BinaryCopyFormatId : Oid;
  TextCopyFormatId : Oid;
  CanUseBinaryCopyFormatForType : Oid -> bool;
  (* settings *)
  SubqueryPushdown : bool;
  CURSOR_OPT_FORCE_DISTRIBUTED : Z;
  (* other planner files *)
  ContainsReadIntermediateResultFunction : Query -> bool;
  AllDistributionKeysInQueryAreEqual : Query -> PlannerRestrictionContext -> bool;
  FilterPlannerRestrictionForQuery :
    PlannerRestrictionContext -> Query -> PlannerRestrictionContext;
  CanPushdownSubquery : Query -> bool -> bool;
  DeferErrorIfUnsupportedUnionQuery : Query -> option DeferredErrorMessage;
  SafeToPushdownUnionSubquery : Query -> PlannerRestrictionContext -> bool;
  JoinTreeContainsSubquery : Query -> bool;
  WhereOrHavingClauseContainsSubquery : Query -> bool;
  hasOuterJoin : PlannerRestrictionContext -> bool;
  CreateColocatedJoinChecker :
    Query -> PlannerRestrictionContext -> option ColocatedJoinChecker;
  SubqueryColocated : Query -> ColocatedJoinChecker -> bool;
  ShouldConvertLocalTableJoinsToSubqueries : list RangeTblEntry -> bool;
  LocalTableJoinConversions :
    Query -> PlannerRestrictionContext -> list (Z * list Z);
  RequiredAttrNumbersForRelation :
    RangeTblEntry -> PlannerRestrictionContext -> list Z;
  WrapRteRelationIntoSubquery : addr -> RangeTblEntry -> list Z -> Query;
  CreateAllTargetListForRelation : Oid -> list Z -> list TargetEntry;
  GetRestrictInfoListForRelation :
    RangeTblEntry -> PlannerRestrictionContext -> list Node;
  make_ands_explicit : list Node -> option Node
}.

(** [Raised] is [ereport(ERROR, ...)]: control leaves every caller.
    [OutOfFuel] belongs to the model only. *)
Inductive Outcome (A : Type) : Type :=
| Done (a : A)
| Raised (message : string)
| OutOfFuel.
Arguments Done {A} a.
Arguments Raised {A} message.
Arguments OutOfFuel {A}.

Section RecursivePlanning.

Context {collaborators : Collaborators}.

(* ------------------------------------------------------------------ *)
(** ** The planning context and the planner monad *)

Record DistributedSubPlan := mkDistributedSubPlan {
  subPlanId : Z;
  plan : PlannedStmt
}.

(** [struct RecursivePlanningContextInternal]. *)
Record RecursivePlanningContext := mkRecursivePlanningContext {
  level : Z;
  planId : Z;
  allDistributionKeysInQueryAreEqual : bool;
  subPlanList : list DistributedSubPlan;
  plannerRestrictionContext : PlannerRestrictionContext
}.

(** What a planning step can reach: the context it holds a pointer to, the
    next free [Query] address, and the file's static
    [recursivePlanningDepth]. *)
Record PlanState := mkPlanState {
  context : RecursivePlanningContext;
  brk : addr;
  recursivePlanningDepth : Z
}.

Definition M (A : Type) : Type := PlanState -> Outcome A * PlanState.

Definition ret {A : Type} (a : A) : M A := fun s => (Done a, s).

Definition bind {A B : Type} (m : M A) (k : A -> M B) : M B :=
  fun s =>
    match m s with
    | (Done a, s') => k a s'
    | (Raised msg, s') => (Raised msg, s')
    | (OutOfFuel, s') => (OutOfFuel, s')
    end.

Definition ereport_ERROR {A : Type} (message : string) : M A :=
  fun s => (Raised message, s).

Definition out_of_fuel {A : Type} : M A := fun s => (OutOfFuel, s).

Definition get_context : M RecursivePlanningContext := fun s => (Done (context s), s).

Definition put_context (c : RecursivePlanningContext) : M unit :=
  fun s => (Done tt, mkPlanState c (brk s) (recursivePlanningDepth s)).

(** [makeNode(Query)]: a fresh address. *)
Definition makeNode_Query : M addr :=
  fun s => (Done (brk s), mkPlanState (context s) (S (brk s)) (recursivePlanningDepth s)).

Definition set_subPlanList (c : RecursivePlanningContext) (l : list DistributedSubPlan)
  : RecursivePlanningContext :=
  mkRecursivePlanningContext (level c) (planId c)
    (allDistributionKeysInQueryAreEqual c) l (plannerRestrictionContext c).

Definition set_level (c : RecursivePlanningContext) (n : Z) : RecursivePlanningContext :=
  mkRecursivePlanningContext n (planId c) (allDistributionKeysInQueryAreEqual c)
    (subPlanList c) (plannerRestrictionContext c).

Notation "x <- m ;; k" := (bind m (fun x => k))
  (at level 61, m at next level, right associativity).
Notation "m ;;; k" := (bind m (fun _ => k))
  (at level 61, right associativity).

Fixpoint mapM {A B : Type} (f : A -> M B) (l : list A) : M (list B) :=
  match l with
  | [] => ret []
  | x :: t => y <- f x ;; r <- mapM f t ;; ret (y :: r)
  end.

Definition mapM_opt {A B : Type} (f : A -> M B) (o : option A) : M (option B) :=
  match o with
  | Some a => b <- f a ;; ret (Some b)
  | None => ret None
  end.

(* ------------------------------------------------------------------ *)
(** ** Building the query that reads an intermediate result *)

Definition TEXTOID : Oid := 25.

(** One pass of the loop of [BuildReadIntermediateResultsQuery] over the
    target entries: junk entries are skipped, [columnNumber] counts the
    others from 1. *)
Record ResultColumn := mkResultColumn {
  col_name : option string;
  col_type : Oid;
  col_typmod : Z;
  col_collation : Oid;
  col_entry : TargetEntry
}.

Fixpoint BuildResultColumns (columnAliasList : list string) (columnNumber : Z)
         (targetEntryList : list TargetEntry) : list ResultColumn :=
  match targetEntryList with
  | [] => []
  | targetEntry :: rest =>
      let targetExpr := te_expr targetEntry in
      let columnName := te_resname targetEntry in
      let columnType := exprType targetExpr in
      let columnTypMod := exprTypmod targetExpr in
      let columnCollation := exprCollation targetExpr in
      if te_resjunk targetEntry then
        BuildResultColumns columnAliasList columnNumber rest
      else
        let functionColumnVar :=
          T_Var 1 columnNumber columnType columnTypMod columnCollation 0 in
        let newResname :=
          if list_length columnAliasList >=? columnNumber then
            Some (nth (Z.to_nat (columnNumber - 1)) columnAliasList EmptyString)
          else columnName in
        let newTargetEntry :=
          mkTargetEntry functionColumnVar columnNumber newResname false in
        mkResultColumn columnName columnType columnTypMod columnCollation newTargetEntry
        :: BuildResultColumns columnAliasList (columnNumber + 1) rest
  end.

Definition BuildReadIntermediateResultsQuery (targetEntryList : list TargetEntry)
           (columnAliasList : list string) (resultIdConst : Node) (functionOid : Oid)
           (useBinaryCopyFormat : bool) : M Query :=
  let columns := BuildResultColumns columnAliasList 1 targetEntryList in
  let funcColNames := map col_name columns in
  let funcColTypes := map col_type columns in
  let funcColTypMods := map col_typmod columns in
  let funcColCollations := map col_collation columns in
  let targetList := map col_entry columns in
  let copyFormatId := if useBinaryCopyFormat then BinaryCopyFormatId
                      else TextCopyFormatId in
  let resultFormatConst := T_Const CitusCopyFormatTypeId 4 (OidDatum copyFormatId) true in
  let funcExpr := T_FuncExpr functionOid 0 true [resultIdConst; resultFormatConst] in
  let rangeTableFunction :=
    mkRangeTblFunction funcExpr (list_length funcColNames) funcColNames funcColTypes
                       funcColTypMods funcColCollations in
  let funcAlias := mkAlias "intermediate_result" funcColNames in
  let rangeTableEntry :=
    mkRTE (mkRteData RTE_FUNCTION 0 RELKIND_OTHER false 0 false None 0 false None
                     (Some funcAlias) true)
          None [rangeTableFunction] in
  let joinTree := T_FromExpr [T_RangeTblRef 1] None in
  resultQuery <- makeNode_Query ;;
  ret (mkQuery resultQuery CMD_SELECT false [] [rangeTableEntry] (Some joinTree)
               targetList [] None None).

(** Modelled from the spec: [CanUseBinaryCopyFormatForTargetList], which is
    defined with the COPY code and not in this file.  The spec's words are
    "binary if every output column type supports binary transfer, else
    text"; the output columns of a target list are its entries that are not
    junk. *)
Definition CanUseBinaryCopyFormatForTargetList (targetEntryList : list TargetEntry)
  : bool :=
  forallb (fun targetEntry =>
             te_resjunk targetEntry
             || CanUseBinaryCopyFormatForType (exprType (te_expr targetEntry)))
          targetEntryList.

Definition BuildSubPlanResultQuery (targetEntryList : list TargetEntry)
           (columnAliasList : list string) (resultId : string) : M Query :=
  let functionOid := CitusReadIntermediateResultFuncId in
  let useBinaryCopyFormat := CanUseBinaryCopyFormatForTargetList targetEntryList in
  let resultIdConst := T_Const TEXTOID (-1) (TextDatum resultId) false in
  BuildReadIntermediateResultsQuery targetEntryList columnAliasList resultIdConst
                                    functionOid useBinaryCopyFormat.

(* ------------------------------------------------------------------ *)
(** ** Creating a subplan and replacing a subquery by its result *)

(** [CreateDistributedSubPlan]: plan the query from the top; force
    distributed planning when it reads an intermediate result. *)
Definition CreateDistributedSubPlan (subPlanId : Z) (subPlanQuery : Query)
  : M DistributedSubPlan :=
  let cursorOptions :=
    if ContainsReadIntermediateResultFunction subPlanQuery
    then Z.lor 0 CURSOR_OPT_FORCE_DISTRIBUTED else 0 in
  match planner subPlanQuery cursorOptions with
  | Some plannedStmt => ret (mkDistributedSubPlan (uint32 subPlanId) plannedStmt)
  | None => ereport_ERROR "planner"
  end.

(** [*subquery = *resultQuery]: the object at [subquery] gets every field
    of the result query; it stays where it is. *)
Definition overwrite_Query (subquery resultQuery : Query) : Query :=
  set_q_addr resultQuery (q_addr subquery).

(** [RecursivelyPlanSubquery].  The returned query is what [subquery]
    points to afterwards.  The DEBUG1 log lines and the copy made for them
    are left out. *)
Definition RecursivelyPlanSubquery (subquery : Query) : M (bool * Query) :=
  planningContext <- get_context ;;
  let planId := planId planningContext in
  if ContainsReferencesToOuterQuery subquery then
    ret (false, subquery)
  else
    let subPlanId := int32 (list_length (subPlanList planningContext) + 1) in
    subPlan <- CreateDistributedSubPlan subPlanId subquery ;;
    put_context (set_subPlanList planningContext
                   (lappend (subPlanList planningContext) subPlan)) ;;;
    let resultId := GenerateResultId planId subPlanId in
    resultQuery <- BuildSubPlanResultQuery (targetList subquery) [] resultId ;;
    ret (true, overwrite_Query subquery resultQuery).

(** [Assert(condition)] of an assert-enabled build. *)
Definition Assert (condition : bool) : M unit :=
  if condition then ret tt else ereport_ERROR "TRAP: failed Assert".

(* ------------------------------------------------------------------ *)
(** ** [copyObject]

    A deep copy: every [Query] of the copy is a new object. *)

Fixpoint copyObject_Node (node : Node) {struct node} : M Node :=
  match node with
  | T_Var _ _ _ _ _ _ => ret node
  | T_Const _ _ _ _ => ret node
  | T_Aggref l args => a <- mapM copyObject_Node args ;; ret (T_Aggref l a)
  | T_GroupingFunc l args => a <- mapM copyObject_Node args ;; ret (T_GroupingFunc l a)
  | T_PlaceHolderVar l e => e' <- copyObject_Node e ;; ret (T_PlaceHolderVar l e')
  | T_FuncExpr f t r args => a <- mapM copyObject_Node args ;; ret (T_FuncExpr f t r a)
  | T_OpExpr o args => a <- mapM copyObject_Node args ;; ret (T_OpExpr o a)
  | T_SubLink t q =>
      t' <- mapM_opt copyObject_Node t ;;
      q' <- copyObject_Query q ;;
      ret (T_SubLink t' q')
  | T_RangeTblRef _ => ret node
  | T_JoinExpr jt l r qs =>
      l' <- copyObject_Node l ;;
      r' <- copyObject_Node r ;;
      qs' <- mapM_opt copyObject_Node qs ;;
      ret (T_JoinExpr jt l' r' qs')
  | T_FromExpr fl qs =>
      fl' <- mapM copyObject_Node fl ;;
      qs' <- mapM_opt copyObject_Node qs ;;
      ret (T_FromExpr fl' qs')
  | T_SetOperationStmt o l r =>
      l' <- copyObject_Node l ;;
      r' <- copyObject_Node r ;;
      ret (T_SetOperationStmt o l' r')
  end
with copyObject_Query (query : Query) {struct query} : M Query :=
  match query with
  | mkQuery _ c hr ctes rt jt tl rl hq so =>
      newnode <- makeNode_Query ;;
      ctes' <- mapM copyObject_CTE ctes ;;
      rt' <- mapM copyObject_RTE rt ;;
      jt' <- mapM_opt copyObject_Node jt ;;
      tl' <- mapM copyObject_TargetEntry tl ;;
      rl' <- mapM copyObject_TargetEntry rl ;;
      hq' <- mapM_opt copyObject_Node hq ;;
      so' <- mapM_opt copyObject_Node so ;;
      ret (mkQuery newnode c hr ctes' rt' jt' tl' rl' hq' so')
  end
with copyObject_RTE (rte : RangeTblEntry) {struct rte} : M RangeTblEntry :=
  match rte with
  | mkRTE d sub funcs =>
      sub' <- mapM_opt copyObject_Query sub ;;
      funcs' <- mapM copyObject_RangeTblFunction funcs ;;
      ret (mkRTE d sub' funcs')
  end
with copyObject_TargetEntry (te : TargetEntry) {struct te} : M TargetEntry :=
  match te with
  | mkTargetEntry e no name junk =>
      e' <- copyObject_Node e ;; ret (mkTargetEntry e' no name junk)
  end
with copyObject_CTE (cte : CommonTableExpr) {struct cte} : M CommonTableExpr :=
  match cte with
  | mkCTE n a q c => q' <- copyObject_Query q ;; ret (mkCTE n a q' c)
  end
with copyObject_RangeTblFunction (f : RangeTblFunction) {struct f} : M RangeTblFunction :=
  match f with
  | mkRangeTblFunction e n names tys mods colls =>
      e' <- copyObject_Node e ;; ret (mkRangeTblFunction e' n names tys mods colls)
  end.

(* ------------------------------------------------------------------ *)
(** ** CTE references

    [CteReferenceListWalker] gathers pointers to the range table entries
    that refer to a CTE of the query it starts from; [RecursivelyPlanCTEs]
    later writes through these pointers.  Here the gathered list holds the
    entries themselves, in the order of the walk, and [store_cte_references]
    puts a list of entries back at the places they were gathered from: the
    tree with the writes applied. *)

Fixpoint map_acc {A S : Type} (f : A -> S -> A * S) (l : list A) (s : S) : list A * S :=
  match l with
  | [] => ([], s)
  | x :: t =>
      let (y, s1) := f x s in
      let (r, s2) := map_acc f t s1 in
      (y :: r, s2)
  end.

Definition opt_acc {A S : Type} (f : A -> S -> A * S) (o : option A) (s : S)
  : option A * S :=
  match o with
  | Some a => let (b, s1) := f a s in (Some b, s1)
  | None => (None, s)
  end.

(** The test of [CteReferenceListWalker] on a range table entry. *)
Definition is_cte_reference (level : Z) (rte : RangeTblEntry) : bool :=
  RTEKind_eqb (rtekind (rte_data rte)) RTE_CTE
  && (ctelevelsup (rte_data rte) =? level).

Section CteReferenceWalk.

Variable S : Type.
Variable onReference : RangeTblEntry -> S -> RangeTblEntry * S.

(** The order is that of [query_tree_walker] with QTW_EXAMINE_RTES_BEFORE:
    target list, returning list, join tree, set operations, HAVING, CTE
    list, range table; a [Query] is one level deeper than its parent. *)
Fixpoint walk_cte_references (level : Z) (node : Node) (s : S) {struct node}
  : Node * S :=
  match node with
  | T_Var _ _ _ _ _ _ => (node, s)
  | T_Const _ _ _ _ => (node, s)
  | T_Aggref l args =>
      let (a, s1) := map_acc (walk_cte_references level) args s in (T_Aggref l a, s1)
  | T_GroupingFunc l args =>
      let (a, s1) := map_acc (walk_cte_references level) args s in
      (T_GroupingFunc l a, s1)
  | T_PlaceHolderVar l e =>
      let (e', s1) := walk_cte_references level e s in (T_PlaceHolderVar l e', s1)
  | T_FuncExpr f t r args =>
      let (a, s1) := map_acc (walk_cte_references level) args s in
      (T_FuncExpr f t r a, s1)
  | T_OpExpr o args =>
      let (a, s1) := map_acc (walk_cte_references level) args s in (T_OpExpr o a, s1)
  | T_SubLink t q =>
      let (t', s1) := opt_acc (walk_cte_references level) t s in
      let (q', s2) := walk_cte_references_Query level q s1 in
      (T_SubLink t' q', s2)
  | T_RangeTblRef _ => (node, s)
  | T_JoinExpr jt l r qs =>
      let (l', s1) := walk_cte_references level l s in
      let (r', s2) := walk_cte_references level r s1 in
      let (qs', s3) := opt_acc (walk_cte_references level) qs s2 in
      (T_JoinExpr jt l' r' qs', s3)
  | T_FromExpr fl qs =>
      let (fl', s1) := map_acc (walk_cte_references level) fl s in
      let (qs', s2) := opt_acc (walk_cte_references level) qs s1 in
      (T_FromExpr fl' qs', s2)
  | T_SetOperationStmt o l r =>
      let (l', s1) := walk_cte_references level l s in
      let (r', s2) := walk_cte_references level r s1 in
      (T_SetOperationStmt o l' r', s2)
  end
with walk_cte_references_Query (level : Z) (query : Query) (s : S) {struct query}
  : Query * S :=
  match query with
  | mkQuery a c hr ctes rt jt tl rl hq so =>
      let inner := level + 1 in
      let (tl', s1) := map_acc (walk_cte_references_TargetEntry inner) tl s in
      let (rl', s2) := map_acc (walk_cte_references_TargetEntry inner) rl s1 in
      let (jt', s3) := opt_acc (walk_cte_references inner) jt s2 in
      let (so', s4) := opt_acc (walk_cte_references inner) so s3 in
      let (hq', s5) := opt_acc (walk_cte_references inner) hq s4 in
      let (ctes', s6) := map_acc (walk_cte_references_CTE inner) ctes s5 in
      let (rt', s7) := map_acc (walk_cte_references_RTE inner) rt s6 in
      (mkQuery a c hr ctes' rt' jt' tl' rl' hq' so', s7)
  end
with walk_cte_references_RTE (level : Z) (rte : RangeTblEntry) (s : S) {struct rte}
  : RangeTblEntry * S :=
  match rte with
  | mkRTE d sub funcs =>
      if is_cte_reference level (mkRTE d sub funcs) then
        onReference (mkRTE d sub funcs) s
      else
        match rtekind d with
        | RTE_SUBQUERY =>
            let (sub', s1) := opt_acc (walk_cte_references_Query level) sub s in
            (mkRTE d sub' funcs, s1)
        | RTE_FUNCTION =>
            let (funcs', s1) :=
              map_acc (walk_cte_references_RangeTblFunction level) funcs s in
            (mkRTE d sub funcs', s1)
        | _ => (mkRTE d sub funcs, s)
        end
  end
with walk_cte_references_TargetEntry (level : Z) (te : TargetEntry) (s : S) {struct te}
  : TargetEntry * S :=
  match te with
  | mkTargetEntry e no name junk =>
      let (e', s1) := walk_cte_references level e s in
      (mkTargetEntry e' no name junk, s1)
  end
with walk_cte_references_CTE (level : Z) (cte : CommonTableExpr) (s : S) {struct cte}
  : CommonTableExpr * S :=
  match cte with
  | mkCTE n a q c =>
      let (q', s1) := walk_cte_references_Query level q s in (mkCTE n a q' c, s1)
  end
with walk_cte_references_RangeTblFunction (level : Z) (f : RangeTblFunction) (s : S)
                                          {struct f} : RangeTblFunction * S :=
  match f with
  | mkRangeTblFunction e n names tys mods colls =>
      let (e', s1) := walk_cte_references level e s in
      (mkRangeTblFunction e' n names tys mods colls, s1)
  end.

End CteReferenceWalk.

(** [CteReferenceListWalker] called on the query with a context of level
    -1 and an empty list: the list it leaves in the context. *)
Definition CteReferenceListWalker (query : Query) : list RangeTblEntry :=
  snd (walk_cte_references_Query (list RangeTblEntry)
         (fun rte collected => (rte, lappend collected rte)) (-1) query []).

Definition store_cte_references (query : Query) (cteReferenceList : list RangeTblEntry)
  : Query :=
  fst (walk_cte_references_Query (list RangeTblEntry)
         (fun rte remaining =>
            match remaining with
            | written :: rest => (written, rest)
            | [] => (rte, [])
            end)
         (-1) query cteReferenceList).

(* ------------------------------------------------------------------ *)
(** ** [RecursivelyPlanCTEs] *)

Definition NAMEDATALEN : nat := 64.

(** [strncmp(a, b, n) == 0]. *)
Definition strncmp_equal (a b : string) (n : nat) : bool :=
  String.eqb (substring 0 n a) (substring 0 n b).

Definition names_cte (cteName : string) (rte : RangeTblEntry) : bool :=
  match ctename (rte_data rte) with
  | Some name => strncmp_equal name cteName NAMEDATALEN
  | None => false
  end.

(** The body of the loop over the CTE reference list, for one entry.
    [replacedCtesCount] is bounded by the length of the list. *)
Definition ReplaceCteReference (cteName : string) (resultQuery : Query)
           (rangeTableEntry : RangeTblEntry) (replacedCtesCount : Z)
  : M (RangeTblEntry * Z) :=
  if negb (RTEKind_eqb (rtekind (rte_data rangeTableEntry)) RTE_CTE) then
    (* already replaced for a preceding CTE *)
    ret (rangeTableEntry, replacedCtesCount)
  else if names_cte cteName rangeTableEntry then
    let d := set_ctelevelsup
               (set_ctename (set_rtekind (rte_data rangeTableEntry) RTE_SUBQUERY) None)
               0 in
    newSubquery <- (if replacedCtesCount =? 0 then ret resultQuery
                    else copyObject_Query resultQuery) ;;
    ret (mkRTE d (Some newSubquery) (functions rangeTableEntry), replacedCtesCount + 1)
  else
    ret (rangeTableEntry, replacedCtesCount).

Fixpoint ReplaceCteReferences (cteName : string) (resultQuery : Query)
         (cteReferenceList : list RangeTblEntry) (replacedCtesCount : Z)
  : M (list RangeTblEntry * Z) :=
  match cteReferenceList with
  | [] => ret ([], replacedCtesCount)
  | rangeTableEntry :: rest =>
      r <- ReplaceCteReference cteName resultQuery rangeTableEntry replacedCtesCount ;;
      rs <- ReplaceCteReferences cteName resultQuery rest (snd r) ;;
      ret (fst r :: fst rs, snd rs)
  end.

Definition is_unreferenced_select (cte : CommonTableExpr) : bool :=
  (cte_refcount cte =? 0) && CmdType_eqb (commandType (cte_query cte)) CMD_SELECT.

Definition cte_outer_reference_error : DeferredErrorMessage :=
  DeferredError ERRCODE_FEATURE_NOT_SUPPORTED
    "CTEs that refer to other subqueries are not supported in multi-shard queries"
    None None.

Definition recursive_cte_error : DeferredErrorMessage :=
  DeferredError ERRCODE_FEATURE_NOT_SUPPORTED
    "recursive CTEs are only supported when they contain a filter on the distribution column"
    None None.

(** One iteration of the loop over [query->cteList]: an error to return, or
    the reference list after the iteration. *)
Definition PlanCTE (cte : CommonTableExpr) (cteReferenceList : list RangeTblEntry)
  : M (DeferredErrorMessage + list RangeTblEntry) :=
  let cteName := cte_name cte in
  let subquery := cte_query cte in
  planningContext <- get_context ;;
  let planId := planId planningContext in
  if ContainsReferencesToOuterQuery subquery then
    ret (inl cte_outer_reference_error)
  else if is_unreferenced_select cte then
    ret (inr cteReferenceList)
  else
    let subPlanId := uint32 (list_length (subPlanList planningContext) + 1) in
    subPlan <- CreateDistributedSubPlan subPlanId subquery ;;
    put_context (set_subPlanList planningContext
                   (lappend (subPlanList planningContext) subPlan)) ;;;
    let resultId := GenerateResultId planId subPlanId in
    let cteTargetList :=
      match returningList subquery with
      | [] => targetList subquery
      | _ :: _ => returningList subquery
      end in
    resultQuery <- BuildSubPlanResultQuery cteTargetList (cte_aliascolnames cte)
                                           resultId ;;
    replaced <- ReplaceCteReferences cteName resultQuery cteReferenceList 0 ;;
    Assert (cte_refcount cte =? snd replaced) ;;;
    ret (inr (fst replaced)).

(** The loop over [query->cteList].  The CTE of an iteration is read from
    the tree as the writes so far have left it. *)
Fixpoint PlanCTEsFrom (query : Query) (index remaining : nat)
         (cteReferenceList : list RangeTblEntry)
  : M (option DeferredErrorMessage * list RangeTblEntry) :=
  match remaining with
  | O => ret (None, cteReferenceList)
  | S remaining' =>
      match nth_error (cteList (store_cte_references query cteReferenceList)) index with
      | None => ret (None, cteReferenceList)
      | Some cte =>
          step <- PlanCTE cte cteReferenceList ;;
          match step with
          | inl error => ret (Some error, cteReferenceList)
          | inr cteReferenceList' =>
              PlanCTEsFrom query (S index) remaining' cteReferenceList'
          end
      end
  end.

Definition RecursivelyPlanCTEs (query : Query) : M (option DeferredErrorMessage * Query) :=
  match cteList query with
  | [] => ret (None, query)
  | _ :: _ =>
      if hasRecursive query then ret (Some recursive_cte_error, query)
      else
        let cteReferenceList := CteReferenceListWalker query in
        r <- PlanCTEsFrom query 0 (List.length (cteList query)) cteReferenceList ;;
        let written := store_cte_references query (snd r) in
        match fst r with
        | Some error => ret (Some error, written)
        | None => ret (None, set_cteList written [])
        end
  end.

(* ------------------------------------------------------------------ *)
(** ** Wrapping functions in subqueries *)

(** [ShouldTransformRTE]: function entries that are not LATERAL and have no
    WITH ORDINALITY. *)
Definition ShouldTransformRTE (rangeTableEntry : RangeTblEntry) : bool :=
  let d := rte_data rangeTableEntry in
  if negb (RTEKind_eqb (rtekind d) RTE_FUNCTION) || lateral d || funcordinality d
  then false else true.

Definition MaxAttrNumber : Z := 32767.

(** Target entries for the columns of a known row type: column k (from 0)
    is [Var(1, k + 1)] named after the attribute. *)
Fixpoint TupleDescTargetList (targetColumnIndex : Z) (attributes : list (Oid * option string))
  : list TargetEntry :=
  match attributes with
  | [] => []
  | (columnType, columnName) :: rest =>
      mkTargetEntry (T_Var 1 (targetColumnIndex + 1) columnType (-1) 0 0)
                    (targetColumnIndex + 1) columnName false
      :: TupleDescTargetList (targetColumnIndex + 1) rest
  end.

(** Target entries when the row type is not known: one per column name of
    the alias, typed by the column definition list if there is one and by
    the function's result type otherwise. *)
Fixpoint ColumnNamesTargetList (rangeTblFunction : RangeTblFunction)
         (targetColumnIndex : Z) (functionColumnNames : list (option string))
  : list TargetEntry :=
  match functionColumnNames with
  | [] => []
  | columnName :: rest =>
      let columnType :=
        if list_length (rtf_funccoltypes rangeTblFunction) >? 0 then
          nth (Z.to_nat targetColumnIndex) (rtf_funccoltypes rangeTblFunction) 0
        else
          match rtf_funcexpr rangeTblFunction with
          | T_FuncExpr _ funcresulttype _ _ => funcresulttype
          | other => exprType other
          end in
      mkTargetEntry (T_Var 1 (targetColumnIndex + 1) columnType (-1) 0 0)
                    (targetColumnIndex + 1) columnName false
      :: ColumnNamesTargetList rangeTblFunction (targetColumnIndex + 1) rest
  end.

(** [TransformFunctionRTE]: the entry becomes a subquery entry over
    (SELECT * FROM function() f), whose only range table entry is a copy of
    the entry as it was. *)
Definition TransformFunctionRTE (rangeTblEntry : RangeTblEntry) : M RangeTblEntry :=
  subqueryAddr <- makeNode_Query ;;
  match functions rangeTblEntry with
  | [] => ereport_ERROR "linitial of an empty list"
  | rangeTblFunction :: _ =>
      newRangeTableEntry <- copyObject_RTE rangeTblEntry ;;
      let joinTree := T_FromExpr [T_RangeTblRef 1] None in
      targetList <-
        match get_expr_result_tupdesc (rtf_funcexpr rangeTblFunction) with
        | Some attributes =>
            if list_length attributes >? MaxAttrNumber then
              ereport_ERROR "bad number of tuple descriptor attributes"
            else ret (TupleDescTargetList 0 attributes)
        | None =>
            let functionColumnNames :=
              match eref (rte_data rangeTblEntry) with
              | Some a => colnames a
              | None => []
              end in
            ret (ColumnNamesTargetList rangeTblFunction 0 functionColumnNames)
        end ;;
      let subquery :=
        mkQuery subqueryAddr CMD_SELECT false [] [newRangeTableEntry] (Some joinTree)
                targetList [] None None in
      ret (mkRTE (set_rtekind (rte_data rangeTblEntry) RTE_SUBQUERY) (Some subquery)
                 (functions rangeTblEntry))
  end.

Definition WrapFunctionRTE (rangeTableEntry : RangeTblEntry) : M RangeTblEntry :=
  if ShouldTransformRTE rangeTableEntry then TransformFunctionRTE rangeTableEntry
  else ret rangeTableEntry.

(** [WrapFunctionsInSubqueries]: nothing to do with fewer than two range
    table entries. *)
Definition WrapFunctionsInSubqueries (query : Query) : M Query :=
  let rangeTableList := rtable query in
  if list_length rangeTableList <? 2 then ret query
  else
    wrapped <- mapM WrapFunctionRTE rangeTableList ;;
    ret (set_rtable query wrapped).

(* ------------------------------------------------------------------ *)
(** ** Looking for a kind of table in a tree *)

(** Modelled from the spec: [FindNodeMatchingCheckFunction] and
    [FindNodeMatchingCheckFunctionInRangeTableList] of the logical planner,
    which are not in this file.  The spec has them look at the relation of
    an entry "or, transitively, every relation inside a referenced
    subquery"; the check is given every range table entry on the way. *)
Fixpoint FindNodeMatchingCheckFunction (check : RangeTblEntry -> bool) (node : Node)
         {struct node} : bool :=
  expression_tree_walker (FindNodeMatchingCheckFunction check)
                         (FindNodeMatchingCheckFunctionInQuery check) node
with FindNodeMatchingCheckFunctionInQuery (check : RangeTblEntry -> bool) (query : Query)
                                          {struct query} : bool :=
  query_tree_walker (FindNodeMatchingCheckFunction check)
                    (FindNodeMatchingCheckFunctionInQuery check) check query.

Definition FindNodeMatchingCheckFunctionInRangeTableList
           (rangeTable : list RangeTblEntry) (check : RangeTblEntry -> bool) : bool :=
  range_table_walker (FindNodeMatchingCheckFunction check)
                     (FindNodeMatchingCheckFunctionInQuery check) check rangeTable.

(** Modelled from the spec: the checks [IsDistributedTableRTE] and
    [IsCitusTableRTE], not in this file: a relation entry whose relation is
    a distributed table, respectively any table of the extension. *)
Definition IsDistributedTableRTE (rte : RangeTblEntry) : bool :=
  RTEKind_eqb (rtekind (rte_data rte)) RTE_RELATION
  && IsDistributedTable (relid (rte_data rte)).

Definition IsCitusTableRTE (rte : RangeTblEntry) : bool :=
  RTEKind_eqb (rtekind (rte_data rte)) RTE_RELATION
  && IsCitusTable (relid (rte_data rte)).

(** [IsRelationLocalTableOrMatView]. *)
Definition IsRelationLocalTableOrMatView (relationId : Oid) : bool :=
  if negb (IsCitusTable relationId) then true
  else if IsCitusLocalTable relationId then true
  else false.

(** [IsLocalTableRteOrMatView]. *)
Definition IsLocalTableRteOrMatView (rangeTableEntry : RangeTblEntry) : bool :=
  let d := rte_data rangeTableEntry in
  if negb (RTEKind_eqb (rtekind d) RTE_RELATION) then false
  else match relkind d with
       | RELKIND_VIEW => false
       | _ => IsRelationLocalTableOrMatView (relid d)
       end.

(* ------------------------------------------------------------------ *)
(** ** Walkers that rewrite

    A walker that always answers [false] visits every child; when it writes
    through the nodes it is given, the walk yields the tree with the writes
    applied. *)

Definition expression_tree_rewrite (walker : Node -> M Node) (onQuery : Query -> M Query)
           (node : Node) : M Node :=
  match node with
  | T_Var _ _ _ _ _ _ => ret node
  | T_Const _ _ _ _ => ret node
  | T_Aggref l args => a <- mapM walker args ;; ret (T_Aggref l a)
  | T_GroupingFunc l args => a <- mapM walker args ;; ret (T_GroupingFunc l a)
  | T_PlaceHolderVar l e => e' <- walker e ;; ret (T_PlaceHolderVar l e')
  | T_FuncExpr f t r args => a <- mapM walker args ;; ret (T_FuncExpr f t r a)
  | T_OpExpr o args => a <- mapM walker args ;; ret (T_OpExpr o a)
  | T_SubLink t q =>
      t' <- mapM_opt walker t ;; q' <- onQuery q ;; ret (T_SubLink t' q')
  | T_RangeTblRef _ => ret node
  | T_JoinExpr jt l r qs =>
      l' <- walker l ;; r' <- walker r ;; qs' <- mapM_opt walker qs ;;
      ret (T_JoinExpr jt l' r' qs')
  | T_FromExpr fl qs =>
      fl' <- mapM walker fl ;; qs' <- mapM_opt walker qs ;; ret (T_FromExpr fl' qs')
  | T_SetOperationStmt o l r =>
      l' <- walker l ;; r' <- walker r ;; ret (T_SetOperationStmt o l' r')
  end.

Definition rewrite_TargetEntry (walker : Node -> M Node) (te : TargetEntry)
  : M TargetEntry :=
  match te with
  | mkTargetEntry e no name junk => e' <- walker e ;; ret (mkTargetEntry e' no name junk)
  end.

Definition rewrite_CTE (onQuery : Query -> M Query) (cte : CommonTableExpr)
  : M CommonTableExpr :=
  match cte with
  | mkCTE n a q c => q' <- onQuery q ;; ret (mkCTE n a q' c)
  end.

Definition rewrite_RangeTblFunction (walker : Node -> M Node) (f : RangeTblFunction)
  : M RangeTblFunction :=
  match f with
  | mkRangeTblFunction e n names tys mods colls =>
      e' <- walker e ;; ret (mkRangeTblFunction e' n names tys mods colls)
  end.

Definition range_table_entry_rewrite (walker : Node -> M Node)
           (onQuery : Query -> M Query) (rte : RangeTblEntry) : M RangeTblEntry :=
  match rte with
  | mkRTE d sub funcs =>
      match rtekind d with
      | RTE_SUBQUERY => sub' <- mapM_opt onQuery sub ;; ret (mkRTE d sub' funcs)
      | RTE_FUNCTION =>
          funcs' <- mapM (rewrite_RangeTblFunction walker) funcs ;;
          ret (mkRTE d sub funcs')
      | _ => ret rte
      end
  end.

(** [query_tree_walker(query, walker, context, 0)] for such a walker. *)
Definition query_tree_rewrite (walker : Node -> M Node) (onQuery : Query -> M Query)
           (query : Query) : M Query :=
  match query with
  | mkQuery a c hr ctes rt jt tl rl hq so =>
      tl' <- mapM (rewrite_TargetEntry walker) tl ;;
      rl' <- mapM (rewrite_TargetEntry walker) rl ;;
      jt' <- mapM_opt walker jt ;;
      so' <- mapM_opt walker so ;;
      hq' <- mapM_opt walker hq ;;
      ctes' <- mapM (rewrite_CTE onQuery) ctes ;;
      rt' <- mapM (range_table_entry_rewrite walker onQuery) rt ;;
      ret (mkQuery a c hr ctes' rt' jt' tl' rl' hq' so')
  end.

(* ------------------------------------------------------------------ *)
(** ** Sublinks, HAVING and recurring FROM clauses *)

(** [ExtractSublinkWalker]: the sublinks of an expression, without looking
    inside a sublink that was found.  The list holds the subselects. *)
Fixpoint ExtractSublinkWalker (node : Node) {struct node} : list Query :=
  match node with
  | T_Var _ _ _ _ _ _ => []
  | T_Const _ _ _ _ => []
  | T_Aggref _ args => flat_map ExtractSublinkWalker args
  | T_GroupingFunc _ args => flat_map ExtractSublinkWalker args
  | T_PlaceHolderVar _ e => ExtractSublinkWalker e
  | T_FuncExpr _ _ _ args => flat_map ExtractSublinkWalker args
  | T_OpExpr _ args => flat_map ExtractSublinkWalker args
  | T_SubLink _ subselect => [subselect]
  | T_RangeTblRef _ => []
  | T_JoinExpr _ l r qs =>
      ExtractSublinkWalker l ++ ExtractSublinkWalker r
      ++ match qs with Some e => ExtractSublinkWalker e | None => [] end
  | T_FromExpr fl qs =>
      flat_map ExtractSublinkWalker fl
      ++ match qs with Some e => ExtractSublinkWalker e | None => [] end
  | T_SetOperationStmt _ l r => ExtractSublinkWalker l ++ ExtractSublinkWalker r
  end.

(** [NodeContainsSubqueryReferencingOuterQuery]. *)
Definition NodeContainsSubqueryReferencingOuterQuery (node : Node) : bool :=
  existsb ContainsReferencesToOuterQuery (ExtractSublinkWalker node).

(** The [Query] branch of [RecursivelyPlanAllSubqueries]: plan the query
    if its range table has a table of the extension; never look inside. *)
Definition RecursivelyPlanAllSubqueries_Query (query : Query) : M Query :=
  if FindNodeMatchingCheckFunctionInRangeTableList (rtable query) IsCitusTableRTE then
    r <- RecursivelyPlanSubquery query ;; ret (snd r)
  else ret query.

Fixpoint RecursivelyPlanAllSubqueries (node : Node) {struct node} : M Node :=
  expression_tree_rewrite RecursivelyPlanAllSubqueries
                          RecursivelyPlanAllSubqueries_Query node.

Definition having_outer_reference_error : DeferredErrorMessage :=
  DeferredError ERRCODE_FEATURE_NOT_SUPPORTED
    "Subqueries in HAVING cannot refer to outer query" None None.

(** The HAVING step of [RecursivelyPlanSubqueriesAndCTEs]: the error to
    return, if any, and the HAVING clause afterwards. *)
Definition RecursivelyPlanHavingQual (havingQual : option Node)
  : M (option DeferredErrorMessage * option Node) :=
  match havingQual with
  | None => ret (None, None)
  | Some qual =>
      if NodeContainsSubqueryReferencingOuterQuery qual then
        ret (Some having_outer_reference_error, Some qual)
      else
        qual' <- RecursivelyPlanAllSubqueries qual ;;
        ret (None, Some qual')
  end.

(** [ShouldRecursivelyPlanSublinks]: the FROM clause is recurring. *)
Definition ShouldRecursivelyPlanSublinks (query : Query) : bool :=
  if FindNodeMatchingCheckFunctionInRangeTableList (rtable query) IsDistributedTableRTE
  then false else true.

Definition set_havingQual (q : Query) (h : option Node) : Query :=
  let 'mkQuery a c hr ctes r j t ret _ s := q in mkQuery a c hr ctes r j t ret h s.
Definition set_jointree (q : Query) (j : option Node) : Query :=
  let 'mkQuery a c hr ctes r _ t ret h s := q in mkQuery a c hr ctes r j t ret h s.
Definition set_targetList (q : Query) (t : list TargetEntry) : Query :=
  let 'mkQuery a c hr ctes r j _ ret h s := q in mkQuery a c hr ctes r j t ret h s.
Definition set_subquery (r : RangeTblEntry) (s : option Query) : RangeTblEntry :=
  let 'mkRTE d _ f := r in mkRTE d s f.
Definition set_rte_data (r : RangeTblEntry) (d : RteData) : RangeTblEntry :=
  let 'mkRTE _ s f := r in mkRTE d s f.

(* ------------------------------------------------------------------ *)
(** ** Set operations *)

Definition op_of (node : Node) : SetOperation :=
  match node with
  | T_SetOperationStmt op _ _ => op
  | _ => SETOP_NONE
  end.

Definition is_union (op : SetOperation) : bool :=
  match op with SETOP_UNION => true | _ => false end.

(** [ShouldRecursivelyPlanSetOperation]. *)
Definition ShouldRecursivelyPlanSetOperation (query : Query)
           (context : RecursivePlanningContext) : bool :=
  match setOperations query with
  | None => false
  | Some setOperations =>
      if level context =? 0 then true
      else if negb (is_union (op_of setOperations)) then true
      else match DeferErrorIfUnsupportedUnionQuery query with
           | Some _ => true
           | None =>
               let filteredRestrictionContext :=
                 FilterPlannerRestrictionForQuery (plannerRestrictionContext context)
                                                  query in
               if negb (SafeToPushdownUnionSubquery query filteredRestrictionContext)
               then true else false
           end
  end.

(** The leaf case of [RecursivelyPlanSetOperations]: a subquery entry whose
    subquery has a distributed table somewhere inside is planned. *)
Definition is_distributed_subquery_rte (rangeTableEntry : RangeTblEntry) : bool :=
  RTEKind_eqb (rtekind (rte_data rangeTableEntry)) RTE_SUBQUERY
  && walk_opt (FindNodeMatchingCheckFunctionInQuery IsDistributedTableRTE)
              (subquery rangeTableEntry).

Definition RecursivelyPlanSetOperationLeaf (query : Query) (rtindex : Z) : M Query :=
  match rt_fetch rtindex (rtable query) with
  | None => ereport_ERROR "rt_fetch out of range"
  | Some rangeTableEntry =>
      match subquery rangeTableEntry with
      | Some subquery =>
          if is_distributed_subquery_rte rangeTableEntry then
            r <- RecursivelyPlanSubquery subquery ;;
            ret (set_rtable query
                   (rt_store rtindex (rtable query)
                             (set_subquery rangeTableEntry (Some (snd r)))))
          else ret query
      | None => ret query
      end
  end.

(** [RecursivelyPlanSetOperations]: the query as it is afterwards. *)
Fixpoint RecursivelyPlanSetOperations (query : Query) (node : Node) {struct node}
  : M Query :=
  match node with
  | T_SetOperationStmt _ larg rarg =>
      query1 <- RecursivelyPlanSetOperations query larg ;;
      RecursivelyPlanSetOperations query1 rarg
  | T_RangeTblRef rtindex => RecursivelyPlanSetOperationLeaf query rtindex
  | _ =>
      ereport_ERROR
        "unexpected node type while expecting set operations or range table references"
  end.

(* ------------------------------------------------------------------ *)
(** ** Turning a relation into a recursively planned subquery *)

(** [GenerateRequiredColNamesFromTargetList]: the names of the entries
    whose expression is a Var. *)
Fixpoint GenerateRequiredColNamesFromTargetList (targetList : list TargetEntry)
  : list (option string) :=
  match targetList with
  | [] => []
  | entry :: rest =>
      match te_expr entry with
      | T_Var _ _ _ _ _ _ =>
          te_resname entry :: GenerateRequiredColNamesFromTargetList rest
      | _ => GenerateRequiredColNamesFromTargetList rest
      end
  end.

Definition set_eref_colnames (d : RteData) (names : list (option string)) : RteData :=
  match eref d with
  | Some a => set_eref d (Some (mkAlias (aliasname a) names))
  | None => d
  end.

(** [CreateOuterSubquery]. *)
Definition CreateOuterSubquery (rangeTableEntry : RangeTblEntry)
           (outerSubqueryTargetList : list TargetEntry) : M Query :=
  let innerSubqueryColNames :=
    GenerateRequiredColNamesFromTargetList outerSubqueryTargetList in
  outerSubquery <- makeNode_Query ;;
  innerSubqueryRTE <- copyObject_RTE rangeTableEntry ;;
  let innerSubqueryRTE :=
    set_rte_data innerSubqueryRTE
      (set_eref_colnames (rte_data innerSubqueryRTE) innerSubqueryColNames) in
  Assert (RTEKind_eqb (rtekind (rte_data innerSubqueryRTE)) RTE_SUBQUERY
          && (perminfoindex (rte_data innerSubqueryRTE) =? 0)) ;;;
  ret (mkQuery outerSubquery CMD_SELECT false [] [innerSubqueryRTE]
               (Some (T_FromExpr [T_RangeTblRef 1] None))
               outerSubqueryTargetList [] None None).

(** [subquery->jointree->quals = quals]. *)
Definition set_jointree_quals (q : Query) (quals : option Node) : Query :=
  match jointree q with
  | Some (T_FromExpr fromlist _) => set_jointree q (Some (T_FromExpr fromlist quals))
  | _ => q
  end.

Definition SINGLE_RTE_INDEX : Z := 1.

(** [UpdateVarNosInNode]: every Var that [pull_var_clause] returns gets the
    new varno.  [pull_var_clause] looks through aggregates and placeholders
    and does not enter a subselect. *)
Fixpoint UpdateVarNosInNode (newVarNo : Z) (node : Node) {struct node} : Node :=
  match node with
  | T_Var _ attno ty tm coll lv => T_Var newVarNo attno ty tm coll lv
  | T_Const _ _ _ _ => node
  | T_Aggref l args => T_Aggref l (map (UpdateVarNosInNode newVarNo) args)
  | T_GroupingFunc l args => T_GroupingFunc l (map (UpdateVarNosInNode newVarNo) args)
  | T_PlaceHolderVar l e => T_PlaceHolderVar l (UpdateVarNosInNode newVarNo e)
  | T_FuncExpr f t r args => T_FuncExpr f t r (map (UpdateVarNosInNode newVarNo) args)
  | T_OpExpr o args => T_OpExpr o (map (UpdateVarNosInNode newVarNo) args)
  | T_SubLink t q => T_SubLink (option_map (UpdateVarNosInNode newVarNo) t) q
  | T_RangeTblRef _ => node
  | T_JoinExpr jt l r qs =>
      T_JoinExpr jt (UpdateVarNosInNode newVarNo l) (UpdateVarNosInNode newVarNo r)
                 (option_map (UpdateVarNosInNode newVarNo) qs)
  | T_FromExpr fl qs =>
      T_FromExpr (map (UpdateVarNosInNode newVarNo) fl)
                 (option_map (UpdateVarNosInNode newVarNo) qs)
  | T_SetOperationStmt o l r =>
      T_SetOperationStmt o (UpdateVarNosInNode newVarNo l) (UpdateVarNosInNode newVarNo r)
  end.

(** [ReplaceRTERelationWithRteSubquery]: the entry as it is afterwards. *)
Definition ReplaceRTERelationWithRteSubquery (rangeTableEntry : RangeTblEntry)
           (requiredAttrNumbers : list Z) : M RangeTblEntry :=
  context <- get_context ;;
  wrapped <- makeNode_Query ;;
  let subquery := WrapRteRelationIntoSubquery wrapped rangeTableEntry
                                              requiredAttrNumbers in
  let outerQueryTargetList :=
    CreateAllTargetListForRelation (relid (rte_data rangeTableEntry))
                                   requiredAttrNumbers in
  let restrictionList :=
    GetRestrictInfoListForRelation rangeTableEntry (plannerRestrictionContext context) in
  copyRestrictionList <- mapM copyObject_Node restrictionList ;;
  let andedBoundExpressions := make_ands_explicit copyRestrictionList in
  let quals := option_map (UpdateVarNosInNode SINGLE_RTE_INDEX) andedBoundExpressions in
  let subquery := set_jointree_quals subquery quals in
  let d := set_inh (set_perminfoindex
                      (set_rtekind (rte_data rangeTableEntry) RTE_SUBQUERY) 0) false in
  planned <- RecursivelyPlanSubquery subquery ;;
  if negb (fst planned) then
    ereport_ERROR "unexpected state: query should have been recursively planned"
  else
    let rangeTableEntry := mkRTE d (Some (snd planned)) (functions rangeTableEntry) in
    outerSubquery <- CreateOuterSubquery rangeTableEntry outerQueryTargetList ;;
    ret (set_subquery rangeTableEntry (Some outerSubquery)).

(* ------------------------------------------------------------------ *)
(** ** Outer joins with a recurring side *)

(** [IsRTERefRecurring]: no distributed table in or under the entry. *)
Definition IsRTERefRecurring (rtindex : Z) (query : Query) : option bool :=
  match rt_fetch rtindex (rtable query) with
  | None => None
  | Some rangeTableEntry =>
      Some (negb (FindNodeMatchingCheckFunctionInRangeTableList [rangeTableEntry]
                    IsDistributedTableRTE))
  end.

(** The range table reference case of [RecursivelyPlanDistributedJoinNode]. *)
Definition RecursivelyPlanDistributedRTE (rtindex : Z) (query : Query) : M Query :=
  match rt_fetch rtindex (rtable query), IsRTERefRecurring rtindex query with
  | Some distributedRte, Some false =>
      match rtekind (rte_data distributedRte) with
      | RTE_RELATION =>
          context <- get_context ;;
          let requiredAttributes :=
            RequiredAttrNumbersForRelation distributedRte
                                           (plannerRestrictionContext context) in
          rte' <- ReplaceRTERelationWithRteSubquery distributedRte requiredAttributes ;;
          ret (set_rtable query (rt_store rtindex (rtable query) rte'))
      | RTE_SUBQUERY =>
          match subquery distributedRte with
          | None => ereport_ERROR "NULL subquery"
          | Some subquery =>
              planned <- RecursivelyPlanSubquery subquery ;;
              (if negb (fst planned)
               then Assert (ContainsReferencesToOuterQuery (snd planned))
               else ret tt) ;;;
              ret (set_rtable query
                     (rt_store rtindex (rtable query)
                               (set_subquery distributedRte (Some (snd planned)))))
          end
      | _ => ereport_ERROR "got unexpected RTE type when recursively planning a join"
      end
  | Some _, Some true => ret query
  | _, _ => ereport_ERROR "rt_fetch out of range"
  end.

(** [RecursivelyPlanDistributedJoinNode]: the query as it is afterwards. *)
Fixpoint RecursivelyPlanDistributedJoinNode (node : Node) (query : Query) {struct node}
  : M Query :=
  match node with
  | T_JoinExpr _ larg rarg _ =>
      query1 <- RecursivelyPlanDistributedJoinNode larg query ;;
      RecursivelyPlanDistributedJoinNode rarg query1
  | T_RangeTblRef rtindex => RecursivelyPlanDistributedRTE rtindex query
  | _ => ereport_ERROR "unexpected join node type"
  end.

(** What [RecursivelyPlanRecurringTupleOuterJoinWalker] does at a join once
    both sides have answered: which side it plans, and what it returns. *)
Definition PlanJoinSides (jointype : JoinType) (leftNode rightNode : Node)
           (leftNodeRecurs rightNodeRecurs : bool) (query : Query) : M (bool * Query) :=
  match jointype with
  | JOIN_LEFT =>
      query' <- (if leftNodeRecurs && negb rightNodeRecurs
                 then RecursivelyPlanDistributedJoinNode rightNode query
                 else ret query) ;;
      ret (leftNodeRecurs, query')
  | JOIN_RIGHT =>
      query' <- (if negb leftNodeRecurs && rightNodeRecurs
                 then RecursivelyPlanDistributedJoinNode leftNode query
                 else ret query) ;;
      ret (rightNodeRecurs, query')
  | JOIN_FULL =>
      query' <- (if leftNodeRecurs && negb rightNodeRecurs
                 then RecursivelyPlanDistributedJoinNode rightNode query
                 else if negb leftNodeRecurs && rightNodeRecurs
                 then RecursivelyPlanDistributedJoinNode leftNode query
                 else ret query) ;;
      ret (leftNodeRecurs || rightNodeRecurs, query')
  | JOIN_INNER => ret (leftNodeRecurs && rightNodeRecurs, query)
  | _ => ereport_ERROR "got unexpected join type when recursively planning a join"
  end.

(** [RecursivelyPlanRecurringTupleOuterJoinWalker]: whether the node is
    recurring, and the query as it is afterwards. *)
Fixpoint RecursivelyPlanRecurringTupleOuterJoinWalker (node : Node) (query : Query)
         {struct node} : M (bool * Query) :=
  match node with
  | T_FromExpr fromlist _ =>
      query' <-
        (fix each (elements : list Node) (query : Query) {struct elements} : M Query :=
           match elements with
           | [] => ret query
           | fromElement :: rest =>
               r <- RecursivelyPlanRecurringTupleOuterJoinWalker fromElement query ;;
               each rest (snd r)
           end) fromlist query ;;
      ret (false, query')
  | T_JoinExpr jointype leftNode rightNode _ =>
      l <- RecursivelyPlanRecurringTupleOuterJoinWalker leftNode query ;;
      r <- RecursivelyPlanRecurringTupleOuterJoinWalker rightNode (snd l) ;;
      PlanJoinSides jointype leftNode rightNode (fst l) (fst r) (snd r)
  | T_RangeTblRef rtindex =>
      match IsRTERefRecurring rtindex query with
      | Some recurring => ret (recurring, query)
      | None => ereport_ERROR "rt_fetch out of range"
      end
  | _ => ereport_ERROR "got unexpected node type when recursively planning a join"
  end.

(* ------------------------------------------------------------------ *)
(** ** Subqueries that are not colocated with the anchor *)

(** [AllDistributionKeysInSubqueryAreEqual]. *)
Definition AllDistributionKeysInSubqueryAreEqual (subquery : Query)
           (restrictionContext : PlannerRestrictionContext) : bool :=
  match cteList subquery with
  | _ :: _ => false
  | [] =>
      let filteredRestrictionContext :=
        FilterPlannerRestrictionForQuery restrictionContext subquery in
      if negb (AllDistributionKeysInQueryAreEqual subquery filteredRestrictionContext)
      then false else true
  end.

(** [ContainsSubquery]. *)
Definition ContainsSubquery (query : Query) : bool :=
  JoinTreeContainsSubquery query || WhereOrHavingClauseContainsSubquery query.

(** [ShouldRecursivelyPlanNonColocatedSubqueries]. *)
Definition ShouldRecursivelyPlanNonColocatedSubqueries (subquery : Query)
           (context : RecursivePlanningContext) : bool :=
  if allDistributionKeysInQueryAreEqual context then false
  else if negb (ContainsSubquery subquery) then false
  else if FindNodeMatchingCheckFunctionInRangeTableList (rtable subquery)
            IsLocalTableRteOrMatView then false
  else if negb (AllDistributionKeysInSubqueryAreEqual subquery
                  (plannerRestrictionContext context)) then true
  else false.

(** [ShouldRecursivelyPlanSubquery]. *)
Definition ShouldRecursivelyPlanSubquery (subquery : Query)
           (context : RecursivePlanningContext) : bool :=
  if FindNodeMatchingCheckFunctionInRangeTableList (rtable subquery)
       IsLocalTableRteOrMatView then true
  else if CanPushdownSubquery subquery false then
    if negb (allDistributionKeysInQueryAreEqual context)
       && negb (AllDistributionKeysInSubqueryAreEqual subquery
                  (plannerRestrictionContext context))
    then true else false
  else true.

Definition PlanIfNotColocated (colocatedJoinChecker : ColocatedJoinChecker)
           (subquery : Query) : M Query :=
  if negb (SubqueryColocated subquery colocatedJoinChecker) then
    r <- RecursivelyPlanSubquery subquery ;; ret (snd r)
  else ret subquery.

(** [RecursivelyPlanNonColocatedJoinWalker]: the query as it is afterwards. *)
Fixpoint RecursivelyPlanNonColocatedJoinWalker (joinNode : Node)
         (colocatedJoinChecker : ColocatedJoinChecker) (query : Query) {struct joinNode}
  : M Query :=
  match joinNode with
  | T_FromExpr fromlist _ =>
      (fix each (elements : list Node) (query : Query) {struct elements} : M Query :=
         match elements with
         | [] => ret query
         | fromElement :: rest =>
             query1 <- RecursivelyPlanNonColocatedJoinWalker fromElement
                                                             colocatedJoinChecker query ;;
             each rest query1
         end) fromlist query
  | T_JoinExpr _ larg rarg _ =>
      query1 <- RecursivelyPlanNonColocatedJoinWalker larg colocatedJoinChecker query ;;
      RecursivelyPlanNonColocatedJoinWalker rarg colocatedJoinChecker query1
  | T_RangeTblRef rangeTableIndex =>
      match rt_fetch rangeTableIndex (rtable query) with
      | None => ereport_ERROR "rt_fetch out of range"
      | Some rte =>
          if negb (RTEKind_eqb (rtekind (rte_data rte)) RTE_SUBQUERY) then ret query
          else
            match subquery rte with
            | None => ereport_ERROR "NULL subquery"
            | Some subquery =>
                subquery' <- PlanIfNotColocated colocatedJoinChecker subquery ;;
                ret (set_rtable query
                       (rt_store rangeTableIndex (rtable query)
                                 (set_subquery rte (Some subquery'))))
            end
      end
  | _ => ereport_ERROR "pg_unreachable"
  end.

(** The walk of [ExtractSublinkWalker] again, writing to every subselect it
    finds: what a loop over the extracted sublinks does to the tree. *)
Fixpoint rewrite_sublinks (onSubselect : Query -> M Query) (node : Node) {struct node}
  : M Node :=
  match node with
  | T_SubLink t subselect =>
      subselect' <- onSubselect subselect ;; ret (T_SubLink t subselect')
  | _ => expression_tree_rewrite (rewrite_sublinks onSubselect) ret node
  end.

Definition quals_of (joinTree : option Node) : option Node :=
  match joinTree with
  | Some (T_FromExpr _ quals) => quals
  | _ => None
  end.

(** [RecursivelyPlanNonColocatedSubqueriesInWhere]. *)
Definition RecursivelyPlanNonColocatedSubqueriesInWhere (query : Query)
           (colocatedJoinChecker : ColocatedJoinChecker) : M Query :=
  quals' <- mapM_opt (rewrite_sublinks (PlanIfNotColocated colocatedJoinChecker))
                     (quals_of (jointree query)) ;;
  ret (set_jointree_quals query quals').

(** [RecursivelyPlanNonColocatedSubqueries]. *)
Definition RecursivelyPlanNonColocatedSubqueries (subquery : Query) : M Query :=
  context <- get_context ;;
  match CreateColocatedJoinChecker subquery (plannerRestrictionContext context) with
  | None => ret subquery
  | Some colocatedJoinChecker =>
      subquery1 <- match jointree subquery with
                   | Some joinTree =>
                       RecursivelyPlanNonColocatedJoinWalker joinTree
                                                             colocatedJoinChecker subquery
                   | None => ret subquery
                   end ;;
      RecursivelyPlanNonColocatedSubqueriesInWhere subquery1 colocatedJoinChecker
  end.

(** [RecursivelyPlanLocalTableJoins] is defined with the local-distributed
    join planner.  It reaches this file through
    [ReplaceRTERelationWithRteSubquery] only; which entries it converts, and
    with which columns, is the collaborator's choice. *)
Fixpoint RecursivelyPlanLocalTableJoins (conversions : list (Z * list Z)) (query : Query)
  : M Query :=
  match conversions with
  | [] => ret query
  | (rtindex, requiredAttrNumbers) :: rest =>
      match rt_fetch rtindex (rtable query) with
      | None => ereport_ERROR "rt_fetch out of range"
      | Some rte =>
          rte' <- ReplaceRTERelationWithRteSubquery rte requiredAttrNumbers ;;
          RecursivelyPlanLocalTableJoins rest
            (set_rtable query (rt_store rtindex (rtable query) rte'))
      end
  end.

(** [ShouldRecursivelyPlanOuterJoins], as compiled for PostgreSQL 17. *)
Definition ShouldRecursivelyPlanOuterJoins (query : Query)
           (context : RecursivePlanningContext) : bool :=
  hasOuterJoin (plannerRestrictionContext context).

(* ------------------------------------------------------------------ *)
(** ** The recursive descent *)

(** [RaiseDeferredError(error, ERROR)]. *)
Definition RaiseDeferredError {A : Type} (error : DeferredErrorMessage) : M A :=
  ereport_ERROR (err_message error).

Section Descent.

(** [RecursivelyPlanSubqueriesAndCTEs] for the queries one level down. *)
Variable planNested : Query -> M (option DeferredErrorMessage * Query).

(** The [Query] branch of [RecursivelyPlanSubqueryWalker]. *)
Definition RecursivelyPlanSubqueryWalker_Query (query : Query) : M Query :=
  context <- get_context ;;
  put_context (set_level context (level context + 1)) ;;;
  r <- planNested query ;;
  match fst r with
  | Some error => RaiseDeferredError error
  | None =>
      context <- get_context ;;
      put_context (set_level context (level context - 1)) ;;;
      context <- get_context ;;
      if ShouldRecursivelyPlanSubquery (snd r) context then
        planned <- RecursivelyPlanSubquery (snd r) ;; ret (snd planned)
      else ret (snd r)
  end.

Fixpoint RecursivelyPlanSubqueryWalker (node : Node) {struct node} : M Node :=
  expression_tree_rewrite RecursivelyPlanSubqueryWalker
                          RecursivelyPlanSubqueryWalker_Query node.

(** The steps of [RecursivelyPlanSubqueriesAndCTEs] after the CTEs. *)
Definition PlanSetOperationsStep (query : Query) : M Query :=
  context <- get_context ;;
  if ShouldRecursivelyPlanSetOperation query context then
    match setOperations query with
    | Some setOperations => RecursivelyPlanSetOperations query setOperations
    | None => ret query
    end
  else ret query.

Definition PlanNonColocatedStep (query : Query) : M Query :=
  context <- get_context ;;
  if ShouldRecursivelyPlanNonColocatedSubqueries query context
  then RecursivelyPlanNonColocatedSubqueries query else ret query.

Definition PlanLocalTableJoinsStep (query : Query) : M Query :=
  context <- get_context ;;
  if ShouldConvertLocalTableJoinsToSubqueries (rtable query) then
    RecursivelyPlanLocalTableJoins
      (LocalTableJoinConversions query (plannerRestrictionContext context)) query
  else ret query.

Definition PlanOuterJoinsStep (query : Query) : M Query :=
  context <- get_context ;;
  if ShouldRecursivelyPlanOuterJoins query context then
    match jointree query with
    | Some joinTree =>
        r <- RecursivelyPlanRecurringTupleOuterJoinWalker joinTree query ;; ret (snd r)
    | None => ret query
    end
  else ret query.

Definition PlanSublinksStep (query : Query) : M Query :=
  if ShouldRecursivelyPlanSublinks query then
    quals' <- mapM_opt RecursivelyPlanAllSubqueries (quals_of (jointree query)) ;;
    let query1 := set_jointree_quals query quals' in
    targetList' <- mapM (rewrite_TargetEntry RecursivelyPlanAllSubqueries)
                        (targetList query1) ;;
    ret (set_targetList query1 targetList')
  else ret query.

(** [RecursivelyPlanSubqueriesAndCTEs], given itself for the next level. *)
Definition RecursivelyPlanSubqueriesAndCTEs_body (query : Query)
  : M (option DeferredErrorMessage * Query) :=
  ctes <- RecursivelyPlanCTEs query ;;
  match fst ctes with
  | Some error => ret (Some error, snd ctes)
  | None =>
      let query := snd ctes in
      if SubqueryPushdown then ret (None, query)
      else
        query <- WrapFunctionsInSubqueries query ;;
        query <- query_tree_rewrite RecursivelyPlanSubqueryWalker
                                    RecursivelyPlanSubqueryWalker_Query query ;;
        query <- PlanSetOperationsStep query ;;
        having <- RecursivelyPlanHavingQual (havingQual query) ;;
        match fst having with
        | Some error => ret (Some error, query)
        | None =>
            let query := set_havingQual query (snd having) in
            query <- PlanNonColocatedStep query ;;
            query <- PlanLocalTableJoinsStep query ;;
            query <- PlanOuterJoinsStep query ;;
            query <- PlanSublinksStep query ;;
            ret (None, query)
        end
  end.

End Descent.

(** [RecursivelyPlanSubqueriesAndCTEs].  [fuel] bounds the nesting of
    queries that the descent may go through. *)
Fixpoint RecursivelyPlanSubqueriesAndCTEs (fuel : nat) (query : Query)
  : M (option DeferredErrorMessage * Query) :=
  match fuel with
  | O => out_of_fuel
  | S fuel' =>
      RecursivelyPlanSubqueriesAndCTEs_body (RecursivelyPlanSubqueriesAndCTEs fuel') query
  end.

(* ------------------------------------------------------------------ *)
(** ** The entry point and the depth counter *)

(** What is left outside a top-level call: the allocation frontier and
    [recursivePlanningDepth]. *)
Record World := mkWorld {
  world_brk : addr;
  world_depth : Z
}.


(** The state in which the body of a top-level call starts: the counter has
    been incremented and the context initialised. *)
Definition enter_planning (planId : Z) (originalQuery : Query)
           (restrictionContext : PlannerRestrictionContext) (world : World) : PlanState :=
  mkPlanState
    (mkRecursivePlanningContext 0 planId
       (AllDistributionKeysInQueryAreEqual originalQuery restrictionContext)
       [] restrictionContext)
    (world_brk world)
    (int32 (world_depth world + 1)).

(** [GenerateSubplansForSubqueriesAndCTEs]: the subplans and the rewritten
    query, or the error raised, and the world afterwards. *)
Definition GenerateSubplansForSubqueriesAndCTEs (fuel : nat) (planId : Z)
           (originalQuery : Query) (restrictionContext : PlannerRestrictionContext)
           (world : World) : Outcome (list DistributedSubPlan * Query) * World :=
  let entered := enter_planning planId originalQuery restrictionContext world in
  match RecursivelyPlanSubqueriesAndCTEs fuel originalQuery entered with
  | (Done (Some error, _), s) =>
      (Raised (err_message error),
       mkWorld (brk s) (int32 (recursivePlanningDepth s - 1)))
  | (Done (None, query), s) =>
      (Done (subPlanList (context s), query),
       mkWorld (brk s) (int32 (recursivePlanningDepth s - 1)))
  | (Raised message, s) => (Raised message, mkWorld (brk s) (recursivePlanningDepth s))
  | (OutOfFuel, s) => (OutOfFuel, mkWorld (brk s) (recursivePlanningDepth s))
  end.

End RecursivePlanning.

Notation "x <- m ;; k" := (bind m (fun x => k))
  (at level 61, m at next level, right associativity).
Notation "m ;;; k" := (bind m (fun _ => k))
  (at level 61, right associativity).

(* ================================================================== *)
(** * Notions used in the statements, and sample inputs *)

(** The output columns of a target list: its entries that are not junk. *)
Definition output_columns (targetEntryList : list TargetEntry) : list TargetEntry :=
  filter (fun targetEntry => negb (te_resjunk targetEntry)) targetEntryList.

(** When the function-wrapping pass is to wrap an entry of a range table. *)
Definition should_wrap (rangeTable : list RangeTblEntry) (rte : RangeTblEntry) : Prop :=
  (2 <= List.length rangeTable)%nat /\
  rtekind (rte_data rte) = RTE_FUNCTION /\
  lateral (rte_data rte) = false /\
  funcordinality (rte_data rte) = false.

(** [wrapped] is a subquery entry over a SELECT whose only range table
    entry is a copy of [original]. *)
Definition wraps (original wrapped : RangeTblEntry) : Prop :=
  rtekind (rte_data wrapped) = RTE_SUBQUERY /\
  exists sub copy,
    subquery wrapped = Some sub /\
    commandType sub = CMD_SELECT /\
    rtable sub = [copy] /\
    rte_data copy = rte_data original /\
    jointree sub = Some (T_FromExpr [T_RangeTblRef 1] None).

(** A range table entry still refers to the CTE of this name. *)
Definition refers_to (cteName : string) (rte : RangeTblEntry) : bool :=
  RTEKind_eqb (rtekind (rte_data rte)) RTE_CTE && names_cte cteName rte.



(** The scalar fields of an entry once it reads a result: a subquery entry
    without a CTE name. *)
Definition reads_result_data (d : RteData) : RteData :=
  set_ctelevelsup (set_ctename (set_rtekind d RTE_SUBQUERY) None) 0.

(** The range table indexes at the leaves of a set-operation tree. *)
Fixpoint setop_leaves (node : Node) : list Z :=
  match node with
  | T_SetOperationStmt _ larg rarg => setop_leaves larg ++ setop_leaves rarg
  | T_RangeTblRef rtindex => [rtindex]
  | _ => []
  end.

(** The subqueries that a walk of an expression reaches without entering
    a subquery: the subselect of every sublink, those in the test expression
    of another sublink included, in the order of the walk. *)
Fixpoint reached_subselects (node : Node) {struct node} : list Query :=
  match node with
  | T_Var _ _ _ _ _ _ => []
  | T_Const _ _ _ _ => []
  | T_Aggref _ args => flat_map reached_subselects args
  | T_GroupingFunc _ args => flat_map reached_subselects args
  | T_PlaceHolderVar _ e => reached_subselects e
  | T_FuncExpr _ _ _ args => flat_map reached_subselects args
  | T_OpExpr _ args => flat_map reached_subselects args
  | T_SubLink t subselect =>
      match t with Some e => reached_subselects e | None => [] end ++ [subselect]
  | T_RangeTblRef _ => []
  | T_JoinExpr _ l r qs =>
      reached_subselects l ++ reached_subselects r
      ++ match qs with Some e => reached_subselects e | None => [] end
  | T_FromExpr fl qs =>
      flat_map reached_subselects fl
      ++ match qs with Some e => reached_subselects e | None => [] end
  | T_SetOperationStmt _ l r => reached_subselects l ++ reached_subselects r
  end.

(** A stand-in for the collaborators: a plan records the query and the
    options the planner was called with; relations 200 and above are
    distributed tables, relations from 100 to 199 are reference tables,
    anything below is a local table. *)
Definition sample_collaborators : Collaborators := {|
  PlannedStmt := (Query * Z)%type;
  PlannerRestrictionContext := unit;
  ColocatedJoinChecker := unit;
  planner := fun q options => Some (q, options);
  exprType := fun n =>
    match n with
    | T_Var _ _ t _ _ _ => t
    | T_Const t _ _ _ => t
    | T_FuncExpr _ t _ _ => t
    | _ => 0
    end;
  exprTypmod := fun _ => -1;
  exprCollation := fun _ => 0;
  get_expr_result_tupdesc := fun _ => None;
  IsCitusTable := fun relationId => 100 <=? relationId;
  IsCitusLocalTable := fun _ => false;
  IsDistributedTable := fun relationId => 200 <=? relationId;
  CitusReadIntermediateResultFuncId := 9001;
  CitusCopyFormatTypeId := 9002;
  BinaryCopyFormatId := 9003;
  TextCopyFormatId := 9004;
  CanUseBinaryCopyFormatForType := fun t => negb (t =? 705);
  SubqueryPushdown := false;
  CURSOR_OPT_FORCE_DISTRIBUTED := 524288;
  ContainsReadIntermediateResultFunction := fun _ => false;
  AllDistributionKeysInQueryAreEqual := fun _ _ => true;
  FilterPlannerRestrictionForQuery := fun c _ => c;
  CanPushdownSubquery := fun _ _ => true;
  DeferErrorIfUnsupportedUnionQuery := fun _ => None;
  SafeToPushdownUnionSubquery := fun _ _ => true;
  JoinTreeContainsSubquery := fun _ => false;
  WhereOrHavingClauseContainsSubquery := fun _ => false;
  hasOuterJoin := fun _ => true;
  CreateColocatedJoinChecker := fun _ _ => None;
  SubqueryColocated := fun _ _ => true;
  ShouldConvertLocalTableJoinsToSubqueries := fun _ => false;
  LocalTableJoinConversions := fun _ _ => [];
  RequiredAttrNumbersForRelation := fun _ _ => [1];
  WrapRteRelationIntoSubquery := fun a rte _ =>
    mkQuery a CMD_SELECT false [] [rte] (Some (T_FromExpr [T_RangeTblRef 1] None))
            [mkTargetEntry (T_Var 1 1 23 (-1) 0 0) 1 (Some "a") false] [] None None;
  CreateAllTargetListForRelation := fun _ _ =>
    [mkTargetEntry (T_Var 1 1 23 (-1) 0 0) 1 (Some "a") false];
  GetRestrictInfoListForRelation := fun _ _ => [];
  make_ands_explicit := fun l => match l with [] => None | e :: _ => Some e end
|}.

Definition sample_rte (kind : RTEKind) (relationId : Oid) (sub : option Query)
  : RangeTblEntry :=
  mkRTE (mkRteData kind relationId RELKIND_RELATION false 0 false None 0 false None
                   (Some (mkAlias "t" [Some "a"])) true)
        sub [].

Definition sample_column (name : string) : TargetEntry :=
  mkTargetEntry (T_Var 1 1 23 (-1) 0 0) 1 (Some name) false.

(** SELECT a FROM <relation>. *)
Definition sample_select (a : addr) (relationId : Oid) : Query :=
  mkQuery a CMD_SELECT false [] [sample_rte RTE_RELATION relationId None]
          (Some (T_FromExpr [T_RangeTblRef 1] None)) [sample_column "a"] [] None None.

(** A reference to the CTE [name] of the query itself. *)
Definition sample_cte_rte (name : string) : RangeTblEntry :=
  mkRTE (mkRteData RTE_CTE 0 RELKIND_OTHER false 0 false (Some name) 0 false None
                   (Some (mkAlias name [Some "a"])) true)
        None [].

(** WITH c AS (SELECT a FROM dist) SELECT * FROM c x JOIN c y ON true. *)
Definition sample_cte : CommonTableExpr := mkCTE "c" [] (sample_select 1 200) 2.

Definition sample_cte_query : Query :=
  mkQuery 0 CMD_SELECT false [sample_cte] [sample_cte_rte "c"; sample_cte_rte "c"]
          (Some (T_FromExpr [T_JoinExpr JOIN_INNER (T_RangeTblRef 1) (T_RangeTblRef 2)
                                        None] None))
          [sample_column "a"] [] None None.

(** WITH c AS (SELECT a FROM local) SELECT a FROM dist: [c] is not used. *)
Definition sample_unused_cte : CommonTableExpr := mkCTE "c" [] (sample_select 1 10) 0.

Definition sample_unused_cte_query : Query :=
  mkQuery 0 CMD_SELECT false [sample_unused_cte] [sample_rte RTE_RELATION 200 None]
          (Some (T_FromExpr [T_RangeTblRef 1] None)) [sample_column "a"] [] None None.

(** (SELECT a FROM dist) UNION (SELECT a FROM ref). *)
Definition sample_union : Node :=
  T_SetOperationStmt SETOP_UNION (T_RangeTblRef 1) (T_RangeTblRef 2).

Definition sample_union_query : Query :=
  mkQuery 0 CMD_SELECT false []
          [sample_rte RTE_SUBQUERY 0 (Some (sample_select 1 200));
           sample_rte RTE_SUBQUERY 0 (Some (sample_select 2 100))]
          (Some (T_FromExpr [] None)) [sample_column "a"] [] None (Some sample_union).

(** (SELECT a FROM dist) UNION (SELECT a FROM dist2). *)
Definition sample_union_of_distributed : Query :=
  mkQuery 0 CMD_SELECT false []
          [sample_rte RTE_SUBQUERY 0 (Some (sample_select 1 200));
           sample_rte RTE_SUBQUERY 0 (Some (sample_select 2 201))]
          (Some (T_FromExpr [] None)) [sample_column "a"] [] None (Some sample_union).

(** A function in a join: SELECT * FROM dist JOIN f() ON true. *)
Definition sample_function_rte : RangeTblEntry :=
  mkRTE (mkRteData RTE_FUNCTION 0 RELKIND_OTHER false 0 false None 0 false None
                   (Some (mkAlias "f" [Some "x"])) true)
        None [mkRangeTblFunction (T_FuncExpr 77 23 true []) 0 [] [] [] []].

Definition sample_function_join : Query :=
  mkQuery 0 CMD_SELECT false [] [sample_rte RTE_RELATION 200 None; sample_function_rte]
          (Some (T_FromExpr [T_JoinExpr JOIN_INNER (T_RangeTblRef 1) (T_RangeTblRef 2)
                                        None] None))
          [sample_column "a"] [] None None.



Definition sample_having_distributed : Node :=
  T_OpExpr 521 [T_Aggref 0 []; T_SubLink None (sample_select 5 200)].

(** ref LEFT JOIN dist. *)
Definition sample_left_join_query : Query :=
  mkQuery 0 CMD_SELECT false []
          [sample_rte RTE_RELATION 100 None; sample_rte RTE_RELATION 200 None]
          (Some (T_FromExpr [T_JoinExpr JOIN_LEFT (T_RangeTblRef 1) (T_RangeTblRef 2)
                                        None] None))
          [sample_column "a"] [] None None.

(** The state in which a top-level call for plan 7 starts its descent. *)
Definition sample_state : @PlanState sample_collaborators :=
  @mkPlanState sample_collaborators
    (@mkRecursivePlanningContext sample_collaborators 0 7 true [] tt) 10 1.

Definition sample_world : World := mkWorld 10 0.

Section Notions.

Context {collaborators : Collaborators}.

Definition alloc_state (s : PlanState) : PlanState :=
  mkPlanState (context s) (S (brk s)) (recursivePlanningDepth s).

(** The options [CreateDistributedSubPlan] gives the planner. *)
Definition cursor_options (subPlanQuery : Query) : Z :=
  if ContainsReadIntermediateResultFunction subPlanQuery
  then Z.lor 0 CURSOR_OPT_FORCE_DISTRIBUTED else 0.

(** The state once a subplan with this plan has been appended. *)
Definition append_subplan (s : PlanState) (plannedStmt : PlannedStmt) : PlanState :=
  mkPlanState
    (set_subPlanList (context s)
       (lappend (subPlanList (context s))
          (mkDistributedSubPlan (uint32 (list_length (subPlanList (context s)) + 1))
                                plannedStmt)))
    (brk s) (recursivePlanningDepth s).

(** The target list a CTE's result is read with: the RETURNING list of a
    modifying CTE, the target list otherwise. *)
Definition cte_target_list (cte : CommonTableExpr) : list TargetEntry :=
  match returningList (cte_query cte) with
  | [] => targetList (cte_query cte)
  | _ :: _ => returningList (cte_query cte)
  end.

(** [q] has the fields of the query that reads a subplan's result with
    this target list. *)
Definition result_read_of (targetEntryList : list TargetEntry) (q : Query) : Prop :=
  exists resultId s,
    BuildSubPlanResultQuery targetEntryList [] resultId s
    = (Done (set_q_addr q (brk s)), alloc_state s).

(** The entry [rte'] is [rte] with the contents of its subquery replaced by
    a read of a subplan result. *)
Definition subquery_replaced (rte rte' : RangeTblEntry) : Prop :=
  exists sub sub',
    subquery rte = Some sub /\
    rte' = set_subquery rte (Some sub') /\
    q_addr sub' = q_addr sub /\
    result_read_of (targetList sub) sub'.

(** Between two range tables: the entry is the same, or it was a subquery
    over distributed tables and now reads a subplan result. *)
Definition leaf_entry_settled (rte rte' : RangeTblEntry) : Prop :=
  rte' = rte \/ (is_distributed_subquery_rte rte = true /\ subquery_replaced rte rte').

(** A leaf that is a subquery over distributed tables does not refer to a
    query outside itself. *)
Definition leaves_are_closed (node : Node) (query : Query) : Prop :=
  forall i rte sub,
    In i (setop_leaves node) ->
    rt_fetch i (rtable query) = Some rte ->
    is_distributed_subquery_rte rte = true ->
    subquery rte = Some sub ->
    ContainsReferencesToOuterQuery sub = false.

Definition subplan_count (s : PlanState) : nat := List.length (subPlanList (context s)).

(** A subquery of a HAVING clause that gets planned: one with a table of
    the extension in its range table and no reference to an outer query. *)
Definition planned_by_all_subqueries (q : Query) : bool :=
  FindNodeMatchingCheckFunctionInRangeTableList (rtable q) IsCitusTableRTE
  && negb (ContainsReferencesToOuterQuery q).

Definition count_planned (node : Node) : nat :=
  List.length (filter planned_by_all_subqueries (reached_subselects node)).

(** The subplan at position i (from 0) has id i + 1, as a uint32. *)
Definition ids_numbered (l : list DistributedSubPlan) : Prop :=
  forall i sp, nth_error l i = Some sp -> subPlanId sp = uint32 (Z.of_nat i + 1).


(** A step keeps [P]: whatever its outcome, [P] holds afterwards if it
    held before. *)
Inductive preserves {A : Type} (P : PlanState -> Prop) (m : M A) : Prop :=
| preserves_intro : (forall s, P s -> P (snd (m s))) -> preserves P m.

End Notions.

(* ------------------------------------------------------------------ *)
(** ** Induction over the query tree *)

Definition opt_all {A : Type} (P : A -> Prop) (o : option A) : Prop :=
  match o with
  | Some a => P a
  | None => True
  end.

Section TreeInduction.

Variables (PN : Node -> Prop) (PQ : Query -> Prop) (PR : RangeTblEntry -> Prop)
          (PT : TargetEntry -> Prop) (PC : CommonTableExpr -> Prop)
          (PF : RangeTblFunction -> Prop).

Hypothesis HVar : forall a b c d e f, PN (T_Var a b c d e f).
Hypothesis HConst : forall a b c d, PN (T_Const a b c d).
Hypothesis HAggref : forall l args, Forall PN args -> PN (T_Aggref l args).
Hypothesis HGroupingFunc : forall l args, Forall PN args -> PN (T_GroupingFunc l args).
Hypothesis HPlaceHolderVar : forall l e, PN e -> PN (T_PlaceHolderVar l e).
Hypothesis HFuncExpr : forall f t r args, Forall PN args -> PN (T_FuncExpr f t r args).
Hypothesis HOpExpr : forall o args, Forall PN args -> PN (T_OpExpr o args).
Hypothesis HSubLink : forall t q, opt_all PN t -> PQ q -> PN (T_SubLink t q).
Hypothesis HRangeTblRef : forall i, PN (T_RangeTblRef i).
Hypothesis HJoinExpr :
  forall jt l r qs, PN l -> PN r -> opt_all PN qs -> PN (T_JoinExpr jt l r qs).
Hypothesis HFromExpr :
  forall fl qs, Forall PN fl -> opt_all PN qs -> PN (T_FromExpr fl qs).
Hypothesis HSetOperationStmt :
  forall o l r, PN l -> PN r -> PN (T_SetOperationStmt o l r).
Hypothesis HQuery :
  forall a c hr ctes rt jt tl rl hq so,
    Forall PC ctes -> Forall PR rt -> opt_all PN jt -> Forall PT tl -> Forall PT rl ->
    opt_all PN hq -> opt_all PN so -> PQ (mkQuery a c hr ctes rt jt tl rl hq so).
Hypothesis HRTE :
  forall d sub funcs, opt_all PQ sub -> Forall PF funcs -> PR (mkRTE d sub funcs).
Hypothesis HTargetEntry :
  forall e no name junk, PN e -> PT (mkTargetEntry e no name junk).
Hypothesis HCTE : forall n a q c, PQ q -> PC (mkCTE n a q c).
Hypothesis HRangeTblFunction :
  forall e n names tys mods colls, PN e -> PF (mkRangeTblFunction e n names tys mods colls).

Definition all_of {A : Type} (P : A -> Prop) (f : forall a, P a) : forall l, Forall P l :=
  fix go (l : list A) : Forall P l :=
    match l with
    | [] => Forall_nil P
    | x :: t => Forall_cons x (f x) (go t)
    end.

Definition opt_of {A : Type} (P : A -> Prop) (f : forall a, P a) (o : option A)
  : opt_all P o :=
  match o with
  | Some a => f a
  | None => I
  end.

Fixpoint tree_ind_Node (n : Node) {struct n} : PN n :=
  match n with
  | T_Var a b c d e f => HVar a b c d e f
  | T_Const a b c d => HConst a b c d
  | T_Aggref l args => HAggref l args (all_of PN tree_ind_Node args)
  | T_GroupingFunc l args => HGroupingFunc l args (all_of PN tree_ind_Node args)
  | T_PlaceHolderVar l e => HPlaceHolderVar l e (tree_ind_Node e)
  | T_FuncExpr f t r args => HFuncExpr f t r args (all_of PN tree_ind_Node args)
  | T_OpExpr o args => HOpExpr o args (all_of PN tree_ind_Node args)
  | T_SubLink t q => HSubLink t q (opt_of PN tree_ind_Node t) (tree_ind_Query q)
  | T_RangeTblRef i => HRangeTblRef i
  | T_JoinExpr jt l r qs =>
      HJoinExpr jt l r qs (tree_ind_Node l) (tree_ind_Node r) (opt_of PN tree_ind_Node qs)
  | T_FromExpr fl qs =>
      HFromExpr fl qs (all_of PN tree_ind_Node fl) (opt_of PN tree_ind_Node qs)
  | T_SetOperationStmt o l r => HSetOperationStmt o l r (tree_ind_Node l) (tree_ind_Node r)
  end
with tree_ind_Query (q : Query) {struct q} : PQ q :=
  match q with
  | mkQuery a c hr ctes rt jt tl rl hq so =>
      HQuery a c hr ctes rt jt tl rl hq so
             (all_of PC tree_ind_CTE ctes) (all_of PR tree_ind_RTE rt)
             (opt_of PN tree_ind_Node jt) (all_of PT tree_ind_TargetEntry tl)
             (all_of PT tree_ind_TargetEntry rl) (opt_of PN tree_ind_Node hq)
             (opt_of PN tree_ind_Node so)
  end
with tree_ind_RTE (r : RangeTblEntry) {struct r} : PR r :=
  match r with
  | mkRTE d sub funcs =>
      HRTE d sub funcs (opt_of PQ tree_ind_Query sub)
           (all_of PF tree_ind_RangeTblFunction funcs)
  end
with tree_ind_TargetEntry (t : TargetEntry) {struct t} : PT t :=
  match t with
  | mkTargetEntry e no name junk => HTargetEntry e no name junk (tree_ind_Node e)
  end
with tree_ind_CTE (c : CommonTableExpr) {struct c} : PC c :=
  match c with
  | mkCTE n a q k => HCTE n a q k (tree_ind_Query q)
  end
with tree_ind_RangeTblFunction (f : RangeTblFunction) {struct f} : PF f :=
  match f with
  | mkRangeTblFunction e n names tys mods colls =>
      HRangeTblFunction e n names tys mods colls (tree_ind_Node e)
  end.

End TreeInduction.

(* ------------------------------------------------------------------ *)
(** ** Notions used in the further properties *)

Section FurtherNotions.

Context {collaborators : Collaborators}.

(** A step that returns leaves the nesting level of the context as it
    found it. *)
Inductive returns_at_level {A : Type} (m : M A) : Prop :=
| returns_at_level_intro :
    (forall s a s', m s = (Done a, s') -> level (context s') = level (context s)) ->
    returns_at_level m.

(** Whether a character occurs in a string. *)
Fixpoint occurs_in (c : ascii) (s : string) : bool :=
  match s with
  | EmptyString => false
  | String c' rest => Ascii.eqb c c' || occurs_in c rest
  end.

(** Gathering with [collect] and writing back with [store] agree on [x]:
    what is gathered from [x], written back to [x], leaves [x] as it is and
    uses up exactly what was gathered. *)
Definition gathers_what_it_stores {X : Type}
           (collect store : X -> list RangeTblEntry -> X * list RangeTblEntry) (x : X)
  : Prop :=
  exists gathered,
    (forall collected, collect x collected = (x, collected ++ gathered)) /\
    (forall remaining, store x (gathered ++ remaining) = (x, remaining)).

(** The two visitors of [CteReferenceListWalker] and [store_cte_references]. *)
Definition collect_reference (rte : RangeTblEntry) (collected : list RangeTblEntry)
  : RangeTblEntry * list RangeTblEntry :=
  (rte, lappend collected rte).

Definition store_reference (rte : RangeTblEntry) (remaining : list RangeTblEntry)
  : RangeTblEntry * list RangeTblEntry :=
  match remaining with
  | written :: rest => (written, rest)
  | [] => (rte, [])
  end.

(** The CTEs of a query for which a subplan is made. *)
Definition planned_ctes (query : Query) : list CommonTableExpr :=
  filter (fun cte => negb (is_unreferenced_select cte)) (cteList query).

(** A tree of set operations over range table references. *)
Fixpoint is_setop_tree (node : Node) : bool :=
  match node with
  | T_SetOperationStmt _ larg rarg => is_setop_tree larg && is_setop_tree rarg
  | T_RangeTblRef _ => true
  | _ => false
  end.

(** The range table indexes at the leaves of a join tree. *)
Fixpoint join_leaves (node : Node) {struct node} : list Z :=
  match node with
  | T_FromExpr fromlist _ => flat_map join_leaves fromlist
  | T_JoinExpr _ larg rarg _ => join_leaves larg ++ join_leaves rarg
  | T_RangeTblRef rtindex => [rtindex]
  | _ => []
  end.

Section LeafPass.

(** Which entries a pass plans, and what a planned entry is like after. *)
Variable plans : RangeTblEntry -> bool.
Variable settles : RangeTblEntry -> RangeTblEntry -> Prop.

Definition planned_at (query : Query) (rtindex : Z) : bool :=
  match rt_fetch rtindex (rtable query) with
  | Some rte => plans rte
  | None => false
  end.

(** A pass over the entries at [leaves] took [query] to [query']: the range
    table has kept its length, the entries elsewhere are as they were, an
    entry at a leaf is settled if the pass plans it and is as it was if
    not, and one subplan was appended for every leaf planned. *)
Definition leaf_pass (leaves : list Z) (query query' : Query) (s s' : PlanState) : Prop :=
  List.length (rtable query') = List.length (rtable query) /\
  (forall i, ~ In i leaves -> rt_fetch i (rtable query') = rt_fetch i (rtable query)) /\
  (forall i, In i leaves ->
     exists rte rte',
       rt_fetch i (rtable query) = Some rte /\
       rt_fetch i (rtable query') = Some rte' /\
       if plans rte then settles rte rte' else rte' = rte) /\
  subplan_count s'
  = (subplan_count s + List.length (filter (planned_at query) leaves))%nat.

End LeafPass.

(** What [RecursivelyPlanNonColocatedJoinWalker] plans: a subquery entry
    whose subquery is not colocated with the anchor and does not refer to
    an outer query. *)
Definition planned_as_not_colocated (colocatedJoinChecker : ColocatedJoinChecker)
           (rte : RangeTblEntry) : bool :=
  RTEKind_eqb (rtekind (rte_data rte)) RTE_SUBQUERY
  && match subquery rte with
     | Some sub => negb (SubqueryColocated sub colocatedJoinChecker)
                   && negb (ContainsReferencesToOuterQuery sub)
     | None => false
     end.

(** An entry is recurring when no distributed table is found in or under
    it: the test of [IsRTERefRecurring]. *)
Definition recurring_entry (rte : RangeTblEntry) : bool :=
  negb (FindNodeMatchingCheckFunctionInRangeTableList [rte] IsDistributedTableRTE).

(** The join types the outer-join walker knows. *)
Definition is_walked_join_type (jointype : JoinType) : bool :=
  match jointype with
  | JOIN_INNER | JOIN_LEFT | JOIN_RIGHT | JOIN_FULL => true
  | _ => false
  end.

(** Whether a join tree is recurring, read off a query: a reference is
    recurring when its entry is, an inner join when both sides are, a LEFT
    join when its left side is, a RIGHT join when its right side is, a FULL
    join when either side is; a FROM list is never called recurring. *)
Fixpoint recurs (query : Query) (node : Node) {struct node} : bool :=
  match node with
  | T_RangeTblRef rtindex =>
      match rt_fetch rtindex (rtable query) with
      | Some rte => recurring_entry rte
      | None => false
      end
  | T_JoinExpr jointype larg rarg _ =>
      match jointype with
      | JOIN_INNER => recurs query larg && recurs query rarg
      | JOIN_LEFT => recurs query larg
      | JOIN_RIGHT => recurs query rarg
      | JOIN_FULL => recurs query larg || recurs query rarg
      | _ => false
      end
  | _ => false
  end.

(** No outer join of the tree has a recurring outer side and an inner side
    that is not recurring: a LEFT join with a recurring left side has a
    recurring right side, a RIGHT join with a recurring right side has a
    recurring left side, and the sides of a FULL join are both recurring or
    both not. *)
Fixpoint outer_joins_settled (query : Query) (node : Node) {struct node} : bool :=
  match node with
  | T_FromExpr fromlist _ => forallb (outer_joins_settled query) fromlist
  | T_JoinExpr jointype larg rarg _ =>
      outer_joins_settled query larg && outer_joins_settled query rarg
      && match jointype with
         | JOIN_LEFT => implb (recurs query larg) (recurs query rarg)
         | JOIN_RIGHT => implb (recurs query rarg) (recurs query larg)
         | JOIN_FULL => Bool.eqb (recurs query larg) (recurs query rarg)
         | _ => true
         end
  | _ => true
  end.

(** The trees the outer-join walker goes through without an error, and
    those [RecursivelyPlanDistributedJoinNode] does. *)
Fixpoint is_walked_join_tree (node : Node) {struct node} : bool :=
  match node with
  | T_FromExpr fromlist _ => forallb is_walked_join_tree fromlist
  | T_JoinExpr jointype larg rarg _ =>
      is_walked_join_type jointype && is_walked_join_tree larg && is_walked_join_tree rarg
  | T_RangeTblRef _ => true
  | _ => false
  end.

Fixpoint is_forced_join_tree (node : Node) {struct node} : bool :=
  match node with
  | T_JoinExpr _ larg rarg _ => is_forced_join_tree larg && is_forced_join_tree rarg
  | T_RangeTblRef _ => true
  | _ => false
  end.

(** A subquery entry at one of [leaves] that is not recurring does not
    refer to an outer query: it is not a LATERAL subquery over the other
    side of its join. *)
Definition distributed_leaves_closed (query : Query) (leaves : list Z) : Prop :=
  forall i rte sub,
    In i leaves ->
    rt_fetch i (rtable query) = Some rte ->
    rtekind (rte_data rte) = RTE_SUBQUERY ->
    subquery rte = Some sub ->
    recurring_entry rte = false ->
    ContainsReferencesToOuterQuery sub = false.

(** The target list made for a wrapped relation has no table inside: no
    sublink over a distributed table. *)
Definition relation_target_lists_are_plain : Prop :=
  forall relationId requiredAttrNumbers te,
    In te (CreateAllTargetListForRelation relationId requiredAttrNumbers) ->
    FindNodeMatchingCheckFunction IsDistributedTableRTE (te_expr te) = false.

(** What the outer-join pass plans at a leaf it is handed. *)
Definition forced_entry (rte : RangeTblEntry) : bool := negb (recurring_entry rte).

Definition now_recurring (_ rte' : RangeTblEntry) : Prop := recurring_entry rte' = true.

(** Between two range tables: the same length, the same entries away from
    [leaves], and at a leaf the same entry or, where the entry was not
    recurring, one that is. *)
Definition only_made_recurring (leaves : list Z) (query query' : Query) : Prop :=
  List.length (rtable query') = List.length (rtable query) /\
  (forall i, ~ In i leaves -> rt_fetch i (rtable query') = rt_fetch i (rtable query)) /\
  (forall i, In i leaves ->
     exists rte rte',
       rt_fetch i (rtable query) = Some rte /\
       rt_fetch i (rtable query') = Some rte' /\
       (rte' = rte \/ (recurring_entry rte = false /\ recurring_entry rte' = true))).

(** What the outer-join walker has done when it returns [answer] for a
    tree: the tree is one it knows, entries were only made recurring, its
    answer is the class of the tree before and after, and no outer join
    of the tree is left with a recurring outer and a distributed inner
    side. *)
Definition outer_join_walk_post (node : Node) (query query' : Query) (answer : bool)
  : Prop :=
  is_walked_join_tree node = true /\
  only_made_recurring (join_leaves node) query query' /\
  answer = recurs query node /\
  answer = recurs query' node /\
  outer_joins_settled query' node = true.

(** The type [TransformFunctionRTE] gives column k (from 0) of a function
    whose row type is not known: the k-th type of the column definition
    list if there is one, the result type of the function otherwise. *)
Definition function_column_type (rangeTblFunction : RangeTblFunction) (k : nat) : Oid :=
  if list_length (rtf_funccoltypes rangeTblFunction) >? 0 then
    nth k (rtf_funccoltypes rangeTblFunction) 0
  else
    match rtf_funcexpr rangeTblFunction with
    | T_FuncExpr _ funcresulttype _ _ => funcresulttype
    | other => exprType other
    end.

(** The column names of an entry: [rangeTblEntry->eref->colnames]. *)
Definition eref_colnames (rte : RangeTblEntry) : list (option string) :=
  match eref (rte_data rte) with
  | Some a => colnames a
  | None => []
  end.

(** What a computation returns, when it returns. *)
Definition yields {A : Type} (R : A -> Prop) (m : M A) : Prop :=
  forall s a s', m s = (Done a, s') -> R a.

(** What a target entry is to the outside: its number, name and junk flag. *)
Definition te_head (te : TargetEntry) : Z * option string * bool :=
  (te_resno te, te_resname te, te_resjunk te).

(** The range table indexes a tree refers to, as a join tree and as a tree
    of set operations. *)
Definition same_leaves (node node' : Node) : Prop :=
  join_leaves node' = join_leaves node /\ setop_leaves node' = setop_leaves node.

(** [query'] is the same object as [query], with the same command, as many
    range table entries, the same output columns by number, name and junk
    flag, and a join tree and a set-operation tree over the same range
    table indexes in the same order. *)
Definition same_frame (query query' : Query) : Prop :=
  q_addr query' = q_addr query /\
  commandType query' = commandType query /\
  hasRecursive query' = hasRecursive query /\
  List.length (rtable query') = List.length (rtable query) /\
  map te_head (targetList query') = map te_head (targetList query) /\
  map te_head (returningList query') = map te_head (returningList query) /\
  option_map join_leaves (jointree query') = option_map join_leaves (jointree query) /\
  option_map setop_leaves (setOperations query')
  = option_map setop_leaves (setOperations query).

(** How deep the descent goes into a query: the nesting of the queries that
    [RecursivelyPlanSubqueryWalker] reaches from it, through sublinks,
    subquery entries and the expressions of function entries, the query
    itself counted.  A function entry that [WrapFunctionsInSubqueries]
    wraps and a reference to a CTE, which [RecursivelyPlanCTEs] may turn
    into a subquery that reads a result, count as one query more.  The
    queries of the CTE list are not counted: they are planned from the top
    and the list is empty when the descent goes on. *)
Fixpoint nesting_Node (node : Node) {struct node} : nat :=
  match node with
  | T_Var _ _ _ _ _ _ => 0
  | T_Const _ _ _ _ => 0
  | T_Aggref _ args => list_max (map nesting_Node args)
  | T_GroupingFunc _ args => list_max (map nesting_Node args)
  | T_PlaceHolderVar _ e => nesting_Node e
  | T_FuncExpr _ _ _ args => list_max (map nesting_Node args)
  | T_OpExpr _ args => list_max (map nesting_Node args)
  | T_SubLink t q =>
      Nat.max (match t with Some e => nesting_Node e | None => 0 end) (nesting_Query q)
  | T_RangeTblRef _ => 0
  | T_JoinExpr _ l r qs =>
      Nat.max (nesting_Node l)
              (Nat.max (nesting_Node r)
                       (match qs with Some e => nesting_Node e | None => 0 end))
  | T_FromExpr fl qs =>
      Nat.max (list_max (map nesting_Node fl))
              (match qs with Some e => nesting_Node e | None => 0 end)
  | T_SetOperationStmt _ l r => Nat.max (nesting_Node l) (nesting_Node r)
  end
with nesting_Query (query : Query) {struct query} : nat :=
  match query with
  | mkQuery _ _ _ _ rt jt tl rl hq so =>
      S (Nat.max (list_max (map nesting_TargetEntry tl))
        (Nat.max (list_max (map nesting_TargetEntry rl))
        (Nat.max (match jt with Some e => nesting_Node e | None => 0 end)
        (Nat.max (match so with Some e => nesting_Node e | None => 0 end)
        (Nat.max (match hq with Some e => nesting_Node e | None => 0 end)
                 (list_max (map (nesting_RTE (2 <=? list_length rt)) rt)))))))
  end
with nesting_RTE (joined : bool) (rte : RangeTblEntry) {struct rte} : nat :=
  match rte with
  | mkRTE d sub funcs =>
      match rtekind d with
      | RTE_SUBQUERY => match sub with Some q => nesting_Query q | None => 0 end
      | RTE_FUNCTION =>
          ((if joined && ShouldTransformRTE rte then 1 else 0)
           + list_max (map nesting_RangeTblFunction funcs))%nat
      | RTE_CTE => 1
      | _ => 0
      end
  end
with nesting_TargetEntry (te : TargetEntry) {struct te} : nat :=
  match te with
  | mkTargetEntry e _ _ _ => nesting_Node e
  end
with nesting_RangeTblFunction (f : RangeTblFunction) {struct f} : nat :=
  match f with
  | mkRangeTblFunction e _ _ _ _ _ => nesting_Node e
  end.

(** An entry that adds one level at most, whatever the range table. *)
Definition shallow_entry (rte : RangeTblEntry) : Prop :=
  forall joined, (nesting_RTE joined rte <= 1)%nat.

(** A computation that does not stop for lack of fuel. *)
Inductive finishes {A : Type} (m : M A) : Prop :=
| finishes_intro : (forall s, fst (m s) <> OutOfFuel) -> finishes m.

(* ------------------------------------------------------------------ *)
(** ** A local table joined with a distributed table *)

Section LocalDistributedJoin.

(** [IsDistributedOrReferenceTableRTE] is a check of the logical planner,
    not of this file. *)
Variable IsDistributedOrReferenceTableRTE : RangeTblEntry -> bool.

(** [IsRecursivelyPlannableRelation]. *)
Definition IsRecursivelyPlannableRelation (rangeTableEntry : RangeTblEntry) : bool :=
  let d := rte_data rangeTableEntry in
  if negb (RTEKind_eqb (rtekind d) RTE_RELATION) then false
  else match relkind d with
       | RELKIND_PARTITIONED_TABLE | RELKIND_RELATION | RELKIND_MATVIEW
       | RELKIND_FOREIGN_TABLE => true
       | _ => false
       end.

(** The loop of [ContainsLocalTableDistributedTableJoin]: the two flags
    after the entries of the list. *)
Fixpoint local_and_distributed_flags (rangeTableList : list RangeTblEntry)
         (containsLocalTable containsDistributedTable : bool) : bool * bool :=
  match rangeTableList with
  | [] => (containsLocalTable, containsDistributedTable)
  | rangeTableEntry :: rest =>
      if FindNodeMatchingCheckFunctionInRangeTableList
           [rangeTableEntry] IsDistributedOrReferenceTableRTE
      then local_and_distributed_flags rest containsLocalTable true
      else if IsRecursivelyPlannableRelation rangeTableEntry
              && IsLocalTableRteOrMatView rangeTableEntry
      then local_and_distributed_flags rest true containsDistributedTable
      else local_and_distributed_flags rest containsLocalTable containsDistributedTable
  end.

(** [ContainsLocalTableDistributedTableJoin]. *)
Definition ContainsLocalTableDistributedTableJoin (rangeTableList : list RangeTblEntry)
  : bool :=
  let (containsLocalTable, containsDistributedTable) :=
    local_and_distributed_flags rangeTableList false false in
  containsLocalTable && containsDistributedTable.

(** The two sides that [ContainsLocalTableDistributedTableJoin] looks for. *)
Definition distributed_side (rte : RangeTblEntry) : bool :=
  FindNodeMatchingCheckFunctionInRangeTableList [rte] IsDistributedOrReferenceTableRTE.

Definition local_side (rte : RangeTblEntry) : bool :=
  negb (distributed_side rte)
  && IsRecursivelyPlannableRelation rte && IsLocalTableRteOrMatView rte.

End LocalDistributedJoin.

(** What [RecursivelyPlanAllSubqueries] does to a subquery it reaches: a
    subquery that gets planned is the same object and reads the result of a
    subplan; any other is as it was. *)
Definition subselect_settled (q q' : Query) : Prop :=
  if planned_by_all_subqueries q
  then q_addr q' = q_addr q /\ result_read_of (targetList q) q'
  else q' = q.

(** The subqueries that a walk of a target list reaches. *)
Definition reached_in_targetList (targetList : list TargetEntry) : list Query :=
  flat_map (fun te => reached_subselects (te_expr te)) targetList.

Definition reached_in_quals (quals : option Node) : list Query :=
  match quals with Some e => reached_subselects e | None => [] end.

(** What [RecursivelyPlanNonColocatedSubqueriesInWhere] plans: a subquery
    that is not colocated with the anchor and does not refer to an outer
    query. *)
Definition planned_in_where (colocatedJoinChecker : ColocatedJoinChecker) (q : Query)
  : bool :=
  negb (SubqueryColocated q colocatedJoinChecker)
  && negb (ContainsReferencesToOuterQuery q).

Definition sublink_settled (colocatedJoinChecker : ColocatedJoinChecker) (q q' : Query)
  : Prop :=
  if planned_in_where colocatedJoinChecker q
  then q_addr q' = q_addr q /\ result_read_of (targetList q) q'
  else q' = q.

(** [SublinkListFromWhere], as the subselects of the sublinks. *)
Definition SublinkListFromWhere (originalQuery : Query) : list Query :=
  match quals_of (jointree originalQuery) with
  | Some queryQuals => ExtractSublinkWalker queryQuals
  | None => []
  end.

(** A query with the fields of one that [BuildSubPlanResultQuery] builds:
    it reads the result of a subplan. *)
Definition reads_a_result (q : Query) : Prop :=
  exists targetEntryList columnAliasList resultId s resultQuery s',
    BuildSubPlanResultQuery targetEntryList columnAliasList resultId s
    = (Done resultQuery, s') /\
    set_q_addr q (q_addr resultQuery) = resultQuery.

(** What has become of a reference once the CTEs [ctes] have been planned:
    a reference to one of them is a subquery entry that reads a result, any
    other is as it was. *)
Definition reference_settled (ctes : list CommonTableExpr) (rte rte' : RangeTblEntry)
  : Prop :=
  if existsb (fun cte => refers_to (cte_name cte) rte) ctes
  then exists sub,
         rte' = mkRTE (reads_result_data (rte_data rte)) (Some sub) (functions rte) /\
         reads_a_result sub
  else rte' = rte.

End FurtherNotions.

(** Another stand-in: the subquery at address 1 is the anchor, no other
    subquery is colocated with it. *)
Definition sample_collaborators_apart : Collaborators := {|
  PlannedStmt := (Query * Z)%type;
  PlannerRestrictionContext := unit;
  ColocatedJoinChecker := unit;
  planner := fun q options => Some (q, options);
  exprType := fun n =>
    match n with
    | T_Var _ _ t _ _ _ => t
    | T_Const t _ _ _ => t
    | T_FuncExpr _ t _ _ => t
    | _ => 0
    end;
  exprTypmod := fun _ => -1;
  exprCollation := fun _ => 0;
  get_expr_result_tupdesc := fun _ => None;
  IsCitusTable := fun relationId => 100 <=? relationId;
  IsCitusLocalTable := fun _ => false;
  IsDistributedTable := fun relationId => 200 <=? relationId;
  CitusReadIntermediateResultFuncId := 9001;
  CitusCopyFormatTypeId := 9002;
  BinaryCopyFormatId := 9003;
  TextCopyFormatId := 9004;
  CanUseBinaryCopyFormatForType := fun t => negb (t =? 705);
  SubqueryPushdown := false;
  CURSOR_OPT_FORCE_DISTRIBUTED := 524288;
  ContainsReadIntermediateResultFunction := fun _ => false;
  AllDistributionKeysInQueryAreEqual := fun _ _ => false;
  FilterPlannerRestrictionForQuery := fun c _ => c;
  CanPushdownSubquery := fun _ _ => true;
  DeferErrorIfUnsupportedUnionQuery := fun _ => None;
  SafeToPushdownUnionSubquery := fun _ _ => true;
  JoinTreeContainsSubquery := fun _ => true;
  WhereOrHavingClauseContainsSubquery := fun _ => false;
  hasOuterJoin := fun _ => true;
  CreateColocatedJoinChecker := fun _ _ => Some tt;
  SubqueryColocated := fun q _ => Nat.eqb (q_addr q) 1;
  ShouldConvertLocalTableJoinsToSubqueries := fun _ => false;
  LocalTableJoinConversions := fun _ _ => [];
  RequiredAttrNumbersForRelation := fun _ _ => [1];
  WrapRteRelationIntoSubquery := fun a rte _ =>
    mkQuery a CMD_SELECT false [] [rte] (Some (T_FromExpr [T_RangeTblRef 1] None))
            [mkTargetEntry (T_Var 1 1 23 (-1) 0 0) 1 (Some "a") false] [] None None;
  CreateAllTargetListForRelation := fun _ _ =>
    [mkTargetEntry (T_Var 1 1 23 (-1) 0 0) 1 (Some "a") false];
  GetRestrictInfoListForRelation := fun _ _ => [];
  make_ands_explicit := fun l => match l with [] => None | e :: _ => Some e end
|}.

(** (SELECT a FROM dist) x JOIN (SELECT a FROM dist2) y ON true. *)
Definition sample_join_of_subqueries : Query :=
  mkQuery 0 CMD_SELECT false []
          [sample_rte RTE_SUBQUERY 0 (Some (sample_select 1 200));
           sample_rte RTE_SUBQUERY 0 (Some (sample_select 2 201))]
          (Some (T_FromExpr [T_JoinExpr JOIN_INNER (T_RangeTblRef 1) (T_RangeTblRef 2)
                                        None] None))
          [sample_column "a"] [] None None.

Definition sample_state_apart : @PlanState sample_collaborators_apart :=
  @mkPlanState sample_collaborators_apart
    (@mkRecursivePlanningContext sample_collaborators_apart 0 7 false [] tt) 10 1.

(** A sublink over a local table:
    SELECT a FROM local WHERE EXISTS (SELECT a FROM dist). *)
Definition sample_sublink_over_local : Query :=
  mkQuery 0 CMD_SELECT false [] [sample_rte RTE_RELATION 10 None]
          (Some (T_FromExpr [T_RangeTblRef 1]
                            (Some (T_SubLink None (sample_select 1 200)))))
          [sample_column "a"] [] None None.

(** A sublink over another distributed table:
    SELECT a FROM dist WHERE EXISTS (SELECT a FROM dist2). *)
Definition sample_sublink_over_distributed : Query :=
  mkQuery 0 CMD_SELECT false [] [sample_rte RTE_RELATION 200 None]
          (Some (T_FromExpr [T_RangeTblRef 1]
                            (Some (T_SubLink None (sample_select 2 201)))))
          [sample_column "a"] [] None None.

(** A HAVING clause with a subquery that refers to the query around it:
    SELECT a FROM dist HAVING count > (SELECT outer.a FROM dist). *)
Definition sample_having_correlated_query : Query :=
  mkQuery 0 CMD_SELECT false [] [sample_rte RTE_RELATION 200 None]
          (Some (T_FromExpr [T_RangeTblRef 1] None)) [sample_column "a"] []
          (Some (T_OpExpr 521
                   [T_Aggref 0 [];
                    T_SubLink None
                      (mkQuery 5 CMD_SELECT false [] [sample_rte RTE_RELATION 200 None]
                               (Some (T_FromExpr [T_RangeTblRef 1] None))
                               [mkTargetEntry (T_Var 1 1 23 (-1) 0 1) 1 (Some "a") false]
                               [] None None)]))
          None.

(* ================================================================== *)
(** * Properties *)

Lemma RTEKind_eqb_eq (a b : RTEKind) : RTEKind_eqb a b = true <-> a = b.
Proof. destruct a, b; simpl; split; intro E; try reflexivity; discriminate E. Qed.

Lemma CmdType_eqb_eq (a b : CmdType) : CmdType_eqb a b = true <-> a = b.
Proof. destruct a, b; simpl; split; intro E; try reflexivity; discriminate E. Qed.

(* ------------------------------------------------------------------ *)
(** ** The monad *)

Section Properties.

Context {collaborators : Collaborators}.

Lemma bind_Done {A B : Type} (m : M A) (k : A -> M B) (s s1 : PlanState) (a : A) :
  m s = (Done a, s1) -> bind m k s = k a s1.
Proof. intro E. unfold bind. rewrite E. reflexivity. Qed.

Lemma bind_inv_Done {A B : Type} (m : M A) (k : A -> M B) (s s2 : PlanState) (b : B) :
  bind m k s = (Done b, s2) ->
  exists a s1, m s = (Done a, s1) /\ k a s1 = (Done b, s2).
Proof.
  unfold bind. destruct (m s) as [[a| |] s1]; intro E; try discriminate E.
  exists a, s1. split; [reflexivity | exact E].
Qed.

Lemma mapM_inv_Done {A B : Type} (f : A -> M B) (l : list A) :
  forall s s' l',
    mapM f l s = (Done l', s') ->
    List.length l' = List.length l /\
    forall i x, nth_error l i = Some x ->
      exists y si si', f x si = (Done y, si') /\ nth_error l' i = Some y.
Proof.
  induction l as [|x t IH]; intros s s' l' E; simpl in E.
  - inversion E; subst. split; [reflexivity|]. intros [|i] x0 E0; discriminate E0.
  - apply bind_inv_Done in E. destruct E as (y & s1 & Ey & E).
    apply bind_inv_Done in E. destruct E as (r & s2 & Er & E).
    inversion E; subst. destruct (IH _ _ _ Er) as [Hlen Hnth].
    split; [simpl; now rewrite Hlen|].
    intros [|i] x0 E0; simpl in E0.
    + inversion E0; subst. exists y, s, s1. split; [exact Ey | reflexivity].
    + destruct (Hnth _ _ E0) as (y0 & si & si' & Hf & Hn).
      exists y0, si, si'. split; [exact Hf | exact Hn].
Qed.

(* ------------------------------------------------------------------ *)
(** ** The query that reads an intermediate result *)

Lemma BuildResultColumns_length (aliases : list string) (tl : list TargetEntry) :
  forall n, List.length (BuildResultColumns aliases n tl) = List.length (output_columns tl).
Proof.
  induction tl as [|te tl IH]; intro n; simpl; [reflexivity|].
  destruct (te_resjunk te); simpl; [apply IH | f_equal; apply IH].
Qed.

Lemma BuildResultColumns_nth (aliases : list string) (tl : list TargetEntry) :
  forall n j orig,
    1 <= n ->
    nth_error (output_columns tl) j = Some orig ->
    exists col,
      nth_error (BuildResultColumns aliases n tl) j = Some col /\
      col_name col = te_resname orig /\
      te_resjunk (col_entry col) = false /\
      te_resno (col_entry col) = n + Z.of_nat j /\
      te_resname (col_entry col) =
        match nth_error aliases (Z.to_nat (n - 1) + j) with
        | Some a => Some a
        | None => te_resname orig
        end.
Proof.
  induction tl as [|te tl IH]; intros n j orig Hn E; simpl in E.
  - destruct j; discriminate E.
  - simpl. destruct (te_resjunk te) eqn:J; simpl in E.
    + apply IH; assumption.
    + destruct j as [|j]; simpl in E.
      * inversion E; subst orig. eexists. split; [reflexivity|]. simpl.
        repeat split; [lia|].
        rewrite Nat.add_0_r. unfold list_length.
        destruct (Z.of_nat (List.length aliases) >=? n) eqn:G.
        -- assert (L : (Z.to_nat (n - 1) < List.length aliases)%nat) by lia.
           destruct (nth_error aliases (Z.to_nat (n - 1))) as [a|] eqn:Ea.
           ++ f_equal. apply nth_error_nth. exact Ea.
           ++ apply nth_error_None in Ea. lia.
        -- assert (L : (List.length aliases <= Z.to_nat (n - 1))%nat) by lia.
           apply nth_error_None in L. rewrite L. reflexivity.
      * destruct (IH (n + 1) j orig ltac:(lia) E) as (col & Hc & Hname & Hj & Hno & Hres).
        exists col. simpl. repeat split; try assumption; [lia|].
        rewrite Hres. replace (Z.to_nat (n + 1 - 1) + j)%nat with (Z.to_nat (n - 1) + S j)%nat
          by lia. reflexivity.
Qed.

Lemma CanUseBinaryCopyFormatForTargetList_spec (tl : list TargetEntry) :
  CanUseBinaryCopyFormatForTargetList tl = true <->
  forall te, In te tl -> te_resjunk te = false ->
             CanUseBinaryCopyFormatForType (exprType (te_expr te)) = true.
Proof.
  unfold CanUseBinaryCopyFormatForTargetList. rewrite forallb_forall. split.
  - intros H te Hin J. specialize (H te Hin). rewrite J in H. exact H.
  - intros H te Hin. destruct (te_resjunk te) eqn:J; [reflexivity|]. simpl.
    apply H; assumption.
Qed.

(** C9.  The query built for a subplan is a SELECT over one function entry
    calling the read function on the result id and a copy format; the
    format is binary exactly when the type of every target entry that is
    not junk can be copied in binary; the j-th output column is named by
    the j-th alias when there is one and keeps its own name otherwise. *)
Theorem result_query_shape_format_and_names
        (targetEntryList : list TargetEntry) (columnAliasList : list string)
        (resultId : string) (s : PlanState) :
  exists (resultQuery : Query) (d : RteData) (f : RangeTblFunction) (useBinary : bool),
    BuildSubPlanResultQuery targetEntryList columnAliasList resultId s
      = (Done resultQuery, alloc_state s) /\
    commandType resultQuery = CMD_SELECT /\
    jointree resultQuery = Some (T_FromExpr [T_RangeTblRef 1] None) /\
    rtable resultQuery = [mkRTE d None [f]] /\
    rtekind d = RTE_FUNCTION /\
    rtf_funcexpr f =
      T_FuncExpr CitusReadIntermediateResultFuncId 0 true
        [T_Const TEXTOID (-1) (TextDatum resultId) false;
         T_Const CitusCopyFormatTypeId 4
                 (OidDatum (if useBinary then BinaryCopyFormatId else TextCopyFormatId))
                 true] /\
    (useBinary = true <->
     forall te, In te targetEntryList -> te_resjunk te = false ->
                CanUseBinaryCopyFormatForType (exprType (te_expr te)) = true) /\
    List.length (targetList resultQuery) = List.length (output_columns targetEntryList) /\
    forall j original,
      nth_error (output_columns targetEntryList) j = Some original ->
      exists te,
        nth_error (targetList resultQuery) j = Some te /\
        te_resjunk te = false /\
        te_resname te = match nth_error columnAliasList j with
                        | Some columnAlias => Some columnAlias
                        | None => te_resname original
                        end.
Proof.
  unfold BuildSubPlanResultQuery, BuildReadIntermediateResultsQuery.
  do 4 eexists. split; [reflexivity|]. simpl.
  repeat split; try reflexivity.
  - apply CanUseBinaryCopyFormatForTargetList_spec.
  - apply CanUseBinaryCopyFormatForTargetList_spec.
  - rewrite length_map. apply BuildResultColumns_length.
  - intros j original E.
    destruct (BuildResultColumns_nth columnAliasList targetEntryList 1 j original
                ltac:(lia) E) as (col & Hc & _ & Hj & _ & Hres).
    exists (col_entry col). split; [|split; [exact Hj | exact Hres]].
    rewrite nth_error_map, Hc. reflexivity.
Qed.

(* ------------------------------------------------------------------ *)
(** ** Wrapping functions *)

Lemma copyObject_RTE_data (rte copy : RangeTblEntry) (s s' : PlanState) :
  copyObject_RTE rte s = (Done copy, s') -> rte_data copy = rte_data rte.
Proof.
  destruct rte as [d sub funcs]. simpl. intro E.
  apply bind_inv_Done in E. destruct E as (sub' & s1 & _ & E).
  apply bind_inv_Done in E. destruct E as (funcs' & s2 & _ & E).
  inversion E; subst. reflexivity.
Qed.

Lemma TransformFunctionRTE_wraps (rte rte' : RangeTblEntry) (s s' : PlanState) :
  TransformFunctionRTE rte s = (Done rte', s') -> wraps rte rte'.
Proof.
  unfold TransformFunctionRTE. intro E.
  apply bind_inv_Done in E. destruct E as (a & s1 & _ & E).
  destruct (functions rte) as [|f fs]; [discriminate E|].
  apply bind_inv_Done in E. destruct E as (copy & s2 & Hcopy & E).
  apply bind_inv_Done in E. destruct E as (tl & s3 & _ & E).
  inversion E; subst. split; [reflexivity|].
  eexists. exists copy. simpl. repeat split; try reflexivity.
  eapply copyObject_RTE_data. exact Hcopy.
Qed.

Lemma ShouldTransformRTE_true (rte : RangeTblEntry) :
  ShouldTransformRTE rte = true <->
  rtekind (rte_data rte) = RTE_FUNCTION /\ lateral (rte_data rte) = false
  /\ funcordinality (rte_data rte) = false.
Proof.
  unfold ShouldTransformRTE.
  destruct (rtekind (rte_data rte)), (lateral (rte_data rte)),
    (funcordinality (rte_data rte)); simpl; split;
    try (intro H; discriminate H); try (intros (H1 & H2 & H3); discriminate);
    try (intros _; repeat split; reflexivity); intros; reflexivity.
Qed.

(** C8.  After the function-wrapping pass every range table entry is at
    its old position; an entry is replaced by a subquery wrapping a copy of
    it when the range table has at least two entries and the entry is a
    function entry that is neither LATERAL nor WITH ORDINALITY, and is left
    as it was in every other case. *)
Theorem function_rte_wrapped_iff_should_wrap (query query' : Query) (s s' : PlanState) :
  WrapFunctionsInSubqueries query s = (Done query', s') ->
  List.length (rtable query') = List.length (rtable query) /\
  forall i rte,
    nth_error (rtable query) i = Some rte ->
    exists rte',
      nth_error (rtable query') i = Some rte' /\
      (should_wrap (rtable query) rte -> wraps rte rte' /\ rte' <> rte) /\
      (~ should_wrap (rtable query) rte -> rte' = rte).
Proof.
  unfold WrapFunctionsInSubqueries, list_length. intro E.
  destruct (Z.of_nat (List.length (rtable query)) <? 2) eqn:L.
  - inversion E; subst. split; [reflexivity|]. intros i rte Hi. exists rte.
    split; [exact Hi|]. split; [|reflexivity].
    intros (H2 & _). apply Z.ltb_lt in L. lia.
  - apply Z.ltb_ge in L.
    apply bind_inv_Done in E. destruct E as (wrapped & s1 & Hmap & E).
    inversion E; subst. destruct query as [a c hr ctes rt jt tl rl hq so]; simpl in *.
    destruct (mapM_inv_Done _ _ _ _ _ Hmap) as [Hlen Hnth].
    split; [exact Hlen|]. intros i rte Hi.
    destruct (Hnth _ _ Hi) as (rte' & si & si' & Hf & Hn).
    exists rte'. split; [exact Hn|]. unfold WrapFunctionRTE in Hf.
    destruct (ShouldTransformRTE rte) eqn:T.
    + split; [|intro N; exfalso; apply N; split; [lia|];
                 apply ShouldTransformRTE_true; exact T].
      intros _. pose proof (TransformFunctionRTE_wraps _ _ _ _ Hf) as W.
      split; [exact W|]. intro Eq. subst rte'.
      apply ShouldTransformRTE_true in T. destruct T as (K & _).
      destruct W as (K' & _). rewrite K in K'. discriminate K'.
    + inversion Hf; subst. split; [|reflexivity].
      intros (_ & H). apply ShouldTransformRTE_true in H. rewrite H in T. discriminate T.
Qed.

(* ------------------------------------------------------------------ *)
(** ** Planning one subquery *)

Lemma uint32_int32 (z : Z) : uint32 (int32 z) = uint32 z.
Proof.
  unfold uint32, int32. rewrite Zminus_mod_idemp_l. f_equal. lia.
Qed.

Lemma BuildSubPlanResultQuery_Done (tl : list TargetEntry) (aliases : list string)
      (resultId : string) (s : PlanState) :
  exists resultQuery,
    BuildSubPlanResultQuery tl aliases resultId s = (Done resultQuery, alloc_state s)
    /\ q_addr resultQuery = brk s.
Proof. eexists. split; reflexivity. Qed.

Lemma CreateDistributedSubPlan_cases (subPlanId : Z) (q : Query) (s : PlanState) :
  CreateDistributedSubPlan subPlanId q s =
  match planner q (cursor_options q) with
  | Some plannedStmt => (Done (mkDistributedSubPlan (uint32 subPlanId) plannedStmt), s)
  | None => (Raised "planner", s)
  end.
Proof.
  unfold CreateDistributedSubPlan, cursor_options.
  destruct (planner q _); reflexivity.
Qed.

Lemma RecursivelyPlanSubquery_cases (subquery : Query) (s : PlanState) :
  RecursivelyPlanSubquery subquery s =
  if ContainsReferencesToOuterQuery subquery then (Done (false, subquery), s)
  else match planner subquery (cursor_options subquery) with
       | None => (Raised "planner", s)
       | Some plannedStmt =>
           let s1 := append_subplan s plannedStmt in
           let resultId :=
             GenerateResultId (planId (context s))
                              (list_length (subPlanList (context s)) + 1) in
           match BuildSubPlanResultQuery (targetList subquery) [] resultId s1 with
           | (Done resultQuery, s2) => (Done (true, overwrite_Query subquery resultQuery), s2)
           | (Raised m, s2) => (Raised m, s2)
           | (OutOfFuel, s2) => (OutOfFuel, s2)
           end
       end.
Proof.
  unfold RecursivelyPlanSubquery, bind at 1, get_context.
  destruct (ContainsReferencesToOuterQuery subquery); [reflexivity|].
  unfold bind at 1. rewrite CreateDistributedSubPlan_cases.
  destruct (planner subquery (cursor_options subquery)) as [p|]; [|reflexivity].
  unfold bind at 1, put_context. unfold append_subplan.
  rewrite uint32_int32.
  assert (G : forall z, GenerateResultId (planId (context s)) (int32 z)
                        = GenerateResultId (planId (context s)) z).
  { intro z. unfold GenerateResultId. rewrite uint32_int32. reflexivity. }
  rewrite G. unfold bind.
  destruct (BuildSubPlanResultQuery _ _ _ _) as [[r| |] s2]; reflexivity.
Qed.

Lemma RecursivelyPlanSubquery_outcomes (subquery : Query) (s : PlanState) :
  (ContainsReferencesToOuterQuery subquery = true /\
   RecursivelyPlanSubquery subquery s = (Done (false, subquery), s))
  \/
  (ContainsReferencesToOuterQuery subquery = false /\
   planner subquery (cursor_options subquery) = None /\
   RecursivelyPlanSubquery subquery s = (Raised "planner", s))
  \/
  (ContainsReferencesToOuterQuery subquery = false /\
   exists plannedStmt resultQuery,
     planner subquery (cursor_options subquery) = Some plannedStmt /\
     BuildSubPlanResultQuery (targetList subquery) []
       (GenerateResultId (planId (context s))
                         (list_length (subPlanList (context s)) + 1))
       (append_subplan s plannedStmt)
     = (Done resultQuery, alloc_state (append_subplan s plannedStmt)) /\
     RecursivelyPlanSubquery subquery s
     = (Done (true, overwrite_Query subquery resultQuery),
        alloc_state (append_subplan s plannedStmt)) /\
     subPlanList (context (alloc_state (append_subplan s plannedStmt)))
     = subPlanList (context s)
       ++ [mkDistributedSubPlan (uint32 (list_length (subPlanList (context s)) + 1))
                                plannedStmt] /\
     q_addr (overwrite_Query subquery resultQuery) = q_addr subquery /\
     set_q_addr (overwrite_Query subquery resultQuery) (q_addr resultQuery)
     = resultQuery).
Proof.
  rewrite RecursivelyPlanSubquery_cases.
  destruct (ContainsReferencesToOuterQuery subquery); [left; split; reflexivity|].
  right. destruct (planner subquery (cursor_options subquery)) as [p|].
  - right. split; [reflexivity|]. cbv zeta.
    destruct (BuildSubPlanResultQuery_Done (targetList subquery) []
                (GenerateResultId (planId (context s))
                                  (list_length (subPlanList (context s)) + 1))
                (append_subplan s p)) as (rq & Hrq & _).
    exists p, rq. rewrite Hrq. repeat split; try reflexivity.
    + unfold overwrite_Query. destruct rq; reflexivity.
    + unfold overwrite_Query. destruct rq; reflexivity.
  - left. repeat split; reflexivity.
Qed.

(** C7.  A subquery that refers to an outer query is left alone: the call
    answers false, and neither the subquery nor the planning state changes.
    For any other subquery, unless the planner raises, the call appends one
    subplan, numbered one more than the subplans before it, and answers
    true; the object the caller passed holds the fields of the query that
    reads that subplan's result and is still at its address. *)
Theorem subquery_left_alone_or_replaced_in_place (subquery : Query) (s : PlanState) :
  (ContainsReferencesToOuterQuery subquery = true /\
   RecursivelyPlanSubquery subquery s = (Done (false, subquery), s))
  \/
  (ContainsReferencesToOuterQuery subquery = false /\
   planner subquery (cursor_options subquery) = None /\
   RecursivelyPlanSubquery subquery s = (Raised "planner", s))
  \/
  (ContainsReferencesToOuterQuery subquery = false /\
   exists plannedStmt resultQuery,
     planner subquery (cursor_options subquery) = Some plannedStmt /\
     BuildSubPlanResultQuery (targetList subquery) []
       (GenerateResultId (planId (context s))
                         (list_length (subPlanList (context s)) + 1))
       (append_subplan s plannedStmt)
     = (Done resultQuery, alloc_state (append_subplan s plannedStmt)) /\
     RecursivelyPlanSubquery subquery s
     = (Done (true, overwrite_Query subquery resultQuery),
        alloc_state (append_subplan s plannedStmt)) /\
     subPlanList (context (alloc_state (append_subplan s plannedStmt)))
     = subPlanList (context s)
       ++ [mkDistributedSubPlan (uint32 (list_length (subPlanList (context s)) + 1))
                                plannedStmt] /\
     q_addr (overwrite_Query subquery resultQuery) = q_addr subquery /\
     set_q_addr (overwrite_Query subquery resultQuery) (q_addr resultQuery)
     = resultQuery).
Proof. apply RecursivelyPlanSubquery_outcomes. Qed.

(* ------------------------------------------------------------------ *)
(** ** CTEs *)

Lemma mapM_fixed {A : Type} (f : A -> M A) (l : list A) :
  (forall x, In x l -> forall s, f x s = (Done x, s)) ->
  forall s, mapM f l s = (Done l, s).
Proof.
  induction l as [|x t IH]; intros H s; simpl; [reflexivity|].
  erewrite bind_Done; [|apply H; left; reflexivity].
  erewrite bind_Done; [|apply IH; intros y Hy; apply H; right; exact Hy].
  reflexivity.
Qed.

Lemma BuildResultColumns_entries (aliases : list string) (tl : list TargetEntry) :
  forall n te,
    In te (map col_entry (BuildResultColumns aliases n tl)) ->
    exists a b c d e f no name junk, te = mkTargetEntry (T_Var a b c d e f) no name junk.
Proof.
  induction tl as [|t tl IH]; intros n te H; simpl in H; [contradiction|].
  destruct (te_resjunk t).
  - eapply IH. exact H.
  - simpl in H. destruct H as [H|H].
    + subst te. repeat eexists.
    + eapply IH. exact H.
Qed.

(** A copy of a query that reads a result has the same fields at the next
    free address. *)
Lemma copyObject_result_query (tl : list TargetEntry) (aliases : list string)
      (resultId : string) (s0 s1 : PlanState) (resultQuery : Query) :
  BuildSubPlanResultQuery tl aliases resultId s0 = (Done resultQuery, s1) ->
  forall s, copyObject_Query resultQuery s
            = (Done (set_q_addr resultQuery (brk s)), alloc_state s).
Proof.
  unfold BuildSubPlanResultQuery, BuildReadIntermediateResultsQuery. intro E.
  apply bind_inv_Done in E. destruct E as (a & s2 & _ & E).
  inversion E; subst; clear E. intro s. simpl.
  unfold bind at 1. unfold makeNode_Query at 1. fold (alloc_state s).
  cbv [bind ret]. rewrite mapM_fixed; [reflexivity|].
  intros te Hin s'.
  destruct (BuildResultColumns_entries _ _ _ _ Hin)
    as (x1 & x2 & x3 & x4 & x5 & x6 & no & name & junk & ->).
  reflexivity.
Qed.


Lemma uint32_uint32 (z : Z) : uint32 (uint32 z) = uint32 z.
Proof. unfold uint32. apply Z.mod_mod. lia. Qed.

Lemma GenerateResultId_uint32 (p z : Z) :
  GenerateResultId p (uint32 z) = GenerateResultId p z.
Proof. unfold GenerateResultId. rewrite uint32_uint32. reflexivity. Qed.

Lemma PlanCTE_skipped (cte : CommonTableExpr) (cells : list RangeTblEntry)
      (s : PlanState) :
  is_unreferenced_select cte = true ->
  PlanCTE cte cells s
  = (Done (if ContainsReferencesToOuterQuery (cte_query cte)
           then inl cte_outer_reference_error else inr cells), s).
Proof.
  intro U. unfold PlanCTE, bind at 1, get_context.
  destruct (ContainsReferencesToOuterQuery (cte_query cte)); [reflexivity|].
  rewrite U. reflexivity.
Qed.

Lemma PlanCTE_planned (cte : CommonTableExpr) (cells cells' : list RangeTblEntry)
      (s s' : PlanState) :
  is_unreferenced_select cte = false ->
  PlanCTE cte cells s = (Done (inr cells'), s') ->
  exists plannedStmt resultQuery,
    ContainsReferencesToOuterQuery (cte_query cte) = false /\
    planner (cte_query cte) (cursor_options (cte_query cte)) = Some plannedStmt /\
    BuildSubPlanResultQuery (cte_target_list cte) (cte_aliascolnames cte)
      (GenerateResultId (planId (context s))
                        (list_length (subPlanList (context s)) + 1))
      (append_subplan s plannedStmt)
    = (Done resultQuery, alloc_state (append_subplan s plannedStmt)) /\
    ReplaceCteReferences (cte_name cte) resultQuery cells 0
                         (alloc_state (append_subplan s plannedStmt))
    = (Done (cells', cte_refcount cte), s').
Proof.
  intros U E. unfold PlanCTE in E.
  apply bind_inv_Done in E. destruct E as (ctx & s0 & Hget & E).
  unfold get_context in Hget. inversion Hget; subst ctx s0; clear Hget.
  destruct (ContainsReferencesToOuterQuery (cte_query cte));
    [unfold ret in E; discriminate E|].
  rewrite U in E.
  apply bind_inv_Done in E. destruct E as (sp & s1 & Hsp & E).
  rewrite CreateDistributedSubPlan_cases in Hsp.
  destruct (planner (cte_query cte) (cursor_options (cte_query cte))) as [p|];
    [|discriminate Hsp].
  inversion Hsp; subst sp s1; clear Hsp.
  apply bind_inv_Done in E. destruct E as ([] & s1 & Hput & E).
  unfold put_context in Hput. inversion Hput; subst s1; clear Hput.
  rewrite uint32_uint32 in E. fold (append_subplan s p) in E.
  rewrite GenerateResultId_uint32 in E. fold (cte_target_list cte) in E.
  apply bind_inv_Done in E. destruct E as (rq & s2 & Hrq & E).
  apply bind_inv_Done in E. destruct E as ([cs n] & s3 & Hrep & E).
  apply bind_inv_Done in E. destruct E as ([] & s4 & Hassert & E).
  unfold Assert in Hassert. cbn [snd fst] in Hassert, E.
  destruct (cte_refcount cte =? n) eqn:Hn;
    [|unfold ereport_ERROR in Hassert; discriminate Hassert].
  inversion Hassert; subst s4; clear Hassert. apply Z.eqb_eq in Hn.
  inversion E; subst cs s3; clear E.
  destruct (BuildSubPlanResultQuery_Done (cte_target_list cte) (cte_aliascolnames cte)
              (GenerateResultId (planId (context s))
                                (list_length (subPlanList (context s)) + 1))
              (append_subplan s p)) as (rq' & Hrq' & _).
  rewrite Hrq' in Hrq. inversion Hrq; subst rq' s2; clear Hrq.
  exists p, rq. repeat split; try assumption. rewrite Hn. exact Hrep.
Qed.



Lemma RecursivelyPlanCTEs_clears (query query' : Query) (s s' : PlanState) :
  RecursivelyPlanCTEs query s = (Done (None, query'), s') -> cteList query' = [].
Proof.
  unfold RecursivelyPlanCTEs. destruct (cteList query) eqn:L.
  - intro E. inversion E; subst. exact L.
  - destruct (hasRecursive query); [intro E; discriminate E|].
    intro E. apply bind_inv_Done in E. destruct E as ([e cs] & s1 & _ & E).
    cbn [fst snd] in E. destruct e; inversion E.
    destruct (store_cte_references query cs); reflexivity.
Qed.


(* ------------------------------------------------------------------ *)
(** ** Range tables *)

Lemma list_set_length {A : Type} (l : list A) :
  forall i x, List.length (list_set l i x) = List.length l.
Proof.
  induction l as [|h t IH]; intros [|i] x; simpl; try reflexivity. now rewrite IH.
Qed.

Lemma list_set_same {A : Type} (l : list A) :
  forall i x, (i < List.length l)%nat -> nth_error (list_set l i x) i = Some x.
Proof.
  induction l as [|h t IH]; intros [|i] x L; simpl in *; try lia; [reflexivity|].
  apply IH. lia.
Qed.

Lemma list_set_other {A : Type} (l : list A) :
  forall i j x, i <> j -> nth_error (list_set l i x) j = nth_error l j.
Proof.
  induction l as [|h t IH]; intros [|i] [|j] x N; simpl; try reflexivity;
    try congruence. apply IH. congruence.
Qed.

Lemma rt_store_length (rt : list RangeTblEntry) (i : Z) (x : RangeTblEntry) :
  List.length (rt_store i rt x) = List.length rt.
Proof. unfold rt_store. destruct (i <=? 0); [reflexivity | apply list_set_length]. Qed.

Lemma rt_fetch_store_same (rt : list RangeTblEntry) (i : Z) (x y : RangeTblEntry) :
  rt_fetch i rt = Some x -> rt_fetch i (rt_store i rt y) = Some y.
Proof.
  unfold rt_fetch, rt_store. destruct (i <=? 0); [intro E; discriminate E|].
  intro E. apply list_set_same. apply nth_error_Some. rewrite E. discriminate.
Qed.

Lemma rt_fetch_store_other (rt : list RangeTblEntry) (i j : Z) (y : RangeTblEntry) :
  i <> j -> rt_fetch j (rt_store i rt y) = rt_fetch j rt.
Proof.
  unfold rt_fetch, rt_store. intro N.
  destruct (j <=? 0) eqn:J; [reflexivity|]. destruct (i <=? 0) eqn:I; [reflexivity|].
  apply list_set_other. apply Z.leb_gt in J. apply Z.leb_gt in I. lia.
Qed.

Lemma rtable_set_rtable (q : Query) (rt : list RangeTblEntry) :
  rtable (set_rtable q rt) = rt.
Proof. destruct q; reflexivity. Qed.

(* ------------------------------------------------------------------ *)
(** ** Set operations *)

Lemma existsb_all_false {A : Type} (f : A -> bool) (l : list A) :
  (forall x, In x l -> f x = false) -> existsb f l = false.
Proof.
  induction l as [|x t IH]; intro H; simpl; [reflexivity|].
  rewrite (H x (or_introl eq_refl)). apply IH. intros y Hy. apply H. right. exact Hy.
Qed.

Lemma FindInQuery_set_q_addr (check : RangeTblEntry -> bool) (q : Query) (a : addr) :
  FindNodeMatchingCheckFunctionInQuery check (set_q_addr q a)
  = FindNodeMatchingCheckFunctionInQuery check q.
Proof. destruct q; reflexivity. Qed.

Lemma result_read_not_distributed (tl : list TargetEntry) (q : Query) :
  result_read_of tl q ->
  FindNodeMatchingCheckFunctionInQuery IsDistributedTableRTE q = false.
Proof.
  intros (rid & s & E).
  rewrite <- (FindInQuery_set_q_addr _ q (brk s)).
  unfold BuildSubPlanResultQuery, BuildReadIntermediateResultsQuery in E.
  apply bind_inv_Done in E. destruct E as (a & s2 & _ & E).
  injection E as E _. rewrite <- E. simpl.
  rewrite existsb_all_false; [reflexivity|].
  intros te Hin.
  destruct (BuildResultColumns_entries _ _ _ _ Hin)
    as (x1 & x2 & x3 & x4 & x5 & x6 & no & name & junk & ->).
  reflexivity.
Qed.

Lemma subquery_replaced_not_distributed (rte rte' : RangeTblEntry) :
  subquery_replaced rte rte' -> is_distributed_subquery_rte rte' = false.
Proof.
  intros (sub & sub' & _ & -> & _ & R). unfold is_distributed_subquery_rte.
  destruct rte as [d o f]. simpl.
  rewrite (result_read_not_distributed _ _ R). apply andb_false_r.
Qed.

Lemma overwrite_result_read (sub resultQuery : Query) (resultId : string)
      (s : PlanState) :
  BuildSubPlanResultQuery (targetList sub) [] resultId s
  = (Done resultQuery, alloc_state s) ->
  q_addr (overwrite_Query sub resultQuery) = q_addr sub /\
  result_read_of (targetList sub) (overwrite_Query sub resultQuery).
Proof.
  intro E. split; [unfold overwrite_Query; destruct resultQuery; reflexivity|].
  exists resultId, s. rewrite E. f_equal. f_equal.
  destruct (BuildSubPlanResultQuery_Done (targetList sub) [] resultId s)
    as (rq & Hrq & Ha).
  rewrite Hrq in E. injection E as E. subst rq. rewrite <- Ha.
  unfold overwrite_Query. destruct resultQuery; reflexivity.
Qed.

(** What one leaf of the set-operation tree does to the range table. *)
Lemma RecursivelyPlanSetOperationLeaf_Done (query query' : Query) (rtindex : Z)
      (s s' : PlanState) :
  RecursivelyPlanSetOperationLeaf query rtindex s = (Done query', s') ->
  exists rte,
    rt_fetch rtindex (rtable query) = Some rte /\
    ((is_distributed_subquery_rte rte = false /\ query' = query)
     \/
     (is_distributed_subquery_rte rte = true /\
      exists sub, subquery rte = Some sub /\
        ((ContainsReferencesToOuterQuery sub = true /\
          rtable query' = rt_store rtindex (rtable query) rte)
         \/
         (ContainsReferencesToOuterQuery sub = false /\
          exists rte', subquery_replaced rte rte' /\
            rtable query' = rt_store rtindex (rtable query) rte')))).
Proof.
  unfold RecursivelyPlanSetOperationLeaf. intro E.
  destruct (rt_fetch rtindex (rtable query)) as [rte|] eqn:F; [|discriminate E].
  exists rte. split; [reflexivity|].
  destruct (subquery rte) as [sub|] eqn:Sub.
  2:{ left. inversion E; subst. split; [|reflexivity].
      unfold is_distributed_subquery_rte. rewrite Sub. apply andb_false_r. }
  destruct (is_distributed_subquery_rte rte) eqn:D.
  2:{ left. inversion E; subst. split; reflexivity. }
  right. split; [reflexivity|]. exists sub. split; [reflexivity|].
  apply bind_inv_Done in E. destruct E as ([b q1] & s1 & Hplan & E).
  injection E as E _. subst query'. rewrite rtable_set_rtable. cbn [snd].
  destruct (RecursivelyPlanSubquery_outcomes sub s)
    as [(O & R) | [(O & _ & R) | (O & p & rq & _ & Hrq & R & _)]];
    rewrite R in Hplan; try discriminate Hplan.
  - left. injection Hplan as _ Hq _. subst q1. split; [exact O|].
    f_equal. destruct rte; simpl in *; subst; reflexivity.
  - right. injection Hplan as _ Hq _. subst q1. split; [exact O|].
    eexists. split; [|reflexivity].
    destruct (overwrite_result_read _ _ _ _ Hrq) as [Ha Hr].
    exists sub, (overwrite_Query sub rq). repeat split; assumption.
Qed.

Lemma rt_fetch_defined (rt rt' : list RangeTblEntry) (i : Z) (x : RangeTblEntry) :
  List.length rt' = List.length rt ->
  rt_fetch i rt' = Some x -> exists y, rt_fetch i rt = Some y.
Proof.
  unfold rt_fetch. intros L E. destruct (i <=? 0); [discriminate E|].
  destruct (nth_error rt (Z.to_nat (i - 1))) as [y|] eqn:N; [exists y; reflexivity|].
  apply nth_error_None in N. rewrite <- L in N. apply nth_error_None in N.
  rewrite N in E. discriminate E.
Qed.

Lemma RecursivelyPlanSetOperations_settles (node : Node) :
  forall query query' s s',
    RecursivelyPlanSetOperations query node s = (Done query', s') ->
    leaves_are_closed node query ->
    List.length (rtable query') = List.length (rtable query) /\
    forall i rte,
      rt_fetch i (rtable query) = Some rte ->
      exists rte',
        rt_fetch i (rtable query') = Some rte' /\
        leaf_entry_settled rte rte' /\
        (In i (setop_leaves node) -> is_distributed_subquery_rte rte' = false).
Proof.
  induction node; intros query query' s s' E Hclosed; simpl in E;
    try (unfold ereport_ERROR in E; discriminate E).
  - (* a leaf *)
    destruct (RecursivelyPlanSetOperationLeaf_Done _ _ _ _ _ E) as (rte0 & F & Hcase).
    destruct Hcase as [(D & ->) | (D & sub & Sub & Hcase)].
    + split; [reflexivity|]. intros i rte Hi. exists rte.
      split; [exact Hi|]. split; [left; reflexivity|].
      intros [<-|[]]. rewrite F in Hi. injection Hi as <-. exact D.
    + assert (O : ContainsReferencesToOuterQuery sub = false).
      { eapply Hclosed; try eassumption. left. reflexivity. }
      destruct Hcase as [(O' & _) | (_ & rte' & Hrep & Hrt)];
        [rewrite O in O'; discriminate O'|].
      rewrite Hrt. split; [apply rt_store_length|].
      intros i rte Hi. destruct (Z.eq_dec rtindex i) as [<-|N].
      * rewrite F in Hi. injection Hi as <-. exists rte'.
        split; [eapply rt_fetch_store_same; exact F|].
        split; [right; split; assumption|].
        intros _. apply subquery_replaced_not_distributed with (rte := rte0). exact Hrep.
      * exists rte. rewrite rt_fetch_store_other by exact N.
        split; [exact Hi|]. split; [left; reflexivity|].
        intros [H|[]]. contradiction.
  - (* a set operation: the left side, then the right side *)
    apply bind_inv_Done in E. destruct E as (q1 & s1 & E1 & E2).
    assert (C1 : leaves_are_closed node1 query).
    { intros i rte sub Hin. apply Hclosed. simpl. apply in_or_app. left. exact Hin. }
    destruct (IHnode1 _ _ _ _ E1 C1) as [L1 H1].
    assert (C2 : leaves_are_closed node2 q1).
    { intros i rte1 sub Hin Hi D Sub.
      destruct (rt_fetch_defined _ _ _ _ L1 Hi) as (rte & Hrte).
      destruct (H1 i rte Hrte) as (rte1' & Hi' & Hs & _).
      rewrite Hi in Hi'. injection Hi' as <-.
      destruct Hs as [->|(_ & Hrep)].
      - eapply Hclosed; try eassumption. simpl. apply in_or_app. right. exact Hin.
      - rewrite (subquery_replaced_not_distributed _ _ Hrep) in D. discriminate D. }
    destruct (IHnode2 _ _ _ _ E2 C2) as [L2 H2].
    split; [now rewrite L2|]. intros i rte Hi.
    destruct (H1 i rte Hi) as (rte1 & Hi1 & Hs1 & Hn1).
    destruct (H2 i rte1 Hi1) as (rte2 & Hi2 & Hs2 & Hn2).
    exists rte2. split; [exact Hi2|].
    assert (Hs : leaf_entry_settled rte rte2).
    { destruct Hs2 as [->|(D2 & Hrep2)]; [exact Hs1|].
      destruct Hs1 as [->|(_ & Hrep1)]; [right; split; assumption|].
      rewrite (subquery_replaced_not_distributed _ _ Hrep1) in D2. discriminate D2. }
    split; [exact Hs|]. simpl. intro Hin. apply in_app_or in Hin.
    destruct Hin as [Hin|Hin]; [|apply Hn2; exact Hin].
    specialize (Hn1 Hin). destruct Hs2 as [->|(D2 & _)]; [exact Hn1|].
    rewrite Hn1 in D2. discriminate D2.
Qed.



(* ------------------------------------------------------------------ *)
(** ** HAVING *)

Lemma filter_flat_map_length {A B : Type} (p : B -> bool) (h : A -> list B) (l : list A) :
  List.length (filter p (flat_map h l))
  = list_sum (map (fun x => List.length (filter p (h x))) l).
Proof.
  induction l as [|x t IH]; simpl; [reflexivity|].
  rewrite filter_app, length_app, IH. reflexivity.
Qed.

Lemma mapM_appends {A B : Type} (f : A -> M B) (g : A -> nat) (l : list A) :
  Forall (fun x => forall s y s', f x s = (Done y, s') ->
                                  subplan_count s' = (subplan_count s + g x)%nat) l ->
  forall s l' s',
    mapM f l s = (Done l', s') ->
    subplan_count s' = (subplan_count s + list_sum (map g l))%nat.
Proof.
  induction 1 as [|x t Hx Ht IH]; intros s l' s' E; simpl in E.
  - inversion E; subst. simpl. lia.
  - apply bind_inv_Done in E. destruct E as (y & s1 & Ey & E).
    apply bind_inv_Done in E. destruct E as (r & s2 & Er & E).
    inversion E; subst. rewrite (IH _ _ _ Er), (Hx _ _ _ Ey). simpl. lia.
Qed.

Lemma mapM_opt_appends {A B : Type} (f : A -> M B) (g : A -> nat) (o : option A) :
  opt_all (fun x => forall s y s', f x s = (Done y, s') ->
                                   subplan_count s' = (subplan_count s + g x)%nat) o ->
  forall s o' s',
    mapM_opt f o s = (Done o', s') ->
    subplan_count s' = (subplan_count s + match o with Some x => g x | None => O end)%nat.
Proof.
  destruct o as [x|]; simpl; intros H s o' s' E.
  - apply bind_inv_Done in E. destruct E as (y & s1 & Ey & E).
    inversion E; subst. eapply H. exact Ey.
  - inversion E; subst. lia.
Qed.

Lemma RecursivelyPlanAllSubqueries_Query_appends (q q' : Query) (s s' : PlanState) :
  RecursivelyPlanAllSubqueries_Query q s = (Done q', s') ->
  subplan_count s'
  = (subplan_count s + if planned_by_all_subqueries q then 1 else 0)%nat.
Proof.
  unfold RecursivelyPlanAllSubqueries_Query, planned_by_all_subqueries.
  destruct (FindNodeMatchingCheckFunctionInRangeTableList (rtable q) IsCitusTableRTE).
  - intro E. apply bind_inv_Done in E. destruct E as (r & s1 & Hr & E).
    inversion E; subst; clear E.
    destruct (RecursivelyPlanSubquery_outcomes q s)
      as [(O & R) | [(O & _ & R) | (O & p & rq & _ & _ & R & L & _)]];
      rewrite R in Hr; try discriminate Hr; rewrite O; simpl.
    + injection Hr as _ <-. lia.
    + injection Hr as _ <-. unfold subplan_count. rewrite L, length_app. reflexivity.
  - intro E. inversion E; subst. simpl. lia.
Qed.

Lemma RecursivelyPlanAllSubqueries_appends (node : Node) :
  forall s node' s',
    RecursivelyPlanAllSubqueries node s = (Done node', s') ->
    subplan_count s' = (subplan_count s + count_planned node)%nat.
Proof.
  unfold count_planned.
  induction node using tree_ind_Node
    with (PQ := fun _ => True) (PR := fun _ => True) (PT := fun _ => True)
         (PC := fun _ => True) (PF := fun _ => True);
    try exact I; intros s node' s' E; simpl in E.
  - inversion E; subst. simpl. lia.
  - inversion E; subst. simpl. lia.
  - apply bind_inv_Done in E. destruct E as (a & s1 & Ha & E). inversion E; subst.
    simpl. rewrite filter_flat_map_length. eapply mapM_appends; eassumption.
  - apply bind_inv_Done in E. destruct E as (a & s1 & Ha & E). inversion E; subst.
    simpl. rewrite filter_flat_map_length. eapply mapM_appends; eassumption.
  - apply bind_inv_Done in E. destruct E as (a & s1 & Ha & E). inversion E; subst.
    simpl. eapply IHnode. exact Ha.
  - apply bind_inv_Done in E. destruct E as (a & s1 & Ha & E). inversion E; subst.
    simpl. rewrite filter_flat_map_length. eapply mapM_appends; eassumption.
  - apply bind_inv_Done in E. destruct E as (a & s1 & Ha & E). inversion E; subst.
    simpl. rewrite filter_flat_map_length. eapply mapM_appends; eassumption.
  - apply bind_inv_Done in E. destruct E as (t' & s1 & Ht & E).
    apply bind_inv_Done in E. destruct E as (q' & s2 & Hq & E). inversion E; subst.
    simpl. rewrite filter_app, length_app.
    rewrite (RecursivelyPlanAllSubqueries_Query_appends _ _ _ _ Hq).
    rewrite (mapM_opt_appends _ _ _ H _ _ _ Ht). simpl.
    destruct t; destruct (planned_by_all_subqueries q); simpl; lia.
  - inversion E; subst. simpl. lia.
  - apply bind_inv_Done in E. destruct E as (l' & s1 & Hl & E).
    apply bind_inv_Done in E. destruct E as (r' & s2 & Hr & E).
    apply bind_inv_Done in E. destruct E as (qs' & s3 & Hqs & E). inversion E; subst.
    simpl. rewrite !filter_app, !length_app.
    rewrite (mapM_opt_appends _ _ _ H _ _ _ Hqs), (IHnode2 _ _ _ Hr), (IHnode1 _ _ _ Hl).
    destruct qs; simpl; lia.
  - apply bind_inv_Done in E. destruct E as (fl' & s1 & Hfl & E).
    apply bind_inv_Done in E. destruct E as (qs' & s2 & Hqs & E). inversion E; subst.
    simpl. rewrite filter_app, length_app, filter_flat_map_length.
    rewrite (mapM_opt_appends _ _ _ H0 _ _ _ Hqs), (mapM_appends _ _ _ H _ _ _ Hfl).
    destruct qs; simpl; lia.
  - apply bind_inv_Done in E. destruct E as (l' & s1 & Hl & E).
    apply bind_inv_Done in E. destruct E as (r' & s2 & Hr & E). inversion E; subst.
    simpl. rewrite filter_app, length_app.
    rewrite (IHnode2 _ _ _ Hr), (IHnode1 _ _ _ Hl). lia.
Qed.


(* ------------------------------------------------------------------ *)
(** ** What every planning step keeps

    A property of the planning state that survives an allocation, a change
    of the nesting level and the appending of a correctly numbered subplan
    survives the whole descent, whatever its outcome. *)

Section Invariant.

Variable P : PlanState -> Prop.

Hypothesis P_alloc : forall s, P s -> P (alloc_state s).
Hypothesis P_level :
  forall s n, P s ->
    P (mkPlanState (set_level (context s) n) (brk s) (recursivePlanningDepth s)).
Hypothesis P_append : forall s plannedStmt, P s -> P (append_subplan s plannedStmt).

Lemma preserves_elim {A : Type} (m : M A) :
  preserves P m -> forall s, P s -> P (snd (m s)).
Proof. intros [H]. exact H. Qed.

Lemma preserves_ret {A : Type} (a : A) : preserves P (ret a).
Proof. constructor. intros s Ps. exact Ps. Qed.

Lemma preserves_ereport {A : Type} (msg : string) : preserves P (@ereport_ERROR _ A msg).
Proof. constructor. intros s Ps. exact Ps. Qed.

Lemma preserves_out_of_fuel {A : Type} : preserves P (@out_of_fuel _ A).
Proof. constructor. intros s Ps. exact Ps. Qed.

Lemma preserves_get_context : preserves P get_context.
Proof. constructor. intros s Ps. exact Ps. Qed.

Lemma preserves_makeNode_Query : preserves P makeNode_Query.
Proof. constructor. intros s Ps. apply P_alloc. exact Ps. Qed.

Lemma preserves_bind {A B : Type} (m : M A) (k : A -> M B) :
  preserves P m -> (forall a, preserves P (k a)) -> preserves P (bind m k).
Proof.
  intros [Hm] Hk. constructor. intros s Ps. unfold bind. specialize (Hm s Ps).
  destruct (m s) as [[a| |] s1]; simpl in *; try exact Hm.
  apply (preserves_elim _ (Hk a)). exact Hm.
Qed.

Lemma preserves_Assert (b : bool) : preserves P (Assert b).
Proof. destruct b; constructor; intros s Ps; exact Ps. Qed.

Lemma preserves_mapM_Forall {A B : Type} (f : A -> M B) (l : list A) :
  Forall (fun x => preserves P (f x)) l -> preserves P (mapM f l).
Proof.
  induction 1 as [|x t Hx Ht IH]; simpl; [apply preserves_ret|].
  apply preserves_bind; [exact Hx|]. intro y.
  apply preserves_bind; [exact IH|]. intro r. apply preserves_ret.
Qed.

Lemma preserves_mapM {A B : Type} (f : A -> M B) (l : list A) :
  (forall x, preserves P (f x)) -> preserves P (mapM f l).
Proof.
  intro H. apply preserves_mapM_Forall. apply Forall_forall. intros x _. apply H.
Qed.

Lemma preserves_mapM_opt_all {A B : Type} (f : A -> M B) (o : option A) :
  opt_all (fun x => preserves P (f x)) o -> preserves P (mapM_opt f o).
Proof.
  destruct o as [x|]; simpl; intro H; [|apply preserves_ret].
  apply preserves_bind; [exact H|]. intro y. apply preserves_ret.
Qed.

Lemma preserves_mapM_opt {A B : Type} (f : A -> M B) (o : option A) :
  (forall x, preserves P (f x)) -> preserves P (mapM_opt f o).
Proof. intro H. apply preserves_mapM_opt_all. destruct o; simpl; [apply H | exact I]. Qed.

(** Steps in the planner monad, taken apart mechanically; the lemmas of
    the functions already treated are the hints of [keep]. *)
Create HintDb keep discriminated.

Ltac keep :=
  repeat first
    [ assumption
    | solve [auto 2 with keep nocore]
    | simple apply preserves_ret
    | simple apply preserves_ereport
    | simple apply preserves_out_of_fuel
    | simple apply preserves_get_context
    | simple apply preserves_makeNode_Query
    | simple apply preserves_Assert
    | simple apply preserves_mapM_Forall; assumption
    | simple apply preserves_mapM_opt_all; assumption
    | simple apply preserves_bind; [|intro]
    | match goal with
      | |- preserves _ (if ?b then _ else _) => destruct b
      | |- preserves _ (match ?x with _ => _ end) => destruct x
      | |- preserves _ (let _ := _ in _) => cbv zeta
      end ].

Lemma preserves_copyObject_Node (node : Node) : preserves P (copyObject_Node node).
Proof.
  induction node using tree_ind_Node
    with (PQ := fun q => preserves P (copyObject_Query q))
         (PR := fun r => preserves P (copyObject_RTE r))
         (PT := fun t => preserves P (copyObject_TargetEntry t))
         (PC := fun c => preserves P (copyObject_CTE c))
         (PF := fun f => preserves P (copyObject_RangeTblFunction f));
    simpl; keep.
Qed.

Lemma preserves_copyObject_Query (q : Query) : preserves P (copyObject_Query q).
Proof.
  induction q using tree_ind_Query
    with (PN := fun n => preserves P (copyObject_Node n))
         (PR := fun r => preserves P (copyObject_RTE r))
         (PT := fun t => preserves P (copyObject_TargetEntry t))
         (PC := fun c => preserves P (copyObject_CTE c))
         (PF := fun f => preserves P (copyObject_RangeTblFunction f));
    simpl; keep.
Qed.

Lemma preserves_copyObject_RTE (r : RangeTblEntry) : preserves P (copyObject_RTE r).
Proof.
  destruct r as [d sub funcs]. simpl. keep.
  - apply preserves_mapM_opt. apply preserves_copyObject_Query.
  - apply preserves_mapM. intros [e n names tys mods colls]. simpl. keep.
    apply preserves_copyObject_Node.
Qed.

#[local] Hint Resolve preserves_copyObject_Node preserves_copyObject_Query
  preserves_copyObject_RTE : keep.

Lemma preserves_BuildSubPlanResultQuery (tl : list TargetEntry) (al : list string)
      (rid : string) : preserves P (BuildSubPlanResultQuery tl al rid).
Proof. constructor. intros s Ps. apply P_alloc. exact Ps. Qed.

Lemma preserves_RecursivelyPlanSubquery (q : Query) :
  preserves P (RecursivelyPlanSubquery q).
Proof.
  constructor. intros s Ps. rewrite RecursivelyPlanSubquery_cases.
  destruct (ContainsReferencesToOuterQuery q); [exact Ps|].
  destruct (planner q (cursor_options q)) as [p|]; [|exact Ps]. cbv zeta.
  pose proof (preserves_elim _
                (preserves_BuildSubPlanResultQuery (targetList q) []
                   (GenerateResultId (planId (context s))
                                     (list_length (subPlanList (context s)) + 1)))
                (append_subplan s p) (P_append s p Ps)) as H.
  destruct (BuildSubPlanResultQuery _ _ _ _) as [[r| |] s2]; exact H.
Qed.

#[local] Hint Resolve preserves_BuildSubPlanResultQuery
  preserves_RecursivelyPlanSubquery : keep.

Lemma preserves_ReplaceCteReferences (name : string) (rq : Query)
      (cells : list RangeTblEntry) :
  forall n, preserves P (ReplaceCteReferences name rq cells n).
Proof.
  induction cells as [|rte cells IH]; intro n; simpl; keep.
  unfold ReplaceCteReference. keep.
Qed.

#[local] Hint Resolve preserves_ReplaceCteReferences : keep.

Lemma preserves_PlanCTE (cte : CommonTableExpr) (cells : list RangeTblEntry) :
  preserves P (PlanCTE cte cells).
Proof.
  constructor. intros s Ps. unfold PlanCTE, bind at 1, get_context.
  destruct (ContainsReferencesToOuterQuery (cte_query cte)); [exact Ps|].
  destruct (is_unreferenced_select cte); [exact Ps|].
  unfold bind at 1. rewrite CreateDistributedSubPlan_cases.
  destruct (planner (cte_query cte) (cursor_options (cte_query cte))) as [p|];
    [|exact Ps].
  unfold bind at 1, put_context.
  match goal with
  | |- P (snd (?m ?st)) => assert (Hm : preserves P m) by keep
  end.
  apply (preserves_elim _ Hm). rewrite uint32_uint32. exact (P_append s p Ps).
Qed.

#[local] Hint Resolve preserves_PlanCTE : keep.

Lemma preserves_PlanCTEsFrom (query : Query) (remaining : nat) :
  forall index cells, preserves P (PlanCTEsFrom query index remaining cells).
Proof. induction remaining as [|n IH]; intros index cells; simpl; keep. Qed.

#[local] Hint Resolve preserves_PlanCTEsFrom : keep.

Lemma preserves_RecursivelyPlanCTEs (query : Query) :
  preserves P (RecursivelyPlanCTEs query).
Proof. unfold RecursivelyPlanCTEs. keep. Qed.

Lemma preserves_TransformFunctionRTE (rte : RangeTblEntry) :
  preserves P (TransformFunctionRTE rte).
Proof. unfold TransformFunctionRTE. keep. Qed.

#[local] Hint Resolve preserves_RecursivelyPlanCTEs preserves_TransformFunctionRTE : keep.

Lemma preserves_WrapFunctionsInSubqueries (query : Query) :
  preserves P (WrapFunctionsInSubqueries query).
Proof.
  unfold WrapFunctionsInSubqueries. keep. apply preserves_mapM. intro rte.
  unfold WrapFunctionRTE. keep.
Qed.

#[local] Hint Resolve preserves_WrapFunctionsInSubqueries : keep.

Lemma preserves_RecursivelyPlanSetOperations (node : Node) :
  forall query, preserves P (RecursivelyPlanSetOperations query node).
Proof.
  induction node; intro query; simpl; keep.
  unfold RecursivelyPlanSetOperationLeaf. keep.
Qed.

Lemma preserves_RecursivelyPlanAllSubqueries (node : Node) :
  preserves P (RecursivelyPlanAllSubqueries node).
Proof.
  induction node using tree_ind_Node
    with (PQ := fun _ => True) (PR := fun _ => True) (PT := fun _ => True)
         (PC := fun _ => True) (PF := fun _ => True);
    try exact I; simpl; keep.
  unfold RecursivelyPlanAllSubqueries_Query. keep.
Qed.

#[local] Hint Resolve preserves_RecursivelyPlanSetOperations
  preserves_RecursivelyPlanAllSubqueries : keep.

Lemma preserves_RecursivelyPlanHavingQual (havingQual : option Node) :
  preserves P (RecursivelyPlanHavingQual havingQual).
Proof. unfold RecursivelyPlanHavingQual. keep. Qed.

Lemma preserves_PlanIfNotColocated (checker : ColocatedJoinChecker) (q : Query) :
  preserves P (PlanIfNotColocated checker q).
Proof. unfold PlanIfNotColocated. keep. Qed.

#[local] Hint Resolve preserves_RecursivelyPlanHavingQual
  preserves_PlanIfNotColocated : keep.

Lemma preserves_RecursivelyPlanNonColocatedJoinWalker (checker : ColocatedJoinChecker)
      (node : Node) :
  forall query, preserves P (RecursivelyPlanNonColocatedJoinWalker node checker query).
Proof.
  induction node using tree_ind_Node
    with (PQ := fun _ => True) (PR := fun _ => True) (PT := fun _ => True)
         (PC := fun _ => True) (PF := fun _ => True);
    try exact I; intro query; simpl; keep.
  revert query. induction H as [|x t Hx Ht IH]; intro query; keep.
Qed.

Lemma preserves_rewrite_sublinks (onSubselect : Query -> M Query) (node : Node) :
  (forall q, preserves P (onSubselect q)) ->
  preserves P (rewrite_sublinks onSubselect node).
Proof.
  intro Hq.
  induction node using tree_ind_Node
    with (PQ := fun _ => True) (PR := fun _ => True) (PT := fun _ => True)
         (PC := fun _ => True) (PF := fun _ => True);
    try exact I; simpl; keep.
Qed.

#[local] Hint Resolve preserves_RecursivelyPlanNonColocatedJoinWalker : keep.

Lemma preserves_RecursivelyPlanNonColocatedSubqueries (query : Query) :
  preserves P (RecursivelyPlanNonColocatedSubqueries query).
Proof.
  unfold RecursivelyPlanNonColocatedSubqueries,
    RecursivelyPlanNonColocatedSubqueriesInWhere. keep.
  apply preserves_mapM_opt. intro e. apply preserves_rewrite_sublinks. intro q. keep.
Qed.

Lemma preserves_CreateOuterSubquery (rte : RangeTblEntry) (tl : list TargetEntry) :
  preserves P (CreateOuterSubquery rte tl).
Proof. unfold CreateOuterSubquery. keep. Qed.

#[local] Hint Resolve preserves_RecursivelyPlanNonColocatedSubqueries
  preserves_CreateOuterSubquery : keep.

Lemma preserves_ReplaceRTERelationWithRteSubquery (rte : RangeTblEntry)
      (attrs : list Z) : preserves P (ReplaceRTERelationWithRteSubquery rte attrs).
Proof.
  unfold ReplaceRTERelationWithRteSubquery. keep.
  apply preserves_mapM. intro e. keep.
Qed.

#[local] Hint Resolve preserves_ReplaceRTERelationWithRteSubquery : keep.

Lemma preserves_RecursivelyPlanLocalTableJoins (conversions : list (Z * list Z)) :
  forall query, preserves P (RecursivelyPlanLocalTableJoins conversions query).
Proof. induction conversions as [|[i attrs] t IH]; intro query; simpl; keep. Qed.

Lemma preserves_RecursivelyPlanDistributedJoinNode (node : Node) :
  forall query, preserves P (RecursivelyPlanDistributedJoinNode node query).
Proof.
  induction node; intro query; simpl; keep.
  unfold RecursivelyPlanDistributedRTE. keep.
Qed.

#[local] Hint Resolve preserves_RecursivelyPlanLocalTableJoins
  preserves_RecursivelyPlanDistributedJoinNode : keep.

Lemma preserves_RecursivelyPlanRecurringTupleOuterJoinWalker (node : Node) :
  forall query, preserves P (RecursivelyPlanRecurringTupleOuterJoinWalker node query).
Proof.
  induction node using tree_ind_Node
    with (PQ := fun _ => True) (PR := fun _ => True) (PT := fun _ => True)
         (PC := fun _ => True) (PF := fun _ => True);
    try exact I; intro query; simpl; keep.
  - unfold PlanJoinSides. keep.
  - revert query. induction H as [|x t Hx Ht IH]; intro query; keep.
Qed.

#[local] Hint Resolve preserves_RecursivelyPlanRecurringTupleOuterJoinWalker : keep.

Section DescentKeeps.

Variable planNested : Query -> M (option DeferredErrorMessage * Query).
Hypothesis planNested_keeps : forall q, preserves P (planNested q).

Lemma preserves_set_level_then {A : Type} (f : Z -> Z) (k : M A) :
  preserves P k ->
  preserves P (context <- get_context ;;
             put_context (set_level context (f (level context))) ;;; k).
Proof.
  intros [Hk]. constructor. intros s Ps. unfold bind at 1, get_context.
  unfold bind at 1, put_context. apply Hk. apply P_level. exact Ps.
Qed.

Lemma preserves_RecursivelyPlanSubqueryWalker_Query (query : Query) :
  preserves P (RecursivelyPlanSubqueryWalker_Query planNested query).
Proof.
  unfold RecursivelyPlanSubqueryWalker_Query.
  apply (preserves_set_level_then (fun l => l + 1)).
  apply preserves_bind; [apply planNested_keeps|]. intros [error q1]. cbn [fst snd].
  destruct error as [error|]; [unfold RaiseDeferredError; keep|].
  apply (preserves_set_level_then (fun l => l - 1)). keep.
Qed.

Lemma preserves_RecursivelyPlanSubqueryWalker (node : Node) :
  preserves P (RecursivelyPlanSubqueryWalker planNested node).
Proof.
  induction node using tree_ind_Node
    with (PQ := fun _ => True) (PR := fun _ => True) (PT := fun _ => True)
         (PC := fun _ => True) (PF := fun _ => True);
    try exact I; simpl; keep.
  apply preserves_RecursivelyPlanSubqueryWalker_Query.
Qed.

Lemma preserves_query_tree_rewrite (walker : Node -> M Node)
      (onQuery : Query -> M Query) (query : Query) :
  (forall n, preserves P (walker n)) -> (forall q, preserves P (onQuery q)) ->
  preserves P (query_tree_rewrite walker onQuery query).
Proof.
  intros Hw Hq. destruct query as [a c hr ctes rt jt tl rl hq so]. simpl. keep.
  - apply preserves_mapM. intros [e no name junk]. simpl. keep.
  - apply preserves_mapM. intros [e no name junk]. simpl. keep.
  - apply preserves_mapM_opt. exact Hw.
  - apply preserves_mapM_opt. exact Hw.
  - apply preserves_mapM_opt. exact Hw.
  - apply preserves_mapM. intros [n al q k]. simpl. keep.
  - apply preserves_mapM. intros [d sub funcs]. simpl. keep.
    + apply preserves_mapM_opt. exact Hq.
    + apply preserves_mapM. intros [e n names tys mods colls]. simpl. keep.
Qed.

Lemma preserves_body (query : Query) :
  preserves P (RecursivelyPlanSubqueriesAndCTEs_body planNested query).
Proof.
  unfold RecursivelyPlanSubqueriesAndCTEs_body. keep.
  - apply preserves_query_tree_rewrite.
    + apply preserves_RecursivelyPlanSubqueryWalker.
    + apply preserves_RecursivelyPlanSubqueryWalker_Query.
  - unfold PlanSetOperationsStep. keep.
  - unfold PlanNonColocatedStep. keep.
  - unfold PlanLocalTableJoinsStep. keep.
  - unfold PlanOuterJoinsStep. keep.
  - unfold PlanSublinksStep. keep.
    + apply preserves_mapM_opt. intro e. keep.
    + apply preserves_mapM. intros [e no name junk]. simpl. keep.
Qed.

End DescentKeeps.

(** The descent keeps [P], with any fuel and any outcome. *)
Lemma preserves_RecursivelyPlanSubqueriesAndCTEs (fuel : nat) :
  forall query, preserves P (RecursivelyPlanSubqueriesAndCTEs fuel query).
Proof.
  induction fuel as [|fuel IH]; intro query; simpl.
  - apply preserves_out_of_fuel.
  - apply preserves_body. exact IH.
Qed.

End Invariant.

(* ------------------------------------------------------------------ *)
(** ** The depth counter *)

Lemma int32_small (z : Z) : - 2 ^ 31 <= z < 2 ^ 31 -> int32 z = z.
Proof. intro H. unfold int32. rewrite Z.mod_small; lia. Qed.

Lemma depth_untouched (fuel : nat) (query : Query) (s : PlanState) :
  recursivePlanningDepth (snd (RecursivelyPlanSubqueriesAndCTEs fuel query s))
  = recursivePlanningDepth s.
Proof.
  apply (preserves_elim (fun s' => recursivePlanningDepth s' = recursivePlanningDepth s)
           (RecursivelyPlanSubqueriesAndCTEs fuel query)); [|reflexivity].
  apply preserves_RecursivelyPlanSubqueriesAndCTEs.
  - intros s0 H. exact H.
  - intros s0 n H. exact H.
  - intros s0 p H. exact H.
Qed.

(** An error raised inside the descent leaves the function at once: the
    counter stays incremented. *)
Lemma raised_inside_leaves_depth_incremented
      (fuel : nat) (planId : Z) (query : Query)
      (restrictionContext : PlannerRestrictionContext) (world : World) (message : string) :
  - 2 ^ 31 <= world_depth world < 2 ^ 31 - 1 ->
  fst (RecursivelyPlanSubqueriesAndCTEs fuel query
         (enter_planning planId query restrictionContext world)) = Raised message ->
  fst (GenerateSubplansForSubqueriesAndCTEs fuel planId query restrictionContext world)
  = Raised message /\
  world_depth (snd (GenerateSubplansForSubqueriesAndCTEs fuel planId query
                      restrictionContext world))
  = world_depth world + 1.
Proof.
  intros R E. unfold GenerateSubplansForSubqueriesAndCTEs.
  pose proof (depth_untouched fuel query
                (enter_planning planId query restrictionContext world)) as D.
  destruct (RecursivelyPlanSubqueriesAndCTEs fuel query _) as [[r| |] s1];
    simpl in E; try discriminate E. injection E as ->. simpl in *.
  split; [reflexivity|]. rewrite D. apply int32_small. lia.
Qed.


(* ------------------------------------------------------------------ *)
(** ** Subplan ids and result ids *)

Lemma ids_numbered_append (l : list DistributedSubPlan) (p : PlannedStmt) :
  ids_numbered l ->
  ids_numbered (lappend l (mkDistributedSubPlan (uint32 (list_length l + 1)) p)).
Proof.
  intros H i sp E. unfold lappend in E.
  destruct (Nat.lt_ge_cases i (List.length l)) as [L|L].
  - rewrite nth_error_app1 in E by exact L. apply H. exact E.
  - rewrite nth_error_app2 in E by exact L.
    destruct (i - List.length l)%nat eqn:K; simpl in E.
    + injection E as <-. simpl. unfold list_length. f_equal. lia.
    + destruct n; discriminate E.
Qed.

Lemma ids_numbered_sequence (l : list DistributedSubPlan) :
  ids_numbered l ->
  Z.of_nat (List.length l) < 2 ^ 32 ->
  map subPlanId l = map Z.of_nat (seq 1 (List.length l)).
Proof.
  induction l as [|x l IH] using rev_ind; intros H B; [reflexivity|].
  rewrite length_app in *. simpl List.length in *.
  rewrite Nat.add_1_r in *. rewrite seq_S, !map_app. simpl.
  f_equal.
  - apply IH; [|lia]. intros i sp E. apply H.
    rewrite nth_error_app1; [exact E|]. apply nth_error_Some. rewrite E. discriminate.
  - f_equal. rewrite (H (List.length l) x).
    + unfold uint32. rewrite Z.mod_small; lia.
    + rewrite nth_error_app2 by lia. rewrite Nat.sub_diag. reflexivity.
Qed.

Lemma append_prefix_injective (p a b : string) :
  String.append p a = String.append p b -> a = b.
Proof.
  induction p as [|c p IH]; simpl; intro E; [exact E|].
  injection E as E. apply IH. exact E.
Qed.

Lemma format_unsigned_injective (a b : Z) :
  0 <= a -> 0 <= b -> format_unsigned a = format_unsigned b -> a = b.
Proof.
  unfold format_unsigned. intros Ha Hb E.
  apply Z2N.inj; [exact Ha | exact Hb|].
  apply Unsigned.to_uint_inj.
  assert (S : Some (N.to_uint (Z.to_N a)) = Some (N.to_uint (Z.to_N b))).
  { rewrite <- !NilEmpty.usu. rewrite E. reflexivity. }
  injection S as S. exact S.
Qed.

Lemma GenerateResultId_injective (planId a b : Z) :
  GenerateResultId planId a = GenerateResultId planId b -> uint32 a = uint32 b.
Proof.
  unfold GenerateResultId. intro E.
  apply append_prefix_injective in E. simpl in E. injection E as E.
  apply format_unsigned_injective; [| |exact E]; unfold uint32;
    apply Z.mod_pos_bound; lia.
Qed.

Lemma subplans_numbered (fuel : nat) (planId : Z) (query : Query)
      (restrictionContext : PlannerRestrictionContext) (world : World) :
  ids_numbered
    (subPlanList
       (context (snd (RecursivelyPlanSubqueriesAndCTEs fuel query
                        (enter_planning planId query restrictionContext world))))).
Proof.
  apply (preserves_elim (fun s => ids_numbered (subPlanList (context s)))
           (RecursivelyPlanSubqueriesAndCTEs fuel query)).
  - apply preserves_RecursivelyPlanSubqueriesAndCTEs.
    + intros s H. exact H.
    + intros s n H. exact H.
    + intros s p H. simpl. apply ids_numbered_append. exact H.
  - intros [|i] sp E; discriminate E.
Qed.

Lemma plan_id_kept (fuel : nat) (planId' : Z) (query : Query)
      (restrictionContext : PlannerRestrictionContext) (world : World) :
  planId (context (snd (RecursivelyPlanSubqueriesAndCTEs fuel query
                          (enter_planning planId' query restrictionContext world))))
  = planId'.
Proof.
  apply (preserves_elim (fun s => planId (context s) = planId')
           (RecursivelyPlanSubqueriesAndCTEs fuel query)); [|reflexivity].
  apply preserves_RecursivelyPlanSubqueriesAndCTEs; intros; assumption.
Qed.

(** C1.  A subplan made for a subquery or for a CTE gets as id one more
    than the number of subplans made before it in the call, and the result
    query is built with the plan id, an underscore and that id in decimal
    digits.  The subplans a top-level call returns have the ids 1, 2, ...,
    n in this order, so they increase without gaps, and their result ids
    are all different.  Wherever the descent of a call stops, the plan id
    is the one the call was given and the subplan at position i, counted
    from 0, has the id i + 1. *)
Theorem subplan_ids_count_up_and_result_ids_differ :
  (forall (subquery subquery' : Query) (s s' : PlanState),
     RecursivelyPlanSubquery subquery s = (Done (true, subquery'), s') ->
     exists plannedStmt resultQuery,
       subPlanList (context s')
       = subPlanList (context s)
         ++ [mkDistributedSubPlan (uint32 (list_length (subPlanList (context s)) + 1))
                                  plannedStmt] /\
       BuildSubPlanResultQuery (targetList subquery) []
         (GenerateResultId (planId (context s))
                           (list_length (subPlanList (context s)) + 1))
         (append_subplan s plannedStmt)
       = (Done resultQuery, s') /\
       subquery' = overwrite_Query subquery resultQuery)
  /\
  (forall (cte : CommonTableExpr) (cells cells' : list RangeTblEntry) (s s' : PlanState),
     is_unreferenced_select cte = false ->
     PlanCTE cte cells s = (Done (inr cells'), s') ->
     exists plannedStmt resultQuery,
       subPlanList (context s')
       = subPlanList (context s)
         ++ [mkDistributedSubPlan (uint32 (list_length (subPlanList (context s)) + 1))
                                  plannedStmt] /\
       BuildSubPlanResultQuery (cte_target_list cte) (cte_aliascolnames cte)
         (GenerateResultId (planId (context s))
                           (list_length (subPlanList (context s)) + 1))
         (append_subplan s plannedStmt)
       = (Done resultQuery, alloc_state (append_subplan s plannedStmt)))
  /\
  (forall planId subPlanId,
     GenerateResultId planId subPlanId
     = String.append (format_unsigned (uint64 planId))
                     (String.append "_" (format_unsigned (uint32 subPlanId))))
  /\
  (forall (fuel : nat) (planId : Z) (query query' : Query)
          (restrictionContext : PlannerRestrictionContext) (world world' : World)
          (subPlans : list DistributedSubPlan),
     GenerateSubplansForSubqueriesAndCTEs fuel planId query restrictionContext world
     = (Done (subPlans, query'), world') ->
     Z.of_nat (List.length subPlans) < 2 ^ 32 ->
     map subPlanId subPlans = map Z.of_nat (seq 1 (List.length subPlans)) /\
     NoDup (map (fun subPlan => GenerateResultId planId (subPlanId subPlan)) subPlans))
  /\
  (forall (fuel : nat) (planId' : Z) (query : Query)
          (restrictionContext : PlannerRestrictionContext) (world : World),
     let reached :=
       snd (RecursivelyPlanSubqueriesAndCTEs fuel query
              (enter_planning planId' query restrictionContext world)) in
     planId (context reached) = planId' /\
     ids_numbered (subPlanList (context reached))).
Proof.
  split; [|split; [|split; [reflexivity|split]]];
    [| | |intros fuel planId' query rc world reached; split;
           [apply plan_id_kept | apply subplans_numbered]].
  - intros subquery subquery' s s' E.
    destruct (RecursivelyPlanSubquery_outcomes subquery s)
      as [(_ & R) | [(_ & _ & R) | (_ & p & rq & _ & Hrq & R & L & _)]];
      rewrite R in E; try discriminate E.
    injection E as <- <-. exists p, rq. repeat split; assumption.
  - intros cte cells cells' s s' U E.
    destruct (PlanCTE_planned _ _ _ _ _ U E) as (p & rq & _ & _ & Hrq & Hrep).
    exists p, rq. split; [|exact Hrq].
    set (P0 := fun st : PlanState =>
                 subPlanList (context st) = subPlanList (context (append_subplan s p))).
    pose proof (preserves_elim P0 _
                  (preserves_ReplaceCteReferences P0 (fun st H => H)
                     (cte_name cte) rq cells 0)
                  (alloc_state (append_subplan s p)) eq_refl) as K.
    rewrite Hrep in K. unfold P0 in K. simpl in K. rewrite K. reflexivity.
  - intros fuel planId query query' rc world world' subPlans E B.
    pose proof (subplans_numbered fuel planId query rc world) as N.
    unfold GenerateSubplansForSubqueriesAndCTEs in E.
    destruct (RecursivelyPlanSubqueriesAndCTEs fuel query _) as [[[error q1]| |] s1];
      try discriminate E.
    destruct error; [discriminate E|]. injection E as <- <- <-. simpl in N.
    pose proof (ids_numbered_sequence _ N B) as Hseq. split; [exact Hseq|].
    rewrite <- (map_map subPlanId (GenerateResultId planId)), Hseq.
    apply NoDup_map_NoDup_ForallPairs.
    + intros a b Ha Hb Eab. apply GenerateResultId_injective in Eab.
      apply in_map_iff in Ha. destruct Ha as (i & <- & Hi).
      apply in_map_iff in Hb. destruct Hb as (j & <- & Hj).
      apply in_seq in Hi. apply in_seq in Hj.
      unfold uint32 in Eab. rewrite !Z.mod_small in Eab by lia. exact Eab.
    + apply NoDup_map_NoDup_ForallPairs; [|apply seq_NoDup].
      intros a b _ _ Eab. lia.
Qed.

(* ------------------------------------------------------------------ *)
(** ** Outer joins with a recurring side *)


(** A step that keeps whatever survives an allocation keeps the context. *)
Lemma context_kept {A : Type} (m : M A) :
  (forall P : PlanState -> Prop,
      (forall s, P s -> P (alloc_state s)) -> preserves P m) ->
  forall s o s', m s = (o, s') -> context s' = context s.
Proof.
  intros H s o s' E.
  pose proof (preserves_elim _ _ (H (fun st => context st = context s) (fun st K => K))
                s eq_refl) as K.
  rewrite E in K. exact K.
Qed.

Lemma context_kept_by_copies (l : list Node) (s s' : PlanState) (l' : list Node) :
  mapM copyObject_Node l s = (Done l', s') -> context s' = context s.
Proof.
  apply context_kept. intros P H. apply preserves_mapM. intro n.
  apply preserves_copyObject_Node. exact H.
Qed.

Lemma context_kept_by_CreateOuterSubquery (rte : RangeTblEntry) (tl : list TargetEntry)
      (s s' : PlanState) (q : Query) :
  CreateOuterSubquery rte tl s = (Done q, s') -> context s' = context s.
Proof.
  apply context_kept. intros P H. apply preserves_CreateOuterSubquery. exact H.
Qed.

Lemma ReplaceRTERelationWithRteSubquery_Done (rte rte' : RangeTblEntry) (attrs : list Z)
      (s s' : PlanState) :
  ReplaceRTERelationWithRteSubquery rte attrs s = (Done rte', s') ->
  subplan_count s' = S (subplan_count s) /\
  rtekind (rte_data rte') = RTE_SUBQUERY.
Proof.
  unfold ReplaceRTERelationWithRteSubquery. intro E.
  apply bind_inv_Done in E. destruct E as (ctx & s0 & Hget & E).
  unfold get_context in Hget. injection Hget as <- <-.
  apply bind_inv_Done in E. destruct E as (a & s1 & Ha & E).
  unfold makeNode_Query in Ha. injection Ha as <- <-.
  apply bind_inv_Done in E. destruct E as (copies & s2 & Hc & E).
  apply context_kept_by_copies in Hc.
  apply bind_inv_Done in E. destruct E as ([planned q1] & s3 & Hp & E).
  cbn [fst snd] in E. destruct planned; simpl negb in E; cbv iota in E;
    [|unfold ereport_ERROR in E; discriminate E].
  apply bind_inv_Done in E. destruct E as (outer & s4 & Ho & E).
  apply context_kept_by_CreateOuterSubquery in Ho.
  injection E as <- <-.
  match type of Hp with
  | RecursivelyPlanSubquery ?sub _ = _ =>
      destruct (RecursivelyPlanSubquery_outcomes sub s2)
        as [(_ & R) | [(_ & _ & R) | (_ & p & rq & _ & _ & R & L & _)]]
  end; rewrite R in Hp; try discriminate Hp.
  injection Hp as _ <-. split; [|reflexivity].
  unfold subplan_count. rewrite Ho, L, Hc, length_app. simpl. lia.
Qed.






End Properties.

(* ================================================================== *)
(** * Further properties *)

Section FurtherProperties.

Context {collaborators : Collaborators}.

(* ------------------------------------------------------------------ *)
(** ** The context across the descent *)

(** Steps of [RecursivelyPlanSubqueriesAndCTEs] other than the descent into
    the subqueries: they allocate and append subplans, nothing else. *)
Section StepsKeep.

Variable P : PlanState -> Prop.

Hypothesis P_alloc : forall s, P s -> P (alloc_state s).
Hypothesis P_append : forall s plannedStmt, P s -> P (append_subplan s plannedStmt).

Ltac keeps :=
  repeat first
    [ assumption
    | simple apply preserves_ret
    | simple apply preserves_ereport
    | simple apply preserves_get_context
    | simple apply preserves_Assert
    | simple apply preserves_makeNode_Query
    | simple apply preserves_RecursivelyPlanSubquery
    | simple apply preserves_RecursivelyPlanSetOperations
    | simple apply preserves_RecursivelyPlanAllSubqueries
    | simple apply preserves_RecursivelyPlanNonColocatedSubqueries
    | simple apply preserves_RecursivelyPlanLocalTableJoins
    | simple apply preserves_RecursivelyPlanRecurringTupleOuterJoinWalker
    | simple apply preserves_bind; [|intro]
    | simple apply preserves_mapM_opt; intro
    | simple apply preserves_mapM; intros [? ? ? ?]; simpl
    | match goal with
      | |- preserves _ (if ?b then _ else _) => destruct b
      | |- preserves _ (match ?x with _ => _ end) => destruct x
      | |- preserves _ (let _ := _ in _) => cbv zeta
      end ].

Lemma preserves_PlanSetOperationsStep (query : Query) :
  preserves P (PlanSetOperationsStep query).
Proof. unfold PlanSetOperationsStep. keeps. Qed.

Lemma preserves_PlanNonColocatedStep (query : Query) :
  preserves P (PlanNonColocatedStep query).
Proof. unfold PlanNonColocatedStep. keeps. Qed.

Lemma preserves_PlanLocalTableJoinsStep (query : Query) :
  preserves P (PlanLocalTableJoinsStep query).
Proof. unfold PlanLocalTableJoinsStep. keeps. Qed.

Lemma preserves_PlanOuterJoinsStep (query : Query) :
  preserves P (PlanOuterJoinsStep query).
Proof. unfold PlanOuterJoinsStep. keeps. Qed.

Lemma preserves_PlanSublinksStep (query : Query) :
  preserves P (PlanSublinksStep query).
Proof. unfold PlanSublinksStep. keeps. Qed.

End StepsKeep.

Lemma returns_at_level_ret {A : Type} (a : A) : returns_at_level (ret a).
Proof. constructor. intros s b s' E. injection E as _ <-. reflexivity. Qed.

Lemma returns_at_level_bind {A B : Type} (m : M A) (k : A -> M B) :
  returns_at_level m -> (forall a, returns_at_level (k a)) ->
  returns_at_level (bind m k).
Proof.
  intros [Hm] Hk. constructor. intros s b s2 E.
  apply bind_inv_Done in E. destruct E as (a & s1 & Em & Ek).
  destruct (Hk a) as [Hka]. rewrite (Hka _ _ _ Ek). eapply Hm. exact Em.
Qed.

Lemma returns_at_level_mapM_Forall {A B : Type} (f : A -> M B) (l : list A) :
  Forall (fun x => returns_at_level (f x)) l -> returns_at_level (mapM f l).
Proof.
  induction 1 as [|x t Hx Ht IH]; simpl; [apply returns_at_level_ret|].
  apply returns_at_level_bind; [exact Hx|]. intro y.
  apply returns_at_level_bind; [exact IH|]. intro r. apply returns_at_level_ret.
Qed.

Lemma returns_at_level_mapM {A B : Type} (f : A -> M B) (l : list A) :
  (forall x, returns_at_level (f x)) -> returns_at_level (mapM f l).
Proof.
  intro H. apply returns_at_level_mapM_Forall. apply Forall_forall. intros x _. apply H.
Qed.

Lemma returns_at_level_mapM_opt_all {A B : Type} (f : A -> M B) (o : option A) :
  opt_all (fun x => returns_at_level (f x)) o -> returns_at_level (mapM_opt f o).
Proof.
  destruct o as [x|]; simpl; intro H; [|apply returns_at_level_ret].
  apply returns_at_level_bind; [exact H|]. intro y. apply returns_at_level_ret.
Qed.

Lemma returns_at_level_mapM_opt {A B : Type} (f : A -> M B) (o : option A) :
  (forall x, returns_at_level (f x)) -> returns_at_level (mapM_opt f o).
Proof.
  intro H. apply returns_at_level_mapM_opt_all. destruct o; simpl; [apply H | exact I].
Qed.

(** A step that only allocates and appends subplans does not write the
    level at all. *)
Lemma level_untouched {A : Type} (m : M A) :
  (forall P : PlanState -> Prop,
      (forall s, P s -> P (alloc_state s)) ->
      (forall s plannedStmt, P s -> P (append_subplan s plannedStmt)) ->
      preserves P m) ->
  returns_at_level m.
Proof.
  intro H. constructor. intros s a s' E.
  set (P := fun s0 : PlanState => level (context s0) = level (context s)).
  assert (Hm : preserves P m).
  { apply H; intros; assumption. }
  pose proof (preserves_elim P m Hm s eq_refl) as K.
  rewrite E in K. exact K.
Qed.

Ltac levels :=
  repeat first
    [ assumption
    | solve [auto 2 with nocore]
    | simple apply returns_at_level_ret
    | simple apply returns_at_level_mapM_Forall; assumption
    | simple apply returns_at_level_mapM_opt_all; assumption
    | simple apply returns_at_level_bind; [|intro]
    | match goal with
      | |- returns_at_level (if ?b then _ else _) => destruct b
      | |- returns_at_level (match ?x with _ => _ end) => destruct x
      | |- returns_at_level (let _ := _ in _) => cbv zeta
      end ].

Section DescentReturns.

Variable planNested : Query -> M (option DeferredErrorMessage * Query).
Hypothesis planNested_returns : forall q, returns_at_level (planNested q).

Lemma returns_at_level_RecursivelyPlanSubqueryWalker_Query (query : Query) :
  returns_at_level (RecursivelyPlanSubqueryWalker_Query planNested query).
Proof.
  constructor. intros s a s' E. unfold RecursivelyPlanSubqueryWalker_Query in E.
  unfold bind at 1, get_context in E. unfold bind at 1, put_context in E.
  apply bind_inv_Done in E. destruct E as ([error q1] & s1 & En & E).
  destruct (planNested_returns query) as [Hn]. apply Hn in En. simpl in En.
  cbn [fst snd] in E. destruct error as [error|]; [discriminate E|].
  unfold bind at 1, get_context in E. unfold bind at 1, put_context in E.
  unfold bind at 1, get_context in E.
  match type of E with
  | ?m ?st = _ =>
      assert (R : returns_at_level m)
  end.
  { destruct (ShouldRecursivelyPlanSubquery _ _).
    - apply level_untouched. intros P Ha Hp.
      apply preserves_bind; [apply preserves_RecursivelyPlanSubquery; assumption|].
      intro r. apply preserves_ret.
    - apply returns_at_level_ret. }
  destruct R as [R]. rewrite (R _ _ _ E). simpl. lia.
Qed.

Lemma returns_at_level_RecursivelyPlanSubqueryWalker (node : Node) :
  returns_at_level (RecursivelyPlanSubqueryWalker planNested node).
Proof.
  induction node using tree_ind_Node
    with (PQ := fun _ => True) (PR := fun _ => True) (PT := fun _ => True)
         (PC := fun _ => True) (PF := fun _ => True);
    try exact I; simpl; levels.
  apply returns_at_level_RecursivelyPlanSubqueryWalker_Query.
Qed.

Lemma returns_at_level_query_tree_rewrite (walker : Node -> M Node)
      (onQuery : Query -> M Query) (query : Query) :
  (forall n, returns_at_level (walker n)) -> (forall q, returns_at_level (onQuery q)) ->
  returns_at_level (query_tree_rewrite walker onQuery query).
Proof.
  intros Hw Hq. destruct query as [a c hr ctes rt jt tl rl hq so]. simpl. levels.
  - apply returns_at_level_mapM. intros [e no name junk]. simpl. levels.
  - apply returns_at_level_mapM. intros [e no name junk]. simpl. levels.
  - apply returns_at_level_mapM_opt. exact Hw.
  - apply returns_at_level_mapM_opt. exact Hw.
  - apply returns_at_level_mapM_opt. exact Hw.
  - apply returns_at_level_mapM. intros [n al q k]. simpl. levels.
  - apply returns_at_level_mapM. intros [d sub funcs]. simpl. levels.
    + apply returns_at_level_mapM_opt. exact Hq.
    + apply returns_at_level_mapM. intros [e n names tys mods colls]. simpl. levels.
Qed.

Lemma returns_at_level_body (query : Query) :
  returns_at_level (RecursivelyPlanSubqueriesAndCTEs_body planNested query).
Proof.
  unfold RecursivelyPlanSubqueriesAndCTEs_body. levels.
  - apply level_untouched. intros P Ha Hp.
    apply preserves_RecursivelyPlanCTEs; assumption.
  - apply level_untouched. intros P Ha Hp.
    apply preserves_WrapFunctionsInSubqueries; assumption.
  - apply returns_at_level_query_tree_rewrite.
    + apply returns_at_level_RecursivelyPlanSubqueryWalker.
    + apply returns_at_level_RecursivelyPlanSubqueryWalker_Query.
  - apply level_untouched. intros P Ha Hp.
    apply preserves_PlanSetOperationsStep; assumption.
  - apply level_untouched. intros P Ha Hp.
    apply preserves_RecursivelyPlanHavingQual; assumption.
  - apply level_untouched. intros P Ha Hp.
    apply preserves_PlanNonColocatedStep; assumption.
  - apply level_untouched. intros P Ha Hp.
    apply preserves_PlanLocalTableJoinsStep; assumption.
  - apply level_untouched. intros P Ha Hp.
    apply preserves_PlanOuterJoinsStep; assumption.
  - apply level_untouched. intros P Ha Hp.
    apply preserves_PlanSublinksStep; assumption.
Qed.

End DescentReturns.

Lemma returns_at_level_RecursivelyPlanSubqueriesAndCTEs (fuel : nat) :
  forall query, returns_at_level (RecursivelyPlanSubqueriesAndCTEs fuel query).
Proof.
  induction fuel as [|fuel IH]; intro query; simpl.
  - constructor. intros s a s' E. discriminate E.
  - apply returns_at_level_body. exact IH.
Qed.

(** The fields of the context that no step of the descent writes. *)
Lemma context_fields_kept_by_descent (fuel : nat) (query : Query) (s : PlanState) :
  let reached := snd (RecursivelyPlanSubqueriesAndCTEs fuel query s) in
  planId (context reached) = planId (context s) /\
  allDistributionKeysInQueryAreEqual (context reached)
  = allDistributionKeysInQueryAreEqual (context s) /\
  plannerRestrictionContext (context reached) = plannerRestrictionContext (context s).
Proof.
  apply (preserves_elim
           (fun s' => planId (context s') = planId (context s) /\
                      allDistributionKeysInQueryAreEqual (context s')
                      = allDistributionKeysInQueryAreEqual (context s) /\
                      plannerRestrictionContext (context s')
                      = plannerRestrictionContext (context s))
           (RecursivelyPlanSubqueriesAndCTEs fuel query)).
  - apply preserves_RecursivelyPlanSubqueriesAndCTEs.
    + intros s0 H. exact H.
    + intros s0 n H. exact H.
    + intros s0 p H. exact H.
  - repeat split.
Qed.

(** X1.  When [RecursivelyPlanSubqueriesAndCTEs] returns, with or without a
    deferred error, the nesting level of the context is what it was at the
    call: every increment made on the way into a subquery has been undone.
    The plan id, the distribution key flag and the restriction context are
    never written. *)
Theorem descent_returns_with_context_restored
        (fuel : nat) (query : Query) (s s' : PlanState)
        (result : option DeferredErrorMessage * Query) :
  RecursivelyPlanSubqueriesAndCTEs fuel query s = (Done result, s') ->
  level (context s') = level (context s) /\
  planId (context s') = planId (context s) /\
  allDistributionKeysInQueryAreEqual (context s')
  = allDistributionKeysInQueryAreEqual (context s) /\
  plannerRestrictionContext (context s') = plannerRestrictionContext (context s).
Proof.
  intro E.
  destruct (returns_at_level_RecursivelyPlanSubqueriesAndCTEs fuel query) as [L].
  pose proof (context_fields_kept_by_descent fuel query s) as K.
  rewrite E in K. simpl in K. destruct K as (K1 & K2 & K3).
  split; [exact (L _ _ _ E)|]. repeat split; assumption.
Qed.

(** X2.  The descent only ever appends to the subplan list: whatever its
    outcome, an error raised half way included, the subplans that were in
    the list when it started are still its first elements, unchanged and in
    the same order. *)
Theorem descent_only_appends_subplans (fuel : nat) (query : Query) (s : PlanState) :
  exists added,
    subPlanList (context (snd (RecursivelyPlanSubqueriesAndCTEs fuel query s)))
    = subPlanList (context s) ++ added.
Proof.
  apply (preserves_elim
           (fun s' => exists added,
                subPlanList (context s') = subPlanList (context s) ++ added)
           (RecursivelyPlanSubqueriesAndCTEs fuel query)).
  - apply preserves_RecursivelyPlanSubqueriesAndCTEs.
    + intros s0 H. exact H.
    + intros s0 n H. exact H.
    + intros s0 p [added H].
      exists (added
              ++ [mkDistributedSubPlan
                    (uint32 (list_length (subPlanList (context s0)) + 1)) p]).
      simpl. unfold lappend. rewrite H, app_assoc. reflexivity.
  - exists []. rewrite app_nil_r. reflexivity.
Qed.

(* ------------------------------------------------------------------ *)
(** ** Result ids *)

Lemma digits_without_separator (d : Decimal.uint) :
  occurs_in "_" (NilEmpty.string_of_uint d) = false.
Proof. induction d; simpl; try reflexivity; exact IHd. Qed.

Lemma split_at_separator (c : ascii) (a b ra rb : string) :
  occurs_in c a = false -> occurs_in c b = false ->
  String.append a (String c ra) = String.append b (String c rb) ->
  a = b /\ ra = rb.
Proof.
  revert b. induction a as [|x a IH]; intros [|y b] Ha Hb E; simpl in *.
  - injection E as E. split; [reflexivity | exact E].
  - injection E as E1 E2. subst y. rewrite Ascii.eqb_refl in Hb. discriminate Hb.
  - injection E as E1 E2. subst x. rewrite Ascii.eqb_refl in Ha. discriminate Ha.
  - injection E as E1 E2. subst y.
    apply Bool.orb_false_iff in Ha. apply Bool.orb_false_iff in Hb.
    destruct (IH b (proj2 Ha) (proj2 Hb) E2) as [-> ->]. split; reflexivity.
Qed.

(** X3.  Two result ids are the same string exactly when they were made
    from the same plan id, as a 64-bit unsigned value, and the same subplan
    id, as a 32-bit unsigned value: the result ids of different plans, and
    of different subplans of a plan, never collide. *)
Theorem result_ids_equal_iff_same_plan_and_subplan (planId planId' subPlanId subPlanId' : Z) :
  GenerateResultId planId subPlanId = GenerateResultId planId' subPlanId'
  <-> uint64 planId = uint64 planId' /\ uint32 subPlanId = uint32 subPlanId'.
Proof.
  unfold GenerateResultId. split.
  - intro E. simpl in E.
    apply split_at_separator in E;
      [|unfold format_unsigned; apply digits_without_separator ..].
    destruct E as [E1 E2].
    split; apply format_unsigned_injective; try assumption;
      unfold uint64, uint32; apply Z.mod_pos_bound; lia.
  - intros [-> ->]. reflexivity.
Qed.

(* ------------------------------------------------------------------ *)
(** ** The query that replaces a subquery *)

Lemma BuildResultColumns_vars (aliases : list string) (tl : list TargetEntry) :
  forall n col,
    In col (BuildResultColumns aliases n tl) ->
    exists original,
      In original tl /\ te_resjunk original = false /\
      col_name col = te_resname original /\
      col_type col = exprType (te_expr original) /\
      col_typmod col = exprTypmod (te_expr original) /\
      col_collation col = exprCollation (te_expr original) /\
      te_expr (col_entry col)
      = T_Var 1 (te_resno (col_entry col)) (col_type col) (col_typmod col)
              (col_collation col) 0.
Proof.
  induction tl as [|t tl IH]; intros n col H; simpl in H; [contradiction|].
  destruct (te_resjunk t) eqn:J.
  - destruct (IH _ _ H) as (o & Ho & R). exists o. split; [right; exact Ho | exact R].
  - destruct H as [H|H].
    + subst col. exists t. simpl. repeat split; try reflexivity; [left; reflexivity | exact J].
    + destruct (IH _ _ H) as (o & Ho & R). exists o. split; [right; exact Ho | exact R].
Qed.

Lemma map_acc_fixed {A S : Type} (f : A -> S -> A * S) (l : list A) :
  (forall x, In x l -> forall s, f x s = (x, s)) ->
  forall s, map_acc f l s = (l, s).
Proof.
  induction l as [|x t IH]; intros H s; simpl; [reflexivity|].
  rewrite (H x (or_introl eq_refl)).
  rewrite IH; [reflexivity|]. intros y Hy. apply H. right. exact Hy.
Qed.

Lemma result_query_fields (tl : list TargetEntry) (aliases : list string)
      (resultId : string) (s s' : PlanState) (resultQuery : Query) :
  BuildSubPlanResultQuery tl aliases resultId s = (Done resultQuery, s') ->
  exists a funcAlias f,
    resultQuery
    = mkQuery a CMD_SELECT false []
              [mkRTE (mkRteData RTE_FUNCTION 0 RELKIND_OTHER false 0 false None 0 false
                                None (Some funcAlias) true) None [f]]
              (Some (T_FromExpr [T_RangeTblRef 1] None))
              (map col_entry (BuildResultColumns aliases 1 tl)) [] None None /\
    exists useBinary,
      rtf_funcexpr f
      = T_FuncExpr CitusReadIntermediateResultFuncId 0 true
          [T_Const TEXTOID (-1) (TextDatum resultId) false;
           T_Const CitusCopyFormatTypeId 4
                   (OidDatum (if useBinary : bool then BinaryCopyFormatId
                              else TextCopyFormatId)) true].
Proof.
  unfold BuildSubPlanResultQuery, BuildReadIntermediateResultsQuery. intro E.
  apply bind_inv_Done in E. destruct E as (a & s2 & _ & E).
  injection E as E _. subst resultQuery.
  do 3 eexists. split; [reflexivity|].
  exists (CanUseBinaryCopyFormatForTargetList tl). reflexivity.
Qed.

(** X4.  Once [RecursivelyPlanSubquery] has replaced a subquery, the
    object is self-contained: it has no Var, aggregate or placeholder that
    points to an outer query, no CTE, no sublink and no subquery, and its
    only range table entry is a function entry, so that nothing looking for
    a kind of relation in it, a distributed, local or other table, finds
    one. *)
Theorem replaced_subquery_is_self_contained
        (original replaced : Query) (s s' : PlanState) :
  RecursivelyPlanSubquery original s = (Done (true, replaced), s') ->
  ContainsReferencesToOuterQuery replaced = false /\
  cteList replaced = [] /\
  CteReferenceListWalker replaced = [] /\
  (forall te, In te (targetList replaced) -> ExtractSublinkWalker (te_expr te) = []) /\
  (forall rte, In rte (rtable replaced) ->
               rtekind (rte_data rte) = RTE_FUNCTION /\ subquery rte = None) /\
  (forall check : RangeTblEntry -> bool,
      (forall rte, rtekind (rte_data rte) = RTE_FUNCTION -> check rte = false) ->
      FindNodeMatchingCheckFunctionInQuery check replaced = false).
Proof.
  intro E.
  destruct (RecursivelyPlanSubquery_outcomes original s)
    as [(_ & E') | [(_ & _ & E') | (_ & p & rq & _ & Hrq & E' & _)]];
    rewrite E' in E; try discriminate E.
  injection E as <- _.
  destruct (result_query_fields _ _ _ _ _ _ Hrq) as (a & al & f & -> & b & F).
  destruct f as [fe n names tys mods colls]. simpl in F. subst fe.
  assert (V : forall te,
             In te (map col_entry (BuildResultColumns [] 1 (targetList original))) ->
             exists no ty tm coll name junk,
               te = mkTargetEntry (T_Var 1 no ty tm coll 0) no name junk).
  { intros te Hin. apply in_map_iff in Hin. destruct Hin as (col & <- & Hc).
    destruct (BuildResultColumns_vars _ _ _ _ Hc) as (o & _ & _ & _ & _ & _ & _ & Hv).
    destruct (col_entry col) as [e no name junk]. simpl in Hv. subst e.
    exists no, (col_type col), (col_typmod col), (col_collation col), name, junk.
    reflexivity. }
  unfold overwrite_Query. simpl.
  split; [|split; [reflexivity|split; [|split; [|split]]]].
  - unfold ContainsReferencesToOuterQuery. simpl.
    rewrite existsb_all_false; [reflexivity|].
    intros te Hin. destruct (V te Hin) as (no & ty & tm & coll & name & junk & ->).
    reflexivity.
  - unfold CteReferenceListWalker. simpl.
    rewrite map_acc_fixed; [reflexivity|].
    intros te Hin st. destruct (V te Hin) as (no & ty & tm & coll & name & junk & ->).
    reflexivity.
  - intros te Hin. destruct (V te Hin) as (no & ty & tm & coll & name & junk & ->).
    reflexivity.
  - intros rte [<-|[]]. split; reflexivity.
  - intros check Hc. simpl. unfold range_table_entry_walker.
    rewrite Hc by reflexivity. simpl.
    rewrite existsb_all_false; [reflexivity|].
    intros te Hin. destruct (V te Hin) as (no & ty & tm & coll & name & junk & ->).
    reflexivity.
Qed.



(* ------------------------------------------------------------------ *)
(** ** The references to the CTEs of a query *)

Lemma gathers_map_acc {X : Type}
      (collect store : X -> list RangeTblEntry -> X * list RangeTblEntry) (l : list X) :
  Forall (gathers_what_it_stores collect store) l ->
  gathers_what_it_stores (map_acc collect) (map_acc store) l.
Proof.
  induction 1 as [|x t (r & C & S) _ (rt & Ct & St)].
  - exists []. split; intro; simpl; [rewrite app_nil_r|]; reflexivity.
  - exists (r ++ rt). split; intro; simpl.
    + rewrite C, Ct, app_assoc. reflexivity.
    + rewrite <- app_assoc, S, St. reflexivity.
Qed.

Lemma gathers_opt_acc {X : Type}
      (collect store : X -> list RangeTblEntry -> X * list RangeTblEntry) (o : option X) :
  opt_all (gathers_what_it_stores collect store) o ->
  gathers_what_it_stores (opt_acc collect) (opt_acc store) o.
Proof.
  destruct o as [x|]; simpl.
  - intros (r & C & S). exists r. split; intro; simpl; [rewrite C | rewrite S]; reflexivity.
  - intros _. exists []. split; intro; simpl; [rewrite app_nil_r|]; reflexivity.
Qed.

Lemma Forall_at_level {X : Type} (P : Z -> X -> Prop) (l : list X) (level : Z) :
  Forall (fun x => forall level, P level x) l -> Forall (P level) l.
Proof. apply Forall_impl. intros x H. apply H. Qed.

Lemma opt_all_at_level {X : Type} (P : Z -> X -> Prop) (o : option X) (level : Z) :
  opt_all (fun x => forall level, P level x) o -> opt_all (P level) o.
Proof. destruct o; simpl; intro H; [apply H | exact I]. Qed.

Ltac at_level lvl :=
  repeat match goal with
         | H : Forall (fun x => forall level : Z, _) _ |- _ =>
             apply (Forall_at_level _ _ lvl) in H; apply gathers_map_acc in H
         | H : opt_all (fun x => forall level : Z, _) _ |- _ =>
             apply (opt_all_at_level _ _ lvl) in H; apply gathers_opt_acc in H
         | H : forall level : Z, gathers_what_it_stores _ _ _ |- _ => specialize (H lvl)
         end;
  repeat match goal with
         | H : gathers_what_it_stores _ _ _ |- _ => destruct H as (? & ? & ?)
         end.

Ltac rewrite_walks :=
  repeat match goal with
         | H : forall _ : list RangeTblEntry, _ = _ |- _ => rewrite H
         end.

Ltac gathered :=
  eexists; split; intro; simpl;
  [ rewrite_walks; rewrite <- ?app_assoc; reflexivity
  | rewrite <- ?app_assoc; rewrite_walks; reflexivity ].

Lemma walk_gathers_what_it_stores (query : Query) :
  forall level,
    gathers_what_it_stores
      (walk_cte_references_Query _ collect_reference level)
      (walk_cte_references_Query _ store_reference level) query.
Proof.
  induction query using tree_ind_Query
    with (PN := fun n => forall level,
                    gathers_what_it_stores
                      (walk_cte_references _ collect_reference level)
                      (walk_cte_references _ store_reference level) n)
         (PR := fun r => forall level,
                    gathers_what_it_stores
                      (walk_cte_references_RTE _ collect_reference level)
                      (walk_cte_references_RTE _ store_reference level) r)
         (PT := fun t => forall level,
                    gathers_what_it_stores
                      (walk_cte_references_TargetEntry _ collect_reference level)
                      (walk_cte_references_TargetEntry _ store_reference level) t)
         (PC := fun c => forall level,
                    gathers_what_it_stores
                      (walk_cte_references_CTE _ collect_reference level)
                      (walk_cte_references_CTE _ store_reference level) c)
         (PF := fun f => forall level,
                    gathers_what_it_stores
                      (walk_cte_references_RangeTblFunction _ collect_reference level)
                      (walk_cte_references_RangeTblFunction _ store_reference level) f);
    intro level.
  - exists []. split; intro; simpl; [rewrite app_nil_r|]; reflexivity.
  - exists []. split; intro; simpl; [rewrite app_nil_r|]; reflexivity.
  - at_level level. gathered.
  - at_level level. gathered.
  - at_level level. gathered.
  - at_level level. gathered.
  - at_level level. gathered.
  - at_level level. gathered.
  - exists []. split; intro; simpl; [rewrite app_nil_r|]; reflexivity.
  - at_level level. gathered.
  - at_level level. gathered.
  - at_level level. gathered.
  - at_level (level + 1). gathered.
  - destruct (is_cte_reference level (mkRTE d sub funcs)) eqn:R.
    + exists [mkRTE d sub funcs].
      split; intro; cbn [walk_cte_references_RTE]; rewrite R; reflexivity.
    + at_level level.
      destruct (rtekind d) eqn:K;
        try (exists []; split; intro; cbn [walk_cte_references_RTE]; rewrite R, K;
             rewrite ?app_nil_r; reflexivity);
        eexists; split; intro; cbn [walk_cte_references_RTE]; rewrite R, K;
        rewrite_walks; reflexivity.
  - at_level level. gathered.
  - at_level level. gathered.
  - at_level level. gathered.
Qed.

(** Writing back what [CteReferenceListWalker] gathered leaves the query
    as it is. *)
Lemma store_of_gathered_references (query : Query) :
  store_cte_references query (CteReferenceListWalker query) = query.
Proof.
  unfold store_cte_references, CteReferenceListWalker.
  destruct (walk_gathers_what_it_stores query (-1)) as (r & C & S).
  change (fun rte collected => (rte, lappend collected rte)) with collect_reference.
  change (fun (rte : RangeTblEntry) (remaining : list RangeTblEntry) =>
            match remaining with
            | written :: rest => (written, rest)
            | [] => (rte, [])
            end) with store_reference.
  rewrite C. simpl. rewrite <- (app_nil_r r), S. reflexivity.
Qed.

Lemma map_acc_Forall2 {X S : Type} (R : X -> X -> Prop) (f : X -> S -> X * S) :
  (forall x s, R x (fst (f x s))) ->
  forall l s, Forall2 R l (fst (map_acc f l s)).
Proof.
  intros H l. induction l as [|x t IH]; intro s; simpl; [constructor|].
  specialize (H x s). destruct (f x s) as [y s1]. specialize (IH s1).
  destruct (map_acc f t s1) as [r s2]. simpl in *. constructor; assumption.
Qed.

Lemma walk_keeps_commandType (S : Type)
      (onReference : RangeTblEntry -> S -> RangeTblEntry * S)
      (level : Z) (query : Query) (s : S) :
  commandType (fst (walk_cte_references_Query S onReference level query s))
  = commandType query.
Proof.
  destruct query as [a c hr ctes rt jt tl rl hq so]. simpl.
  repeat match goal with
         | |- context [let (_, _) := ?m in _] => destruct m
         end.
  reflexivity.
Qed.

(** A walk over the CTE references of a query leaves the CTE list with the
    same CTEs by name, reference count and command. *)
Lemma walk_keeps_cte_headers (S : Type)
      (onReference : RangeTblEntry -> S -> RangeTblEntry * S)
      (level : Z) (query : Query) (s : S) :
  Forall2 (fun cte cte' =>
             cte_name cte' = cte_name cte /\
             cte_refcount cte' = cte_refcount cte /\
             commandType (cte_query cte') = commandType (cte_query cte))
          (cteList query)
          (cteList (fst (walk_cte_references_Query S onReference level query s))).
Proof.
  destruct query as [a c hr ctes rt jt tl rl hq so]. simpl.
  destruct (map_acc _ tl s) as [tl' s1]. destruct (map_acc _ rl s1) as [rl' s2].
  destruct (opt_acc _ jt s2) as [jt' s3]. destruct (opt_acc _ so s3) as [so' s4].
  destruct (opt_acc _ hq s4) as [hq' s5].
  match goal with
  | |- context [map_acc ?f ctes s5] =>
      pose proof (map_acc_Forall2
                    (fun cte cte' =>
                       cte_name cte' = cte_name cte /\
                       cte_refcount cte' = cte_refcount cte /\
                       commandType (cte_query cte') = commandType (cte_query cte))
                    f) as H;
      specialize (fun K => H K ctes s5); destruct (map_acc f ctes s5) as [ctes' s6]
  end.
  destruct (map_acc _ rt s6). simpl in *. apply H.
  intros [n al q k] st. simpl.
  pose proof (walk_keeps_commandType S onReference (level + 1) q st) as C.
  destruct (walk_cte_references_Query S onReference (level + 1) q st) as [q' st'].
  simpl in *. repeat split. exact C.
Qed.

Lemma store_keeps_cte_headers (query : Query) (cells : list RangeTblEntry) :
  Forall2 (fun cte cte' =>
             cte_name cte' = cte_name cte /\
             cte_refcount cte' = cte_refcount cte /\
             commandType (cte_query cte') = commandType (cte_query cte))
          (cteList query) (cteList (store_cte_references query cells)).
Proof. apply walk_keeps_cte_headers. Qed.

Lemma is_unreferenced_select_header (cte cte' : CommonTableExpr) :
  cte_refcount cte' = cte_refcount cte ->
  commandType (cte_query cte') = commandType (cte_query cte) ->
  is_unreferenced_select cte' = is_unreferenced_select cte.
Proof. unfold is_unreferenced_select. intros -> ->. reflexivity. Qed.

Lemma Forall2_nth_error_right {X Y : Type} (R : X -> Y -> Prop) (l : list X) (l' : list Y) :
  Forall2 R l l' ->
  forall i y, nth_error l' i = Some y -> exists x, nth_error l i = Some x /\ R x y.
Proof.
  induction 1 as [|x y t t' Hxy _ IH]; intros [|i] y0 E; simpl in E; try discriminate E.
  - injection E as <-. exists x. split; [reflexivity | exact Hxy].
  - apply IH. exact E.
Qed.

Lemma skipn_at_nth_error {X : Type} (l : list X) :
  forall i x, nth_error l i = Some x -> skipn i l = x :: skipn (S i) l.
Proof.
  induction l as [|h t IH]; intros [|i] x E; simpl in E; try discriminate E.
  - injection E as <-. reflexivity.
  - rewrite (skipn_cons i h t). apply IH. exact E.
Qed.

Lemma PlanCTE_error (cte : CommonTableExpr) (cells : list RangeTblEntry)
      (s s' : PlanState) (error : DeferredErrorMessage) :
  PlanCTE cte cells s = (Done (inl error), s') ->
  error = cte_outer_reference_error /\ s' = s /\
  ContainsReferencesToOuterQuery (cte_query cte) = true.
Proof.
  unfold PlanCTE, bind at 1, get_context.
  destruct (ContainsReferencesToOuterQuery (cte_query cte)).
  - intro E. injection E as <- <-. repeat split.
  - destruct (is_unreferenced_select cte); [intro E; discriminate E|].
    intro E.
    apply bind_inv_Done in E. destruct E as (sp & s1 & _ & E).
    apply bind_inv_Done in E. destruct E as (u & s2 & _ & E).
    apply bind_inv_Done in E. destruct E as (rq & s3 & _ & E).
    apply bind_inv_Done in E. destruct E as (rep & s4 & _ & E).
    apply bind_inv_Done in E. destruct E as (u' & s5 & _ & E).
    discriminate E.
Qed.

Lemma PlanCTE_counts (cte : CommonTableExpr) (cells cells' : list RangeTblEntry)
      (s s' : PlanState) :
  PlanCTE cte cells s = (Done (inr cells'), s') ->
  subplan_count s'
  = (subplan_count s + if is_unreferenced_select cte then 0 else 1)%nat.
Proof.
  intro E. destruct (is_unreferenced_select cte) eqn:U.
  - rewrite (PlanCTE_skipped _ _ _ U) in E.
    destruct (ContainsReferencesToOuterQuery (cte_query cte)); [discriminate E|].
    injection E as _ <-. lia.
  - destruct (PlanCTE_planned _ _ _ _ _ U E) as (p & rq & _ & _ & _ & Hrep).
    assert (K : context s' = context (alloc_state (append_subplan s p))).
    { eapply (context_kept (ReplaceCteReferences (cte_name cte) rq cells 0));
        [|exact Hrep].
      intros P Ha. apply preserves_ReplaceCteReferences. exact Ha. }
    unfold subplan_count. rewrite K. simpl. unfold lappend.
    rewrite length_app. simpl. lia.
Qed.

Lemma PlanCTEsFrom_outcome (query : Query) :
  forall remaining index cells result s s',
    PlanCTEsFrom query index remaining cells s = (Done result, s') ->
    (index + remaining = List.length (cteList query))%nat ->
    match fst result with
    | Some error => error = cte_outer_reference_error
    | None =>
        subplan_count s'
        = (subplan_count s
           + List.length (filter (fun cte => negb (is_unreferenced_select cte))
                                 (skipn index (cteList query))))%nat
    end.
Proof.
  induction remaining as [|remaining IH]; intros index cells result s s' E L.
  - simpl in E. injection E as <- <-. simpl.
    rewrite skipn_all2 by lia. simpl. lia.
  - simpl in E.
    pose proof (store_keeps_cte_headers query cells) as F.
    destruct (nth_error (cteList (store_cte_references query cells)) index)
      as [cte'|] eqn:N.
    2:{ apply nth_error_None in N. apply Forall2_length in F. lia. }
    destruct (Forall2_nth_error_right _ _ _ F _ _ N) as (cte & Hcte & _ & Hr & Hc).
    apply bind_inv_Done in E. destruct E as (step & s1 & Hstep & E).
    destruct step as [error|cells1].
    + injection E as <- <-. simpl. apply (PlanCTE_error _ _ _ _ _ Hstep).
    + apply PlanCTE_counts in Hstep.
      rewrite (is_unreferenced_select_header _ _ Hr Hc) in Hstep.
      specialize (IH (S index) cells1 result s1 s' E ltac:(lia)).
      destruct (fst result); [exact IH|].
      rewrite (skipn_at_nth_error _ _ _ Hcte). cbn [filter].
      destruct (is_unreferenced_select cte); cbn [negb List.length]; lia.
Qed.

(** X6.  When [RecursivelyPlanCTEs] returns without an error, it has made
    exactly one subplan for each CTE of the query that is referenced or
    does not have a SELECT body, none for the others, and has cleared the
    CTE list.  The only errors it returns are the one for recursive CTEs
    and the one for a CTE that refers to an outer query. *)
Theorem one_subplan_for_each_cte_that_is_planned
        (query query' : Query) (error : option DeferredErrorMessage) (s s' : PlanState) :
  RecursivelyPlanCTEs query s = (Done (error, query'), s') ->
  match error with
  | Some e => e = recursive_cte_error \/ e = cte_outer_reference_error
  | None =>
      subplan_count s' = (subplan_count s + List.length (planned_ctes query))%nat /\
      cteList query' = []
  end.
Proof.
  intro E. pose proof E as E0. unfold RecursivelyPlanCTEs in E.
  unfold planned_ctes. destruct (cteList query) as [|cte ctes] eqn:L.
  - injection E as <- <- <-. simpl. split; [lia | exact L].
  - destruct (hasRecursive query).
    + injection E as <- _ _. left. reflexivity.
    + apply bind_inv_Done in E. destruct E as ([e cells] & s1 & Hloop & E).
      apply PlanCTEsFrom_outcome in Hloop; [|rewrite L; reflexivity].
      cbn [fst snd] in *. destruct e as [e|]; injection E as <- _ <-.
      * right. exact Hloop.
      * rewrite L in Hloop. split; [exact Hloop|].
        eapply RecursivelyPlanCTEs_clears. exact E0.
Qed.

Lemma PlanCTEsFrom_all_skipped (query : Query) (s : PlanState) :
  (forall cte, In cte (cteList query) ->
               is_unreferenced_select cte = true /\
               ContainsReferencesToOuterQuery (cte_query cte) = false) ->
  forall remaining index,
    PlanCTEsFrom query index remaining (CteReferenceListWalker query) s
    = (Done (None, CteReferenceListWalker query), s).
Proof.
  intros H. induction remaining as [|remaining IH]; intro index; simpl; [reflexivity|].
  rewrite store_of_gathered_references.
  destruct (nth_error (cteList query) index) as [cte|] eqn:N; [|reflexivity].
  destruct (H cte (nth_error_In _ _ N)) as [U O].
  erewrite bind_Done; [|rewrite (PlanCTE_skipped _ _ _ U), O; reflexivity].
  apply IH.
Qed.

(** X7.  A query all of whose CTEs are SELECTs that are never referenced
    and do not refer to an outer query comes out of [RecursivelyPlanCTEs]
    with its CTE list cleared and nothing else changed: no subplan is made,
    no range table entry is rewritten and no error is returned. *)
Theorem unreferenced_select_ctes_are_dropped (query : Query) (s : PlanState) :
  hasRecursive query = false ->
  (forall cte, In cte (cteList query) ->
               cte_refcount cte = 0 /\
               commandType (cte_query cte) = CMD_SELECT /\
               ContainsReferencesToOuterQuery (cte_query cte) = false) ->
  RecursivelyPlanCTEs query s = (Done (None, set_cteList query []), s).
Proof.
  intros R H. unfold RecursivelyPlanCTEs.
  destruct (cteList query) as [|cte ctes] eqn:L.
  - destruct query; simpl in *. subst. reflexivity.
  - rewrite R. rewrite <- L.
    erewrite bind_Done.
    2:{ apply PlanCTEsFrom_all_skipped. intros c Hc.
        destruct (H c) as (Z0 & S0 & O0); [rewrite <- L; exact Hc|].
        split; [|exact O0]. unfold is_unreferenced_select. rewrite Z0, S0. reflexivity. }
    cbn [fst snd]. rewrite store_of_gathered_references. reflexivity.
Qed.

(* ------------------------------------------------------------------ *)
(** ** Set operations, once more *)

Lemma RecursivelyPlanSetOperations_Done (node : Node) :
  forall query query' s s',
    RecursivelyPlanSetOperations query node s = (Done query', s') ->
    is_setop_tree node = true /\
    List.length (rtable query') = List.length (rtable query) /\
    forall i, In i (setop_leaves node) -> exists rte, rt_fetch i (rtable query) = Some rte.
Proof.
  induction node; intros query query' s s' E; simpl in E;
    try (unfold ereport_ERROR in E; discriminate E).
  - destruct (RecursivelyPlanSetOperationLeaf_Done _ _ _ _ _ E) as (rte0 & F & Hcase).
    split; [reflexivity|]. split.
    + destruct Hcase as [(_ & ->) | (_ & sub & _ & [(_ & ->) | (_ & rte' & _ & ->)])];
        try reflexivity; apply rt_store_length.
    + intros i [<-|[]]. exists rte0. exact F.
  - apply bind_inv_Done in E. destruct E as (q1 & s1 & E1 & E2).
    destruct (IHnode1 _ _ _ _ E1) as (T1 & L1 & D1).
    destruct (IHnode2 _ _ _ _ E2) as (T2 & L2 & D2).
    simpl. rewrite T1, T2. split; [reflexivity|]. split; [now rewrite L2|].
    intros i Hin. apply in_app_or in Hin. destruct Hin as [Hin|Hin].
    + apply D1. exact Hin.
    + destruct (D2 i Hin) as (rte1 & F1). eapply rt_fetch_defined; eassumption.
Qed.

Lemma RecursivelyPlanSetOperations_nothing_to_do (node : Node) :
  forall query s,
    is_setop_tree node = true ->
    (forall i, In i (setop_leaves node) ->
               exists rte, rt_fetch i (rtable query) = Some rte /\
                           is_distributed_subquery_rte rte = false) ->
    RecursivelyPlanSetOperations query node s = (Done query, s).
Proof.
  induction node; intros query s T H; simpl in T; try discriminate T; simpl.
  - destruct (H rtindex (or_introl eq_refl)) as (rte & F & D).
    unfold RecursivelyPlanSetOperationLeaf. rewrite F, D.
    destruct (subquery rte); reflexivity.
  - apply andb_prop in T. destruct T as [T1 T2].
    erewrite bind_Done.
    2:{ apply IHnode1; [exact T1|]. intros i Hin. apply H. simpl.
        apply in_or_app. left. exact Hin. }
    apply IHnode2; [exact T2|]. intros i Hin. apply H. simpl.
    apply in_or_app. right. exact Hin.
Qed.

(** X8.  [RecursivelyPlanSetOperations] returns only for a tree made of
    set operations and range table references whose indexes are in the
    range table; any other node in the tree ends it with an error.  It
    keeps the length of the range table.  When no leaf subquery over
    distributed tables refers to an outer query, running it a second time
    on the query it left changes nothing and makes no subplan: every leaf
    has already been dealt with. *)
Theorem set_operation_pass_settles_for_good
        (query query' : Query) (node : Node) (s s' : PlanState) :
  RecursivelyPlanSetOperations query node s = (Done query', s') ->
  is_setop_tree node = true /\
  List.length (rtable query') = List.length (rtable query) /\
  (forall i, In i (setop_leaves node) ->
             exists rte, rt_fetch i (rtable query) = Some rte) /\
  (leaves_are_closed node query ->
   forall s1, RecursivelyPlanSetOperations query' node s1 = (Done query', s1)).
Proof.
  intro E. destruct (RecursivelyPlanSetOperations_Done _ _ _ _ _ E) as (T & L & D).
  split; [exact T|]. split; [exact L|]. split; [exact D|].
  intros C s1. apply RecursivelyPlanSetOperations_nothing_to_do; [exact T|].
  intros i Hin. destruct (D i Hin) as (rte & F).
  destruct (RecursivelyPlanSetOperations_settles _ _ _ _ _ E C) as [_ H].
  destruct (H i rte F) as (rte' & F' & _ & N).
  exists rte'. split; [exact F' | exact (N Hin)].
Qed.

(* ------------------------------------------------------------------ *)
(** ** Passes over the leaves of a join tree *)

Lemma NoDup_app_apart {X : Type} (l1 l2 : list X) :
  NoDup (l1 ++ l2) ->
  NoDup l1 /\ NoDup l2 /\ (forall x, In x l1 -> ~ In x l2).
Proof.
  induction l1 as [|h t IH]; simpl; intro H.
  - split; [constructor|]. split; [exact H|]. intros x [].
  - inversion H as [|h' t' Hn Ht]; subst. destruct (IH Ht) as (N1 & N2 & A).
    split; [constructor; [|exact N1]|].
    + intro Hin. apply Hn. apply in_or_app. left. exact Hin.
    + split; [exact N2|]. intros x [<-|Hx].
      * intro Hin. apply Hn. apply in_or_app. right. exact Hin.
      * apply A. exact Hx.
Qed.

Lemma rt_store_unchanged (rt : list RangeTblEntry) (i : Z) (x : RangeTblEntry) :
  rt_fetch i rt = Some x -> rt_store i rt x = rt.
Proof.
  unfold rt_fetch, rt_store. destruct (i <=? 0); [discriminate|].
  generalize (Z.to_nat (i - 1)). clear i.
  induction rt as [|h t IH]; intros [|n] E; simpl in *; try discriminate E.
  - injection E as <-. reflexivity.
  - f_equal. apply IH. exact E.
Qed.

Lemma set_rtable_unchanged (q : Query) : set_rtable q (rtable q) = q.
Proof. destruct q. reflexivity. Qed.

Lemma set_subquery_unchanged (rte : RangeTblEntry) (sub : Query) :
  subquery rte = Some sub -> set_subquery rte (Some sub) = rte.
Proof. destruct rte. simpl. intros ->. reflexivity. Qed.

Section LeafPasses.

Variable plans : RangeTblEntry -> bool.
Variable settles : RangeTblEntry -> RangeTblEntry -> Prop.

Lemma leaf_pass_nothing (query : Query) (s : PlanState) :
  leaf_pass plans settles [] query query s s.
Proof.
  split; [reflexivity|]. split; [reflexivity|]. split; [intros i []|]. simpl. lia.
Qed.

Lemma leaf_pass_then (l1 l2 : list Z) (q q1 q2 : Query) (s s1 s2 : PlanState) :
  NoDup (l1 ++ l2) ->
  leaf_pass plans settles l1 q q1 s s1 ->
  leaf_pass plans settles l2 q1 q2 s1 s2 ->
  leaf_pass plans settles (l1 ++ l2) q q2 s s2.
Proof.
  intros N (L1 & F1 & H1 & C1) (L2 & F2 & H2 & C2).
  destruct (NoDup_app_apart _ _ N) as (_ & _ & A).
  split; [now rewrite L2|]. split; [|split].
  - intros i Hn. rewrite F2, F1; [reflexivity| |];
      intro Hin; apply Hn; apply in_or_app; [left | right]; exact Hin.
  - intros i Hin. apply in_app_or in Hin. destruct Hin as [Hin|Hin].
    + destruct (H1 i Hin) as (rte & rte' & E & E' & R).
      exists rte, rte'. split; [exact E|]. split; [|exact R].
      rewrite F2; [exact E'|]. apply A. exact Hin.
    + destruct (H2 i Hin) as (rte & rte' & E & E' & R).
      exists rte, rte'. split; [|split; [exact E' | exact R]].
      rewrite <- F1; [exact E|]. intro Hin1. exact (A i Hin1 Hin).
  - rewrite C2, C1, filter_app, length_app, <- Nat.add_assoc. do 2 f_equal.
    f_equal. apply filter_ext_in. intros i Hin. unfold planned_at.
    rewrite F1; [reflexivity|]. intro Hin1. exact (A i Hin1 Hin).
Qed.

(** A leaf that is left as it was. *)
Lemma leaf_pass_skip (i : Z) (query : Query) (rte : RangeTblEntry) (s : PlanState) :
  rt_fetch i (rtable query) = Some rte ->
  plans rte = false ->
  leaf_pass plans settles [i] query query s s.
Proof.
  intros F N. split; [reflexivity|]. split; [reflexivity|]. split.
  - intros j [<-|[]]. exists rte, rte. rewrite N. repeat split; assumption.
  - simpl. unfold planned_at. rewrite F, N. simpl. lia.
Qed.

(** A leaf that is planned: its entry is replaced and a subplan appended. *)
Lemma leaf_pass_plan (i : Z) (query : Query) (rte rte' : RangeTblEntry)
      (s s' : PlanState) :
  rt_fetch i (rtable query) = Some rte ->
  plans rte = true ->
  settles rte rte' ->
  subplan_count s' = S (subplan_count s) ->
  leaf_pass plans settles [i] query
            (set_rtable query (rt_store i (rtable query) rte')) s s'.
Proof.
  intros F Y R C. unfold leaf_pass. rewrite rtable_set_rtable.
  split; [apply rt_store_length|]. split; [|split].
  - intros j Hn. apply rt_fetch_store_other. intros ->. apply Hn. left. reflexivity.
  - intros j [<-|[]]. exists rte, rte'. rewrite Y.
    split; [exact F|]. split; [|exact R]. eapply rt_fetch_store_same. exact F.
  - simpl. unfold planned_at. rewrite F, Y, C. simpl. lia.
Qed.

End LeafPasses.

(* ------------------------------------------------------------------ *)
(** ** Subqueries that are not colocated with the anchor *)

Lemma subplan_count_append (s : PlanState) (p : PlannedStmt) :
  subplan_count (alloc_state (append_subplan s p)) = S (subplan_count s).
Proof.
  unfold subplan_count. simpl. unfold lappend. rewrite length_app. simpl. lia.
Qed.

Lemma NonColocatedJoinWalker_leaf (checker : ColocatedJoinChecker) (i : Z)
      (query query' : Query) (s s' : PlanState) :
  RecursivelyPlanNonColocatedJoinWalker (T_RangeTblRef i) checker query s
  = (Done query', s') ->
  leaf_pass (planned_as_not_colocated checker) subquery_replaced [i] query query' s s'.
Proof.
  simpl. intro E.
  destruct (rt_fetch i (rtable query)) as [rte|] eqn:F; [|discriminate E].
  destruct (RTEKind_eqb (rtekind (rte_data rte)) RTE_SUBQUERY) eqn:K; simpl in E.
  2:{ injection E as <- <-. eapply leaf_pass_skip; [exact F|].
      unfold planned_as_not_colocated. rewrite K. reflexivity. }
  destruct (subquery rte) as [sub|] eqn:Sub; [|discriminate E].
  apply bind_inv_Done in E. destruct E as (sub' & s1 & Hplan & E).
  injection E as <- <-. unfold PlanIfNotColocated in Hplan.
  assert (Skip : planned_as_not_colocated checker rte = false ->
                 leaf_pass (planned_as_not_colocated checker) subquery_replaced [i] query
                   (set_rtable query
                      (rt_store i (rtable query) (set_subquery rte (Some sub)))) s s).
  { intro N. rewrite (set_subquery_unchanged _ _ Sub), (rt_store_unchanged _ _ _ F),
      set_rtable_unchanged.
    eapply leaf_pass_skip; [exact F | exact N]. }
  unfold planned_as_not_colocated in Skip. rewrite K, Sub in Skip. simpl in Skip.
  destruct (SubqueryColocated sub checker) eqn:Col; simpl in Hplan, Skip.
  - injection Hplan as <- <-. apply Skip. reflexivity.
  - apply bind_inv_Done in Hplan. destruct Hplan as ([b q1] & s2 & R & Hret).
    injection Hret as <- <-. cbn [snd].
    destruct (RecursivelyPlanSubquery_outcomes sub s)
      as [(O & R') | [(O & _ & R') | (O & p & rq & _ & Hrq & R' & _)]];
      rewrite R' in R; try discriminate R.
    + injection R as _ <- <-. apply Skip. rewrite O. reflexivity.
    + injection R as _ <- <-.
      apply leaf_pass_plan with (rte := rte).
      * exact F.
      * unfold planned_as_not_colocated. rewrite K, Sub, Col, O. reflexivity.
      * destruct (overwrite_result_read _ _ _ _ Hrq) as [Ha Hr].
        exists sub, (overwrite_Query sub rq). repeat split; assumption.
      * apply subplan_count_append.
Qed.

Lemma NonColocatedJoinWalker_leaves (checker : ColocatedJoinChecker) (node : Node) :
  forall query query' s s',
    NoDup (join_leaves node) ->
    RecursivelyPlanNonColocatedJoinWalker node checker query s = (Done query', s') ->
    leaf_pass (planned_as_not_colocated checker) subquery_replaced
              (join_leaves node) query query' s s'.
Proof.
  induction node using tree_ind_Node
    with (PQ := fun _ => True) (PR := fun _ => True) (PT := fun _ => True)
         (PC := fun _ => True) (PF := fun _ => True);
    try exact I; intros query query' s s' N E;
    try (simpl in E; unfold ereport_ERROR in E; discriminate E).
  - apply NonColocatedJoinWalker_leaf. exact E.
  - simpl in E, N |- *.
    apply bind_inv_Done in E. destruct E as (q1 & s1 & E1 & E2).
    destruct (NoDup_app_apart _ _ N) as (N1 & N2 & _).
    eapply leaf_pass_then; [exact N | apply IHnode1 | apply IHnode2]; eassumption.
  - simpl in E, N |- *. revert query s N E.
    induction H as [|x t Hx Ht IH]; intros query s N E.
    + injection E as <- <-. apply leaf_pass_nothing.
    + apply bind_inv_Done in E. destruct E as (q1 & s1 & E1 & E2).
      simpl in N |- *. destruct (NoDup_app_apart _ _ N) as (N1 & N2 & _).
      eapply leaf_pass_then; [exact N | apply Hx | apply IH]; eassumption.
Qed.

(** X9.  [RecursivelyPlanNonColocatedJoinWalker], walking a join tree in
    which every range table index occurs once, replaces exactly the
    subquery entries whose subquery is not colocated with the anchor and
    does not refer to an outer query: each of them reads a subplan result
    afterwards and one subplan was made for it.  Every other entry, at a
    leaf of the tree or not, is as it was, relations and colocated
    subqueries included, and the range table keeps its length. *)
Theorem non_colocated_join_walker_plans_the_non_colocated_subqueries
        (joinNode : Node) (colocatedJoinChecker : ColocatedJoinChecker)
        (query query' : Query) (s s' : PlanState) :
  NoDup (join_leaves joinNode) ->
  RecursivelyPlanNonColocatedJoinWalker joinNode colocatedJoinChecker query s
  = (Done query', s') ->
  List.length (rtable query') = List.length (rtable query) /\
  (forall i, ~ In i (join_leaves joinNode) ->
             rt_fetch i (rtable query') = rt_fetch i (rtable query)) /\
  (forall i, In i (join_leaves joinNode) ->
     exists rte rte',
       rt_fetch i (rtable query) = Some rte /\
       rt_fetch i (rtable query') = Some rte' /\
       if planned_as_not_colocated colocatedJoinChecker rte
       then subquery_replaced rte rte' else rte' = rte) /\
  subplan_count s'
  = (subplan_count s
     + List.length (filter (planned_at (planned_as_not_colocated colocatedJoinChecker)
                                       query)
                           (join_leaves joinNode)))%nat.
Proof.
  intros N E. exact (NonColocatedJoinWalker_leaves _ _ _ _ _ _ N E).
Qed.

(* ------------------------------------------------------------------ *)
(** ** Outer joins with a recurring side, once more *)

Lemma result_query_has_no_table (tl : list TargetEntry) (aliases : list string)
      (resultId : string) (s s' : PlanState) (resultQuery : Query) :
  BuildSubPlanResultQuery tl aliases resultId s = (Done resultQuery, s') ->
  FindNodeMatchingCheckFunctionInQuery IsDistributedTableRTE resultQuery = false.
Proof.
  intro E. destruct (result_query_fields _ _ _ _ _ _ E) as (a & al & f & -> & b & F).
  destruct f as [fe n names tys mods colls]. simpl in F. subst fe. simpl.
  rewrite existsb_all_false; [reflexivity|].
  intros te Hin. apply in_map_iff in Hin. destruct Hin as (col & <- & Hc).
  destruct (BuildResultColumns_vars _ _ _ _ Hc) as (o & _ & _ & _ & _ & _ & _ & Hv).
  rewrite Hv. reflexivity.
Qed.

Lemma copyObject_Query_any_address (q : Query) (a : addr) :
  copyObject_Query (set_q_addr q a) = copyObject_Query q.
Proof. destruct q. reflexivity. Qed.

Lemma recurring_subquery_entry (d : RteData) (sub : Query) (funcs : list RangeTblFunction) :
  rtekind d = RTE_SUBQUERY ->
  FindNodeMatchingCheckFunctionInQuery IsDistributedTableRTE sub = false ->
  recurring_entry (mkRTE d (Some sub) funcs) = true.
Proof.
  intros K F. unfold recurring_entry, FindNodeMatchingCheckFunctionInRangeTableList,
    range_table_walker.
  cbn [existsb]. unfold range_table_entry_walker.
  replace (IsDistributedTableRTE (mkRTE d (Some sub) funcs)) with false
    by (unfold IsDistributedTableRTE; simpl; rewrite K; reflexivity).
  rewrite K. cbn [walk_opt orb]. rewrite F. reflexivity.
Qed.

Lemma ReplaceRTERelationWithRteSubquery_recurring
      (rte rte' : RangeTblEntry) (attrs : list Z) (s s' : PlanState) :
  relation_target_lists_are_plain ->
  ReplaceRTERelationWithRteSubquery rte attrs s = (Done rte', s') ->
  recurring_entry rte' = true.
Proof.
  intros Plain E. unfold ReplaceRTERelationWithRteSubquery in E.
  apply bind_inv_Done in E. destruct E as (ctx & s0 & Hget & E).
  unfold get_context in Hget. injection Hget as <- <-.
  apply bind_inv_Done in E. destruct E as (a & s1 & Ha & E).
  unfold makeNode_Query in Ha. injection Ha as <- <-.
  apply bind_inv_Done in E. destruct E as (copies & s2 & Hc & E).
  apply bind_inv_Done in E. destruct E as ([planned q1] & s3 & Hp & E).
  cbn [fst snd] in E. destruct planned; simpl negb in E; cbv iota in E;
    [|unfold ereport_ERROR in E; discriminate E].
  apply bind_inv_Done in E. destruct E as (outer & s4 & Ho & E).
  injection E as <- <-.
  match type of Hp with
  | RecursivelyPlanSubquery ?sub _ = _ =>
      destruct (RecursivelyPlanSubquery_outcomes sub s2)
        as [(_ & R) | [(_ & _ & R) | (_ & p & rq & _ & Hrq & R & _)]]
  end; rewrite R in Hp; try discriminate Hp.
  injection Hp as <- <-.
  pose proof (result_query_has_no_table _ _ _ _ _ _ Hrq) as NoTable.
  pose proof (copyObject_result_query _ _ _ _ _ _ Hrq) as Copy.
  unfold CreateOuterSubquery in Ho.
  apply bind_inv_Done in Ho. destruct Ho as (oa & s5 & _ & Ho).
  apply bind_inv_Done in Ho. destruct Ho as (inner & s6 & Hinner & Ho).
  apply bind_inv_Done in Ho. destruct Ho as (u & s7 & _ & Ho).
  injection Ho as <- _.
  simpl in Hinner.
  apply bind_inv_Done in Hinner. destruct Hinner as (sub' & s8 & Hsub & Hinner).
  apply bind_inv_Done in Hinner. destruct Hinner as (funcs' & s9 & _ & Hinner).
  injection Hinner as <- _.
  apply bind_inv_Done in Hsub. destruct Hsub as (qc & s10 & Hqc & Hsub).
  injection Hsub as <- _.
  unfold overwrite_Query in Hqc. rewrite copyObject_Query_any_address, Copy in Hqc.
  injection Hqc as <- _.
  simpl. apply recurring_subquery_entry; [reflexivity|]. simpl.
  rewrite existsb_all_false by (intros te Hin; eapply Plain; exact Hin).
  simpl. unfold range_table_entry_walker. simpl.
  match goal with
  | |- context [rtekind (set_eref_colnames ?d ?names)] =>
      assert (K : rtekind (set_eref_colnames d names) = RTE_SUBQUERY)
        by (unfold set_eref_colnames; destruct (eref d); reflexivity)
  end.
  match goal with
  | |- IsDistributedTableRTE ?r || _ || _ = _ =>
      replace (IsDistributedTableRTE r) with false
        by (unfold IsDistributedTableRTE; cbn [rte_data]; rewrite K; reflexivity)
  end.
  rewrite K, FindInQuery_set_q_addr, NoTable. reflexivity.
Qed.

Lemma DistributedJoinNode_leaf (i : Z) (query query' : Query) (s s' : PlanState) :
  relation_target_lists_are_plain ->
  distributed_leaves_closed query [i] ->
  RecursivelyPlanDistributedJoinNode (T_RangeTblRef i) query s = (Done query', s') ->
  leaf_pass forced_entry now_recurring [i] query query' s s'.
Proof.
  intros Plain Closed E. simpl in E. unfold RecursivelyPlanDistributedRTE in E.
  unfold IsRTERefRecurring in E.
  destruct (rt_fetch i (rtable query)) as [rte|] eqn:F; [|discriminate E].
  destruct (FindNodeMatchingCheckFunctionInRangeTableList [rte] IsDistributedTableRTE)
    eqn:D; simpl in E.
  2:{ injection E as <- <-. eapply leaf_pass_skip; [exact F|].
      unfold forced_entry, recurring_entry. rewrite D. reflexivity. }
  assert (Y : forced_entry rte = true)
    by (unfold forced_entry, recurring_entry; rewrite D; reflexivity).
  destruct (rtekind (rte_data rte)) eqn:K; try discriminate E.
  - (* a relation *)
    apply bind_inv_Done in E. destruct E as (ctx & s0 & Hget & E).
    unfold get_context in Hget. injection Hget as <- <-.
    apply bind_inv_Done in E. destruct E as (rte' & s1 & Hr & E).
    injection E as <- <-.
    destruct (ReplaceRTERelationWithRteSubquery_Done _ _ _ _ _ Hr) as [Hc _].
    eapply leaf_pass_plan; [exact F | exact Y | | exact Hc].
    eapply ReplaceRTERelationWithRteSubquery_recurring; eassumption.
  - (* a subquery *)
    destruct (subquery rte) as [sub|] eqn:Sub; [|discriminate E].
    assert (O : ContainsReferencesToOuterQuery sub = false).
    { eapply Closed; try eassumption; [left; reflexivity|].
      unfold recurring_entry. rewrite D. reflexivity. }
    apply bind_inv_Done in E. destruct E as ([planned q1] & s1 & Hp & E).
    apply bind_inv_Done in E. destruct E as ([] & s2 & Hassert & E).
    injection E as <- <-. cbn [fst snd] in *.
    destruct (RecursivelyPlanSubquery_outcomes sub s)
      as [(O' & _) | [(_ & _ & R) | (_ & p & rq & _ & Hrq & R & _)]];
      [rewrite O in O'; discriminate O' | rewrite R in Hp; discriminate Hp |].
    rewrite R in Hp. injection Hp as <- <- <-. simpl in Hassert.
    injection Hassert as <-.
    eapply leaf_pass_plan; [exact F | exact Y | | apply subplan_count_append].
    unfold now_recurring. destruct rte as [d o funcs]. simpl in *.
    apply recurring_subquery_entry; [exact K|].
    unfold overwrite_Query. rewrite FindInQuery_set_q_addr.
    eapply result_query_has_no_table. exact Hrq.
Qed.

Lemma closed_leaves_left (query : Query) (l1 l2 : list Z) :
  distributed_leaves_closed query (l1 ++ l2) -> distributed_leaves_closed query l1.
Proof.
  intros H i rte sub Hin. apply H. apply in_or_app. left. exact Hin.
Qed.

Lemma closed_leaves_right (query : Query) (l1 l2 : list Z) :
  distributed_leaves_closed query (l1 ++ l2) -> distributed_leaves_closed query l2.
Proof.
  intros H i rte sub Hin. apply H. apply in_or_app. right. exact Hin.
Qed.

(** Closedness at leaves whose entries are what they were, or recurring. *)
Lemma closed_leaves_carried (query query1 : Query) (leaves : list Z) :
  distributed_leaves_closed query leaves ->
  (forall i, In i leaves ->
             rt_fetch i (rtable query1) = rt_fetch i (rtable query) \/
             exists rte1, rt_fetch i (rtable query1) = Some rte1 /\
                          recurring_entry rte1 = true) ->
  distributed_leaves_closed query1 leaves.
Proof.
  intros H Same i rte sub Hin F K Sub R.
  destruct (Same i Hin) as [E|(rte1 & E & R1)].
  - rewrite E in F. eapply H; eassumption.
  - rewrite E in F. injection F as <-. rewrite R in R1. discriminate R1.
Qed.

Lemma DistributedJoinNode_leaves (node : Node) :
  forall query query' s s',
    relation_target_lists_are_plain ->
    NoDup (join_leaves node) ->
    distributed_leaves_closed query (join_leaves node) ->
    RecursivelyPlanDistributedJoinNode node query s = (Done query', s') ->
    leaf_pass forced_entry now_recurring (join_leaves node) query query' s s' /\
    is_forced_join_tree node = true.
Proof.
  induction node; intros query query' s s' Plain N Closed E;
    try (simpl in E; unfold ereport_ERROR in E; discriminate E).
  - split; [|reflexivity]. apply DistributedJoinNode_leaf; assumption.
  - simpl in E, N, Closed |- *.
    apply bind_inv_Done in E. destruct E as (q1 & s1 & E1 & E2).
    destruct (NoDup_app_apart _ _ N) as (N1 & N2 & A).
    destruct (IHnode1 _ _ _ _ Plain N1 (closed_leaves_left _ _ _ Closed) E1)
      as [P1 T1].
    assert (C2 : distributed_leaves_closed q1 (join_leaves node2)).
    { apply closed_leaves_carried with (query := query);
        [exact (closed_leaves_right _ _ _ Closed)|].
      intros i Hin. left. destruct P1 as (_ & Fr & _). apply Fr.
      intro Hin1. exact (A i Hin1 Hin). }
    destruct (IHnode2 _ _ _ _ Plain N2 C2 E2) as [P2 T2].
    split; [|rewrite T1, T2; reflexivity].
    eapply leaf_pass_then; eassumption.
Qed.

(** After a pass that plans whatever is not recurring, every leaf is. *)
Lemma forced_leaves_recurring (leaves : list Z) (query query' : Query) (s s' : PlanState) :
  leaf_pass forced_entry now_recurring leaves query query' s s' ->
  forall i, In i leaves ->
    exists rte', rt_fetch i (rtable query') = Some rte' /\ recurring_entry rte' = true.
Proof.
  intros (_ & _ & H & _) i Hin. destruct (H i Hin) as (rte & rte' & _ & F' & R).
  exists rte'. split; [exact F'|]. unfold forced_entry in R.
  destruct (recurring_entry rte) eqn:Rec; simpl in R; [subst rte'; exact Rec | exact R].
Qed.

Lemma recurs_depends_on_leaves (node : Node) :
  forall q1 q2,
    (forall i, In i (join_leaves node) -> rt_fetch i (rtable q1) = rt_fetch i (rtable q2)) ->
    recurs q1 node = recurs q2 node.
Proof.
  induction node; intros q1 q2 H; simpl; try reflexivity.
  - rewrite (H rtindex (or_introl eq_refl)). reflexivity.
  - simpl in H.
    rewrite (IHnode1 q1 q2) by (intros i Hin; apply H; apply in_or_app; left; exact Hin).
    rewrite (IHnode2 q1 q2) by (intros i Hin; apply H; apply in_or_app; right; exact Hin).
    reflexivity.
Qed.

Lemma settled_depends_on_leaves (node : Node) :
  forall q1 q2,
    (forall i, In i (join_leaves node) -> rt_fetch i (rtable q1) = rt_fetch i (rtable q2)) ->
    outer_joins_settled q1 node = outer_joins_settled q2 node.
Proof.
  induction node using tree_ind_Node
    with (PQ := fun _ => True) (PR := fun _ => True) (PT := fun _ => True)
         (PC := fun _ => True) (PF := fun _ => True);
    try exact I; intros q1 q2 E; simpl; try reflexivity.
  - simpl in E.
    assert (E1 : forall i, In i (join_leaves node1) ->
                           rt_fetch i (rtable q1) = rt_fetch i (rtable q2))
      by (intros i Hin; apply E; apply in_or_app; left; exact Hin).
    assert (E2 : forall i, In i (join_leaves node2) ->
                           rt_fetch i (rtable q1) = rt_fetch i (rtable q2))
      by (intros i Hin; apply E; apply in_or_app; right; exact Hin).
    rewrite (IHnode1 q1 q2 E1), (IHnode2 q1 q2 E2).
    rewrite (recurs_depends_on_leaves node1 q1 q2 E1).
    rewrite (recurs_depends_on_leaves node2 q1 q2 E2). reflexivity.
  - simpl in E. induction H as [|x t Hx Ht IH]; simpl; [reflexivity|].
    rewrite (Hx q1 q2) by (intros i Hin; apply E; simpl; apply in_or_app; left; exact Hin).
    rewrite IH by (intros i Hin; apply E; simpl; apply in_or_app; right; exact Hin).
    reflexivity.
Qed.

(** A join tree all of whose leaves are recurring is recurring, and has
    no outer join left to settle. *)
Lemma recurring_leaves_settle (query : Query) (node : Node) :
  is_walked_join_tree node = true ->
  is_forced_join_tree node = true ->
  (forall i, In i (join_leaves node) ->
     exists rte, rt_fetch i (rtable query) = Some rte /\ recurring_entry rte = true) ->
  recurs query node = true /\ outer_joins_settled query node = true.
Proof.
  induction node; intros W T H; simpl in W, T; try discriminate T; simpl.
  - destruct (H rtindex (or_introl eq_refl)) as (rte & -> & R). split; [exact R | reflexivity].
  - apply andb_prop in W. destruct W as [W W2]. apply andb_prop in W. destruct W as [J W1].
    apply andb_prop in T. destruct T as [T1 T2]. simpl in H.
    destruct IHnode1 as [R1 S1]; [assumption..| |].
    { intros i Hin. apply H. apply in_or_app. left. exact Hin. }
    destruct IHnode2 as [R2 S2]; [assumption..| |].
    { intros i Hin. apply H. apply in_or_app. right. exact Hin. }
    rewrite R1, R2, S1, S2. destruct jointype; try discriminate J; split; reflexivity.
Qed.

Lemma only_made_recurring_then (l1 l2 : list Z) (q q1 q2 : Query) :
  NoDup (l1 ++ l2) ->
  only_made_recurring l1 q q1 -> only_made_recurring l2 q1 q2 ->
  only_made_recurring (l1 ++ l2) q q2.
Proof.
  intros N (L1 & F1 & H1) (L2 & F2 & H2).
  destruct (NoDup_app_apart _ _ N) as (_ & _ & A).
  split; [now rewrite L2|]. split.
  - intros i Hn. rewrite F2, F1; [reflexivity| |];
      intro Hin; apply Hn; apply in_or_app; [left | right]; exact Hin.
  - intros i Hin. apply in_app_or in Hin. destruct Hin as [Hin|Hin].
    + destruct (H1 i Hin) as (rte & rte' & E & E' & R).
      exists rte, rte'. split; [exact E|]. split; [|exact R].
      rewrite F2; [exact E'|]. apply A. exact Hin.
    + destruct (H2 i Hin) as (rte & rte' & E & E' & R).
      exists rte, rte'. split; [|split; [exact E' | exact R]].
      rewrite <- F1; [exact E|]. intro Hin1. exact (A i Hin1 Hin).
Qed.

Lemma only_made_recurring_within (l l' : list Z) (q q1 q2 : Query) :
  (forall i, In i l' -> In i l) ->
  only_made_recurring l q q1 -> only_made_recurring l' q1 q2 ->
  only_made_recurring l q q2.
Proof.
  intros Sub (L1 & F1 & H1) (L2 & F2 & H2).
  split; [now rewrite L2|]. split.
  - intros i Hn. rewrite F2, F1; [reflexivity | exact Hn|].
    intro Hin. apply Hn. apply Sub. exact Hin.
  - intros i Hin. destruct (H1 i Hin) as (rte & rte1 & E & E1 & R1).
    destruct (in_dec Z.eq_dec i l') as [Hin'|Hn'].
    + destruct (H2 i Hin') as (rte1' & rte2 & E1' & E2 & R2).
      rewrite E1 in E1'. injection E1' as <-.
      exists rte, rte2. split; [exact E|]. split; [exact E2|].
      destruct R2 as [->|[A2 B2]]; [exact R1|].
      destruct R1 as [->|[A1 B1]]; [right; split; assumption|].
      rewrite A2 in B1. discriminate B1.
    + exists rte, rte1. split; [exact E|]. split; [|exact R1].
      rewrite F2; [exact E1 | exact Hn'].
Qed.

Lemma forced_pass_only_made_recurring (leaves : list Z) (q q' : Query) (s s' : PlanState) :
  leaf_pass forced_entry now_recurring leaves q q' s s' ->
  only_made_recurring leaves q q'.
Proof.
  intros (L & F & H & _). split; [exact L|]. split; [exact F|].
  intros i Hin. destruct (H i Hin) as (rte & rte' & E & E' & R).
  exists rte, rte'. split; [exact E|]. split; [exact E'|].
  unfold forced_entry, now_recurring in R.
  destruct (recurring_entry rte); simpl in R; [left; exact R | right; split; [reflexivity | exact R]].
Qed.

Lemma closed_leaves_after (q q1 : Query) (l leaves : list Z) :
  distributed_leaves_closed q leaves ->
  only_made_recurring l q q1 ->
  distributed_leaves_closed q1 leaves.
Proof.
  intros C (_ & F & H). apply closed_leaves_carried with (query := q); [exact C|].
  intros i _. destruct (in_dec Z.eq_dec i l) as [Hin|Hn].
  - destruct (H i Hin) as (rte & rte' & E & E' & [->|[_ R]]).
    + left. rewrite E, E'. reflexivity.
    + right. exists rte'. split; assumption.
  - left. apply F. exact Hn.
Qed.

Lemma forced_side_settled (side : Node) (q2 q3 : Query) (s2 s3 : PlanState) :
  relation_target_lists_are_plain ->
  NoDup (join_leaves side) ->
  distributed_leaves_closed q2 (join_leaves side) ->
  is_walked_join_tree side = true ->
  RecursivelyPlanDistributedJoinNode side q2 s2 = (Done q3, s3) ->
  only_made_recurring (join_leaves side) q2 q3 /\
  recurs q3 side = true /\ outer_joins_settled q3 side = true.
Proof.
  intros Plain N C W E.
  destruct (DistributedJoinNode_leaves _ _ _ _ _ Plain N C E) as [P T].
  split; [eapply forced_pass_only_made_recurring; exact P|].
  apply recurring_leaves_settle; [exact W | exact T|].
  eapply forced_leaves_recurring. exact P.
Qed.

Lemma untouched_side (side : Node) (leaves : list Z) (q2 q3 : Query) :
  only_made_recurring leaves q2 q3 ->
  (forall i, In i (join_leaves side) -> ~ In i leaves) ->
  recurs q3 side = recurs q2 side /\
  outer_joins_settled q3 side = outer_joins_settled q2 side.
Proof.
  intros (_ & F & _) A.
  split; [apply recurs_depends_on_leaves | apply settled_depends_on_leaves];
    intros i Hin; apply F; apply A; exact Hin.
Qed.

Lemma join_walk_post (jointype : JoinType) (leftNode rightNode : Node)
      (quals : option Node) (q q1 q2 q' : Query) (s2 s' : PlanState)
      (leftNodeRecurs rightNodeRecurs answer : bool) :
  relation_target_lists_are_plain ->
  NoDup (join_leaves leftNode ++ join_leaves rightNode) ->
  distributed_leaves_closed q (join_leaves leftNode ++ join_leaves rightNode) ->
  outer_join_walk_post leftNode q q1 leftNodeRecurs ->
  outer_join_walk_post rightNode q1 q2 rightNodeRecurs ->
  PlanJoinSides jointype leftNode rightNode leftNodeRecurs rightNodeRecurs q2 s2
  = (Done (answer, q'), s') ->
  outer_join_walk_post (T_JoinExpr jointype leftNode rightNode quals) q q' answer.
Proof.
  intros Plain N Closed (W1 & M1 & B1 & B1' & S1) (W2 & M2 & B2 & B2' & S2) E.
  destruct (NoDup_app_apart _ _ N) as (N1 & N2 & A).
  assert (A' : forall i, In i (join_leaves rightNode) -> ~ In i (join_leaves leftNode))
    by (intros i Hr Hl; exact (A i Hl Hr)).
  pose proof (only_made_recurring_then _ _ _ _ _ N M1 M2) as M12.
  (* the right side before the walk of the left side, the left side after
     the walk of the right side *)
  destruct (untouched_side rightNode _ _ _ M1 A') as [Rr _].
  destruct (untouched_side leftNode _ _ _ M2 A) as [Rl Sl].
  assert (C2l : distributed_leaves_closed q2 (join_leaves leftNode)).
  { eapply closed_leaves_after; [|exact M12]. eapply closed_leaves_left. exact Closed. }
  assert (C2r : distributed_leaves_closed q2 (join_leaves rightNode)).
  { eapply closed_leaves_after; [|exact M12]. eapply closed_leaves_right. exact Closed. }
  assert (Shape : is_walked_join_type jointype = true ->
                  is_walked_join_tree (T_JoinExpr jointype leftNode rightNode quals)
                  = true).
  { intro J. simpl. rewrite J, W1, W2. reflexivity. }
  (* the three ways the walk of a join ends *)
  assert (Unplanned : q' = q2 ->
            only_made_recurring (join_leaves leftNode ++ join_leaves rightNode) q q' /\
            recurs q' leftNode = leftNodeRecurs /\ recurs q' rightNode = rightNodeRecurs /\
            outer_joins_settled q' leftNode = true /\
            outer_joins_settled q' rightNode = true).
  { intros ->. split; [exact M12|]. rewrite Rl, Sl, <- B1', <- B2'.
    repeat split; assumption. }
  assert (RightPlanned : forall st,
            RecursivelyPlanDistributedJoinNode rightNode q2 st = (Done q', s') ->
            only_made_recurring (join_leaves leftNode ++ join_leaves rightNode) q q' /\
            recurs q' leftNode = leftNodeRecurs /\ recurs q' rightNode = true /\
            outer_joins_settled q' leftNode = true /\
            outer_joins_settled q' rightNode = true).
  { intros st Ep.
    destruct (forced_side_settled _ _ _ _ _ Plain N2 C2r W2 Ep) as (M3 & R3 & S3).
    destruct (untouched_side leftNode _ _ _ M3 A) as [Rl3 Sl3].
    split.
    - eapply only_made_recurring_within; [|exact M12 | exact M3].
      intros i Hin. apply in_or_app. right. exact Hin.
    - rewrite Rl3, Sl3, Rl, Sl, <- B1'. repeat split; assumption. }
  assert (LeftPlanned : forall st,
            RecursivelyPlanDistributedJoinNode leftNode q2 st = (Done q', s') ->
            only_made_recurring (join_leaves leftNode ++ join_leaves rightNode) q q' /\
            recurs q' leftNode = true /\ recurs q' rightNode = rightNodeRecurs /\
            outer_joins_settled q' leftNode = true /\
            outer_joins_settled q' rightNode = true).
  { intros st Ep.
    destruct (forced_side_settled _ _ _ _ _ Plain N1 C2l W1 Ep) as (M3 & R3 & S3).
    destruct (untouched_side rightNode _ _ _ M3 A') as [Rr3 Sr3].
    split.
    - eapply only_made_recurring_within; [|exact M12 | exact M3].
      intros i Hin. apply in_or_app. left. exact Hin.
    - rewrite Rr3, Sr3, <- B2'. repeat split; assumption. }
  unfold outer_join_walk_post. cbn [join_leaves recurs outer_joins_settled].
  rewrite <- B1, <- Rr, <- B2.
  destruct jointype; unfold PlanJoinSides in E; try discriminate E.
  - (* JOIN_INNER *)
    injection E as <- <- <-.
    destruct (Unplanned eq_refl) as (M & Hl & Hr & Sl' & Sr').
    rewrite Hl, Hr, Sl', Sr'.
    split; [apply Shape; reflexivity|]. split; [exact M|]. repeat split.
  - (* JOIN_LEFT *)
    apply bind_inv_Done in E. destruct E as (q3 & s3 & Ep & Er).
    injection Er as <- <- <-.
    destruct leftNodeRecurs, rightNodeRecurs; simpl in Ep;
      try (injection Ep as <- <-; destruct (Unplanned eq_refl) as (M & Hl & Hr & Sl' & Sr'));
      try (destruct (RightPlanned _ Ep) as (M & Hl & Hr & Sl' & Sr'));
      rewrite Hl, Hr, Sl', Sr';
      (split; [apply Shape; reflexivity|]); (split; [exact M|]); repeat split.
  - (* JOIN_FULL *)
    apply bind_inv_Done in E. destruct E as (q3 & s3 & Ep & Er).
    injection Er as <- <- <-.
    destruct leftNodeRecurs, rightNodeRecurs; simpl in Ep;
      try (injection Ep as <- <-; destruct (Unplanned eq_refl) as (M & Hl & Hr & Sl' & Sr'));
      try (destruct (RightPlanned _ Ep) as (M & Hl & Hr & Sl' & Sr'));
      try (destruct (LeftPlanned _ Ep) as (M & Hl & Hr & Sl' & Sr'));
      rewrite Hl, Hr, Sl', Sr';
      (split; [apply Shape; reflexivity|]); (split; [exact M|]); repeat split.
  - (* JOIN_RIGHT *)
    apply bind_inv_Done in E. destruct E as (q3 & s3 & Ep & Er).
    injection Er as <- <- <-.
    destruct leftNodeRecurs, rightNodeRecurs; simpl in Ep;
      try (injection Ep as <- <-; destruct (Unplanned eq_refl) as (M & Hl & Hr & Sl' & Sr'));
      try (destruct (LeftPlanned _ Ep) as (M & Hl & Hr & Sl' & Sr'));
      rewrite Hl, Hr, Sl', Sr';
      (split; [apply Shape; reflexivity|]); (split; [exact M|]); repeat split.
Qed.

Lemma OuterJoinWalker_post (node : Node) :
  forall query query' s s' answer,
    relation_target_lists_are_plain ->
    NoDup (join_leaves node) ->
    distributed_leaves_closed query (join_leaves node) ->
    RecursivelyPlanRecurringTupleOuterJoinWalker node query s
    = (Done (answer, query'), s') ->
    outer_join_walk_post node query query' answer.
Proof.
  induction node using tree_ind_Node
    with (PQ := fun _ => True) (PR := fun _ => True) (PT := fun _ => True)
         (PC := fun _ => True) (PF := fun _ => True);
    try exact I; intros query query' s s' answer Plain N Closed E;
    try (simpl in E; unfold ereport_ERROR in E; discriminate E).
  - (* a range table reference *)
    simpl in E. unfold IsRTERefRecurring in E.
    destruct (rt_fetch i (rtable query)) as [rte|] eqn:F; [|discriminate E].
    injection E as <- <- <-.
    split; [reflexivity|]. split.
    + split; [reflexivity|]. split; [reflexivity|].
      intros j [<-|[]]. exists rte, rte. repeat split; try assumption. left. reflexivity.
    + simpl. rewrite F. repeat split.
  - (* a join *)
    simpl in E, N, Closed.
    apply bind_inv_Done in E. destruct E as ([lb q1] & s1 & E1 & E).
    apply bind_inv_Done in E. destruct E as ([rb q2] & s2 & E2 & E).
    cbn [fst snd] in E, E2.
    destruct (NoDup_app_apart _ _ N) as (N1 & N2 & A).
    pose proof (IHnode1 _ _ _ _ _ Plain N1 (closed_leaves_left _ _ _ Closed) E1) as P1.
    assert (C1 : distributed_leaves_closed q1 (join_leaves node2)).
    { destruct P1 as (_ & M1 & _).
      eapply closed_leaves_after; [|exact M1]. eapply closed_leaves_right. exact Closed. }
    pose proof (IHnode2 _ _ _ _ _ Plain N2 C1 E2) as P2.
    eapply join_walk_post; eassumption.
  - (* a FROM list *)
    simpl in E, N, Closed.
    apply bind_inv_Done in E. destruct E as (q' & s1 & Each & E).
    injection E as <- <- <-.
    assert (G : is_walked_join_tree (T_FromExpr fl qs) = true /\
                only_made_recurring (join_leaves (T_FromExpr fl qs)) query q' /\
                outer_joins_settled q' (T_FromExpr fl qs) = true).
    { simpl. revert query s N Closed Each.
      induction H as [|x t Hx Ht IH]; intros query s N Closed Each.
      - injection Each as <- <-. split; [reflexivity|]. split; [|reflexivity].
        split; [reflexivity|]. split; [reflexivity|]. intros i [].
      - apply bind_inv_Done in Each. destruct Each as ([bx q1] & s2 & Ex & Each).
        cbn [snd] in Each. simpl in N, Closed |- *.
        destruct (NoDup_app_apart _ _ N) as (N1 & N2 & A).
        destruct (Hx _ _ _ _ _ Plain N1 (closed_leaves_left _ _ _ Closed) Ex)
          as (Wx & Mx & _ & _ & Sx).
        assert (C1 : distributed_leaves_closed q1 (flat_map join_leaves t)).
        { eapply closed_leaves_after; [|exact Mx].
          eapply closed_leaves_right. exact Closed. }
        destruct (IH _ _ N2 C1 Each) as (Wt & Mt & St).
        destruct (untouched_side x _ _ _ Mt A) as [_ Sx'].
        rewrite Wx, Wt, St, Sx', Sx.
        split; [reflexivity|]. split; [|reflexivity].
        eapply only_made_recurring_then; eassumption. }
    destruct G as (W & M & S).
    split; [exact W|]. split; [exact M|]. repeat split. exact S.
Qed.

(** X10.  The outer-join pass does what it is for.  Take a join tree in
    which every range table index occurs once and no distributed subquery
    at a leaf refers to an outer query, and a target list for wrapped
    relations without tables inside.  When
    [RecursivelyPlanRecurringTupleOuterJoinWalker] returns, no outer join of
    the tree is left with a recurring outer side and an inner side that is
    not: every LEFT join with a recurring left side has a recurring right
    side, every RIGHT join with a recurring right side a recurring left
    side, and the sides of a FULL join are both recurring or both not.  The
    answer is the class of the tree as it was before the walk, and still
    is its class after.  The walk only turns entries that were not
    recurring into recurring ones, at the leaves of the tree; every other
    entry and the length of the range table are as they were. *)
Theorem outer_join_pass_leaves_no_recurring_outer_side_unsettled
        (node : Node) (query query' : Query) (s s' : PlanState) (answer : bool) :
  relation_target_lists_are_plain ->
  NoDup (join_leaves node) ->
  distributed_leaves_closed query (join_leaves node) ->
  RecursivelyPlanRecurringTupleOuterJoinWalker node query s
  = (Done (answer, query'), s') ->
  outer_joins_settled query' node = true /\
  answer = recurs query node /\
  answer = recurs query' node /\
  is_walked_join_tree node = true /\
  List.length (rtable query') = List.length (rtable query) /\
  (forall i, ~ In i (join_leaves node) ->
             rt_fetch i (rtable query') = rt_fetch i (rtable query)) /\
  (forall i, In i (join_leaves node) ->
     exists rte rte',
       rt_fetch i (rtable query) = Some rte /\
       rt_fetch i (rtable query') = Some rte' /\
       (rte' = rte \/ (recurring_entry rte = false /\ recurring_entry rte' = true))).
Proof.
  intros Plain N Closed E.
  destruct (OuterJoinWalker_post _ _ _ _ _ _ Plain N Closed E)
    as (W & (L & F & H) & B & B' & S).
  repeat split; assumption.
Qed.

(* ------------------------------------------------------------------ *)
(** ** Wrapping functions, once more *)

Lemma TupleDescTargetList_nth (attributes : list (Oid * option string)) :
  forall (start : Z) (k : nat) (columnType : Oid) (columnName : option string),
    nth_error attributes k = Some (columnType, columnName) ->
    nth_error (TupleDescTargetList start attributes) k
    = Some (mkTargetEntry (T_Var 1 (start + Z.of_nat k + 1) columnType (-1) 0 0)
                          (start + Z.of_nat k + 1) columnName false).
Proof.
  induction attributes as [|[ty name] rest IH]; intros start [|k] columnType columnName E;
    simpl in E; try discriminate E.
  - injection E as <- <-. simpl. rewrite Z.add_0_r. reflexivity.
  - cbn [TupleDescTargetList nth_error]. rewrite (IH (start + 1) k _ _ E).
    replace (start + 1 + Z.of_nat k + 1) with (start + Z.of_nat (S k) + 1) by lia.
    reflexivity.
Qed.

Lemma TupleDescTargetList_length (attributes : list (Oid * option string)) :
  forall start, List.length (TupleDescTargetList start attributes) = List.length attributes.
Proof.
  induction attributes as [|[ty name] rest IH]; intro start; simpl; [reflexivity|].
  now rewrite IH.
Qed.

Lemma ColumnNamesTargetList_nth (f : RangeTblFunction) (names : list (option string)) :
  forall (start : Z) (k : nat) (columnName : option string),
    0 <= start ->
    nth_error names k = Some columnName ->
    nth_error (ColumnNamesTargetList f start names) k
    = Some (mkTargetEntry
              (T_Var 1 (start + Z.of_nat k + 1)
                     (function_column_type f (Z.to_nat start + k)) (-1) 0 0)
              (start + Z.of_nat k + 1) columnName false).
Proof.
  induction names as [|name rest IH]; intros start [|k] columnName P E;
    simpl in E; try discriminate E.
  - injection E as <-. cbn [ColumnNamesTargetList nth_error].
    rewrite Z.add_0_r, Nat.add_0_r. reflexivity.
  - cbn [ColumnNamesTargetList nth_error]. rewrite (IH (start + 1) k _ ltac:(lia) E).
    replace (start + 1 + Z.of_nat k + 1) with (start + Z.of_nat (S k) + 1) by lia.
    replace (Z.to_nat (start + 1) + k)%nat with (Z.to_nat start + S k)%nat by lia.
    reflexivity.
Qed.

Lemma ColumnNamesTargetList_length (f : RangeTblFunction) (names : list (option string)) :
  forall start, List.length (ColumnNamesTargetList f start names) = List.length names.
Proof.
  induction names as [|name rest IH]; intro start; simpl; [reflexivity|]. now rewrite IH.
Qed.

Lemma TransformFunctionRTE_fields (rte rte' : RangeTblEntry) (s s' : PlanState) :
  TransformFunctionRTE rte s = (Done rte', s') ->
  exists f rest copy a tl,
    functions rte = f :: rest /\
    rte' = mkRTE (set_rtekind (rte_data rte) RTE_SUBQUERY)
                 (Some (mkQuery a CMD_SELECT false [] [copy]
                                (Some (T_FromExpr [T_RangeTblRef 1] None)) tl [] None None))
                 (functions rte) /\
    rte_data copy = rte_data rte /\
    context s' = context s /\
    match get_expr_result_tupdesc (rtf_funcexpr f) with
    | Some attributes =>
        list_length attributes <= MaxAttrNumber /\ tl = TupleDescTargetList 0 attributes
    | None => tl = ColumnNamesTargetList f 0 (eref_colnames rte)
    end.
Proof.
  intro E. pose proof E as E0. unfold TransformFunctionRTE in E.
  apply bind_inv_Done in E. destruct E as (a & s1 & _ & E).
  destruct (functions rte) as [|f rest] eqn:Fs; [discriminate E|].
  apply bind_inv_Done in E. destruct E as (copy & s2 & Hcopy & E).
  apply bind_inv_Done in E. destruct E as (tl & s3 & Htl & E).
  injection E as <- <-.
  exists f, rest, copy, a, tl. split; [reflexivity|]. split; [reflexivity|].
  split; [eapply copyObject_RTE_data; exact Hcopy|]. split.
  - eapply (context_kept (TransformFunctionRTE rte)); [|exact E0].
    intros P Ha. apply preserves_TransformFunctionRTE. exact Ha.
  - unfold eref_colnames. destruct (get_expr_result_tupdesc (rtf_funcexpr f)) as [attrs|].
    + destruct (list_length attrs >? MaxAttrNumber) eqn:G; [discriminate Htl|].
      injection Htl as <- _. split; [|reflexivity].
      destruct (Z.gtb_spec (list_length attrs) MaxAttrNumber); [discriminate G | assumption].
    + injection Htl as <- _. reflexivity.
Qed.

(** X12.  The subquery [TransformFunctionRTE] puts around a function
    selects every column of the function, in order: its only range table
    entry is a copy of the function entry, and its k-th target entry (from
    0) is a Var on that entry, attribute k + 1, numbered k + 1.  When the
    row type of the function is known, there is one entry per attribute,
    with the attribute's type and name, and there are at most MaxAttrNumber
    of them.  When it is not, there is one entry per column name of the
    entry's eref, typed by the k-th type of the column definition list if
    the call has one, and by the result type of the function call if not
    (k + 1 within an AttrNumber of 16 bits). *)
Theorem wrapped_function_selects_every_column
        (rte rte' : RangeTblEntry) (s s' : PlanState) :
  TransformFunctionRTE rte s = (Done rte', s') ->
  exists f rest sub copy,
    functions rte = f :: rest /\
    rtekind (rte_data rte') = RTE_SUBQUERY /\
    subquery rte' = Some sub /\
    commandType sub = CMD_SELECT /\
    rtable sub = [copy] /\ rte_data copy = rte_data rte /\
    jointree sub = Some (T_FromExpr [T_RangeTblRef 1] None) /\
    match get_expr_result_tupdesc (rtf_funcexpr f) with
    | Some attributes =>
        list_length attributes <= MaxAttrNumber /\
        List.length (targetList sub) = List.length attributes /\
        forall k columnType columnName,
          nth_error attributes k = Some (columnType, columnName) ->
          nth_error (targetList sub) k
          = Some (mkTargetEntry (T_Var 1 (Z.of_nat k + 1) columnType (-1) 0 0)
                                (Z.of_nat k + 1) columnName false)
    | None =>
        forall names,
          eref (rte_data rte) = Some names ->
          List.length (targetList sub) = List.length (colnames names) /\
          forall k columnName,
            Z.of_nat k + 1 < 2 ^ 15 ->
            nth_error (colnames names) k = Some columnName ->
            exists columnType,
              nth_error (targetList sub) k
              = Some (mkTargetEntry (T_Var 1 (Z.of_nat k + 1) columnType (-1) 0 0)
                                    (Z.of_nat k + 1) columnName false) /\
              (forall t, nth_error (rtf_funccoltypes f) k = Some t -> columnType = t) /\
              (forall funcid funcresulttype funcretset args,
                 rtf_funccoltypes f = [] ->
                 rtf_funcexpr f = T_FuncExpr funcid funcresulttype funcretset args ->
                 columnType = funcresulttype)
    end.
Proof.
  intro E.
  destruct (TransformFunctionRTE_fields _ _ _ _ E)
    as (f & rest & copy & a & tl & Fs & -> & Hd & _ & Htl).
  exists f, rest. eexists. exists copy. split; [exact Fs|].
  split; [reflexivity|]. split; [reflexivity|]. split; [reflexivity|].
  split; [reflexivity|]. split; [exact Hd|]. split; [reflexivity|]. simpl.
  destruct (get_expr_result_tupdesc (rtf_funcexpr f)) as [attrs|].
  - destruct Htl as [Hn ->]. split; [exact Hn|].
    split; [apply TupleDescTargetList_length|].
    intros k ty name Hk. rewrite (TupleDescTargetList_nth _ 0 k ty name Hk). reflexivity.
  - subst tl. intros names Hnames. unfold eref_colnames. rewrite Hnames.
    split; [apply ColumnNamesTargetList_length|].
    intros k name _ Hk. exists (function_column_type f k).
    rewrite (ColumnNamesTargetList_nth f _ 0 k name ltac:(lia) Hk).
    split; [reflexivity|]. unfold function_column_type. split.
    + intros t Ht.
      assert (L : (k < List.length (rtf_funccoltypes f))%nat).
      { apply nth_error_Some. rewrite Ht. discriminate. }
      replace (list_length (rtf_funccoltypes f) >? 0) with true
        by (symmetry; apply Z.gtb_lt; unfold list_length; lia).
      apply (nth_error_nth _ _ 0) in Ht. exact Ht.
    + intros fid ty r args Hnil Hfe. rewrite Hnil, Hfe. reflexivity.
Qed.

Lemma WrapFunctionRTE_Done (rte rte' : RangeTblEntry) (s s' : PlanState) :
  WrapFunctionRTE rte s = (Done rte', s') ->
  ShouldTransformRTE rte' = false /\
  (ShouldTransformRTE rte = true ->
   exists sub, subquery rte' = Some sub /\ List.length (rtable sub) = 1%nat) /\
  (ShouldTransformRTE rte = false -> rte' = rte).
Proof.
  unfold WrapFunctionRTE. destruct (ShouldTransformRTE rte) eqn:T; intro E.
  - destruct (TransformFunctionRTE_fields _ _ _ _ E)
      as (f & rest & copy & a & tl & _ & -> & _).
    split; [reflexivity|]. split; [|intro H; discriminate H].
    intros _. eexists. split; reflexivity.
  - injection E as <- <-. split; [exact T|]. split; [intro H; discriminate H|].
    reflexivity.
Qed.

(** X11.  The function-wrapping pass never wraps twice.  After
    [WrapFunctionsInSubqueries] no entry of the range table is one the pass
    would wrap, so that a second pass over the query leaves it as it is;
    and the subquery put around a function has a single range table entry,
    so that the pass, when the descent reaches that subquery, returns at
    once and leaves the function inside unwrapped.  The pass makes no
    subplan and does not write the planning context. *)
Theorem function_wrapping_is_done_once (query query' : Query) (s s' : PlanState) :
  WrapFunctionsInSubqueries query s = (Done query', s') ->
  context s' = context s /\
  (forall s1, WrapFunctionsInSubqueries query' s1 = (Done query', s1)) /\
  (forall i rte rte',
     nth_error (rtable query) i = Some rte ->
     nth_error (rtable query') i = Some rte' ->
     rte' <> rte ->
     exists sub,
       subquery rte' = Some sub /\
       forall s1, WrapFunctionsInSubqueries sub s1 = (Done sub, s1)).
Proof.
  intro E. split.
  { eapply (context_kept (WrapFunctionsInSubqueries query)); [|exact E].
    intros P Ha. apply preserves_WrapFunctionsInSubqueries. exact Ha. }
  unfold WrapFunctionsInSubqueries in E.
  destruct (list_length (rtable query) <? 2) eqn:L.
  - injection E as <- <-. split.
    + intro s1. unfold WrapFunctionsInSubqueries. rewrite L. reflexivity.
    + intros i rte rte' F F' N. rewrite F in F'. injection F' as <-.
      exfalso. apply N. reflexivity.
  - apply bind_inv_Done in E. destruct E as (wrapped & s1 & Hmap & E).
    injection E as <- <-. rewrite rtable_set_rtable.
    destruct (mapM_inv_Done _ _ _ _ _ Hmap) as [Hlen Hnth]. split.
    + intro st. unfold WrapFunctionsInSubqueries. rewrite rtable_set_rtable.
      unfold list_length in *. rewrite Hlen, L.
      erewrite bind_Done; [unfold ret; f_equal; f_equal; destruct query; reflexivity|].
      apply mapM_fixed.
      { intros rte' Hin st'. apply In_nth_error in Hin. destruct Hin as (i & Hi).
        assert (exists rte, nth_error (rtable query) i = Some rte) as (rte & Hr).
        { destruct (nth_error (rtable query) i) as [rte|] eqn:N; [exists rte; reflexivity|].
          apply nth_error_None in N. rewrite <- Hlen in N. apply nth_error_None in N.
          rewrite N in Hi. discriminate Hi. }
        destruct (Hnth _ _ Hr) as (y & si & si' & Hf & Hy).
        rewrite Hi in Hy. injection Hy as <-.
        destruct (WrapFunctionRTE_Done _ _ _ _ Hf) as (T & _).
        unfold WrapFunctionRTE. rewrite T. reflexivity. }
    + intros i rte rte' F F' N.
      destruct (Hnth _ _ F) as (y & si & si' & Hf & Hy).
      rewrite F' in Hy. injection Hy as <-.
      destruct (WrapFunctionRTE_Done _ _ _ _ Hf) as (_ & Wrapped & Same).
      destruct (ShouldTransformRTE rte) eqn:T;
        [|exfalso; apply N; apply Same; reflexivity].
      destruct (Wrapped eq_refl) as (sub & Hsub & Hone). exists sub.
      split; [exact Hsub|]. intro st. unfold WrapFunctionsInSubqueries, list_length.
      rewrite Hone. reflexivity.
Qed.

(* ------------------------------------------------------------------ *)
(** ** The frame of a query is kept *)

Lemma yields_ret {A : Type} (R : A -> Prop) (a : A) : R a -> yields R (ret a).
Proof. intros H s b s' E. injection E as <- _. exact H. Qed.

Lemma yields_bind {A B : Type} (Q : A -> Prop) (R : B -> Prop) (m : M A) (k : A -> M B) :
  yields Q m -> (forall a, Q a -> yields R (k a)) -> yields R (bind m k).
Proof.
  intros Hm Hk s b s' E. apply bind_inv_Done in E. destruct E as (a & s1 & Ea & Eb).
  exact (Hk a (Hm _ _ _ Ea) _ _ _ Eb).
Qed.

Lemma yields_any {A : Type} (m : M A) : yields (fun _ => True) m.
Proof. intros s a s' _. exact I. Qed.

Lemma yields_then {A B : Type} (R : B -> Prop) (m : M A) (k : A -> M B) :
  (forall a, yields R (k a)) -> yields R (bind m k).
Proof. intro Hk. apply (yields_bind (fun _ => True)); [apply yields_any | auto]. Qed.

Lemma yields_ereport {A : Type} (R : A -> Prop) (message : string) :
  yields R (ereport_ERROR message).
Proof. intros s a s' E. discriminate E. Qed.

Lemma yields_mapM {A B C : Type} (f : A -> M B) (g : A -> C) (h : B -> C) (l : list A) :
  Forall (fun x => yields (fun y => h y = g x) (f x)) l ->
  yields (fun l' => map h l' = map g l) (mapM f l).
Proof.
  induction 1 as [|x t Hx _ IH]; simpl.
  - apply yields_ret. reflexivity.
  - eapply yields_bind; [exact Hx|]. intros y Hy.
    eapply yields_bind; [exact IH|]. intros r Hr.
    apply yields_ret. simpl. rewrite Hy, Hr. reflexivity.
Qed.

Lemma yields_mapM_opt {A B C : Type} (f : A -> M B) (g : A -> C) (h : B -> C)
      (o : option A) :
  opt_all (fun x => yields (fun y => h y = g x) (f x)) o ->
  yields (fun o' => option_map h o' = option_map g o) (mapM_opt f o).
Proof.
  destruct o as [x|]; simpl; intro H.
  - eapply yields_bind; [exact H|]. intros y Hy. apply yields_ret. simpl.
    rewrite Hy. reflexivity.
  - apply yields_ret. reflexivity.
Qed.

Lemma yields_mapM_length {A B : Type} (f : A -> M B) (l : list A) :
  yields (fun l' => List.length l' = List.length l) (mapM f l).
Proof. intros s l' s' E. exact (proj1 (mapM_inv_Done _ _ _ _ _ E)). Qed.

Lemma flat_map_of_map {A C : Type} (g : A -> list C) (l l' : list A) :
  map g l' = map g l -> flat_map g l' = flat_map g l.
Proof. intro H. rewrite !flat_map_concat_map, H. reflexivity. Qed.

Lemma same_frame_refl (query : Query) : same_frame query query.
Proof. repeat split. Qed.

Lemma same_frame_trans (q1 q2 q3 : Query) :
  same_frame q1 q2 -> same_frame q2 q3 -> same_frame q1 q3.
Proof.
  intros (A1 & A2 & A3 & A4 & A5 & A6 & A7 & A8) (B1 & B2 & B3 & B4 & B5 & B6 & B7 & B8).
  repeat split; etransitivity; eassumption.
Qed.

Lemma same_frame_set_rtable (query : Query) (rt : list RangeTblEntry) :
  List.length rt = List.length (rtable query) -> same_frame query (set_rtable query rt).
Proof. destruct query. intro H. repeat split. exact H. Qed.

Lemma same_frame_rt_store (query : Query) (i : Z) (rte : RangeTblEntry) :
  same_frame query (set_rtable query (rt_store i (rtable query) rte)).
Proof. apply same_frame_set_rtable. apply rt_store_length. Qed.

Lemma same_frame_set_havingQual (query : Query) (h : option Node) :
  same_frame query (set_havingQual query h).
Proof. destruct query. repeat split. Qed.

Lemma same_frame_set_cteList (query : Query) (l : list CommonTableExpr) :
  same_frame query (set_cteList query l).
Proof. destruct query. repeat split. Qed.

Lemma same_frame_set_targetList (query : Query) (tl : list TargetEntry) :
  map te_head tl = map te_head (targetList query) ->
  same_frame query (set_targetList query tl).
Proof. destruct query. intro H. repeat split. exact H. Qed.

Lemma same_frame_set_jointree_quals (query : Query) (quals : option Node) :
  same_frame query (set_jointree_quals query quals).
Proof.
  unfold set_jointree_quals. destruct query as [a c hr ctes rt jt tl rl hq so]. simpl.
  destruct jt as [[]|]; repeat split.
Qed.

(** A pass that runs a step over the elements of a list, or over the two
    sides of a tree, keeps the frame if the step does. *)
Definition keeps_frame (pass : Query -> M Query) : Prop :=
  forall query, yields (same_frame query) (pass query).

Lemma keeps_frame_then (first second : Query -> M Query) :
  keeps_frame first -> keeps_frame second ->
  keeps_frame (fun query => bind (first query) second).
Proof.
  intros H1 H2 query. eapply yields_bind; [apply H1|]. intros q1 F1 s q2 s' E.
  eapply same_frame_trans; [exact F1|]. exact (H2 _ _ _ _ E).
Qed.

Lemma yields_framed {A : Type} (query : Query) (m : M A) (k : A -> M Query) :
  (forall a, yields (same_frame query) (k a)) -> yields (same_frame query) (bind m k).
Proof. apply yields_then. Qed.

Lemma yields_frame_step (query : Query) (m : M Query) (k : Query -> M Query) :
  yields (same_frame query) m -> keeps_frame k -> yields (same_frame query) (bind m k).
Proof.
  intros Hm Hk. eapply yields_bind; [exact Hm|]. intros q1 F1 s q2 s' E.
  eapply same_frame_trans; [exact F1|]. exact (Hk _ _ _ _ E).
Qed.

Lemma RecursivelyPlanSetOperations_frame (node : Node) :
  keeps_frame (fun query => RecursivelyPlanSetOperations query node).
Proof.
  induction node using tree_ind_Node
    with (PQ := fun _ => True) (PR := fun _ => True) (PT := fun _ => True)
         (PC := fun _ => True) (PF := fun _ => True);
    try exact I; intro query; simpl; try apply yields_ereport.
  - unfold RecursivelyPlanSetOperationLeaf.
    destruct (rt_fetch i (rtable query)) as [rte|]; [|apply yields_ereport].
    destruct (subquery rte) as [sub|]; [|apply yields_ret, same_frame_refl].
    destruct (is_distributed_subquery_rte rte); [|apply yields_ret, same_frame_refl].
    apply yields_framed. intro r. apply yields_ret, same_frame_rt_store.
  - apply yields_frame_step; [apply IHnode1 | exact IHnode2].
Qed.

Lemma RecursivelyPlanNonColocatedJoinWalker_frame (checker : ColocatedJoinChecker)
      (node : Node) :
  keeps_frame (RecursivelyPlanNonColocatedJoinWalker node checker).
Proof.
  induction node using tree_ind_Node
    with (PQ := fun _ => True) (PR := fun _ => True) (PT := fun _ => True)
         (PC := fun _ => True) (PF := fun _ => True);
    try exact I; intro query; simpl; try apply yields_ereport.
  - destruct (rt_fetch i (rtable query)) as [rte|]; [|apply yields_ereport].
    destruct (negb _); [apply yields_ret, same_frame_refl|].
    destruct (subquery rte) as [sub|]; [|apply yields_ereport].
    apply yields_framed. intro r. apply yields_ret, same_frame_rt_store.
  - apply yields_frame_step; [apply IHnode1 | exact IHnode2].
  - revert query. induction H as [|x t Hx _ IH]; intro query.
    + apply yields_ret, same_frame_refl.
    + apply yields_frame_step; [apply Hx | exact IH].
Qed.

Lemma RecursivelyPlanDistributedJoinNode_frame (node : Node) :
  keeps_frame (RecursivelyPlanDistributedJoinNode node).
Proof.
  induction node using tree_ind_Node
    with (PQ := fun _ => True) (PR := fun _ => True) (PT := fun _ => True)
         (PC := fun _ => True) (PF := fun _ => True);
    try exact I; intro query; simpl; try apply yields_ereport.
  - unfold RecursivelyPlanDistributedRTE.
    destruct (rt_fetch i (rtable query)) as [rte|]; [|apply yields_ereport].
    destruct (IsRTERefRecurring i query) as [[|]|];
      [apply yields_ret, same_frame_refl | | apply yields_ereport].
    destruct (rtekind (rte_data rte)); try apply yields_ereport.
    + apply yields_framed. intro c. apply yields_framed. intro r.
      apply yields_ret, same_frame_rt_store.
    + destruct (subquery rte) as [sub|]; [|apply yields_ereport].
      apply yields_framed. intro r. apply yields_framed. intro u.
      apply yields_ret, same_frame_rt_store.
  - apply yields_frame_step; [apply IHnode1 | exact IHnode2].
Qed.

Lemma RecursivelyPlanRecurringTupleOuterJoinWalker_frame (node : Node) :
  forall query,
    yields (fun r => same_frame query (snd r))
           (RecursivelyPlanRecurringTupleOuterJoinWalker node query).
Proof.
  induction node using tree_ind_Node
    with (PQ := fun _ => True) (PR := fun _ => True) (PT := fun _ => True)
         (PC := fun _ => True) (PF := fun _ => True);
    try exact I; intro query; simpl; try apply yields_ereport.
  - destruct (IsRTERefRecurring i query); [|apply yields_ereport].
    apply yields_ret, same_frame_refl.
  - eapply yields_bind; [apply IHnode1|]. intros [l q1] F1. cbn [fst snd] in *.
    eapply yields_bind; [apply IHnode2|]. intros [r q2] F2. cbn [fst snd] in *.
    assert (F : same_frame query q2) by (eapply same_frame_trans; eassumption).
    assert (Side : forall side,
               yields (fun r => same_frame query (snd r))
                      (query' <- RecursivelyPlanDistributedJoinNode side q2 ;;
                       ret (l, query')) /\
               yields (fun r => same_frame query (snd r))
                      (query' <- RecursivelyPlanDistributedJoinNode side q2 ;;
                       ret (r, query')) /\
               yields (fun r => same_frame query (snd r))
                      (query' <- RecursivelyPlanDistributedJoinNode side q2 ;;
                       ret (l || r, query'))).
    { intro side. split; [|split];
        (apply (yields_bind (same_frame q2));
         [apply RecursivelyPlanDistributedJoinNode_frame|];
         intros q3 F3; apply yields_ret; eapply same_frame_trans; eassumption). }
    assert (Same : forall b : bool,
               yields (fun r => same_frame query (snd r))
                      (query' <- ret q2 ;; ret (b, query'))).
    { intros b s a s' E. injection E as <- _. exact F. }
    unfold PlanJoinSides. destruct jt; try apply yields_ereport.
    + apply yields_ret. exact F.
    + destruct (l && negb r); [apply (Side node2) | apply Same].
    + destruct (l && negb r); [apply (Side node2)|].
      destruct (negb l && r); [apply (Side node1) | apply Same].
    + destruct (negb l && r); [apply (Side node1) | apply Same].
  - eapply yields_bind with (Q := same_frame query);
      [|intros q' F; apply yields_ret; exact F].
    revert query. induction H as [|x t Hx _ IH]; intro query.
    + apply yields_ret, same_frame_refl.
    + eapply yields_bind; [apply Hx|]. intros [b q1] F1 s q2 s' E. cbn [snd] in *.
      eapply same_frame_trans; [exact F1|]. exact (IH _ _ _ _ E).
Qed.

Lemma RecursivelyPlanLocalTableJoins_frame (conversions : list (Z * list Z)) :
  keeps_frame (RecursivelyPlanLocalTableJoins conversions).
Proof.
  induction conversions as [|[rtindex attrs] rest IH]; intro query; simpl.
  - apply yields_ret, same_frame_refl.
  - destruct (rt_fetch rtindex (rtable query)) as [rte|]; [|apply yields_ereport].
    apply yields_framed. intros rte' s q' s' E.
    eapply same_frame_trans; [apply same_frame_rt_store|]. exact (IH _ _ _ _ E).
Qed.

Lemma map_acc_kept {X S C : Type} (h : X -> C) (f : X -> S -> X * S) (l : list X) :
  Forall (fun x => forall s, h (fst (f x s)) = h x) l ->
  forall s, map h (fst (map_acc f l s)) = map h l.
Proof.
  induction 1 as [|x t Hx _ IH]; intro s; simpl; [reflexivity|].
  specialize (Hx s). destruct (f x s) as [y s1]. specialize (IH s1).
  destruct (map_acc f t s1) as [r s2]. simpl in *. rewrite Hx, IH. reflexivity.
Qed.

Lemma opt_acc_kept {X S C : Type} (h : X -> C) (f : X -> S -> X * S) (o : option X) :
  opt_all (fun x => forall s, h (fst (f x s)) = h x) o ->
  forall s, option_map h (fst (opt_acc f o s)) = option_map h o.
Proof.
  destruct o as [x|]; simpl; intros H s; [|reflexivity].
  specialize (H s). destruct (f x s) as [y s1]. simpl in *. rewrite H. reflexivity.
Qed.

Lemma map_acc_length {X S : Type} (f : X -> S -> X * S) (l : list X) :
  forall s, List.length (fst (map_acc f l s)) = List.length l.
Proof.
  induction l as [|x t IH]; intro s; simpl; [reflexivity|].
  destruct (f x s) as [y s1]. specialize (IH s1).
  destruct (map_acc f t s1) as [r s2]. simpl in *. rewrite IH. reflexivity.
Qed.

Section WalkKeepsFrame.

Variable S : Type.
Variable onReference : RangeTblEntry -> S -> RangeTblEntry * S.

Lemma walk_keeps_leaves (node : Node) :
  forall level s,
    same_leaves node (fst (walk_cte_references S onReference level node s)).
Proof.
  induction node using tree_ind_Node
    with (PQ := fun _ => True) (PR := fun _ => True) (PT := fun _ => True)
         (PC := fun _ => True) (PF := fun _ => True);
    try exact I; intros level s; simpl;
    repeat match goal with
           | |- context [let (_, _) := ?m in _] => destruct m eqn:?
           end;
    try (split; reflexivity).
  - specialize (IHnode1 level s). specialize (IHnode2 level s0).
    rewrite Heqp in IHnode1. rewrite Heqp0 in IHnode2.
    destruct IHnode1 as [J1 _], IHnode2 as [J2 _]. split; [|reflexivity].
    simpl in *. rewrite J1, J2. reflexivity.
  - split; [|reflexivity]. simpl.
    pose proof (map_acc_kept join_leaves (walk_cte_references S onReference level) fl) as K.
    rewrite <- (fun F => flat_map_of_map _ _ _ (K F s)); [rewrite Heqp; reflexivity|].
    eapply Forall_impl; [|exact H]. intros x Hx st. exact (proj1 (Hx level st)).
  - specialize (IHnode1 level s). specialize (IHnode2 level s0).
    rewrite Heqp in IHnode1. rewrite Heqp0 in IHnode2.
    destruct IHnode1 as [_ J1], IHnode2 as [_ J2]. split; [reflexivity|].
    simpl in *. rewrite J1, J2. reflexivity.
Qed.

Lemma walk_keeps_frame (level : Z) (query : Query) (s : S) :
  same_frame query (fst (walk_cte_references_Query S onReference level query s)).
Proof.
  destruct query as [a c hr ctes rt jt tl rl hq so]. simpl.
  pose proof (map_acc_kept te_head
                (walk_cte_references_TargetEntry S onReference (level + 1)) tl) as Htl.
  pose proof (map_acc_kept te_head
                (walk_cte_references_TargetEntry S onReference (level + 1)) rl) as Hrl.
  pose proof (opt_acc_kept join_leaves
                (walk_cte_references S onReference (level + 1)) jt) as Hjt.
  pose proof (opt_acc_kept setop_leaves
                (walk_cte_references S onReference (level + 1)) so) as Hso.
  pose proof (map_acc_length (walk_cte_references_RTE S onReference (level + 1)) rt)
    as Hrt.
  assert (Heads : forall l : list TargetEntry,
             Forall (fun x => forall st,
                       te_head (fst (walk_cte_references_TargetEntry
                                       S onReference (level + 1) x st)) = te_head x) l).
  { intro l. apply Forall_forall. intros [e no name junk] _ st. simpl.
    destruct (walk_cte_references S onReference (level + 1) e st). reflexivity. }
  assert (Leaves : forall o : option Node,
             opt_all (fun x => forall st,
                        same_leaves x (fst (walk_cte_references
                                              S onReference (level + 1) x st))) o).
  { intros [x|]; simpl; [|exact I]. intro st. apply walk_keeps_leaves. }
  specialize (Htl (Heads tl) s).
  destruct (map_acc _ tl s) as [tl' s1]. specialize (Hrl (Heads rl) s1).
  destruct (map_acc _ rl s1) as [rl' s2].
  assert (J : opt_all (fun x => forall st,
                         join_leaves (fst (walk_cte_references
                                             S onReference (level + 1) x st))
                         = join_leaves x) jt).
  { specialize (Leaves jt). destruct jt; simpl in *; [|exact I].
    intro st. exact (proj1 (Leaves st)). }
  specialize (Hjt J s2). destruct (opt_acc _ jt s2) as [jt' s3].
  assert (O : opt_all (fun x => forall st,
                         setop_leaves (fst (walk_cte_references
                                              S onReference (level + 1) x st))
                         = setop_leaves x) so).
  { specialize (Leaves so). destruct so; simpl in *; [|exact I].
    intro st. exact (proj2 (Leaves st)). }
  specialize (Hso O s3). destruct (opt_acc _ so s3) as [so' s4].
  destruct (opt_acc _ hq s4) as [hq' s5]. destruct (map_acc _ ctes s5) as [ctes' s6].
  specialize (Hrt s6). destruct (map_acc _ rt s6) as [rt' s7].
  simpl in *. repeat split; assumption.
Qed.

End WalkKeepsFrame.

Lemma RecursivelyPlanCTEs_frame (query : Query) :
  yields (fun r => same_frame query (snd r)) (RecursivelyPlanCTEs query).
Proof.
  unfold RecursivelyPlanCTEs. destruct (cteList query); [apply yields_ret, same_frame_refl|].
  destruct (hasRecursive query); [apply yields_ret, same_frame_refl|].
  apply yields_then. intros [error cells]. cbn [fst snd].
  assert (F : same_frame query (store_cte_references query cells))
    by apply walk_keeps_frame.
  destruct error; apply yields_ret; [exact F|]. cbn [snd].
  eapply same_frame_trans; [exact F | apply same_frame_set_cteList].
Qed.

Lemma WrapFunctionsInSubqueries_frame : keeps_frame WrapFunctionsInSubqueries.
Proof.
  intro query. unfold WrapFunctionsInSubqueries.
  destruct (list_length (rtable query) <? 2); [apply yields_ret, same_frame_refl|].
  eapply yields_bind; [apply yields_mapM_length|]. intros wrapped L.
  apply yields_ret, same_frame_set_rtable. exact L.
Qed.

Section DescentKeepsFrame.

Variable planNested : Query -> M (option DeferredErrorMessage * Query).

Lemma RecursivelyPlanSubqueryWalker_leaves (node : Node) :
  yields (same_leaves node) (RecursivelyPlanSubqueryWalker planNested node).
Proof.
  induction node using tree_ind_Node
    with (PQ := fun _ => True) (PR := fun _ => True) (PT := fun _ => True)
         (PC := fun _ => True) (PF := fun _ => True);
    try exact I; simpl;
    try (apply yields_ret; split; reflexivity);
    try (apply yields_then; intro; apply yields_ret; split; reflexivity);
    try (apply yields_then; intro; apply yields_then; intro;
         apply yields_ret; split; reflexivity).
  - eapply yields_bind; [exact IHnode1|]. intros l' [J1 _].
    eapply yields_bind; [exact IHnode2|]. intros r' [J2 _].
    apply yields_then. intro qs'. apply yields_ret. split; [|reflexivity].
    simpl. rewrite J1, J2. reflexivity.
  - eapply yields_bind;
      [apply (yields_mapM _ join_leaves join_leaves);
       eapply Forall_impl; [|exact H]; intros x Hx s y s' E; exact (proj1 (Hx _ _ _ E))|].
    intros fl' J. apply yields_then. intro qs'. apply yields_ret. split; [|reflexivity].
    simpl. apply flat_map_of_map. exact J.
  - eapply yields_bind; [exact IHnode1|]. intros l' [_ J1].
    eapply yields_bind; [exact IHnode2|]. intros r' [_ J2].
    apply yields_ret. split; [reflexivity|]. simpl. rewrite J1, J2. reflexivity.
Qed.

Lemma rewrite_TargetEntry_head (walker : Node -> M Node) (te : TargetEntry) :
  yields (fun te' => te_head te' = te_head te) (rewrite_TargetEntry walker te).
Proof.
  destruct te as [e no name junk]. simpl. apply yields_then. intro e'.
  apply yields_ret. reflexivity.
Qed.

Lemma query_tree_rewrite_frame (onQuery : Query -> M Query) :
  keeps_frame (query_tree_rewrite (RecursivelyPlanSubqueryWalker planNested) onQuery).
Proof.
  intros [a c hr ctes rt jt tl rl hq so]. simpl.
  eapply yields_bind;
    [apply (yields_mapM _ te_head te_head); apply Forall_forall; intros te _;
     apply rewrite_TargetEntry_head|].
  intros tl' Htl.
  eapply yields_bind;
    [apply (yields_mapM _ te_head te_head); apply Forall_forall; intros te _;
     apply rewrite_TargetEntry_head|].
  intros rl' Hrl.
  eapply yields_bind;
    [apply (yields_mapM_opt _ join_leaves join_leaves); destruct jt as [n|]; simpl;
     [|exact I]; intros s y s' E;
     exact (proj1 (RecursivelyPlanSubqueryWalker_leaves n _ _ _ E))|].
  intros jt' Hjt.
  eapply yields_bind;
    [apply (yields_mapM_opt _ setop_leaves setop_leaves); destruct so as [n|]; simpl;
     [|exact I]; intros s y s' E;
     exact (proj2 (RecursivelyPlanSubqueryWalker_leaves n _ _ _ E))|].
  intros so' Hso.
  apply yields_then. intro hq'. apply yields_then. intro ctes'.
  eapply yields_bind; [apply yields_mapM_length|]. intros rt' Hrt.
  apply yields_ret. repeat split; assumption.
Qed.

Lemma PlanSetOperationsStep_frame : keeps_frame PlanSetOperationsStep.
Proof.
  intro query. unfold PlanSetOperationsStep. apply yields_then. intro context.
  destruct (ShouldRecursivelyPlanSetOperation query context);
    [|apply yields_ret, same_frame_refl].
  destruct (setOperations query); [|apply yields_ret, same_frame_refl].
  apply RecursivelyPlanSetOperations_frame.
Qed.

Lemma PlanNonColocatedStep_frame : keeps_frame PlanNonColocatedStep.
Proof.
  intro query. unfold PlanNonColocatedStep. apply yields_then. intro context.
  destruct (ShouldRecursivelyPlanNonColocatedSubqueries query context);
    [|apply yields_ret, same_frame_refl].
  unfold RecursivelyPlanNonColocatedSubqueries. apply yields_then. intro context'.
  destruct (CreateColocatedJoinChecker _ _) as [checker|];
    [|apply yields_ret, same_frame_refl].
  apply yields_frame_step.
  - destruct (jointree query); [|apply yields_ret, same_frame_refl].
    apply RecursivelyPlanNonColocatedJoinWalker_frame.
  - intro q1. unfold RecursivelyPlanNonColocatedSubqueriesInWhere.
    apply yields_then. intro quals'. apply yields_ret, same_frame_set_jointree_quals.
Qed.

Lemma PlanLocalTableJoinsStep_frame : keeps_frame PlanLocalTableJoinsStep.
Proof.
  intro query. unfold PlanLocalTableJoinsStep. apply yields_then. intro context.
  destruct (ShouldConvertLocalTableJoinsToSubqueries (rtable query));
    [|apply yields_ret, same_frame_refl].
  apply RecursivelyPlanLocalTableJoins_frame.
Qed.

Lemma PlanOuterJoinsStep_frame : keeps_frame PlanOuterJoinsStep.
Proof.
  intro query. unfold PlanOuterJoinsStep. apply yields_then. intro context.
  destruct (ShouldRecursivelyPlanOuterJoins query context);
    [|apply yields_ret, same_frame_refl].
  destruct (jointree query); [|apply yields_ret, same_frame_refl].
  eapply yields_bind; [apply RecursivelyPlanRecurringTupleOuterJoinWalker_frame|].
  intros r F. apply yields_ret. exact F.
Qed.

Lemma PlanSublinksStep_frame : keeps_frame PlanSublinksStep.
Proof.
  intro query. unfold PlanSublinksStep.
  destruct (ShouldRecursivelyPlanSublinks query); [|apply yields_ret, same_frame_refl].
  apply yields_then. intro quals'.
  eapply yields_bind;
    [apply (yields_mapM _ te_head te_head); apply Forall_forall; intros te _;
     apply rewrite_TargetEntry_head|].
  intros tl' Htl. apply yields_ret.
  eapply same_frame_trans; [apply same_frame_set_jointree_quals|].
  apply same_frame_set_targetList. exact Htl.
Qed.

Lemma body_frame (query : Query) :
  yields (fun r => same_frame query (snd r))
         (RecursivelyPlanSubqueriesAndCTEs_body planNested query).
Proof.
  unfold RecursivelyPlanSubqueriesAndCTEs_body.
  eapply yields_bind; [apply RecursivelyPlanCTEs_frame|]. intros [error q0] F0.
  cbn [fst snd] in *. destruct error; [apply yields_ret; exact F0|].
  destruct SubqueryPushdown; [apply yields_ret; exact F0|].
  eapply yields_bind; [apply WrapFunctionsInSubqueries_frame|]. intros q1 F1.
  eapply yields_bind; [apply query_tree_rewrite_frame|]. intros q2 F2.
  eapply yields_bind; [apply PlanSetOperationsStep_frame|]. intros q3 F3.
  assert (F : same_frame query q3)
    by (repeat (eapply same_frame_trans; [eassumption|]); apply same_frame_refl).
  apply yields_then. intros [error having]. cbn [fst snd].
  destruct error; [apply yields_ret; exact F|].
  eapply yields_bind; [apply PlanNonColocatedStep_frame|]. intros q4 F4.
  eapply yields_bind; [apply PlanLocalTableJoinsStep_frame|]. intros q5 F5.
  eapply yields_bind; [apply PlanOuterJoinsStep_frame|]. intros q6 F6.
  eapply yields_bind; [apply PlanSublinksStep_frame|]. intros q7 F7.
  apply yields_ret. cbn [snd].
  eapply same_frame_trans; [exact F|].
  eapply same_frame_trans; [apply same_frame_set_havingQual|].
  repeat (eapply same_frame_trans; [eassumption|]). apply same_frame_refl.
Qed.

End DescentKeepsFrame.

(** X13.  Recursive planning rewrites a query in place and keeps its frame.
    Whenever [RecursivelyPlanSubqueriesAndCTEs] returns, with a deferred
    error or without, the query is the same object with the same command,
    its range table has as many entries as before, its target list and its
    returning list have the same entries by number, name and junk flag in
    the same order, and its join tree and its set-operation tree refer to
    the same range table indexes in the same order.  So no pass adds,
    removes or moves a range table entry or an output column, and every
    range table index in the query still means the entry at that place. *)
Theorem recursive_planning_keeps_the_frame_of_the_query
        (fuel : nat) (query query' : Query) (s s' : PlanState)
        (error : option DeferredErrorMessage) :
  RecursivelyPlanSubqueriesAndCTEs fuel query s = (Done (error, query'), s') ->
  q_addr query' = q_addr query /\
  commandType query' = commandType query /\
  List.length (rtable query') = List.length (rtable query) /\
  map te_head (targetList query') = map te_head (targetList query) /\
  map te_head (returningList query') = map te_head (returningList query) /\
  option_map join_leaves (jointree query') = option_map join_leaves (jointree query) /\
  option_map setop_leaves (setOperations query')
  = option_map setop_leaves (setOperations query).
Proof.
  destruct fuel as [|fuel]; [intro E; discriminate E|]. simpl. intro E.
  destruct (body_frame _ _ _ _ _ E) as (A1 & A2 & _ & A4 & A5 & A6 & A7 & A8).
  repeat split; assumption.
Qed.

(* ------------------------------------------------------------------ *)
(** ** The descent comes to an end *)

Lemma finishes_elim {A : Type} (m : M A) : finishes m -> forall s, fst (m s) <> OutOfFuel.
Proof. intros [H]. exact H. Qed.

Lemma finishes_ret {A : Type} (a : A) : finishes (ret a).
Proof. constructor. intros s E. discriminate E. Qed.

Lemma finishes_ereport {A : Type} (message : string) :
  finishes (@ereport_ERROR _ A message).
Proof. constructor. intros s E. discriminate E. Qed.

Lemma finishes_get_context : finishes get_context.
Proof. constructor. intros s E. discriminate E. Qed.

Lemma finishes_put_context (c : RecursivePlanningContext) : finishes (put_context c).
Proof. constructor. intros s E. discriminate E. Qed.

Lemma finishes_makeNode_Query : finishes makeNode_Query.
Proof. constructor. intros s E. discriminate E. Qed.

Lemma finishes_Assert (b : bool) : finishes (Assert b).
Proof. destruct b; constructor; intros s E; discriminate E. Qed.

(** What comes after a step need only finish on what the step returns. *)
Lemma finishes_bind_yields {A B : Type} (Q : A -> Prop) (m : M A) (k : A -> M B) :
  finishes m -> yields Q m -> (forall a, Q a -> finishes (k a)) -> finishes (bind m k).
Proof.
  intros [Hm] Hy Hk. constructor. intro s. unfold bind. specialize (Hm s).
  destruct (m s) as [[a| |] s1] eqn:E; simpl in *.
  - apply finishes_elim. apply Hk. exact (Hy _ _ _ E).
  - discriminate.
  - intros _. apply Hm. reflexivity.
Qed.

Lemma finishes_bind {A B : Type} (m : M A) (k : A -> M B) :
  finishes m -> (forall a, finishes (k a)) -> finishes (bind m k).
Proof.
  intros Hm Hk. apply (finishes_bind_yields (fun _ => True)); auto using yields_any.
Qed.

Lemma finishes_mapM_Forall {A B : Type} (f : A -> M B) (l : list A) :
  Forall (fun x => finishes (f x)) l -> finishes (mapM f l).
Proof.
  induction 1 as [|x t Hx Ht IH]; simpl; [apply finishes_ret|].
  apply finishes_bind; [exact Hx|]. intro y.
  apply finishes_bind; [exact IH|]. intro r. apply finishes_ret.
Qed.

Lemma finishes_mapM {A B : Type} (f : A -> M B) (l : list A) :
  (forall x, finishes (f x)) -> finishes (mapM f l).
Proof.
  intro H. apply finishes_mapM_Forall. apply Forall_forall. intros x _. apply H.
Qed.

Lemma finishes_mapM_opt_all {A B : Type} (f : A -> M B) (o : option A) :
  opt_all (fun x => finishes (f x)) o -> finishes (mapM_opt f o).
Proof.
  destruct o as [x|]; simpl; intro H; [|apply finishes_ret].
  apply finishes_bind; [exact H|]. intro y. apply finishes_ret.
Qed.

Lemma finishes_mapM_opt {A B : Type} (f : A -> M B) (o : option A) :
  (forall x, finishes (f x)) -> finishes (mapM_opt f o).
Proof. intro H. apply finishes_mapM_opt_all. destruct o; simpl; [apply H | exact I]. Qed.

(** Steps in the planner monad again; the functions already treated are
    the hints of [finish]. *)
Create HintDb finish discriminated.

Ltac finish :=
  repeat first
    [ assumption
    | solve [auto 2 with finish nocore]
    | simple apply finishes_ret
    | simple apply finishes_ereport
    | simple apply finishes_get_context
    | simple apply finishes_put_context
    | simple apply finishes_makeNode_Query
    | simple apply finishes_Assert
    | simple apply finishes_mapM_Forall; assumption
    | simple apply finishes_mapM_opt_all; assumption
    | simple apply finishes_bind; [|intro]
    | match goal with
      | |- finishes (if ?b then _ else _) => destruct b
      | |- finishes (match ?x with _ => _ end) => destruct x
      | |- finishes (let _ := _ in _) => cbv zeta
      end ].

Lemma finishes_copyObject_Node (node : Node) : finishes (copyObject_Node node).
Proof.
  induction node using tree_ind_Node
    with (PQ := fun q => finishes (copyObject_Query q))
         (PR := fun r => finishes (copyObject_RTE r))
         (PT := fun t => finishes (copyObject_TargetEntry t))
         (PC := fun c => finishes (copyObject_CTE c))
         (PF := fun f => finishes (copyObject_RangeTblFunction f));
    simpl; finish.
Qed.

Lemma finishes_copyObject_Query (q : Query) : finishes (copyObject_Query q).
Proof.
  induction q using tree_ind_Query
    with (PN := fun n => finishes (copyObject_Node n))
         (PR := fun r => finishes (copyObject_RTE r))
         (PT := fun t => finishes (copyObject_TargetEntry t))
         (PC := fun c => finishes (copyObject_CTE c))
         (PF := fun f => finishes (copyObject_RangeTblFunction f));
    simpl; finish.
Qed.

Lemma finishes_copyObject_RTE (r : RangeTblEntry) : finishes (copyObject_RTE r).
Proof.
  destruct r as [d sub funcs]. simpl. finish.
  - apply finishes_mapM_opt. apply finishes_copyObject_Query.
  - apply finishes_mapM. intros [e n names tys mods colls]. simpl. finish.
    apply finishes_copyObject_Node.
Qed.

#[local] Hint Resolve finishes_copyObject_Node finishes_copyObject_Query
  finishes_copyObject_RTE : finish.

Lemma finishes_BuildSubPlanResultQuery (tl : list TargetEntry) (al : list string)
      (rid : string) : finishes (BuildSubPlanResultQuery tl al rid).
Proof. unfold BuildSubPlanResultQuery, BuildReadIntermediateResultsQuery. finish. Qed.

Lemma finishes_CreateDistributedSubPlan (subPlanId : Z) (q : Query) :
  finishes (CreateDistributedSubPlan subPlanId q).
Proof. unfold CreateDistributedSubPlan. finish. Qed.

#[local] Hint Resolve finishes_BuildSubPlanResultQuery
  finishes_CreateDistributedSubPlan : finish.

Lemma finishes_RecursivelyPlanSubquery (q : Query) : finishes (RecursivelyPlanSubquery q).
Proof. unfold RecursivelyPlanSubquery. finish. Qed.

#[local] Hint Resolve finishes_RecursivelyPlanSubquery : finish.

Lemma finishes_ReplaceCteReferences (name : string) (rq : Query)
      (cells : list RangeTblEntry) :
  forall n, finishes (ReplaceCteReferences name rq cells n).
Proof.
  induction cells as [|rte cells IH]; intro n; simpl; finish.
  unfold ReplaceCteReference. finish.
Qed.

#[local] Hint Resolve finishes_ReplaceCteReferences : finish.

Lemma finishes_PlanCTE (cte : CommonTableExpr) (cells : list RangeTblEntry) :
  finishes (PlanCTE cte cells).
Proof. unfold PlanCTE. finish. Qed.

#[local] Hint Resolve finishes_PlanCTE : finish.

Lemma finishes_PlanCTEsFrom (query : Query) (remaining : nat) :
  forall index cells, finishes (PlanCTEsFrom query index remaining cells).
Proof. induction remaining as [|n IH]; intros index cells; simpl; finish. Qed.

#[local] Hint Resolve finishes_PlanCTEsFrom : finish.

Lemma finishes_RecursivelyPlanCTEs (query : Query) : finishes (RecursivelyPlanCTEs query).
Proof. unfold RecursivelyPlanCTEs. finish. Qed.

Lemma finishes_TransformFunctionRTE (rte : RangeTblEntry) :
  finishes (TransformFunctionRTE rte).
Proof. unfold TransformFunctionRTE. finish. Qed.

#[local] Hint Resolve finishes_RecursivelyPlanCTEs finishes_TransformFunctionRTE : finish.

Lemma finishes_WrapFunctionsInSubqueries (query : Query) :
  finishes (WrapFunctionsInSubqueries query).
Proof.
  unfold WrapFunctionsInSubqueries. finish. apply finishes_mapM. intro rte.
  unfold WrapFunctionRTE. finish.
Qed.

#[local] Hint Resolve finishes_WrapFunctionsInSubqueries : finish.

Lemma finishes_RecursivelyPlanSetOperations (node : Node) :
  forall query, finishes (RecursivelyPlanSetOperations query node).
Proof.
  induction node; intro query; simpl; finish.
  unfold RecursivelyPlanSetOperationLeaf. finish.
Qed.

Lemma finishes_RecursivelyPlanAllSubqueries (node : Node) :
  finishes (RecursivelyPlanAllSubqueries node).
Proof.
  induction node using tree_ind_Node
    with (PQ := fun _ => True) (PR := fun _ => True) (PT := fun _ => True)
         (PC := fun _ => True) (PF := fun _ => True);
    try exact I; simpl; finish.
  unfold RecursivelyPlanAllSubqueries_Query. finish.
Qed.

#[local] Hint Resolve finishes_RecursivelyPlanSetOperations
  finishes_RecursivelyPlanAllSubqueries : finish.

Lemma finishes_RecursivelyPlanHavingQual (havingQual : option Node) :
  finishes (RecursivelyPlanHavingQual havingQual).
Proof. unfold RecursivelyPlanHavingQual. finish. Qed.

Lemma finishes_PlanIfNotColocated (checker : ColocatedJoinChecker) (q : Query) :
  finishes (PlanIfNotColocated checker q).
Proof. unfold PlanIfNotColocated. finish. Qed.

#[local] Hint Resolve finishes_RecursivelyPlanHavingQual
  finishes_PlanIfNotColocated : finish.

Lemma finishes_RecursivelyPlanNonColocatedJoinWalker (checker : ColocatedJoinChecker)
      (node : Node) :
  forall query, finishes (RecursivelyPlanNonColocatedJoinWalker node checker query).
Proof.
  induction node using tree_ind_Node
    with (PQ := fun _ => True) (PR := fun _ => True) (PT := fun _ => True)
         (PC := fun _ => True) (PF := fun _ => True);
    try exact I; intro query; simpl; finish.
  revert query. induction H as [|x t Hx Ht IH]; intro query; finish.
Qed.

Lemma finishes_rewrite_sublinks (onSubselect : Query -> M Query) (node : Node) :
  (forall q, finishes (onSubselect q)) ->
  finishes (rewrite_sublinks onSubselect node).
Proof.
  intro Hq.
  induction node using tree_ind_Node
    with (PQ := fun _ => True) (PR := fun _ => True) (PT := fun _ => True)
         (PC := fun _ => True) (PF := fun _ => True);
    try exact I; simpl; finish.
Qed.

#[local] Hint Resolve finishes_RecursivelyPlanNonColocatedJoinWalker : finish.

Lemma finishes_RecursivelyPlanNonColocatedSubqueries (query : Query) :
  finishes (RecursivelyPlanNonColocatedSubqueries query).
Proof.
  unfold RecursivelyPlanNonColocatedSubqueries,
    RecursivelyPlanNonColocatedSubqueriesInWhere. finish.
  apply finishes_mapM_opt. intro e. apply finishes_rewrite_sublinks. intro q. finish.
Qed.

Lemma finishes_CreateOuterSubquery (rte : RangeTblEntry) (tl : list TargetEntry) :
  finishes (CreateOuterSubquery rte tl).
Proof. unfold CreateOuterSubquery. finish. Qed.

#[local] Hint Resolve finishes_RecursivelyPlanNonColocatedSubqueries
  finishes_CreateOuterSubquery : finish.

Lemma finishes_ReplaceRTERelationWithRteSubquery (rte : RangeTblEntry)
      (attrs : list Z) : finishes (ReplaceRTERelationWithRteSubquery rte attrs).
Proof.
  unfold ReplaceRTERelationWithRteSubquery. finish.
  apply finishes_mapM. intro e. finish.
Qed.

#[local] Hint Resolve finishes_ReplaceRTERelationWithRteSubquery : finish.

Lemma finishes_RecursivelyPlanLocalTableJoins (conversions : list (Z * list Z)) :
  forall query, finishes (RecursivelyPlanLocalTableJoins conversions query).
Proof. induction conversions as [|[i attrs] t IH]; intro query; simpl; finish. Qed.

Lemma finishes_RecursivelyPlanDistributedJoinNode (node : Node) :
  forall query, finishes (RecursivelyPlanDistributedJoinNode node query).
Proof.
  induction node; intro query; simpl; finish.
  unfold RecursivelyPlanDistributedRTE. finish.
Qed.

#[local] Hint Resolve finishes_RecursivelyPlanLocalTableJoins
  finishes_RecursivelyPlanDistributedJoinNode : finish.

Lemma finishes_RecursivelyPlanRecurringTupleOuterJoinWalker (node : Node) :
  forall query, finishes (RecursivelyPlanRecurringTupleOuterJoinWalker node query).
Proof.
  induction node using tree_ind_Node
    with (PQ := fun _ => True) (PR := fun _ => True) (PT := fun _ => True)
         (PC := fun _ => True) (PF := fun _ => True);
    try exact I; intro query; simpl; finish.
  - unfold PlanJoinSides. finish.
  - revert query. induction H as [|x t Hx Ht IH]; intro query; finish.
Qed.

#[local] Hint Resolve finishes_RecursivelyPlanRecurringTupleOuterJoinWalker : finish.

Lemma finishes_steps_after_descent (query : Query) :
  finishes (query <- PlanSetOperationsStep query ;;
            having <- RecursivelyPlanHavingQual (havingQual query) ;;
            match fst having with
            | Some error => ret (Some error, query)
            | None =>
                let query := set_havingQual query (snd having) in
                query <- PlanNonColocatedStep query ;;
                query <- PlanLocalTableJoinsStep query ;;
                query <- PlanOuterJoinsStep query ;;
                query <- PlanSublinksStep query ;;
                ret (@None DeferredErrorMessage, query)
            end).
Proof.
  unfold PlanSetOperationsStep, PlanNonColocatedStep, PlanLocalTableJoinsStep,
    PlanOuterJoinsStep, PlanSublinksStep.
  finish.
  - apply finishes_mapM_opt. intro e. finish.
  - apply finishes_mapM. intros [e no name junk]. simpl. finish.
Qed.

Lemma yields_and {A : Type} (Q R : A -> Prop) (m : M A) :
  yields Q m -> yields R m -> yields (fun a => Q a /\ R a) m.
Proof. intros HQ HR s a s' E. split; [exact (HQ _ _ _ E) | exact (HR _ _ _ E)]. Qed.

Lemma yields_implies {A : Type} (Q R : A -> Prop) (m : M A) :
  (forall a, Q a -> R a) -> yields Q m -> yields R m.
Proof. intros H HQ s a s' E. apply H. exact (HQ _ _ _ E). Qed.

Lemma ShouldTransformRTE_data (rte rte' : RangeTblEntry) :
  rte_data rte' = rte_data rte -> ShouldTransformRTE rte' = ShouldTransformRTE rte.
Proof. unfold ShouldTransformRTE. intros ->. reflexivity. Qed.

(** A copy is as deep as the original. *)
Lemma copyObject_Node_nesting (node : Node) :
  yields (fun node' => nesting_Node node' = nesting_Node node) (copyObject_Node node).
Proof.
  induction node using tree_ind_Node
    with (PQ := fun q =>
                  yields (fun q' => nesting_Query q' = nesting_Query q)
                         (copyObject_Query q))
         (PR := fun r =>
                  yields (fun r' => forall joined,
                                      nesting_RTE joined r' = nesting_RTE joined r)
                         (copyObject_RTE r))
         (PT := fun t =>
                  yields (fun t' => nesting_TargetEntry t' = nesting_TargetEntry t)
                         (copyObject_TargetEntry t))
         (PC := fun _ => True)
         (PF := fun f =>
                  yields (fun f' => nesting_RangeTblFunction f'
                                    = nesting_RangeTblFunction f)
                         (copyObject_RangeTblFunction f));
    try exact I; simpl;
    try (apply yields_ret; reflexivity);
    try (eapply yields_bind; [apply (yields_mapM _ nesting_Node nesting_Node); assumption|];
         intros a' Ha; apply yields_ret; simpl; rewrite Ha; reflexivity).
  - eapply yields_bind; [exact IHnode|]. intros e' He. apply yields_ret. exact He.
  - eapply yields_bind; [apply (yields_mapM_opt _ nesting_Node nesting_Node); assumption|].
    intros t' Ht. eapply yields_bind; [exact IHnode|]. intros q' Hq.
    apply yields_ret. simpl. rewrite Hq.
    destruct t, t'; simpl in Ht; try discriminate Ht; try reflexivity.
    injection Ht as ->. reflexivity.
  - eapply yields_bind; [exact IHnode1|]. intros l' Hl.
    eapply yields_bind; [exact IHnode2|]. intros r' Hr.
    eapply yields_bind; [apply (yields_mapM_opt _ nesting_Node nesting_Node); assumption|].
    intros qs' Hqs. apply yields_ret. simpl. rewrite Hl, Hr.
    destruct qs, qs'; simpl in Hqs; try discriminate Hqs; try reflexivity.
    injection Hqs as ->. reflexivity.
  - eapply yields_bind; [apply (yields_mapM _ nesting_Node nesting_Node); assumption|].
    intros fl' Hfl.
    eapply yields_bind; [apply (yields_mapM_opt _ nesting_Node nesting_Node); assumption|].
    intros qs' Hqs. apply yields_ret. simpl. rewrite Hfl.
    destruct qs, qs'; simpl in Hqs; try discriminate Hqs; try reflexivity.
    injection Hqs as ->. reflexivity.
  - eapply yields_bind; [exact IHnode1|]. intros l' Hl.
    eapply yields_bind; [exact IHnode2|]. intros r' Hr.
    apply yields_ret. simpl. rewrite Hl, Hr. reflexivity.
  - apply yields_then. intro newnode. apply yields_then. intro ctes'.
    eapply yields_bind;
      [apply yields_and;
       [apply yields_mapM_length
       |apply (yields_mapM _ (nesting_RTE (2 <=? list_length rt))
                           (nesting_RTE (2 <=? list_length rt)))]|].
    { eapply Forall_impl; [|exact H0]. intros r Hr s r' s' E. exact (Hr _ _ _ E _). }
    intros rt' [Hlen Hrt].
    eapply yields_bind; [apply (yields_mapM_opt _ nesting_Node nesting_Node); assumption|].
    intros jt' Hjt.
    eapply yields_bind;
      [apply (yields_mapM _ nesting_TargetEntry nesting_TargetEntry); assumption|].
    intros tl' Htl.
    eapply yields_bind;
      [apply (yields_mapM _ nesting_TargetEntry nesting_TargetEntry); assumption|].
    intros rl' Hrl.
    eapply yields_bind; [apply (yields_mapM_opt _ nesting_Node nesting_Node); assumption|].
    intros hq' Hhq.
    eapply yields_bind; [apply (yields_mapM_opt _ nesting_Node nesting_Node); assumption|].
    intros so' Hso.
    apply yields_ret. simpl. rewrite Htl, Hrl. unfold list_length in *. rewrite Hlen.
    rewrite Hrt.
    assert (O : forall o o' : option Node,
               option_map nesting_Node o' = option_map nesting_Node o ->
               match o' with Some e => nesting_Node e | None => 0%nat end
               = match o with Some e => nesting_Node e | None => 0%nat end).
    { intros [x|] [y|] K; simpl in K; try discriminate K; try reflexivity.
      injection K as ->. reflexivity. }
    rewrite (O _ _ Hjt), (O _ _ Hhq), (O _ _ Hso). reflexivity.
  - eapply yields_bind;
      [apply (yields_mapM_opt _ nesting_Query nesting_Query); assumption|].
    intros sub' Hsub.
    eapply yields_bind;
      [apply (yields_mapM _ nesting_RangeTblFunction nesting_RangeTblFunction);
       assumption|].
    intros funcs' Hfuncs. apply yields_ret. intro joined. simpl.
    unfold ShouldTransformRTE. simpl. rewrite Hfuncs.
    destruct sub, sub'; simpl in Hsub; try discriminate Hsub; try reflexivity.
    injection Hsub as ->. reflexivity.
  - eapply yields_bind; [exact IHnode|]. intros e' He. apply yields_ret. exact He.
  - eapply yields_bind; [exact IHnode|]. intros e' He. apply yields_ret. exact He.
Qed.

Lemma copyObject_Query_nesting (query : Query) :
  yields (fun query' => nesting_Query query' = nesting_Query query)
         (copyObject_Query query).
Proof.
  intros s query' s' E.
  assert (N : copyObject_Node (T_SubLink None query) s = (Done (T_SubLink None query'), s')).
  { simpl. unfold bind at 1. simpl. erewrite bind_Done; [|exact E]. reflexivity. }
  apply copyObject_Node_nesting in N. simpl in N. exact N.
Qed.

Lemma copyObject_RTE_nesting (rte : RangeTblEntry) :
  yields (fun rte' => forall joined, nesting_RTE joined rte' = nesting_RTE joined rte)
         (copyObject_RTE rte).
Proof.
  destruct rte as [d sub funcs]. simpl.
  eapply yields_bind.
  { apply (yields_mapM_opt _ nesting_Query nesting_Query).
    destruct sub; simpl; [apply copyObject_Query_nesting | exact I]. }
  intros sub' Hsub.
  eapply yields_bind.
  { apply (yields_mapM _ nesting_RangeTblFunction nesting_RangeTblFunction).
    apply Forall_forall. intros [e n names tys mods colls] _. simpl.
    eapply yields_bind; [apply copyObject_Node_nesting|]. intros e' He.
    apply yields_ret. exact He. }
  intros funcs' Hfuncs. apply yields_ret. intro joined. simpl.
  unfold ShouldTransformRTE. simpl. rewrite Hfuncs.
  destruct sub, sub'; simpl in Hsub; try discriminate Hsub; try reflexivity.
  injection Hsub as ->. reflexivity.
Qed.

Lemma TupleDescTargetList_nesting (attributes : list (Oid * option string)) :
  forall start, list_max (map nesting_TargetEntry (TupleDescTargetList start attributes)) = 0%nat.
Proof.
  induction attributes as [|[ty name] rest IH]; intro start; simpl; [reflexivity|].
  apply IH.
Qed.

Lemma ColumnNamesTargetList_nesting (f : RangeTblFunction) (names : list (option string)) :
  forall start, list_max (map nesting_TargetEntry (ColumnNamesTargetList f start names)) = 0%nat.
Proof. induction names as [|name rest IH]; intro start; simpl; [reflexivity | apply IH]. Qed.

(** A wrapped function is as deep as the function entry was counted. *)
Lemma TransformFunctionRTE_nesting (rte : RangeTblEntry) :
  ShouldTransformRTE rte = true ->
  yields (fun rte' => nesting_RTE true rte' = nesting_RTE true rte)
         (TransformFunctionRTE rte).
Proof.
  intro T. unfold TransformFunctionRTE. apply yields_then. intro a.
  destruct (functions rte) as [|f rest] eqn:Fs; [apply yields_ereport|].
  eapply yields_bind; [apply copyObject_RTE_nesting|]. intros copy Hcopy.
  eapply yields_bind with
    (Q := fun tl => list_max (map nesting_TargetEntry tl) = 0%nat).
  { destruct (get_expr_result_tupdesc (rtf_funcexpr f)) as [attrs|].
    - destruct (list_length attrs >? MaxAttrNumber); [apply yields_ereport|].
      apply yields_ret. apply TupleDescTargetList_nesting.
    - apply yields_ret. apply ColumnNamesTargetList_nesting. }
  intros tl Htl. apply yields_ret.
  destruct rte as [d sub funcs]. simpl in *. rewrite Htl, Hcopy. simpl.
  assert (K : rtekind d = RTE_FUNCTION).
  { unfold ShouldTransformRTE in T. simpl in T.
    destruct (rtekind d); simpl in T; try discriminate T. reflexivity. }
  destruct d; simpl in *. subst. simpl. rewrite T. simpl. lia.
Qed.

Lemma WrapFunctionsInSubqueries_nesting (query : Query) :
  yields (fun query' => nesting_Query query' = nesting_Query query /\
                        cteList query' = cteList query)
         (WrapFunctionsInSubqueries query).
Proof.
  unfold WrapFunctionsInSubqueries.
  destruct (list_length (rtable query) <? 2) eqn:L; [apply yields_ret; split; reflexivity|].
  eapply yields_bind.
  { apply yields_and; [apply yields_mapM_length|].
    apply (yields_mapM _ (nesting_RTE true) (nesting_RTE true)).
    apply Forall_forall. intros rte _. unfold WrapFunctionRTE.
    destruct (ShouldTransformRTE rte) eqn:T; [|apply yields_ret; reflexivity].
    apply TransformFunctionRTE_nesting. exact T. }
  intros wrapped [Hlen Hmap]. apply yields_ret.
  destruct query as [a c hr ctes rt jt tl rl hq so]. simpl in *.
  split; [|reflexivity]. unfold list_length in *. rewrite Hlen.
  replace (2 <=? Z.of_nat (List.length rt)) with true
    by (symmetry; apply Z.leb_le; apply Z.ltb_ge in L; exact L).
  rewrite Hmap. reflexivity.
Qed.

Lemma list_max_map_le {X : Type} (h : X -> nat) (l l' : list X) :
  Forall2 (fun x x' => (h x' <= h x)%nat) l l' ->
  (list_max (map h l') <= list_max (map h l))%nat.
Proof. induction 1 as [|x x' t t' Hx _ IH]; simpl; lia. Qed.

Section WalkNesting.

Variable S : Type.
Variable onReference : RangeTblEntry -> S -> RangeTblEntry * S.

(** What the walk keeps about what it carries along. *)
Variable carried : S -> Prop.

Hypothesis onReference_shallow :
  forall level rte s,
    carried s -> is_cte_reference level rte = true ->
    shallow_entry (fst (onReference rte s)) /\ carried (snd (onReference rte s)).

Lemma map_acc_nesting {X : Type} (h : X -> nat) (f : X -> S -> X * S) (l : list X) :
  Forall (fun x => forall s, carried s ->
                             (h (fst (f x s)) <= h x)%nat /\ carried (snd (f x s))) l ->
  forall s, carried s ->
            Forall2 (fun x x' => (h x' <= h x)%nat) l (fst (map_acc f l s)) /\
            carried (snd (map_acc f l s)).
Proof.
  induction 1 as [|x t Hx _ IH]; intros s Cs; simpl; [split; [constructor | exact Cs]|].
  specialize (Hx s Cs). destruct (f x s) as [y s1]. simpl in Hx. destruct Hx as [Hy C1].
  specialize (IH s1 C1). destruct (map_acc f t s1) as [r s2]. simpl in *.
  destruct IH as [Hr C2]. split; [constructor; assumption | exact C2].
Qed.

Lemma opt_acc_nesting {X : Type} (h : X -> nat) (f : X -> S -> X * S) (o : option X) :
  opt_all (fun x => forall s, carried s ->
                              (h (fst (f x s)) <= h x)%nat /\ carried (snd (f x s))) o ->
  forall s, carried s ->
            (match fst (opt_acc f o s) with Some x => h x | None => 0 end
             <= match o with Some x => h x | None => 0 end)%nat /\
            carried (snd (opt_acc f o s)).
Proof.
  destruct o as [x|]; simpl; intros H s Cs; [|split; [lia | exact Cs]].
  specialize (H s Cs). destruct (f x s) as [y s1]. simpl in *. exact H.
Qed.

Definition walked {X : Type} (h : X -> nat) (walk : Z -> X -> S -> X * S) (x : X) : Prop :=
  forall level s, carried s ->
                  (h (fst (walk level x s)) <= h x)%nat /\ carried (snd (walk level x s)).

Lemma walked_list {X : Type} (h : X -> nat) (walk : Z -> X -> S -> X * S) (l : list X) :
  Forall (walked h walk) l ->
  forall level s, carried s ->
    (list_max (map h (fst (map_acc (walk level) l s))) <= list_max (map h l))%nat /\
    List.length (fst (map_acc (walk level) l s)) = List.length l /\
    carried (snd (map_acc (walk level) l s)).
Proof.
  intros H level s Cs.
  destruct (map_acc_nesting h (walk level) l) with (s := s) as [F C]; [|exact Cs|].
  - eapply Forall_impl; [|exact H]. intros x Hx. apply Hx.
  - split; [apply list_max_map_le; exact F|]. split; [|exact C].
    symmetry. eapply Forall2_length. exact F.
Qed.

Lemma walked_opt {X : Type} (h : X -> nat) (walk : Z -> X -> S -> X * S) (o : option X) :
  opt_all (walked h walk) o ->
  forall level s, carried s ->
    (match fst (opt_acc (walk level) o s) with Some x => h x | None => 0 end
     <= match o with Some x => h x | None => 0 end)%nat /\
    carried (snd (opt_acc (walk level) o s)).
Proof.
  intros H level s Cs. apply opt_acc_nesting; [|exact Cs].
  destruct o as [x|]; simpl in *; [apply H | exact I].
Qed.

Ltac walk_step :=
  match goal with
  | Cs : carried ?s |- context [map_acc (?walk ?lvl) ?l ?s] =>
      let F := fresh "F" in
      let L := fresh "L" in
      let C := fresh "C" in
      match goal with
      | H : Forall _ l |- _ =>
          destruct (walked_list _ _ l H lvl s Cs) as (F & L & C)
      end;
      destruct (map_acc (walk lvl) l s) as [? ?]; cbn [fst snd] in F, L, C; clear Cs
  | Cs : carried ?s |- context [opt_acc (?walk ?lvl) ?o ?s] =>
      let F := fresh "F" in
      let C := fresh "C" in
      match goal with
      | H : opt_all _ o |- _ =>
          destruct (walked_opt _ _ o H lvl s Cs) as (F & C)
      end;
      destruct (opt_acc (walk lvl) o s) as [? ?]; cbn [fst snd] in F, C; clear Cs
  | Cs : carried ?s |- context [?walk ?lvl ?x ?s] =>
      let F := fresh "F" in
      let C := fresh "C" in
      match goal with
      | H : walked _ walk x |- _ => destruct (H lvl s Cs) as (F & C)
      end;
      destruct (walk lvl x s) as [? ?]; cbn [fst snd] in F, C; clear Cs
  end.

Lemma walk_nesting_Query (query : Query) :
  walked nesting_Query (walk_cte_references_Query S onReference) query.
Proof.
  induction query using tree_ind_Query
    with (PN := walked nesting_Node (walk_cte_references S onReference))
         (PR := fun r =>
                  forall joined,
                    walked (nesting_RTE joined)
                           (walk_cte_references_RTE S onReference) r)
         (PT := walked nesting_TargetEntry
                       (walk_cte_references_TargetEntry S onReference))
         (PC := walked (fun _ => 0%nat) (walk_cte_references_CTE S onReference))
         (PF := walked nesting_RangeTblFunction
                       (walk_cte_references_RangeTblFunction S onReference)).
  all: try (intros level s Cs; simpl; repeat walk_step;
            split; [simpl; lia | assumption]).
  - intros level s Cs. simpl.
    assert (Hrt : Forall (walked (nesting_RTE (2 <=? list_length rt))
                                 (walk_cte_references_RTE S onReference)) rt).
    { eapply Forall_impl; [|exact H0]. intros r Hr. apply Hr. }
    clear H0. repeat walk_step. split; [|assumption]. simpl.
    unfold list_length in *. rewrite L2. lia.
  - intros joined level s Cs. simpl.
    destruct (is_cte_reference level (mkRTE d sub funcs)) eqn:R.
    + destruct (onReference_shallow level _ s Cs R) as [Sh C]. split; [|exact C].
      unfold is_cte_reference in R. simpl in R. apply andb_prop in R.
      destruct R as [K _]. apply RTEKind_eqb_eq in K. rewrite K.
      apply Sh.
    + destruct (rtekind d) eqn:K; try (split; [simpl; rewrite K; lia | assumption]).
      * walk_step. split; [|assumption]. simpl. rewrite K. exact F.
      * walk_step. split; [|assumption]. simpl. rewrite K.
        unfold ShouldTransformRTE. simpl. lia.
Qed.

End WalkNesting.

Lemma cte_reference_shallow (level : Z) (rte : RangeTblEntry) :
  is_cte_reference level rte = true -> shallow_entry rte.
Proof.
  unfold is_cte_reference. intros R joined. apply andb_prop in R. destruct R as [K _].
  apply RTEKind_eqb_eq in K. destruct rte as [d sub funcs]. simpl in *. rewrite K.
  apply Nat.le_refl.
Qed.

Lemma gathered_references_shallow (query : Query) :
  Forall shallow_entry (CteReferenceListWalker query).
Proof.
  unfold CteReferenceListWalker.
  apply (walk_nesting_Query (list RangeTblEntry) _ (Forall shallow_entry)).
  - intros level rte collected C R. simpl. split; [eapply cte_reference_shallow; exact R|].
    unfold lappend. apply Forall_app. split; [exact C|]. constructor; [|constructor].
    eapply cte_reference_shallow. exact R.
  - constructor.
Qed.

Lemma store_cte_references_nesting (query : Query) (cells : list RangeTblEntry) :
  Forall shallow_entry cells ->
  (nesting_Query (store_cte_references query cells) <= nesting_Query query)%nat.
Proof.
  intro C. unfold store_cte_references.
  apply (walk_nesting_Query (list RangeTblEntry) _ (Forall shallow_entry)); [|exact C].
  intros level rte remaining Cr R. destruct remaining as [|written rest]; simpl.
  - split; [eapply cte_reference_shallow; exact R | constructor].
  - inversion Cr; subst. split; assumption.
Qed.

Lemma BuildSubPlanResultQuery_nesting (tl : list TargetEntry) (aliases : list string)
      (resultId : string) :
  yields (fun resultQuery => nesting_Query resultQuery = 1%nat)
         (BuildSubPlanResultQuery tl aliases resultId).
Proof.
  unfold BuildSubPlanResultQuery, BuildReadIntermediateResultsQuery.
  apply yields_then. intro a. apply yields_ret. simpl.
  replace (list_max (map nesting_TargetEntry
                         (map col_entry (BuildResultColumns aliases 1 tl)))) with 0%nat;
    [reflexivity|].
  symmetry. apply Nat.le_0_r. apply list_max_le. apply Forall_forall. intros n Hn.
  apply in_map_iff in Hn. destruct Hn as (te & <- & Hin).
  destruct (BuildResultColumns_entries _ _ _ _ Hin)
    as (x1 & x2 & x3 & x4 & x5 & x6 & no & name & junk & ->).
  apply Nat.le_refl.
Qed.

Lemma ReplaceCteReferences_shallow (cteName : string) (resultQuery : Query)
      (cells : list RangeTblEntry) :
  nesting_Query resultQuery = 1%nat ->
  Forall shallow_entry cells ->
  forall count,
    yields (fun r => Forall shallow_entry (fst r))
           (ReplaceCteReferences cteName resultQuery cells count).
Proof.
  intros Hq. induction 1 as [|rte rest Hrte _ IH]; intro count; simpl.
  - apply yields_ret. constructor.
  - eapply yields_bind with (Q := fun r => shallow_entry (fst r)).
    + unfold ReplaceCteReference.
      destruct (negb _); [apply yields_ret; exact Hrte|].
      destruct (names_cte cteName rte); [|apply yields_ret; exact Hrte].
      eapply yields_bind with (Q := fun q => nesting_Query q = 1%nat).
      * destruct (count =? 0); [apply yields_ret; exact Hq|].
        eapply yields_implies; [|apply copyObject_Query_nesting].
        intros q' ->. exact Hq.
      * intros q' Hq'. apply yields_ret. intro joined. simpl. rewrite Hq'.
        apply Nat.le_refl.
    + intros r Hr. eapply yields_bind; [apply IH|]. intros rs Hrs.
      apply yields_ret. simpl. constructor; assumption.
Qed.

Lemma PlanCTE_shallow (cte : CommonTableExpr) (cells : list RangeTblEntry) :
  Forall shallow_entry cells ->
  yields (fun step => match step with
                      | inl _ => True
                      | inr cells' => Forall shallow_entry cells'
                      end)
         (PlanCTE cte cells).
Proof.
  intro C. unfold PlanCTE. apply yields_then. intro context.
  destruct (ContainsReferencesToOuterQuery (cte_query cte)); [apply yields_ret; exact I|].
  destruct (is_unreferenced_select cte); [apply yields_ret; exact C|].
  apply yields_then. intro subPlan. apply yields_then. intros _.
  eapply yields_bind; [apply BuildSubPlanResultQuery_nesting|]. intros resultQuery Hq.
  eapply yields_bind; [apply ReplaceCteReferences_shallow; assumption|].
  intros replaced Hr. apply yields_then. intros _. apply yields_ret. exact Hr.
Qed.

Lemma PlanCTEsFrom_shallow (query : Query) (remaining : nat) :
  forall index cells,
    Forall shallow_entry cells ->
    yields (fun r => Forall shallow_entry (snd r))
           (PlanCTEsFrom query index remaining cells).
Proof.
  induction remaining as [|n IH]; intros index cells C; simpl.
  - apply yields_ret. exact C.
  - destruct (nth_error _ index) as [cte|]; [|apply yields_ret; exact C].
    eapply yields_bind; [apply PlanCTE_shallow; exact C|]. intros [error|cells'] H.
    + apply yields_ret. exact C.
    + apply IH. exact H.
Qed.

Lemma nesting_set_cteList (query : Query) (ctes : list CommonTableExpr) :
  nesting_Query (set_cteList query ctes) = nesting_Query query.
Proof. destruct query. reflexivity. Qed.

Lemma RecursivelyPlanCTEs_nesting (query : Query) :
  yields (fun r => (nesting_Query (snd r) <= nesting_Query query)%nat /\
                   (fst r = None -> cteList (snd r) = []))
         (RecursivelyPlanCTEs query).
Proof.
  apply yields_and.
  - unfold RecursivelyPlanCTEs.
    destruct (cteList query); [apply yields_ret; apply Nat.le_refl|].
    destruct (hasRecursive query); [apply yields_ret; apply Nat.le_refl|].
    eapply yields_bind;
      [apply PlanCTEsFrom_shallow; apply gathered_references_shallow|].
    intros [error cells] C. cbn [fst snd] in *.
    destruct error; apply yields_ret; cbn [snd]; rewrite ?nesting_set_cteList;
      apply store_cte_references_nesting; exact C.
  - intros s [error query'] s' E. cbn [fst snd]. intros ->.
    eapply RecursivelyPlanCTEs_clears. exact E.
Qed.

Lemma Forall_under_list_max {X : Type} (h : X -> nat) (P : X -> Prop) (n : nat)
      (l : list X) :
  Forall (fun x => (h x <= n)%nat -> P x) l -> (list_max (map h l) <= n)%nat ->
  Forall P l.
Proof.
  intros H L. apply list_max_le in L. rewrite Forall_map in L.
  rewrite Forall_forall in *. intros x Hx. apply (H x Hx). apply (L x Hx).
Qed.

Lemma bind_ext {A B : Type} (m1 m2 : M A) (k1 k2 : A -> M B) (s : PlanState) :
  m1 s = m2 s ->
  (forall a s1, m1 s = (Done a, s1) -> k1 a s1 = k2 a s1) ->
  bind m1 k1 s = bind m2 k2 s.
Proof.
  intros Hm Hk. unfold bind. rewrite <- Hm. destruct (m1 s) as [[a| |] s1]; try reflexivity.
  apply Hk. reflexivity.
Qed.

Lemma mapM_ext {A B : Type} (f g : A -> M B) (l : list A) :
  Forall (fun x => forall s, f x s = g x s) l -> forall s, mapM f l s = mapM g l s.
Proof.
  induction 1 as [|x t Hx _ IH]; intro s; simpl; [reflexivity|].
  apply bind_ext; [apply Hx|]. intros y s1 _.
  apply bind_ext; [apply IH|]. reflexivity.
Qed.

Lemma mapM_opt_ext {A B : Type} (f g : A -> M B) (o : option A) :
  opt_all (fun x => forall s, f x s = g x s) o ->
  forall s, mapM_opt f o s = mapM_opt g o s.
Proof.
  destruct o as [x|]; simpl; intros H s; [|reflexivity].
  apply bind_ext; [apply H|]. reflexivity.
Qed.

Section DescentFinishes.

Variable planNested : Query -> M (option DeferredErrorMessage * Query).
Variable depth : nat.

Hypothesis planNested_finishes :
  forall query, (nesting_Query query <= depth)%nat -> finishes (planNested query).

Lemma finishes_RecursivelyPlanSubqueryWalker_Query (query : Query) :
  (nesting_Query query <= depth)%nat ->
  finishes (RecursivelyPlanSubqueryWalker_Query planNested query).
Proof.
  intro H. unfold RecursivelyPlanSubqueryWalker_Query, RaiseDeferredError. finish.
Qed.

Lemma under_opt (o : option Node) (P : Node -> Prop) :
  opt_all (fun e => (nesting_Node e <= depth)%nat -> P e) o ->
  (match o with Some e => nesting_Node e | None => 0 end <= depth)%nat ->
  opt_all P o.
Proof. destruct o; simpl; auto. Qed.

Lemma finishes_RecursivelyPlanSubqueryWalker (node : Node) :
  (nesting_Node node <= depth)%nat ->
  finishes (RecursivelyPlanSubqueryWalker planNested node).
Proof.
  induction node using tree_ind_Node
    with (PQ := fun _ => True) (PR := fun _ => True) (PT := fun _ => True)
         (PC := fun _ => True) (PF := fun _ => True);
    try exact I; simpl; intro N;
    repeat match goal with
           | H : Forall _ ?l |- _ =>
               apply (Forall_under_list_max nesting_Node _ depth) in H; [|lia]
           | H : opt_all _ ?o |- _ => apply under_opt in H; [|lia]
           | H : (_ <= depth)%nat -> _ |- _ => specialize (H ltac:(lia))
           end;
    finish.
  apply finishes_RecursivelyPlanSubqueryWalker_Query. lia.
Qed.

Lemma finishes_query_tree_rewrite (query : Query) :
  cteList query = [] ->
  (nesting_Query query <= S depth)%nat ->
  finishes (query_tree_rewrite (RecursivelyPlanSubqueryWalker planNested)
                               (RecursivelyPlanSubqueryWalker_Query planNested) query).
Proof.
  destruct query as [a c hr ctes rt jt tl rl hq so]. simpl. intros -> N.
  apply le_S_n in N.
  assert (Opt : forall o : option Node,
             (match o with Some e => nesting_Node e | None => 0 end <= depth)%nat ->
             finishes (mapM_opt (RecursivelyPlanSubqueryWalker planNested) o)).
  { intros [e|] H; simpl; finish. apply finishes_RecursivelyPlanSubqueryWalker. exact H. }
  assert (Entries : forall l : list TargetEntry,
             (list_max (map nesting_TargetEntry l) <= depth)%nat ->
             finishes (mapM (rewrite_TargetEntry
                               (RecursivelyPlanSubqueryWalker planNested)) l)).
  { intros l H. apply finishes_mapM_Forall.
    apply (Forall_under_list_max nesting_TargetEntry _ depth); [|exact H].
    apply Forall_forall. intros [e no name junk] _ He. simpl in *. finish.
    apply finishes_RecursivelyPlanSubqueryWalker. exact He. }
  apply finishes_bind; [apply Entries; lia|]. intro tl'.
  apply finishes_bind; [apply Entries; lia|]. intro rl'.
  apply finishes_bind; [apply Opt; lia|]. intro jt'.
  apply finishes_bind; [apply Opt; lia|]. intro so'.
  apply finishes_bind; [apply Opt; lia|]. intro hq'.
  apply finishes_bind; [simpl; finish|]. intro ctes'.
  apply finishes_bind; [|intro; finish].
  apply finishes_mapM_Forall.
  apply (Forall_under_list_max (nesting_RTE (2 <=? list_length rt)) _ depth); [|lia].
  apply Forall_forall. intros [d sub funcs] _ Hr. simpl in *.
  destruct (rtekind d); finish.
  - destruct sub as [q|]; simpl; finish.
    apply finishes_RecursivelyPlanSubqueryWalker_Query. exact Hr.
  - apply finishes_mapM_Forall.
    apply (Forall_under_list_max nesting_RangeTblFunction _ depth); [|lia].
    apply Forall_forall. intros [e n names tys mods colls] _ He. simpl in *. finish.
    apply finishes_RecursivelyPlanSubqueryWalker. exact He.
Qed.

Lemma finishes_body (query : Query) :
  (nesting_Query query <= S depth)%nat ->
  finishes (RecursivelyPlanSubqueriesAndCTEs_body planNested query).
Proof.
  intro N. unfold RecursivelyPlanSubqueriesAndCTEs_body.
  eapply finishes_bind_yields;
    [apply finishes_RecursivelyPlanCTEs | apply RecursivelyPlanCTEs_nesting|].
  intros [error q0] [N0 C0]. cbn [fst snd] in *.
  destruct error; [finish|]. destruct SubqueryPushdown; [finish|].
  eapply finishes_bind_yields;
    [apply finishes_WrapFunctionsInSubqueries | apply WrapFunctionsInSubqueries_nesting|].
  intros q1 [N1 C1]. cbv beta in *.
  apply finishes_bind.
  - apply finishes_query_tree_rewrite; [rewrite C1; apply C0; reflexivity | lia].
  - intro q2. apply finishes_steps_after_descent.
Qed.

End DescentFinishes.

Section DescentAgrees.

Variables planNested planNested' : Query -> M (option DeferredErrorMessage * Query).
Variable depth : nat.

Hypothesis agree :
  forall query, (nesting_Query query <= depth)%nat ->
                forall s, planNested query s = planNested' query s.

Lemma agree_RecursivelyPlanSubqueryWalker_Query (query : Query) :
  (nesting_Query query <= depth)%nat ->
  forall s, RecursivelyPlanSubqueryWalker_Query planNested query s
            = RecursivelyPlanSubqueryWalker_Query planNested' query s.
Proof.
  intros H s. unfold RecursivelyPlanSubqueryWalker_Query.
  apply bind_ext; [reflexivity|]. intros c s1 _.
  apply bind_ext; [reflexivity|]. intros u s2 _.
  apply bind_ext; [apply agree; exact H|]. reflexivity.
Qed.

Lemma agree_RecursivelyPlanSubqueryWalker (node : Node) :
  (nesting_Node node <= depth)%nat ->
  forall s, RecursivelyPlanSubqueryWalker planNested node s
            = RecursivelyPlanSubqueryWalker planNested' node s.
Proof.
  induction node using tree_ind_Node
    with (PQ := fun _ => True) (PR := fun _ => True) (PT := fun _ => True)
         (PC := fun _ => True) (PF := fun _ => True);
    try exact I; simpl; intros N s;
    repeat match goal with
           | H : Forall _ ?l |- _ =>
               apply (Forall_under_list_max nesting_Node _ depth) in H; [|lia]
           | H : opt_all _ ?o |- _ => apply under_opt in H; [|lia]
           | H : (_ <= depth)%nat -> _ |- _ => specialize (H ltac:(lia))
           end;
    try reflexivity;
    repeat (apply bind_ext;
            [first [ apply mapM_ext; assumption
                   | apply mapM_opt_ext; assumption
                   | apply agree_RecursivelyPlanSubqueryWalker_Query; lia
                   | solve [auto] ]
            | intros ? ? _ ]);
    reflexivity.
Qed.

Lemma agree_query_tree_rewrite (query : Query) :
  cteList query = [] ->
  (nesting_Query query <= S depth)%nat ->
  forall s,
    query_tree_rewrite (RecursivelyPlanSubqueryWalker planNested)
                       (RecursivelyPlanSubqueryWalker_Query planNested) query s
    = query_tree_rewrite (RecursivelyPlanSubqueryWalker planNested')
                         (RecursivelyPlanSubqueryWalker_Query planNested') query s.
Proof.
  destruct query as [a c hr ctes rt jt tl rl hq so]. simpl. intros -> N.
  apply le_S_n in N.
  assert (Opt : forall o : option Node,
             (match o with Some e => nesting_Node e | None => 0 end <= depth)%nat ->
             forall s, mapM_opt (RecursivelyPlanSubqueryWalker planNested) o s
                       = mapM_opt (RecursivelyPlanSubqueryWalker planNested') o s).
  { intros o H. apply mapM_opt_ext. destruct o as [e|]; simpl; [|exact I].
    apply agree_RecursivelyPlanSubqueryWalker. exact H. }
  assert (Entries : forall l : list TargetEntry,
             (list_max (map nesting_TargetEntry l) <= depth)%nat ->
             forall s,
               mapM (rewrite_TargetEntry (RecursivelyPlanSubqueryWalker planNested)) l s
               = mapM (rewrite_TargetEntry (RecursivelyPlanSubqueryWalker planNested'))
                      l s).
  { intros l H. apply mapM_ext.
    apply (Forall_under_list_max nesting_TargetEntry _ depth); [|exact H].
    apply Forall_forall. intros [e no name junk] _ He s. simpl in *.
    apply bind_ext; [apply agree_RecursivelyPlanSubqueryWalker; exact He|]. reflexivity. }
  intro s.
  apply bind_ext; [apply Entries; lia|]. intros tl' s1 _.
  apply bind_ext; [apply Entries; lia|]. intros rl' s2 _.
  apply bind_ext; [apply Opt; lia|]. intros jt' s3 _.
  apply bind_ext; [apply Opt; lia|]. intros so' s4 _.
  apply bind_ext; [apply Opt; lia|]. intros hq' s5 _.
  apply bind_ext; [reflexivity|]. intros ctes' s6 _.
  apply bind_ext; [|reflexivity].
  apply mapM_ext.
  apply (Forall_under_list_max (nesting_RTE (2 <=? list_length rt)) _ depth); [|lia].
  apply Forall_forall. intros [d sub funcs] _ Hr st. simpl in *.
  destruct (rtekind d); try reflexivity.
  - apply bind_ext; [|reflexivity]. apply mapM_opt_ext.
    destruct sub as [q|]; simpl; [|exact I].
    apply agree_RecursivelyPlanSubqueryWalker_Query. exact Hr.
  - apply bind_ext; [|reflexivity]. apply mapM_ext.
    apply (Forall_under_list_max nesting_RangeTblFunction _ depth); [|lia].
    apply Forall_forall. intros [e n names tys mods colls] _ He st'. simpl in *.
    apply bind_ext; [apply agree_RecursivelyPlanSubqueryWalker; exact He|]. reflexivity.
Qed.

Lemma agree_body (query : Query) :
  (nesting_Query query <= S depth)%nat ->
  forall s, RecursivelyPlanSubqueriesAndCTEs_body planNested query s
            = RecursivelyPlanSubqueriesAndCTEs_body planNested' query s.
Proof.
  intros N s. unfold RecursivelyPlanSubqueriesAndCTEs_body.
  apply bind_ext; [reflexivity|]. intros [error q0] s0 E0.
  destruct (RecursivelyPlanCTEs_nesting _ _ _ _ E0) as [N0 C0]. cbn [fst snd] in *.
  destruct error; [reflexivity|]. destruct SubqueryPushdown; [reflexivity|].
  apply bind_ext; [reflexivity|]. intros q1 s1 E1.
  destruct (WrapFunctionsInSubqueries_nesting _ _ _ _ E1) as [N1 C1].
  apply bind_ext; [|reflexivity].
  apply agree_query_tree_rewrite; [rewrite C1; apply C0; reflexivity | lia].
Qed.

End DescentAgrees.

Lemma nesting_Query_positive (query : Query) : (1 <= nesting_Query query)%nat.
Proof. destruct query. simpl. lia. Qed.

(** X14.  The descent comes to an end.  [RecursivelyPlanSubqueriesAndCTEs]
    calls itself on the queries nested in the query it is given, after it
    has replaced CTE references and wrapped functions; when the fuel is at
    least the nesting of the query, the descent does not stop for lack of
    fuel: it returns or raises an error.  What it does is then the same for
    any other such amount of fuel, so the fuel says nothing about the
    result. *)
Theorem descent_comes_to_an_end (fuel : nat) (query : Query) :
  (nesting_Query query <= fuel)%nat ->
  (forall s, fst (RecursivelyPlanSubqueriesAndCTEs fuel query s) <> OutOfFuel) /\
  (forall fuel' s,
     (nesting_Query query <= fuel')%nat ->
     RecursivelyPlanSubqueriesAndCTEs fuel' query s
     = RecursivelyPlanSubqueriesAndCTEs fuel query s).
Proof.
  intro N. split.
  - apply finishes_elim. revert query N.
    induction fuel as [|fuel IH]; intros query N.
    + pose proof (nesting_Query_positive query). lia.
    + simpl. eapply finishes_body; [|exact N]. exact IH.
  - revert query N. induction fuel as [|fuel IH]; intros query N fuel' s N'.
    + pose proof (nesting_Query_positive query). lia.
    + destruct fuel' as [|fuel']; [pose proof (nesting_Query_positive query); lia|].
      simpl. apply (agree_body _ _ (Nat.min fuel fuel')); [|lia].
      intros q Hq st. apply IH; lia.
Qed.

(* ------------------------------------------------------------------ *)
(** ** A local table joined with a distributed table *)

Lemma local_and_distributed_flags_spec (check : RangeTblEntry -> bool)
      (l : list RangeTblEntry) :
  forall a b,
    local_and_distributed_flags check l a b
    = (a || existsb (local_side check) l, b || existsb (distributed_side check) l).
Proof.
  induction l as [|rte rest IH]; intros a b; cbn [local_and_distributed_flags existsb].
  - rewrite !orb_false_r. reflexivity.
  - unfold local_side at 1. unfold distributed_side at 1 2.
    destruct (FindNodeMatchingCheckFunctionInRangeTableList [rte] check);
      cbn [negb andb orb].
    + rewrite IH. rewrite orb_true_r. reflexivity.
    + destruct (IsRecursivelyPlannableRelation rte && IsLocalTableRteOrMatView rte);
        rewrite IH; cbn [orb]; [rewrite orb_true_r|]; reflexivity.
Qed.

(** X15.  [ContainsLocalTableDistributedTableJoin] answers true exactly when
    the list has an entry with a distributed or reference table in or under
    it and another entry that has none and is a relation of a plannable
    kind (table, partitioned table, materialized view or foreign table)
    that is local: not a table of the extension, or a Citus local table.
    One entry is never both, so the answer is false for a list of fewer
    than two entries; and the answer does not depend on the order of the
    entries or on how often one occurs. *)
Theorem local_distributed_join_needs_both_sides (check : RangeTblEntry -> bool) :
  (forall l,
     ContainsLocalTableDistributedTableJoin check l = true <->
     exists distributed local,
       In distributed l /\ In local l /\
       FindNodeMatchingCheckFunctionInRangeTableList [distributed] check = true /\
       FindNodeMatchingCheckFunctionInRangeTableList [local] check = false /\
       rtekind (rte_data local) = RTE_RELATION /\
       In (relkind (rte_data local))
          [RELKIND_PARTITIONED_TABLE; RELKIND_RELATION; RELKIND_MATVIEW;
           RELKIND_FOREIGN_TABLE] /\
       (IsCitusTable (relid (rte_data local)) = false \/
        IsCitusLocalTable (relid (rte_data local)) = true)) /\
  (forall l, (List.length l < 2)%nat ->
             ContainsLocalTableDistributedTableJoin check l = false) /\
  (forall l l', (forall rte, In rte l <-> In rte l') ->
                ContainsLocalTableDistributedTableJoin check l
                = ContainsLocalTableDistributedTableJoin check l').
Proof.
  assert (Spec : forall l,
             ContainsLocalTableDistributedTableJoin check l
             = existsb (local_side check) l && existsb (distributed_side check) l).
  { intro l. unfold ContainsLocalTableDistributedTableJoin.
    rewrite local_and_distributed_flags_spec. reflexivity. }
  assert (Local : forall rte,
             local_side check rte = true <->
             FindNodeMatchingCheckFunctionInRangeTableList [rte] check = false /\
             rtekind (rte_data rte) = RTE_RELATION /\
             In (relkind (rte_data rte))
                [RELKIND_PARTITIONED_TABLE; RELKIND_RELATION; RELKIND_MATVIEW;
                 RELKIND_FOREIGN_TABLE] /\
             (IsCitusTable (relid (rte_data rte)) = false \/
              IsCitusLocalTable (relid (rte_data rte)) = true)).
  { intro rte. unfold local_side, distributed_side, IsRecursivelyPlannableRelation,
      IsLocalTableRteOrMatView, IsRelationLocalTableOrMatView.
    destruct (FindNodeMatchingCheckFunctionInRangeTableList [rte] check); simpl;
      [split; [discriminate | intros [H _]; discriminate H]|].
    destruct (rtekind (rte_data rte)); simpl;
      try (split; [discriminate | intros (_ & H & _); discriminate H]).
    destruct (relkind (rte_data rte)); simpl;
      try (split; [discriminate
                  | intros (_ & _ & H & _); simpl in H;
                    repeat (destruct H as [H|H]; [discriminate H|]); contradiction]).
    all: destruct (IsCitusTable (relid (rte_data rte))); simpl;
      [destruct (IsCitusLocalTable (relid (rte_data rte)))|];
      split; try discriminate; try reflexivity; intro H.
    all: try (repeat split; simpl; auto; fail).
    all: destruct H as (_ & _ & _ & [H|H]); discriminate H. }
  split; [|split].
  - intro l. rewrite Spec, andb_true_iff, !existsb_exists. split.
    + intros [(loc & Hl & L) (dis & Hd & D)]. apply Local in L.
      exists dis, loc. split; [exact Hd|]. split; [exact Hl|]. split; [exact D|]. exact L.
    + intros (dis & loc & Hd & Hl & D & L). split.
      * exists loc. split; [exact Hl|]. apply Local. exact L.
      * exists dis. split; [exact Hd | exact D].
  - intros l Hlen. rewrite Spec.
    destruct l as [|rte [|rte' rest]]; cbn [List.length existsb] in *;
      [reflexivity | | lia].
    rewrite !orb_false_r. unfold local_side.
    destruct (distributed_side check rte); [reflexivity|]. apply andb_false_r.
  - intros l l' Same. rewrite !Spec.
    assert (E : forall p : RangeTblEntry -> bool, existsb p l = existsb p l').
    { intro p. apply eq_true_iff_eq. rewrite !existsb_exists.
      split; intros (x & Hx & Px); exists x; (split; [apply Same; exact Hx | exact Px]). }
    rewrite !E. reflexivity.
Qed.

(* ------------------------------------------------------------------ *)
(** ** Sublinks over a recurring FROM clause *)

Lemma yields_mapM_flat {A B C : Type} (R : C -> C -> Prop) (f : A -> M B)
      (g : A -> list C) (h : B -> list C) (l : list A) :
  Forall (fun x => yields (fun y => Forall2 R (g x) (h y)) (f x)) l ->
  yields (fun l' => Forall2 R (flat_map g l) (flat_map h l')) (mapM f l).
Proof.
  induction 1 as [|x t Hx _ IH]; simpl.
  - apply yields_ret. constructor.
  - eapply yields_bind; [exact Hx|]. intros y Hy.
    eapply yields_bind; [exact IH|]. intros r Hr.
    apply yields_ret. simpl. apply Forall2_app; assumption.
Qed.

Lemma yields_mapM_opt_flat {A B C : Type} (R : C -> C -> Prop) (f : A -> M B)
      (g : A -> list C) (h : B -> list C) (o : option A) :
  opt_all (fun x => yields (fun y => Forall2 R (g x) (h y)) (f x)) o ->
  yields (fun o' => Forall2 R (match o with Some x => g x | None => [] end)
                              (match o' with Some y => h y | None => [] end))
         (mapM_opt f o).
Proof.
  destruct o as [x|]; simpl; intro H.
  - eapply yields_bind; [exact H|]. intros y Hy. apply yields_ret. exact Hy.
  - apply yields_ret. constructor.
Qed.

Lemma RecursivelyPlanAllSubqueries_Query_settles (q : Query) :
  yields (subselect_settled q) (RecursivelyPlanAllSubqueries_Query q).
Proof.
  intros s q' s'. unfold RecursivelyPlanAllSubqueries_Query, subselect_settled,
    planned_by_all_subqueries.
  destruct (FindNodeMatchingCheckFunctionInRangeTableList (rtable q) IsCitusTableRTE);
    cbn [andb]; [|intro E; injection E as <- _; reflexivity].
  intro E. apply bind_inv_Done in E. destruct E as (r & s1 & Hr & E).
  injection E as <- <-. rewrite RecursivelyPlanSubquery_cases in Hr.
  destruct (ContainsReferencesToOuterQuery q); cbn [negb];
    [injection Hr as <- _; reflexivity|].
  destruct (planner q (cursor_options q)) as [p|]; [|discriminate Hr]. cbv zeta in Hr.
  destruct (BuildSubPlanResultQuery_Done
              (targetList q) []
              (GenerateResultId (planId (context s))
                                (list_length (subPlanList (context s)) + 1))
              (append_subplan s p)) as (rq & Hrq & Ha).
  rewrite Hrq in Hr. injection Hr as <- _.
  exact (overwrite_result_read q rq _ _ Hrq).
Qed.

Lemma RecursivelyPlanAllSubqueries_settles (node : Node) :
  yields (fun node' => Forall2 subselect_settled (reached_subselects node)
                               (reached_subselects node'))
         (RecursivelyPlanAllSubqueries node).
Proof.
  induction node using tree_ind_Node
    with (PQ := fun _ => True) (PR := fun _ => True) (PT := fun _ => True)
         (PC := fun _ => True) (PF := fun _ => True);
    try exact I; simpl;
    try (apply yields_ret; constructor);
    try (eapply yields_bind;
         [apply (yields_mapM_flat subselect_settled _ reached_subselects
                                  reached_subselects); assumption|];
         intros a' Ha; apply yields_ret; exact Ha).
  - eapply yields_bind; [exact IHnode|]. intros e' He. apply yields_ret. exact He.
  - eapply yields_bind;
      [apply (yields_mapM_opt_flat subselect_settled _ reached_subselects
                                   reached_subselects); assumption|].
    intros t' Ht.
    eapply yields_bind; [apply RecursivelyPlanAllSubqueries_Query_settles|].
    intros q' Hq. apply yields_ret. simpl. apply Forall2_app; [exact Ht|].
    constructor; [exact Hq | constructor].
  - eapply yields_bind; [exact IHnode1|]. intros l' Hl.
    eapply yields_bind; [exact IHnode2|]. intros r' Hr.
    eapply yields_bind;
      [apply (yields_mapM_opt_flat subselect_settled _ reached_subselects
                                   reached_subselects); assumption|].
    intros qs' Hqs. apply yields_ret. simpl.
    apply Forall2_app; [exact Hl|]. apply Forall2_app; [exact Hr | exact Hqs].
  - eapply yields_bind;
      [apply (yields_mapM_flat subselect_settled _ reached_subselects
                               reached_subselects); assumption|].
    intros fl' Hfl.
    eapply yields_bind;
      [apply (yields_mapM_opt_flat subselect_settled _ reached_subselects
                                   reached_subselects); assumption|].
    intros qs' Hqs. apply yields_ret. simpl. apply Forall2_app; assumption.
  - eapply yields_bind; [exact IHnode1|]. intros l' Hl.
    eapply yields_bind; [exact IHnode2|]. intros r' Hr.
    apply yields_ret. simpl. apply Forall2_app; assumption.
Qed.

Lemma result_read_has_no_table (check : RangeTblEntry -> bool)
      (tl : list TargetEntry) (q : Query) :
  (forall rte, check rte = true -> rtekind (rte_data rte) = RTE_RELATION) ->
  result_read_of tl q ->
  FindNodeMatchingCheckFunctionInRangeTableList (rtable q) check = false.
Proof.
  intros Hc (rid & s & E).
  destruct (result_query_fields _ _ _ _ _ _ E) as (a & al & f & Hq & b & F).
  replace (rtable q) with (rtable (set_q_addr q (brk s))) by (destruct q; reflexivity).
  rewrite Hq. simpl. unfold range_table_entry_walker. simpl.
  match goal with
  | |- context [check ?r] =>
      destruct (check r) eqn:K; [apply Hc in K; simpl in K; discriminate K|]
  end.
  destruct f as [fe n names tys mods colls]. simpl in F. subst fe. reflexivity.
Qed.

Lemma settled_subselects_have_no_table (before after : list Query) :
  Forall2 subselect_settled before after ->
  forall q', In q' after ->
             ContainsReferencesToOuterQuery q' = false ->
             FindNodeMatchingCheckFunctionInRangeTableList (rtable q') IsCitusTableRTE
             = false.
Proof.
  induction 1 as [|q q' t t' Hq _ IH]; intros x Hin Hx; [contradiction|].
  destruct Hin as [<-|Hin]; [|exact (IH x Hin Hx)].
  unfold subselect_settled, planned_by_all_subqueries in Hq.
  destruct (FindNodeMatchingCheckFunctionInRangeTableList (rtable q) IsCitusTableRTE)
    eqn:T; cbn [andb] in Hq.
  - destruct (ContainsReferencesToOuterQuery q) eqn:O; cbn [negb] in Hq.
    + subst q'. rewrite O in Hx. discriminate Hx.
    + destruct Hq as [_ R]. eapply result_read_has_no_table; [|exact R].
      intros rte K. unfold IsCitusTableRTE in K. apply andb_prop in K.
      apply RTEKind_eqb_eq. exact (proj1 K).
  - subst q'. exact T.
Qed.

Lemma quals_of_set_jointree_quals (query : Query) (quals : option Node) :
  (quals_of (jointree query) = None -> quals = None) ->
  quals_of (jointree (set_jointree_quals query quals)) = quals.
Proof.
  unfold set_jointree_quals. destruct query as [a c hr ctes rt jt tl rl hq so]. simpl.
  destruct jt as [[]|]; simpl; intro H; try (symmetry; apply H; reflexivity).
  reflexivity.
Qed.

Lemma rtable_set_jointree_quals (query : Query) (quals : option Node) :
  rtable (set_jointree_quals query quals) = rtable query /\
  targetList (set_jointree_quals query quals) = targetList query.
Proof.
  unfold set_jointree_quals. destruct query as [a c hr ctes rt jt tl rl hq so]. simpl.
  destruct jt as [[]|]; split; reflexivity.
Qed.

(** X16.  The sublink step of [RecursivelyPlanSubqueriesAndCTEs].  When the
    range table has a distributed table in or under it, the step does
    nothing.  When it has none, the step goes through the WHERE clause and
    the target list and plans every subquery it reaches there (without
    entering a subquery) that has a table of the extension in or under its
    range table and does not refer to an outer query: such a subquery is
    the same object afterwards and reads the result of a subplan, every
    other is as it was, and one subplan is appended for each one planned.
    So afterwards a subquery reached in the WHERE clause or the target list
    that does not refer to an outer query has no table of the extension in
    or under its range table. *)
Theorem sublinks_over_a_recurring_from_clause_are_planned
        (query query' : Query) (s s' : PlanState) :
  PlanSublinksStep query s = (Done query', s') ->
  (FindNodeMatchingCheckFunctionInRangeTableList (rtable query) IsDistributedTableRTE
   = true ->
   query' = query /\ s' = s) /\
  (FindNodeMatchingCheckFunctionInRangeTableList (rtable query) IsDistributedTableRTE
   = false ->
   rtable query' = rtable query /\
   Forall2 subselect_settled
           (reached_in_quals (quals_of (jointree query)))
           (reached_in_quals (quals_of (jointree query'))) /\
   Forall2 subselect_settled
           (reached_in_targetList (targetList query))
           (reached_in_targetList (targetList query')) /\
   subplan_count s'
   = (subplan_count s
      + List.length (filter planned_by_all_subqueries
                            (reached_in_quals (quals_of (jointree query))
                             ++ reached_in_targetList (targetList query))))%nat /\
   forall q',
     In q' (reached_in_quals (quals_of (jointree query'))
            ++ reached_in_targetList (targetList query')) ->
     ContainsReferencesToOuterQuery q' = false ->
     FindNodeMatchingCheckFunctionInRangeTableList (rtable q') IsCitusTableRTE = false).
Proof.
  unfold PlanSublinksStep, ShouldRecursivelyPlanSublinks. intro E.
  destruct (FindNodeMatchingCheckFunctionInRangeTableList (rtable query)
                                                          IsDistributedTableRTE).
  { injection E as <- <-. split; [intros _; split; reflexivity|].
    intro H. discriminate H. }
  split; [intro H; discriminate H|]. intros _.
  apply bind_inv_Done in E. destruct E as (quals' & s1 & Hquals & E).
  apply bind_inv_Done in E. destruct E as (tl' & s2 & Htl & E).
  injection E as <- <-.
  destruct (rtable_set_jointree_quals query quals') as [Rt Tl]. rewrite Tl in Htl.
  assert (Q : Forall2 subselect_settled
                      (reached_in_quals (quals_of (jointree query)))
                      (reached_in_quals quals')).
  { revert Hquals.
    apply (yields_mapM_opt_flat subselect_settled _ reached_subselects
                                reached_subselects).
    destruct (quals_of (jointree query)); simpl; [|exact I].
    apply RecursivelyPlanAllSubqueries_settles. }
  assert (T : Forall2 subselect_settled (reached_in_targetList (targetList query))
                      (reached_in_targetList tl')).
  { revert Htl.
    apply (yields_mapM_flat subselect_settled _
             (fun te => reached_subselects (te_expr te))
             (fun te => reached_subselects (te_expr te))).
    apply Forall_forall. intros [e no name junk] _. simpl.
    eapply yields_bind; [apply RecursivelyPlanAllSubqueries_settles|].
    intros e' He. apply yields_ret. exact He. }
  assert (Qs : quals_of (jointree (set_targetList (set_jointree_quals query quals') tl'))
               = quals').
  { replace (jointree (set_targetList (set_jointree_quals query quals') tl'))
      with (jointree (set_jointree_quals query quals'))
      by (destruct (set_jointree_quals query quals'); reflexivity).
    apply quals_of_set_jointree_quals. intro N. rewrite N in Hquals.
    injection Hquals as <- _. reflexivity. }
  assert (Ts : targetList (set_targetList (set_jointree_quals query quals') tl') = tl')
    by (destruct (set_jointree_quals query quals'); reflexivity).
  assert (Rs : rtable (set_targetList (set_jointree_quals query quals') tl')
               = rtable query)
    by (rewrite <- Rt; destruct (set_jointree_quals query quals'); reflexivity).
  rewrite Qs, Ts, Rs. split; [reflexivity|]. split; [exact Q|]. split; [exact T|]. split.
  - assert (C1 : subplan_count s1
                 = (subplan_count s
                    + List.length (filter planned_by_all_subqueries
                                          (reached_in_quals (quals_of (jointree query)))))%nat).
    { destruct (quals_of (jointree query)) as [e|]; simpl in Hquals.
      - apply bind_inv_Done in Hquals. destruct Hquals as (e' & s0 & He & Hq).
        injection Hq as _ <-.
        exact (RecursivelyPlanAllSubqueries_appends _ _ _ _ He).
      - injection Hquals as _ <-. simpl. lia. }
    assert (C2 : subplan_count s2
                 = (subplan_count s1
                    + list_sum (map (fun te => count_planned (te_expr te))
                                    (targetList query)))%nat).
    { eapply mapM_appends; [|exact Htl]. apply Forall_forall.
      intros [e no name junk] _ st te' st' Hte. simpl in Hte.
      apply bind_inv_Done in Hte. destruct Hte as (e' & st1 & He & Hr).
      injection Hr as _ <-. exact (RecursivelyPlanAllSubqueries_appends _ _ _ _ He). }
    rewrite C2, C1, filter_app, length_app. unfold reached_in_targetList.
    rewrite filter_flat_map_length. unfold count_planned. lia.
  - intros q' Hin. apply in_app_or in Hin. destruct Hin as [Hin|Hin].
    + eapply settled_subselects_have_no_table; [exact Q | exact Hin].
    + eapply settled_subselects_have_no_table; [exact T | exact Hin].
Qed.

(* ------------------------------------------------------------------ *)
(** ** A relation turned into a subquery *)

Lemma set_jointree_quals_targetList (query : Query) (quals : option Node) :
  targetList (set_jointree_quals query quals) = targetList query.
Proof. apply rtable_set_jointree_quals. Qed.

(** X17.  [ReplaceRTERelationWithRteSubquery] turns a relation entry into
    two subqueries, one inside the other.  The entry keeps its place and
    its fields, but is now a subquery entry, not inherited and without
    permission info.  Its subquery, the outer one, selects the target list
    that [CreateAllTargetListForRelation] gives for all the columns of the
    relation from one entry; that entry is a subquery entry as well, its
    column names are the names of the target entries that are Vars, and its
    subquery, the inner one, reads the result of the one subplan that is
    appended, with the columns of the query that
    [WrapRteRelationIntoSubquery] builds.  The subplan is planned from a
    query with the target list and the range table of that query. *)
Theorem relation_becomes_outer_subquery_over_planned_inner_subquery
        (rte rte' : RangeTblEntry) (requiredAttrNumbers : list Z) (s s' : PlanState) :
  ReplaceRTERelationWithRteSubquery rte requiredAttrNumbers s = (Done rte', s') ->
  let wrapped := WrapRteRelationIntoSubquery (brk s) rte requiredAttrNumbers in
  let outerTargetList :=
    CreateAllTargetListForRelation (relid (rte_data rte)) requiredAttrNumbers in
  exists outer innerEntry inner planned plannedStmt,
    rte' = mkRTE (set_inh (set_perminfoindex
                             (set_rtekind (rte_data rte) RTE_SUBQUERY) 0) false)
                 (Some outer) (functions rte) /\
    commandType outer = CMD_SELECT /\
    cteList outer = [] /\
    targetList outer = outerTargetList /\
    jointree outer = Some (T_FromExpr [T_RangeTblRef 1] None) /\
    rtable outer = [innerEntry] /\
    rtekind (rte_data innerEntry) = RTE_SUBQUERY /\
    (forall names,
       eref (rte_data rte) = Some names ->
       eref (rte_data innerEntry)
       = Some (mkAlias (aliasname names)
                       (GenerateRequiredColNamesFromTargetList outerTargetList))) /\
    subquery innerEntry = Some inner /\
    result_read_of (targetList wrapped) inner /\
    targetList planned = targetList wrapped /\
    rtable planned = rtable wrapped /\
    planner planned (cursor_options planned) = Some plannedStmt /\
    subPlanList (context s')
    = subPlanList (context s)
      ++ [mkDistributedSubPlan (uint32 (list_length (subPlanList (context s)) + 1))
                               plannedStmt].
Proof.
  intros E wrapped outerTargetList. unfold ReplaceRTERelationWithRteSubquery in E.
  apply bind_inv_Done in E. destruct E as (ctx & s0 & Hget & E).
  unfold get_context in Hget. injection Hget as <- <-.
  apply bind_inv_Done in E. destruct E as (a & s1 & Ha & E).
  unfold makeNode_Query in Ha. injection Ha as <- <-.
  apply bind_inv_Done in E. destruct E as (copies & s2 & Hc & E).
  pose proof (context_kept_by_copies _ _ _ _ Hc) as Kc.
  apply bind_inv_Done in E. destruct E as ([done q1] & s3 & Hp & E).
  cbn [fst snd] in E. destruct done; simpl negb in E; cbv iota in E;
    [|unfold ereport_ERROR in E; discriminate E].
  apply bind_inv_Done in E. destruct E as (outer & s4 & Ho & E).
  pose proof (context_kept_by_CreateOuterSubquery _ _ _ _ _ Ho) as Ko.
  injection E as <- <-.
  match type of Hp with
  | RecursivelyPlanSubquery ?sub _ = _ =>
      set (planned := sub) in *;
      destruct (RecursivelyPlanSubquery_outcomes planned s2)
        as [(_ & R) | [(_ & _ & R) | (_ & p & rq & Hplan & Hrq & R & L & _)]]
  end; rewrite R in Hp; try discriminate Hp.
  injection Hp as <- <-.
  pose proof (copyObject_result_query _ _ _ _ _ _ Hrq) as Copy.
  unfold CreateOuterSubquery in Ho.
  apply bind_inv_Done in Ho. destruct Ho as (oa & s5 & _ & Ho).
  apply bind_inv_Done in Ho. destruct Ho as (inner & s6 & Hinner & Ho).
  apply bind_inv_Done in Ho. destruct Ho as (u & s7 & _ & Ho).
  injection Ho as <- _.
  simpl in Hinner.
  apply bind_inv_Done in Hinner. destruct Hinner as (sub' & s8 & Hsub & Hinner).
  apply bind_inv_Done in Hinner. destruct Hinner as (funcs' & s9 & _ & Hinner).
  injection Hinner as <- _.
  apply bind_inv_Done in Hsub. destruct Hsub as (qc & s10 & Hqc & Hsub).
  injection Hsub as <- _.
  unfold overwrite_Query in Hqc. rewrite copyObject_Query_any_address, Copy in Hqc.
  injection Hqc as <- _.
  assert (T : targetList planned = targetList wrapped)
    by (unfold planned; apply set_jointree_quals_targetList).
  assert (Rt : rtable planned = rtable wrapped)
    by (unfold planned; apply rtable_set_jointree_quals).
  eexists. eexists. exists (set_q_addr rq (brk s5)), planned, p.
  split; [simpl; reflexivity|]. cbn [commandType cteList targetList jointree rtable].
  split; [reflexivity|]. split; [reflexivity|]. split; [reflexivity|].
  split; [reflexivity|]. split; [reflexivity|]. split.
  { cbn [set_rte_data rte_data]. unfold set_eref_colnames.
    destruct (eref _); reflexivity. }
  split.
  { intros names Hn. cbn [set_rte_data rte_data]. unfold set_eref_colnames.
    replace (eref (set_inh (set_perminfoindex
                              (set_rtekind (rte_data rte) RTE_SUBQUERY) 0) false))
      with (eref (rte_data rte)) by (destruct (rte_data rte); reflexivity).
    rewrite Hn. destruct (rte_data rte); reflexivity. }
  split; [reflexivity|]. split.
  { rewrite <- T. exists (GenerateResultId (planId (context s2))
                                           (list_length (subPlanList (context s2)) + 1)),
      (append_subplan s2 p).
    rewrite Hrq. f_equal. f_equal.
    destruct (BuildSubPlanResultQuery_Done
                (targetList planned) []
                (GenerateResultId (planId (context s2))
                                  (list_length (subPlanList (context s2)) + 1))
                (append_subplan s2 p)) as (rq0 & Hrq0 & Ha0).
    rewrite Hrq0 in Hrq. injection Hrq as ->. rewrite <- Ha0.
    destruct rq; reflexivity. }
  split; [exact T|]. split; [exact Rt|]. split; [exact Hplan|].
  rewrite Ko, L, Kc. reflexivity.
Qed.

(* ------------------------------------------------------------------ *)
(** ** Sublinks of the WHERE clause that are not colocated *)

Section RewriteSublinks.

Variable onSubselect : Query -> M Query.
Variable settled : Query -> Query -> Prop.
Variable made : Query -> nat.

Hypothesis onSubselect_settles : forall q, yields (settled q) (onSubselect q).
Hypothesis onSubselect_appends :
  forall q s q' s', onSubselect q s = (Done q', s') ->
                    subplan_count s' = (subplan_count s + made q)%nat.

Lemma rewrite_sublinks_settles (node : Node) :
  yields (fun node' => Forall2 settled (ExtractSublinkWalker node)
                               (ExtractSublinkWalker node'))
         (rewrite_sublinks onSubselect node).
Proof.
  induction node using tree_ind_Node
    with (PQ := fun _ => True) (PR := fun _ => True) (PT := fun _ => True)
         (PC := fun _ => True) (PF := fun _ => True);
    try exact I; simpl;
    try (apply yields_ret; constructor);
    try (eapply yields_bind;
         [apply (yields_mapM_flat settled _ ExtractSublinkWalker ExtractSublinkWalker);
          assumption|];
         intros a' Ha; apply yields_ret; exact Ha).
  - eapply yields_bind; [exact IHnode|]. intros e' He. apply yields_ret. exact He.
  - eapply yields_bind; [apply onSubselect_settles|]. intros q' Hq.
    apply yields_ret. simpl. constructor; [exact Hq | constructor].
  - eapply yields_bind; [exact IHnode1|]. intros l' Hl.
    eapply yields_bind; [exact IHnode2|]. intros r' Hr.
    eapply yields_bind;
      [apply (yields_mapM_opt_flat settled _ ExtractSublinkWalker ExtractSublinkWalker);
       assumption|].
    intros qs' Hqs. apply yields_ret. simpl.
    apply Forall2_app; [exact Hl|]. apply Forall2_app; [exact Hr | exact Hqs].
  - eapply yields_bind;
      [apply (yields_mapM_flat settled _ ExtractSublinkWalker ExtractSublinkWalker);
       assumption|].
    intros fl' Hfl.
    eapply yields_bind;
      [apply (yields_mapM_opt_flat settled _ ExtractSublinkWalker ExtractSublinkWalker);
       assumption|].
    intros qs' Hqs. apply yields_ret. simpl. apply Forall2_app; assumption.
  - eapply yields_bind; [exact IHnode1|]. intros l' Hl.
    eapply yields_bind; [exact IHnode2|]. intros r' Hr.
    apply yields_ret. simpl. apply Forall2_app; assumption.
Qed.

Lemma list_sum_flat_map {X Y : Type} (g : Y -> nat) (h : X -> list Y) (l : list X) :
  list_sum (map g (flat_map h l)) = list_sum (map (fun x => list_sum (map g (h x))) l).
Proof.
  induction l as [|x t IH]; simpl; [reflexivity|].
  rewrite map_app, list_sum_app, IH. reflexivity.
Qed.

Lemma rewrite_sublinks_appends (node : Node) :
  forall s node' s',
    rewrite_sublinks onSubselect node s = (Done node', s') ->
    subplan_count s'
    = (subplan_count s + list_sum (map made (ExtractSublinkWalker node)))%nat.
Proof.
  induction node using tree_ind_Node
    with (PQ := fun _ => True) (PR := fun _ => True) (PT := fun _ => True)
         (PC := fun _ => True) (PF := fun _ => True);
    try exact I; intros s node' s' E; simpl in E.
  - inversion E; subst. simpl. lia.
  - inversion E; subst. simpl. lia.
  - apply bind_inv_Done in E. destruct E as (a & s1 & Ha & E). inversion E; subst.
    simpl. rewrite list_sum_flat_map. eapply mapM_appends; eassumption.
  - apply bind_inv_Done in E. destruct E as (a & s1 & Ha & E). inversion E; subst.
    simpl. rewrite list_sum_flat_map. eapply mapM_appends; eassumption.
  - apply bind_inv_Done in E. destruct E as (a & s1 & Ha & E). inversion E; subst.
    simpl. eapply IHnode. exact Ha.
  - apply bind_inv_Done in E. destruct E as (a & s1 & Ha & E). inversion E; subst.
    simpl. rewrite list_sum_flat_map. eapply mapM_appends; eassumption.
  - apply bind_inv_Done in E. destruct E as (a & s1 & Ha & E). inversion E; subst.
    simpl. rewrite list_sum_flat_map. eapply mapM_appends; eassumption.
  - apply bind_inv_Done in E. destruct E as (q' & s2 & Hq & E). inversion E; subst.
    simpl. rewrite (onSubselect_appends _ _ _ _ Hq). lia.
  - inversion E; subst. simpl. lia.
  - apply bind_inv_Done in E. destruct E as (l' & s1 & Hl & E).
    apply bind_inv_Done in E. destruct E as (r' & s2 & Hr & E).
    apply bind_inv_Done in E. destruct E as (qs' & s3 & Hqs & E). inversion E; subst.
    simpl. rewrite !map_app, !list_sum_app.
    rewrite (mapM_opt_appends _ _ _ H _ _ _ Hqs), (IHnode2 _ _ _ Hr), (IHnode1 _ _ _ Hl).
    destruct qs; simpl; lia.
  - apply bind_inv_Done in E. destruct E as (fl' & s1 & Hfl & E).
    apply bind_inv_Done in E. destruct E as (qs' & s2 & Hqs & E). inversion E; subst.
    simpl. rewrite map_app, list_sum_app, list_sum_flat_map.
    rewrite (mapM_opt_appends _ _ _ H0 _ _ _ Hqs), (mapM_appends _ _ _ H _ _ _ Hfl).
    destruct qs; simpl; lia.
  - apply bind_inv_Done in E. destruct E as (l' & s1 & Hl & E).
    apply bind_inv_Done in E. destruct E as (r' & s2 & Hr & E). inversion E; subst.
    simpl. rewrite map_app, list_sum_app.
    rewrite (IHnode2 _ _ _ Hr), (IHnode1 _ _ _ Hl). lia.
Qed.

End RewriteSublinks.

Lemma list_sum_indicator {X : Type} (p : X -> bool) (l : list X) :
  list_sum (map (fun x => if p x then 1%nat else 0%nat) l) = List.length (filter p l).
Proof.
  induction l as [|x t IH]; simpl; [reflexivity|]. rewrite IH.
  destruct (p x); reflexivity.
Qed.

Lemma PlanIfNotColocated_settles (checker : ColocatedJoinChecker) (q : Query) :
  yields (sublink_settled checker q) (PlanIfNotColocated checker q).
Proof.
  intros s q' s'. unfold PlanIfNotColocated, sublink_settled, planned_in_where.
  destruct (SubqueryColocated q checker); cbn [negb andb];
    [intro E; injection E as <- _; reflexivity|].
  intro E. apply bind_inv_Done in E. destruct E as (r & s1 & Hr & E).
  injection E as <- <-. rewrite RecursivelyPlanSubquery_cases in Hr.
  destruct (ContainsReferencesToOuterQuery q); cbn [negb];
    [injection Hr as <- _; reflexivity|].
  destruct (planner q (cursor_options q)) as [p|]; [|discriminate Hr]. cbv zeta in Hr.
  destruct (BuildSubPlanResultQuery_Done
              (targetList q) []
              (GenerateResultId (planId (context s))
                                (list_length (subPlanList (context s)) + 1))
              (append_subplan s p)) as (rq & Hrq & Ha).
  rewrite Hrq in Hr. injection Hr as <- _.
  exact (overwrite_result_read q rq _ _ Hrq).
Qed.

Lemma PlanIfNotColocated_appends (checker : ColocatedJoinChecker) (q q' : Query)
      (s s' : PlanState) :
  PlanIfNotColocated checker q s = (Done q', s') ->
  subplan_count s'
  = (subplan_count s + if planned_in_where checker q then 1 else 0)%nat.
Proof.
  unfold PlanIfNotColocated, planned_in_where.
  destruct (SubqueryColocated q checker); cbn [negb andb];
    [intro E; injection E as _ <-; lia|].
  intro E. apply bind_inv_Done in E. destruct E as (r & s1 & Hr & E).
  injection E as _ <-.
  destruct (RecursivelyPlanSubquery_outcomes q s)
    as [(O & R) | [(O & _ & R) | (O & p & rq & _ & _ & R & L & _)]];
    rewrite R in Hr; try discriminate Hr; rewrite O; simpl.
  - injection Hr as _ <-. lia.
  - injection Hr as _ <-. unfold subplan_count. rewrite L, length_app. reflexivity.
Qed.

(** X18.  [RecursivelyPlanNonColocatedSubqueriesInWhere] goes through the
    sublinks of the WHERE clause that [SublinkListFromWhere] finds, those
    that do not lie inside another sublink, in their order.  A subquery of
    such a sublink that is not colocated with the anchor and does not refer
    to an outer query is the same object afterwards and reads the result of
    a subplan, and one subplan is appended for it; every other is as it
    was.  The range table and the target list are not touched. *)
Theorem non_colocated_sublinks_of_where_are_planned
        (query query' : Query) (colocatedJoinChecker : ColocatedJoinChecker)
        (s s' : PlanState) :
  RecursivelyPlanNonColocatedSubqueriesInWhere query colocatedJoinChecker s
  = (Done query', s') ->
  rtable query' = rtable query /\
  targetList query' = targetList query /\
  Forall2 (sublink_settled colocatedJoinChecker)
          (SublinkListFromWhere query) (SublinkListFromWhere query') /\
  subplan_count s'
  = (subplan_count s
     + List.length (filter (planned_in_where colocatedJoinChecker)
                           (SublinkListFromWhere query)))%nat.
Proof.
  unfold RecursivelyPlanNonColocatedSubqueriesInWhere, SublinkListFromWhere. intro E.
  apply bind_inv_Done in E. destruct E as (quals' & s1 & Hquals & E).
  injection E as <- <-.
  destruct (rtable_set_jointree_quals query quals') as [Rt Tl].
  split; [exact Rt|]. split; [exact Tl|].
  rewrite quals_of_set_jointree_quals
    by (intro N; rewrite N in Hquals; injection Hquals as <- _; reflexivity).
  destruct (quals_of (jointree query)) as [e|]; simpl in Hquals.
  - apply bind_inv_Done in Hquals. destruct Hquals as (e' & s0 & He & Hq).
    injection Hq as <- <-. split.
    + eapply (rewrite_sublinks_settles _ (sublink_settled colocatedJoinChecker));
        [|exact He].
      intro q. apply PlanIfNotColocated_settles.
    + rewrite <- list_sum_indicator.
      eapply (rewrite_sublinks_appends
                _ (fun q => if planned_in_where colocatedJoinChecker q then 1%nat
                            else 0%nat));
        [|exact He].
      intros q st q' st'. apply PlanIfNotColocated_appends.
  - injection Hquals as <- <-. split; [constructor | simpl; lia].
Qed.

(* ------------------------------------------------------------------ *)
(** ** Every reference to a planned CTE *)

Lemma set_q_addr_own (q : Query) : set_q_addr q (q_addr q) = q.
Proof. destruct q. reflexivity. Qed.

Lemma set_q_addr_twice (q : Query) (a b : addr) :
  set_q_addr (set_q_addr q a) b = set_q_addr q b.
Proof. destruct q. reflexivity. Qed.

Lemma ReplaceCteReferences_each (cteName : string) (resultQuery : Query)
      (cells : list RangeTblEntry) :
  (forall s, copyObject_Query resultQuery s
             = (Done (set_q_addr resultQuery (brk s)), alloc_state s)) ->
  forall count,
    yields (fun r =>
              Forall2 (fun rte rte' =>
                         if refers_to cteName rte
                         then exists a,
                                rte' = mkRTE (reads_result_data (rte_data rte))
                                             (Some (set_q_addr resultQuery a))
                                             (functions rte)
                         else rte' = rte)
                      cells (fst r))
           (ReplaceCteReferences cteName resultQuery cells count).
Proof.
  intro Copy. induction cells as [|rte rest IH]; intro count; simpl.
  - apply yields_ret. constructor.
  - eapply yields_bind with
      (Q := fun r => if refers_to cteName rte
                     then exists a,
                            fst r = mkRTE (reads_result_data (rte_data rte))
                                          (Some (set_q_addr resultQuery a))
                                          (functions rte)
                     else fst r = rte).
    + unfold ReplaceCteReference, refers_to.
      destruct (RTEKind_eqb (rtekind (rte_data rte)) RTE_CTE); cbn [negb andb];
        [|apply yields_ret; reflexivity].
      destruct (names_cte cteName rte); [|apply yields_ret; reflexivity].
      eapply yields_bind with (Q := fun q => exists a, q = set_q_addr resultQuery a).
      * destruct (count =? 0).
        -- apply yields_ret. exists (q_addr resultQuery). symmetry. apply set_q_addr_own.
        -- intros s q s' E. rewrite Copy in E. injection E as <- _. eexists. reflexivity.
      * intros q (a & ->). apply yields_ret. exists a. reflexivity.
    + intros r Hr. eapply yields_bind; [apply IH|]. intros rs Hrs.
      apply yields_ret. simpl. constructor; assumption.
Qed.

Lemma Forall2_compose {X : Type} (P Q R : X -> X -> Prop) (l1 l2 l3 : list X) :
  (forall x y z, P x y -> Q y z -> R x z) ->
  Forall2 P l1 l2 -> Forall2 Q l2 l3 -> Forall2 R l1 l3.
Proof.
  intros H F. revert l3. induction F as [|x y t1 t2 Hxy _ IH]; intros l3 G.
  - inversion G. constructor.
  - inversion G; subst. constructor; [eapply H; eassumption | apply IH; assumption].
Qed.

Lemma PlanCTE_settles (done : list CommonTableExpr) (cte : CommonTableExpr)
      (references cells cells' : list RangeTblEntry) (s s' : PlanState) :
  Forall2 (reference_settled done) references cells ->
  PlanCTE cte cells s = (Done (inr cells'), s') ->
  Forall2 (reference_settled
             (done ++ if is_unreferenced_select cte then [] else [cte]))
          references cells'.
Proof.
  intros F E. destruct (is_unreferenced_select cte) eqn:U.
  - rewrite (PlanCTE_skipped _ _ _ U) in E.
    destruct (ContainsReferencesToOuterQuery (cte_query cte)); [discriminate E|].
    injection E as <- _. rewrite app_nil_r. exact F.
  - destruct (PlanCTE_planned _ _ _ _ _ U E) as (p & rq & _ & _ & Hrq & Hrep).
    pose proof (copyObject_result_query _ _ _ _ _ _ Hrq) as Copy.
    pose proof (ReplaceCteReferences_each (cte_name cte) rq cells Copy 0 _ _ _ Hrep)
      as Each.
    cbn [fst] in Each. eapply Forall2_compose; [|exact F | exact Each].
    intros r c c' Hc Hc'. unfold reference_settled in *. rewrite existsb_app.
    destruct (existsb (fun cte0 => refers_to (cte_name cte0) r) done); cbn [orb].
    + destruct Hc as (sub & -> & Hsub). unfold refers_to in Hc'.
      replace (RTEKind_eqb (rtekind (rte_data (mkRTE (reads_result_data (rte_data r))
                                                     (Some sub) (functions r))))
                           RTE_CTE) with false in Hc'
        by (destruct (rte_data r); reflexivity).
      cbn [andb] in Hc'. subst c'. exists sub. split; [reflexivity | exact Hsub].
    + subst c. cbn [existsb]. rewrite orb_false_r.
      destruct (refers_to (cte_name cte) r); [|exact Hc'].
      destruct Hc' as (a & ->). eexists. split; [reflexivity|].
      do 6 eexists. split; [exact Hrq|]. rewrite set_q_addr_twice. apply set_q_addr_own.
Qed.

Lemma PlanCTEsFrom_settles (query : Query) (references : list RangeTblEntry) :
  forall remaining index cells result s s',
    PlanCTEsFrom query index remaining cells s = (Done result, s') ->
    (index + remaining = List.length (cteList query))%nat ->
    Forall2 (reference_settled
               (filter (fun cte => negb (is_unreferenced_select cte))
                       (firstn index (cteList query))))
            references cells ->
    fst result = None ->
    Forall2 (reference_settled
               (filter (fun cte => negb (is_unreferenced_select cte)) (cteList query)))
            references (snd result).
Proof.
  induction remaining as [|remaining IH]; intros index cells result s s' E L F N.
  - simpl in E. injection E as <- _. cbn [snd].
    rewrite firstn_all2 in F by lia. exact F.
  - simpl in E.
    pose proof (store_keeps_cte_headers query cells) as H.
    destruct (nth_error (cteList (store_cte_references query cells)) index)
      as [cte'|] eqn:Hn.
    2:{ apply nth_error_None in Hn. apply Forall2_length in H. lia. }
    destruct (Forall2_nth_error_right _ _ _ H _ _ Hn) as (cte & Hcte & Hname & Hr & Hc).
    apply bind_inv_Done in E. destruct E as (step & s1 & Hstep & E).
    destruct step as [error|cells1]; [injection E as <- _; discriminate N|].
    apply (PlanCTE_settles _ _ references _ _ _ _ F) in Hstep.
    apply (IH (S index) cells1 result s1 s' E); [lia | | exact N].
    replace (firstn (S index) (cteList query))
      with (firstn index (cteList query) ++ [cte]).
    + rewrite filter_app. cbn [filter].
      rewrite (is_unreferenced_select_header _ _ Hr Hc) in Hstep.
      destruct (is_unreferenced_select cte); cbn [negb].
      * exact Hstep.
      * eapply Forall2_impl; [|exact Hstep]. intros r r'. unfold reference_settled.
        rewrite !existsb_app. cbn [existsb]. rewrite Hname. auto.
    + clear - Hcte. revert index Hcte.
      induction (cteList query) as [|c t IHl]; intros [|i] Hi; simpl in *;
        try discriminate Hi.
      * injection Hi as ->. reflexivity.
      * rewrite IHl by exact Hi. reflexivity.
Qed.

(** X19.  When [RecursivelyPlanCTEs] returns without an error, the query
    is the one it was given with the references to its CTEs written back
    and the CTE list cleared, and of those references, in the order in
    which [CteReferenceListWalker] finds them, every one that named a CTE
    for which a subplan was made is now a subquery entry, without a CTE
    name, whose subquery reads the result of a subplan; every other
    reference is as it was.  So no entry is left that refers to a CTE that
    was planned and removed. *)
Theorem every_reference_to_a_planned_cte_reads_a_result
        (query query' : Query) (s s' : PlanState) :
  cteList query <> [] ->
  RecursivelyPlanCTEs query s = (Done (None, query'), s') ->
  exists references',
    query' = set_cteList (store_cte_references query references') [] /\
    Forall2 (reference_settled (planned_ctes query))
            (CteReferenceListWalker query) references' /\
    forall rte cte,
      In rte references' -> In cte (planned_ctes query) ->
      refers_to (cte_name cte) rte = false.
Proof.
  intros Hctes E. unfold RecursivelyPlanCTEs in E.
  destruct (cteList query) as [|c0 ctes] eqn:L; [contradiction Hctes; reflexivity|].
  destruct (hasRecursive query); [discriminate E|].
  apply bind_inv_Done in E. destruct E as ([error cells] & s1 & Hloop & E).
  cbn [fst snd] in E. destruct error; [discriminate E|]. injection E as <- <-.
  assert (F : Forall2 (reference_settled (planned_ctes query))
                      (CteReferenceListWalker query) cells).
  { unfold planned_ctes.
    apply (PlanCTEsFrom_settles query (CteReferenceListWalker query)
             _ _ _ _ _ _ Hloop); [rewrite L; reflexivity | | reflexivity].
    simpl. clear. induction (CteReferenceListWalker query); constructor; auto.
    reflexivity. }
  exists cells. split; [reflexivity|]. split; [exact F|].
  intros rte cte Hin Hcte. clear Hloop. revert rte Hin.
  induction F as [|r r' t t' Hr _ IH]; intros rte Hin; [contradiction|].
  destruct Hin as [<-|Hin]; [|exact (IH rte Hin)].
  unfold reference_settled in Hr.
  destruct (existsb (fun cte0 => refers_to (cte_name cte0) r) (planned_ctes query))
    eqn:X.
  - destruct Hr as (sub & -> & _). unfold refers_to.
    replace (RTEKind_eqb _ RTE_CTE) with false by (destruct (rte_data r); reflexivity).
    reflexivity.
  - subst r'. destruct (refers_to (cte_name cte) r) eqn:R; [|reflexivity].
    rewrite <- X. symmetry. apply existsb_exists. exists cte. split; assumption.
Qed.

(* ------------------------------------------------------------------ *)
(** ** Deferred errors *)

Lemma RecursivelyPlanHavingQual_error (havingQual : option Node)
      (error : DeferredErrorMessage) (having : option Node) (s s' : PlanState) :
  RecursivelyPlanHavingQual havingQual s = (Done (Some error, having), s') ->
  error = having_outer_reference_error /\ having = havingQual /\ s' = s /\
  exists qual, havingQual = Some qual /\
               NodeContainsSubqueryReferencingOuterQuery qual = true.
Proof.
  unfold RecursivelyPlanHavingQual. destruct havingQual as [qual|]; [|intro E; discriminate E].
  destruct (NodeContainsSubqueryReferencingOuterQuery qual) eqn:N.
  - intro E. injection E as <- <- <-. repeat split. exists qual. split; [reflexivity|exact N].
  - intro E. apply bind_inv_Done in E. destruct E as (q' & s1 & _ & E). discriminate E.
Qed.

(** X20.  The deferred errors of the descent.  An error that
    [RecursivelyPlanSubqueriesAndCTEs] returns is about the query it was
    given: it is the error that [RecursivelyPlanCTEs] returned for the CTEs
    of this query, a recursive CTE or a CTE that refers to an outer query,
    or it is the error for a HAVING clause of this query with a subquery
    that refers to an outer query, and then the subquery pushdown setting
    is off and the query returned has that HAVING clause.  An error that
    the descent returns for a nested query is not returned any further:
    [RecursivelyPlanSubqueryWalker] raises it, with the same message. *)
Theorem deferred_errors_are_returned_for_the_query_and_raised_for_nested_ones :
  (forall (fuel : nat) (query query' : Query) (error : DeferredErrorMessage)
          (s s' : PlanState),
     RecursivelyPlanSubqueriesAndCTEs fuel query s = (Done (Some error, query'), s') ->
     (RecursivelyPlanCTEs query s = (Done (Some error, query'), s') /\
      (error = recursive_cte_error \/ error = cte_outer_reference_error))
     \/
     (error = having_outer_reference_error /\
      SubqueryPushdown = false /\
      exists qual, havingQual query' = Some qual /\
                   NodeContainsSubqueryReferencingOuterQuery qual = true)) /\
  (forall (planNested : Query -> M (option DeferredErrorMessage * Query))
          (query nested : Query) (error : DeferredErrorMessage) (s s' : PlanState),
     planNested query
                (mkPlanState (set_level (context s) (level (context s) + 1)) (brk s)
                             (recursivePlanningDepth s))
     = (Done (Some error, nested), s') ->
     RecursivelyPlanSubqueryWalker_Query planNested query s
     = (Raised (err_message error), s')).
Proof.
  split.
  - intros fuel query query' error s s' E.
    destruct fuel as [|fuel]; [discriminate E|]. simpl in E.
    unfold RecursivelyPlanSubqueriesAndCTEs_body in E.
    apply bind_inv_Done in E. destruct E as ([e0 q0] & s0 & Hctes & E).
    cbn [fst snd] in E. destruct e0 as [e0|].
    + injection E as <- <- <-. left. split; [exact Hctes|].
      unfold RecursivelyPlanCTEs in Hctes.
      destruct (cteList query) as [|c0 ctes] eqn:L; [discriminate Hctes|].
      destruct (hasRecursive query); [injection Hctes as <- _ _; left; reflexivity|].
      apply bind_inv_Done in Hctes. destruct Hctes as ([e cells] & s1 & Hloop & Hctes).
      apply PlanCTEsFrom_outcome in Hloop; [|rewrite L; reflexivity].
      cbn [fst snd] in *. destruct e as [e|]; [|discriminate Hctes].
      injection Hctes as <- _ _. right. exact Hloop.
    + destruct SubqueryPushdown eqn:Push; [discriminate E|].
      apply bind_inv_Done in E. destruct E as (q1 & s1 & _ & E).
      apply bind_inv_Done in E. destruct E as (q2 & s2 & _ & E).
      apply bind_inv_Done in E. destruct E as (q3 & s3 & _ & E).
      apply bind_inv_Done in E. destruct E as ([eh having] & s4 & Hhaving & E).
      cbn [fst snd] in E. destruct eh as [eh|].
      * injection E as <- <- <-. right.
        destruct (RecursivelyPlanHavingQual_error _ _ _ _ _ Hhaving)
          as (-> & _ & _ & qual & Hq & N).
        split; [reflexivity|]. split; [reflexivity|]. exists qual. split; assumption.
      * apply bind_inv_Done in E. destruct E as (q4 & s5 & _ & E).
        apply bind_inv_Done in E. destruct E as (q5 & s6 & _ & E).
        apply bind_inv_Done in E. destruct E as (q6 & s7 & _ & E).
        apply bind_inv_Done in E. destruct E as (q7 & s8 & _ & E).
        discriminate E.
  - intros planNested query nested error s s' E.
    unfold RecursivelyPlanSubqueryWalker_Query, bind at 1, get_context.
    unfold bind at 1, put_context. unfold bind at 1. rewrite E. reflexivity.
Qed.

(* ------------------------------------------------------------------ *)
(** ** HAVING, once more *)

Lemma RecursivelyPlanAllSubqueries_settles_sublinks (node : Node) :
  yields (fun node' => Forall2 subselect_settled (ExtractSublinkWalker node)
                               (ExtractSublinkWalker node'))
         (RecursivelyPlanAllSubqueries node).
Proof.
  induction node using tree_ind_Node
    with (PQ := fun _ => True) (PR := fun _ => True) (PT := fun _ => True)
         (PC := fun _ => True) (PF := fun _ => True);
    try exact I; simpl;
    try (apply yields_ret; constructor);
    try (eapply yields_bind;
         [apply (yields_mapM_flat subselect_settled _ ExtractSublinkWalker
                                  ExtractSublinkWalker); assumption|];
         intros a' Ha; apply yields_ret; exact Ha).
  - eapply yields_bind; [exact IHnode|]. intros e' He. apply yields_ret. exact He.
  - apply yields_then. intro t'.
    eapply yields_bind; [apply RecursivelyPlanAllSubqueries_Query_settles|].
    intros q' Hq. apply yields_ret. simpl. constructor; [exact Hq | constructor].
  - eapply yields_bind; [exact IHnode1|]. intros l' Hl.
    eapply yields_bind; [exact IHnode2|]. intros r' Hr.
    eapply yields_bind;
      [apply (yields_mapM_opt_flat subselect_settled _ ExtractSublinkWalker
                                   ExtractSublinkWalker); assumption|].
    intros qs' Hqs. apply yields_ret. simpl.
    apply Forall2_app; [exact Hl|]. apply Forall2_app; [exact Hr | exact Hqs].
  - eapply yields_bind;
      [apply (yields_mapM_flat subselect_settled _ ExtractSublinkWalker
                               ExtractSublinkWalker); assumption|].
    intros fl' Hfl.
    eapply yields_bind;
      [apply (yields_mapM_opt_flat subselect_settled _ ExtractSublinkWalker
                                   ExtractSublinkWalker); assumption|].
    intros qs' Hqs. apply yields_ret. simpl. apply Forall2_app; assumption.
  - eapply yields_bind; [exact IHnode1|]. intros l' Hl.
    eapply yields_bind; [exact IHnode2|]. intros r' Hr.
    apply yields_ret. simpl. apply Forall2_app; assumption.
Qed.

Lemma closed_subselects_settle_without_table (before after : list Query) :
  Forall2 subselect_settled before after ->
  (forall q, In q before -> ContainsReferencesToOuterQuery q = false) ->
  forall q', In q' after ->
             FindNodeMatchingCheckFunctionInRangeTableList (rtable q') IsCitusTableRTE
             = false.
Proof.
  induction 1 as [|q q' t t' Hq _ IH]; intros Closed x Hin; [contradiction|].
  destruct Hin as [<-|Hin];
    [|apply IH; [intros y Hy; apply Closed; right; exact Hy | exact Hin]].
  unfold subselect_settled, planned_by_all_subqueries in Hq.
  rewrite (Closed q (or_introl eq_refl)) in Hq. cbn [negb] in Hq.
  rewrite andb_true_r in Hq.
  destruct (FindNodeMatchingCheckFunctionInRangeTableList (rtable q) IsCitusTableRTE)
    eqn:T.
  - destruct Hq as [_ R]. eapply result_read_has_no_table; [|exact R].
    intros rte K. unfold IsCitusTableRTE in K. apply andb_prop in K.
    apply RTEKind_eqb_eq. exact (proj1 K).
  - subst q'. exact T.
Qed.

(** X21.  When the HAVING step returns without an error, no sublink of the
    HAVING clause that lies outside every other sublink has a subquery with
    a table of the extension in or under its range table any more: none of
    these subqueries refers to an outer query, those that had such a table
    are the same objects and read the result of a subplan, and the others
    are as they were. *)
Theorem having_sublinks_have_no_citus_table_left
        (qual : Node) (having : option Node) (s s' : PlanState) :
  RecursivelyPlanHavingQual (Some qual) s = (Done (None, having), s') ->
  exists qual',
    having = Some qual' /\
    Forall2 subselect_settled (ExtractSublinkWalker qual) (ExtractSublinkWalker qual') /\
    (forall q, In q (ExtractSublinkWalker qual) ->
               ContainsReferencesToOuterQuery q = false) /\
    forall q', In q' (ExtractSublinkWalker qual') ->
               FindNodeMatchingCheckFunctionInRangeTableList (rtable q') IsCitusTableRTE
               = false.
Proof.
  unfold RecursivelyPlanHavingQual, NodeContainsSubqueryReferencingOuterQuery.
  destruct (existsb ContainsReferencesToOuterQuery (ExtractSublinkWalker qual)) eqn:N;
    [intro E; discriminate E|].
  intro E. apply bind_inv_Done in E. destruct E as (qual' & s1 & Hq & E).
  injection E as <- <-. exists qual'. split; [reflexivity|].
  pose proof (RecursivelyPlanAllSubqueries_settles_sublinks _ _ _ _ Hq) as F.
  assert (Closed : forall q, In q (ExtractSublinkWalker qual) ->
                             ContainsReferencesToOuterQuery q = false).
  { intros q Hin. destruct (ContainsReferencesToOuterQuery q) eqn:O; [|reflexivity].
    rewrite <- N. symmetry. apply existsb_exists. exists q. split; assumption. }
  split; [exact F|]. split; [exact Closed|].
  exact (closed_subselects_settle_without_table _ _ F Closed).
Qed.

End FurtherProperties.

(* ================================================================== *)
(** * The properties on the sample inputs *)

#[local] Existing Instance sample_collaborators.

Ltac evaluated :=
  match goal with
  | |- ?l = _ => let r := eval vm_compute in l in change l with r
  end;
  reflexivity.

Lemma subplan_ids_count_up_witness :
  exists subPlans query' world',
    GenerateSubplansForSubqueriesAndCTEs 5 7 sample_union_of_distributed tt sample_world
    = (Done (subPlans, query'), world') /\
    Z.of_nat (List.length subPlans) < 2 ^ 32 /\
    map subPlanId subPlans = [1; 2] /\
    NoDup (map (fun subPlan => GenerateResultId 7 (subPlanId subPlan)) subPlans).
Proof.
  assert (E : exists l q w,
             GenerateSubplansForSubqueriesAndCTEs 5 7 sample_union_of_distributed tt
               sample_world = (Done (l, q), w) /\ List.length l = 2%nat).
  { do 3 eexists. split; [evaluated | reflexivity]. }
  destruct E as (l & q & w & E & Hlen). exists l, q, w.
  assert (B : Z.of_nat (List.length l) < 2 ^ 32) by (rewrite Hlen; reflexivity).
  destruct (proj1 (proj2 (proj2 (proj2 subplan_ids_count_up_and_result_ids_differ)))
              _ _ _ _ _ _ _ _ E B) as [Hids Hnd].
  split; [exact E|]. split; [exact B|]. split; [|exact Hnd].
  rewrite Hids, Hlen. reflexivity.
Defined.







Lemma function_rte_wrapped_witness :
  exists query' s' rte',
    WrapFunctionsInSubqueries sample_function_join sample_state = (Done query', s') /\
    should_wrap (rtable sample_function_join) sample_function_rte /\
    nth_error (rtable query') 1 = Some rte' /\
    wraps sample_function_rte rte'.
Proof.
  assert (E : exists q' s',
             WrapFunctionsInSubqueries sample_function_join sample_state
             = (Done q', s')).
  { do 2 eexists. evaluated. }
  destruct E as (q' & s' & E).
  destruct (function_rte_wrapped_iff_should_wrap _ _ _ _ E) as [_ H].
  destruct (H 1%nat sample_function_rte eq_refl) as (rte' & Hn & Hw & _).
  assert (W : should_wrap (rtable sample_function_join) sample_function_rte).
  { repeat split; simpl; lia. }
  exists q', s', rte'. split; [exact E|]. split; [exact W|]. split; [exact Hn|].
  exact (proj1 (Hw W)).
Defined.


Lemma descent_returns_with_context_restored_witness :
  exists result s',
    RecursivelyPlanSubqueriesAndCTEs 5 sample_union_of_distributed sample_state
    = (Done result, s') /\
    level (context s') = 0 /\
    planId (context s') = 7.
Proof.
  assert (E : exists result s',
             RecursivelyPlanSubqueriesAndCTEs 5 sample_union_of_distributed sample_state
             = (Done result, s')).
  { do 2 eexists. evaluated. }
  destruct E as (result & s' & E). exists result, s'.
  destruct (descent_returns_with_context_restored 5 sample_union_of_distributed
              sample_state s' result E) as (L & I & _ & _).
  split; [exact E|]. split; [exact L | exact I].
Defined.

Lemma replaced_subquery_is_self_contained_witness :
  exists replaced s',
    RecursivelyPlanSubquery (sample_select 1 200) sample_state
    = (Done (true, replaced), s') /\
    ContainsReferencesToOuterQuery replaced = false /\
    FindNodeMatchingCheckFunctionInQuery IsDistributedTableRTE replaced = false.
Proof.
  assert (E : exists replaced s',
             RecursivelyPlanSubquery (sample_select 1 200) sample_state
             = (Done (true, replaced), s')).
  { do 2 eexists. evaluated. }
  destruct E as (replaced & s' & E). exists replaced, s'.
  destruct (replaced_subquery_is_self_contained (sample_select 1 200) replaced
              sample_state s' E) as (O & _ & _ & _ & _ & F).
  split; [exact E|]. split; [exact O|]. apply F.
  intros rte K. unfold IsDistributedTableRTE. rewrite K. reflexivity.
Defined.

Lemma one_subplan_for_each_cte_witness :
  exists query' s',
    RecursivelyPlanCTEs sample_cte_query sample_state = (Done (None, query'), s') /\
    subplan_count s' = 1%nat /\
    cteList query' = [].
Proof.
  assert (E : exists query' s',
             RecursivelyPlanCTEs sample_cte_query sample_state
             = (Done (None, query'), s')).
  { do 2 eexists. evaluated. }
  destruct E as (query' & s' & E). exists query', s'.
  destruct (one_subplan_for_each_cte_that_is_planned sample_cte_query query' None
              sample_state s' E) as [C L].
  split; [exact E|]. split; [exact C | exact L].
Defined.

Lemma unreferenced_select_ctes_are_dropped_witness :
  RecursivelyPlanCTEs sample_unused_cte_query sample_state
  = (Done (None, set_cteList sample_unused_cte_query []), sample_state).
Proof.
  apply unreferenced_select_ctes_are_dropped; [reflexivity|].
  intros cte [<-|[]]. repeat split; reflexivity.
Defined.

Lemma set_operation_pass_settles_witness :
  exists query' s',
    RecursivelyPlanSetOperations sample_union_query sample_union sample_state
    = (Done query', s') /\
    RecursivelyPlanSetOperations query' sample_union s' = (Done query', s').
Proof.
  assert (E : exists query' s',
             RecursivelyPlanSetOperations sample_union_query sample_union sample_state
             = (Done query', s')).
  { do 2 eexists. evaluated. }
  destruct E as (query' & s' & E). exists query', s'.
  destruct (set_operation_pass_settles_for_good sample_union_query query' sample_union
              sample_state s' E) as (_ & _ & _ & I).
  split; [exact E|]. apply I.
  intros i rte sub Hin F D S. simpl in Hin.
  destruct Hin as [<-|[<-|[]]]; vm_compute in F; injection F as <-;
    vm_compute in S; injection S as <-; reflexivity.
Defined.

Lemma non_colocated_join_walker_witness :
  exists query' s',
    NoDup (join_leaves (T_JoinExpr JOIN_INNER (T_RangeTblRef 1) (T_RangeTblRef 2) None)) /\
    @RecursivelyPlanNonColocatedJoinWalker sample_collaborators_apart
      (T_JoinExpr JOIN_INNER (T_RangeTblRef 1) (T_RangeTblRef 2) None) tt
      sample_join_of_subqueries sample_state_apart
    = (Done query', s') /\
    rt_fetch 1 (rtable query') = rt_fetch 1 (rtable sample_join_of_subqueries) /\
    @subplan_count sample_collaborators_apart s' = 1%nat.
Proof.
  assert (N : NoDup (join_leaves (T_JoinExpr JOIN_INNER (T_RangeTblRef 1)
                                             (T_RangeTblRef 2) None))).
  { simpl. repeat constructor; simpl; intuition discriminate. }
  assert (E : exists query' s',
             @RecursivelyPlanNonColocatedJoinWalker sample_collaborators_apart
               (T_JoinExpr JOIN_INNER (T_RangeTblRef 1) (T_RangeTblRef 2) None) tt
               sample_join_of_subqueries sample_state_apart
             = (Done query', s')).
  { do 2 eexists. evaluated. }
  destruct E as (query' & s' & E). exists query', s'.
  destruct (@non_colocated_join_walker_plans_the_non_colocated_subqueries
              sample_collaborators_apart _ tt _ query' _ s' N E) as (_ & _ & H & C).
  split; [exact N|]. split; [exact E|]. split; [|exact C].
  destruct (H 1 (or_introl eq_refl)) as (rte & rte' & F & F' & R).
  vm_compute in F. injection F as <-. vm_compute in R. rewrite F', R. reflexivity.
Defined.

Lemma outer_join_pass_witness :
  exists query' s',
    relation_target_lists_are_plain /\
    NoDup (join_leaves (T_JoinExpr JOIN_LEFT (T_RangeTblRef 1) (T_RangeTblRef 2) None)) /\
    RecursivelyPlanRecurringTupleOuterJoinWalker
      (T_JoinExpr JOIN_LEFT (T_RangeTblRef 1) (T_RangeTblRef 2) None)
      sample_left_join_query sample_state
    = (Done (true, query'), s') /\
    outer_joins_settled sample_left_join_query
      (T_JoinExpr JOIN_LEFT (T_RangeTblRef 1) (T_RangeTblRef 2) None) = false /\
    outer_joins_settled query'
      (T_JoinExpr JOIN_LEFT (T_RangeTblRef 1) (T_RangeTblRef 2) None) = true.
Proof.
  assert (Plain : relation_target_lists_are_plain).
  { intros relationId attrs te [<-|[]]. reflexivity. }
  assert (N : NoDup (join_leaves (T_JoinExpr JOIN_LEFT (T_RangeTblRef 1)
                                             (T_RangeTblRef 2) None))).
  { simpl. repeat constructor; simpl; intuition discriminate. }
  assert (E : exists query' s',
             RecursivelyPlanRecurringTupleOuterJoinWalker
               (T_JoinExpr JOIN_LEFT (T_RangeTblRef 1) (T_RangeTblRef 2) None)
               sample_left_join_query sample_state
             = (Done (true, query'), s')).
  { do 2 eexists. evaluated. }
  destruct E as (query' & s' & E). exists query', s'.
  assert (C : distributed_leaves_closed sample_left_join_query
                (join_leaves (T_JoinExpr JOIN_LEFT (T_RangeTblRef 1)
                                         (T_RangeTblRef 2) None))).
  { intros i rte sub Hin F K. simpl in Hin.
    destruct Hin as [<-|[<-|[]]]; vm_compute in F; injection F as <-; discriminate K. }
  destruct (outer_join_pass_leaves_no_recurring_outer_side_unsettled
              _ _ _ _ _ _ Plain N C E) as (S & _).
  split; [exact Plain|]. split; [exact N|]. split; [exact E|].
  split; [reflexivity | exact S].
Defined.

Lemma wrapped_function_selects_every_column_witness :
  exists rte' s' sub,
    TransformFunctionRTE sample_function_rte sample_state = (Done rte', s') /\
    subquery rte' = Some sub /\
    nth_error (targetList sub) 0
    = Some (mkTargetEntry (T_Var 1 1 23 (-1) 0 0) 1 (Some "x") false).
Proof.
  assert (E : exists rte' s',
             TransformFunctionRTE sample_function_rte sample_state = (Done rte', s')).
  { do 2 eexists. evaluated. }
  destruct E as (rte' & s' & E).
  destruct (wrapped_function_selects_every_column _ _ _ _ E)
    as (f & rest & sub & copy & Hf & _ & Hsub & _ & _ & _ & _ & H).
  exists rte', s', sub. split; [exact E|]. split; [exact Hsub|].
  injection Hf as <- _.
  destruct (H _ eq_refl) as (_ & Hk).
  destruct (Hk 0%nat (Some "x") ltac:(simpl; lia) eq_refl) as (ty & Hty & _ & Hfe).
  rewrite Hty. rewrite (Hfe _ _ _ _ eq_refl eq_refl). reflexivity.
Defined.

Lemma function_wrapping_is_done_once_witness :
  exists query' s',
    WrapFunctionsInSubqueries sample_function_join sample_state = (Done query', s') /\
    query' <> sample_function_join /\
    WrapFunctionsInSubqueries query' s' = (Done query', s').
Proof.
  assert (E : exists query' s',
             WrapFunctionsInSubqueries sample_function_join sample_state
             = (Done query', s')).
  { do 2 eexists. evaluated. }
  destruct E as (query' & s' & E).
  destruct (function_wrapping_is_done_once _ _ _ _ E) as (_ & Again & _).
  exists query', s'. split; [exact E|]. split; [|apply Again].
  intro Same. rewrite Same in E. vm_compute in E. discriminate E.
Defined.

Lemma recursive_planning_keeps_the_frame_witness :
  exists query' s',
    RecursivelyPlanSubqueriesAndCTEs 5 sample_cte_query sample_state
    = (Done (None, query'), s') /\
    query' <> sample_cte_query /\
    List.length (rtable query') = List.length (rtable sample_cte_query) /\
    map te_head (targetList query') = map te_head (targetList sample_cte_query).
Proof.
  assert (E : exists query' s',
             RecursivelyPlanSubqueriesAndCTEs 5 sample_cte_query sample_state
             = (Done (None, query'), s')).
  { do 2 eexists. evaluated. }
  destruct E as (query' & s' & E).
  destruct (recursive_planning_keeps_the_frame_of_the_query _ _ _ _ _ _ E)
    as (_ & _ & L & T & _).
  exists query', s'. split; [exact E|]. split; [|split; assumption].
  intro Same. rewrite Same in E. vm_compute in E. discriminate E.
Defined.

Lemma descent_comes_to_an_end_witness :
  nesting_Query sample_function_join = 2%nat /\
  fst (RecursivelyPlanSubqueriesAndCTEs 2 sample_function_join sample_state)
  <> OutOfFuel /\
  fst (RecursivelyPlanSubqueriesAndCTEs 1 sample_function_join sample_state)
  = OutOfFuel.
Proof.
  assert (N : (nesting_Query sample_function_join <= 2)%nat) by (vm_compute; lia).
  split; [reflexivity|]. split.
  - exact (proj1 (descent_comes_to_an_end 2 sample_function_join N) sample_state).
  - evaluated.
Defined.

Lemma local_distributed_join_witness :
  ContainsLocalTableDistributedTableJoin IsDistributedTableRTE
    [sample_rte RTE_RELATION 10 None; sample_rte RTE_RELATION 200 None] = true /\
  ContainsLocalTableDistributedTableJoin IsDistributedTableRTE
    [sample_rte RTE_RELATION 200 None; sample_rte RTE_RELATION 10 None;
     sample_rte RTE_RELATION 200 None] = true.
Proof.
  assert (E : ContainsLocalTableDistributedTableJoin IsDistributedTableRTE
                [sample_rte RTE_RELATION 10 None; sample_rte RTE_RELATION 200 None]
              = true) by reflexivity.
  split; [exact E|]. rewrite <- E.
  apply (proj2 (proj2 (local_distributed_join_needs_both_sides IsDistributedTableRTE))).
  intro rte. simpl. tauto.
Defined.

Lemma sublinks_over_a_recurring_from_clause_witness :
  exists query' s',
    PlanSublinksStep sample_sublink_over_local sample_state = (Done query', s') /\
    FindNodeMatchingCheckFunctionInRangeTableList (rtable sample_sublink_over_local)
                                                  IsDistributedTableRTE = false /\
    subplan_count s' = 1%nat /\
    existsb (fun q => FindNodeMatchingCheckFunctionInRangeTableList (rtable q)
                                                                    IsCitusTableRTE)
            (reached_in_quals (quals_of (jointree sample_sublink_over_local))) = true /\
    existsb (fun q => FindNodeMatchingCheckFunctionInRangeTableList (rtable q)
                                                                    IsCitusTableRTE)
            (reached_in_quals (quals_of (jointree query'))) = false.
Proof.
  assert (E : exists query' s',
             PlanSublinksStep sample_sublink_over_local sample_state
             = (Done query', s')).
  { do 2 eexists. evaluated. }
  destruct E as (query' & s' & E). exists query', s'.
  assert (F : FindNodeMatchingCheckFunctionInRangeTableList
                (rtable sample_sublink_over_local) IsDistributedTableRTE = false)
    by reflexivity.
  destruct (sublinks_over_a_recurring_from_clause_are_planned _ _ _ _ E) as [_ H].
  destruct (H F) as (_ & _ & _ & C & _).
  split; [exact E|]. split; [exact F|]. split; [exact C|]. split; [reflexivity|].
  vm_compute in E. injection E as <- _. reflexivity.
Defined.

Lemma relation_becomes_outer_subquery_witness :
  exists rte' s' outer,
    ReplaceRTERelationWithRteSubquery (sample_rte RTE_RELATION 200 None) [1] sample_state
    = (Done rte', s') /\
    subquery rte' = Some outer /\
    targetList outer = [mkTargetEntry (T_Var 1 1 23 (-1) 0 0) 1 (Some "a") false] /\
    List.length (rtable outer) = 1%nat /\
    subplan_count s' = 1%nat.
Proof.
  assert (E : exists rte' s',
             ReplaceRTERelationWithRteSubquery (sample_rte RTE_RELATION 200 None) [1]
                                               sample_state
             = (Done rte', s')).
  { do 2 eexists. evaluated. }
  destruct E as (rte' & s' & E).
  destruct (relation_becomes_outer_subquery_over_planned_inner_subquery _ _ _ _ _ E)
    as (outer & innerEntry & inner & planned & p & Hrte & _ & _ & T & _ & R & _ & _ & _
        & _ & _ & _ & _ & L).
  exists rte', s', outer. rewrite Hrte at 2. split; [exact E|]. split; [reflexivity|]. split; [exact T|].
  split; [rewrite R; reflexivity|]. unfold subplan_count. rewrite L. reflexivity.
Defined.

Lemma non_colocated_sublinks_of_where_witness :
  exists query' s',
    @RecursivelyPlanNonColocatedSubqueriesInWhere sample_collaborators_apart
      sample_sublink_over_distributed tt sample_state_apart
    = (Done query', s') /\
    query' <> sample_sublink_over_distributed /\
    @subplan_count sample_collaborators_apart s' = 1%nat.
Proof.
  assert (E : exists query' s',
             @RecursivelyPlanNonColocatedSubqueriesInWhere sample_collaborators_apart
               sample_sublink_over_distributed tt sample_state_apart
             = (Done query', s')).
  { do 2 eexists. evaluated. }
  destruct E as (query' & s' & E). exists query', s'.
  destruct (@non_colocated_sublinks_of_where_are_planned
              sample_collaborators_apart _ query' tt _ s' E) as (_ & _ & _ & C).
  split; [exact E|]. split; [|exact C].
  intro Same. rewrite Same in E. vm_compute in E. discriminate E.
Defined.

Lemma every_reference_to_a_planned_cte_witness :
  exists query' s' references',
    RecursivelyPlanCTEs sample_cte_query sample_state = (Done (None, query'), s') /\
    query' = set_cteList (store_cte_references sample_cte_query references') [] /\
    List.length references' = 2%nat /\
    Forall (fun rte => rtekind (rte_data rte) = RTE_SUBQUERY) references'.
Proof.
  assert (E : exists query' s',
             RecursivelyPlanCTEs sample_cte_query sample_state
             = (Done (None, query'), s')).
  { do 2 eexists. evaluated. }
  destruct E as (query' & s' & E).
  assert (N : cteList sample_cte_query <> []) by discriminate.
  destruct (every_reference_to_a_planned_cte_reads_a_result _ _ _ _ N E)
    as (references' & Hq & F & _).
  exists query', s', references'. split; [exact E|]. split; [exact Hq|].
  change (CteReferenceListWalker sample_cte_query)
    with [sample_cte_rte "c"; sample_cte_rte "c"] in F.
  inversion F as [|r1 c1 t1 u1 H1 F1]; subst. inversion F1 as [|r2 c2 t2 u2 H2 F2]; subst.
  inversion F2; subst. split; [reflexivity|].
  vm_compute in H1, H2. destruct H1 as (sub1 & -> & _). destruct H2 as (sub2 & -> & _).
  repeat constructor.
Defined.

Lemma deferred_errors_witness :
  exists error query' s',
    RecursivelyPlanSubqueriesAndCTEs 3 sample_having_correlated_query sample_state
    = (Done (Some error, query'), s') /\
    err_message error = "Subqueries in HAVING cannot refer to outer query".
Proof.
  assert (E : exists error query' s',
             RecursivelyPlanSubqueriesAndCTEs 3 sample_having_correlated_query
                                              sample_state
             = (Done (Some error, query'), s')).
  { do 3 eexists. evaluated. }
  destruct E as (error & query' & s' & E). exists error, query', s'.
  split; [exact E|].
  destruct (proj1 deferred_errors_are_returned_for_the_query_and_raised_for_nested_ones
              _ _ _ _ _ _ E) as [[C _] | [-> _]]; [|reflexivity].
  vm_compute in C. discriminate C.
Defined.

Lemma having_sublinks_have_no_citus_table_left_witness :
  exists having s' qual',
    RecursivelyPlanHavingQual (Some sample_having_distributed) sample_state
    = (Done (None, having), s') /\
    having = Some qual' /\
    existsb (fun q => FindNodeMatchingCheckFunctionInRangeTableList (rtable q)
                                                                    IsCitusTableRTE)
            (ExtractSublinkWalker sample_having_distributed) = true /\
    List.length (ExtractSublinkWalker qual') = 1%nat.
Proof.
  assert (E : exists having s',
             RecursivelyPlanHavingQual (Some sample_having_distributed) sample_state
             = (Done (None, having), s')).
  { do 2 eexists. evaluated. }
  destruct E as (having & s' & E).
  destruct (having_sublinks_have_no_citus_table_left _ _ _ _ E)
    as (qual' & Hh & F & _ & _).
  exists having, s', qual'. split; [exact E|]. split; [exact Hh|].
  split; [reflexivity|]. apply Forall2_length in F. rewrite <- F. reflexivity.
Defined.

